(** * convhull_3d: quickhull in 3 and N dimensions, and the Delaunay reduction

    A shallow embedding of [convhull_3d.h].  The C code computes with
    [CH_FLOAT] numbers; the embedding is written once over an abstract
    scalar interface and then read at the real numbers (exact
    arithmetic) and at binary64 floating point numbers (for running
    the code). *)

From Stdlib Require Import String Ascii.
From Stdlib Require Import List ZArith Lia Bool Arith.
From Stdlib Require Import Reals Lra Psatz.
From Stdlib Require Import Permutation Sorted.
From Stdlib Require PrimFloat Uint63 FloatAxioms SpecFloat FloatOps.
From Stdlib Require DecimalString.
Import ListNotations.

Set Implicit Arguments.

(** ** Scalars: the operations the code applies to [CH_FLOAT] values *)

Class Scalar (F : Type) : Type := {
  fadd : F -> F -> F;
  fsub : F -> F -> F;
  fmul : F -> F -> F;
  fdiv : F -> F -> F;
  fopp : F -> F;
  fsqrt : F -> F;
  ffabs : F -> F;
  fltb : F -> F -> bool;
  fleb : F -> F -> bool;
  feqb : F -> F -> bool;
  of_Z : Z -> F;
  (* the decimal literal [m]e[e] *)
  lit : Z -> Z -> F
}.

Declare Scope F_scope.
Delimit Scope F_scope with Fs.
Infix "+" := fadd : F_scope.
Infix "-" := fsub : F_scope.
Infix "*" := fmul : F_scope.
Infix "/" := fdiv : F_scope.
Notation "- x" := (fopp x) : F_scope.

Section Primitives.
Context {F : Type} {SF : Scalar F}.
Local Open Scope F_scope.

Definition f0 : F := of_Z 0.
Definition f1 : F := of_Z 1.
Definition f2 : F := of_Z 2.

(* a > b, as the C comparison *)
Definition fgtb (a b : F) : bool := fltb b a.

(* MIN and MAX macros *)
Definition MIN (a b : F) : F := if fltb a b then a else b.
Definition MAX (a b : F) : F := if fgtb a b then a else b.

(* pow(x, 2.0): the square.  Over the reals it is exact; in binary64 it is
   the rounded product x * x, which a compiler that expands pow(x, 2.0)
   computes and from which the pow of a C library may differ in the last
   place *)
Definition pow2 (x : F) : F := x * x.

(* read of a scratch buffer the callers always fill completely *)
Definition rd (m : list F) (k : nat) : F := nth k m f0.

(** *** det_4x4 *)
Definition det_4x4 (m : list F) : F :=
  let m := rd m in
  m 3 * m 6 * m 9 * m 12 - m 2 * m 7 * m 9 * m 12 - m 3 * m 5 * m 10 * m 12 +
  m 1 * m 7 * m 10 * m 12 + m 2 * m 5 * m 11 * m 12 - m 1 * m 6 * m 11 * m 12 -
  m 3 * m 6 * m 8 * m 13 + m 2 * m 7 * m 8 * m 13 + m 3 * m 4 * m 10 * m 13 -
  m 0 * m 7 * m 10 * m 13 - m 2 * m 4 * m 11 * m 13 + m 0 * m 6 * m 11 * m 13 +
  m 3 * m 5 * m 8 * m 14 - m 1 * m 7 * m 8 * m 14 - m 3 * m 4 * m 9 * m 14 +
  m 0 * m 7 * m 9 * m 14 + m 1 * m 4 * m 11 * m 14 - m 0 * m 5 * m 11 * m 14 -
  m 2 * m 5 * m 8 * m 15 + m 1 * m 6 * m 8 * m 15 + m 2 * m 4 * m 9 * m 15 -
  m 0 * m 6 * m 9 * m 15 - m 1 * m 4 * m 10 * m 15 + m 0 * m 5 * m 10 * m 15.

(** *** createSubMatrix: rows 1..N-1 of [m] without column [i] *)
Definition createSubMatrix (m : list F) (N i : nat) : list F :=
  map (rd m)
      (filter (fun j => negb (Nat.eqb (j mod N) i)) (seq N (N * N - N))).

(** *** det_NxN: cofactor expansion along the first row.
    The loop state is [(sum, sign)]; [sign] is the C [int] that is
    converted at each use. *)
Fixpoint det_NxN (m : list F) (d : nat) : F :=
  match d with
  | O => f1
  | S d' =>
      fst (fold_left
             (fun (st : F * Z) (i : nat) =>
                let '(sum, sign) := st in
                (sum + of_Z sign * rd m i * det_NxN (createSubMatrix m d i) d',
                 (sign * -1)%Z))
             (seq 0 d) (f0, 1%Z))
  end.

(** *** plane_3d *)

(* pdiff[i][j] = p[(i+1)*Nd+j] - p[i*Nd+j], as a list of rows *)
Definition pdiff_rows (Nd : nat) (p : list F) : list (list F) :=
  map (fun i => map (fun j => rd p ((i + 1) * Nd + j) - rd p (i * Nd + j))
                    (seq 0 Nd))
      (seq 0 (Nd - 1)).

(* the columns k of a row with r[k] != i, where r[k] = k *)
Definition drop_col (i : nat) (row : list F) : list F :=
  map snd (filter (fun kx => negb (Nat.eqb (fst kx) i))
                  (combine (seq 0 (length row)) row)).

(* pdiff_s for the deleted column [i], row-major *)
Definition pdiff_s (i : nat) (pdiff : list (list F)) : list F :=
  concat (map (drop_col i) pdiff).

(* c[i] = sign * det; sign *= -1.0, for i = 0 .. Nd-1 *)
Definition cofactors (Nd : nat) (minor : list F -> F) (pdiff : list (list F))
  : list F :=
  fst (fold_left
         (fun (st : list F * F) (i : nat) =>
            let '(c, sign) := st in
            (c ++ [sign * minor (pdiff_s i pdiff)], sign * (- f1)))
         (seq 0 Nd) ([], f1)).

(* norm_c: the sum of pow(c[i], 2.0) from 0.0, then the square root *)
Definition norm_of (c : list F) : F :=
  fsqrt (fold_left (fun acc x => acc + pow2 x) c f0).

(* c[i] /= norm_c *)
Definition normalize (c : list F) : list F :=
  let n := norm_of c in map (fun x => x / n) c.

(* ( *d ) += -p[i] * c[i], from 0.0, over the first point of [p] *)
Definition plane_offset (p c : list F) : F :=
  fold_left (fun acc ix => acc + (- rd p (fst ix)) * snd ix)
            (combine (seq 0 (length c)) c) f0.

Definition det_2x2 (s : list F) : F :=
  rd s 0 * rd s 3 - rd s 2 * rd s 1.

Definition plane_3d (p : list F) : list F * F :=
  let c := normalize (cofactors 3 det_2x2 (pdiff_rows 3 p)) in
  (c, plane_offset p c).

(** *** plane_nd *)
Definition plane_nd (Nd : nat) (p : list F) : list F * F :=
  if Nat.eqb Nd 3 then plane_3d p
  else
    let minor :=
      if Nat.eqb Nd 3 then
        fun s => rd s (0 * (Nd - 1) + 0) * rd s (1 * (Nd - 1) + 1) -
                 rd s (1 * (Nd - 1) + 0) * rd s (0 * (Nd - 1) + 1)
      else if Nat.eqb Nd 5 then det_4x4
      else fun s => det_NxN s (Nd - 1) in
    let c := normalize (cofactors Nd minor (pdiff_rows Nd p)) in
    (c, plane_offset p c).

(* the sum of a[k] * b[k] from 0.0, as the visibility loops accumulate it *)
Definition dot (a b : list F) : F :=
  fold_left (fun acc ab => acc + fst ab * snd ab) (combine a b) f0.

End Primitives.

(** ** Outcomes of a call *)

Inductive outcome (A : Type) : Type :=
| Ret (a : A)              (* the call returns *)
| Throw (msg : string)     (* a std::runtime_error leaves the call *)
| Abort                    (* an assert fails *)
| Undef.                   (* a read outside an allocated array *)
Arguments Ret {A} a.
Arguments Throw {A} msg.
Arguments Abort {A}.
Arguments Undef {A}.

Definition bind {A B : Type} (m : outcome A) (k : A -> outcome B) : outcome B :=
  match m with
  | Ret a => k a
  | Throw s => Throw s
  | Abort => Abort
  | Undef => Undef
  end.

Notation "x <- m ;; k" := (bind m (fun x => k))
  (at level 61, m at next level, right associativity).
Notation "' p <- m ;; k" := (bind m (fun x => let p := x in k))
  (at level 61, p pattern, m at next level, right associativity).

Fixpoint mapM {A B : Type} (f : A -> outcome B) (l : list A) : outcome (list B) :=
  match l with
  | [] => Ret []
  | a :: l' => b <- f a ;; bs <- mapM f l' ;; Ret (b :: bs)
  end.

(* a read a[k] of an array of known extent *)
Definition load {A : Type} (a : list A) (k : nat) : outcome A :=
  match nth_error a k with
  | Some x => Ret x
  | None => Undef
  end.

(** ** Ordering utilities *)

Fixpoint insert_by {A : Type} (lt : A -> A -> bool) (x : A) (l : list A) : list A :=
  match l with
  | [] => [x]
  | y :: l' => if lt y x then y :: insert_by lt x l' else x :: l
  end.

(* sort_int on the values alone (out_vec = NULL, new_idices = NULL): the
   result of qsort with a total comparator is then the sorted vector *)
Definition sort_int (in_vec : list nat) (descendFLAG : bool) : list nat :=
  fold_right (insert_by (if descendFLAG then fun a b => Nat.ltb b a else Nat.ltb))
             [] in_vec.

(* ismember: pOut[i] = 1 when pLeft[i] occurs in pRight, else 0 *)
Definition ismember (pLeft pRight : list nat) : list nat :=
  map (fun x => if existsb (Nat.eqb x) pRight then 1 else 0) pLeft.

(** ** What the C library and the build configuration provide *)

Record libc (F : Type) : Type := {
  RAND_MAX : Z;
  (* qsort over float_w_idx with cmp_desc_float *)
  qsort_desc_float : list (F * nat) -> list (F * nat);
  (* whether NDEBUG is defined *)
  NDEBUG : bool
}.

Definition CH_MAX_NUM_FACES : nat := 50000.
Definition CONVHULL_ND_MAX_DIMENSIONS : nat := 5.

(** ** The hull engine *)

Record hull (F : Type) : Type := {
  faces : list (list nat);   (* nFaces x d *)
  cf : list (list F);        (* nFaces x d *)
  df : list F                (* nFaces *)
}.
Arguments Build_hull {F} faces cf df.

Definition nFaces {F : Type} (h : hull F) : nat := length (faces h).

Section Engine.
Context {F : Type} {SF : Scalar F}.
Variable env : libc F.
Local Open Scope F_scope.

Definition CH_NOISE_VAL : F := lit 1 (-7).

(* sort_float(reldist, desReldist, ind, len, 1): the pair of outputs *)
Definition sort_float_desc (in_vec : list F) : list F * list nat :=
  let data := qsort_desc_float env (combine in_vec (seq 0 (length in_vec))) in
  (map fst data, map snd data).

(* in + CH_NOISE_VAL * rand() / (CH_FLOAT)RAND_MAX *)
Definition perturb (x : F) (r : Z) : F :=
  x + CH_NOISE_VAL * of_Z r / of_Z (RAND_MAX env).

(* the working points: row i holds the d perturbed coordinates of vertex i
   and a trailing 1; [coord i j] reads the input and [rand k] is the k-th
   draw of rand() in this call *)
Definition add_noise (d nVert : nat) (coord : nat -> nat -> outcome F)
    (rand : nat -> Z) : outcome (list (list F)) :=
  mapM (fun i =>
          row <- mapM (fun j => x <- coord i j ;;
                               Ret (perturb x (rand (i * d + j)%nat)))
                      (seq 0 d) ;;
          Ret (row ++ [f1]))
       (seq 0 nVert).

(* max_p - min_p over column j, from the sentinels -2.23e+13 and 2.23e+13 *)
Definition span_of (points : list (list F)) (j : nat) : F :=
  let '(max_p, min_p) :=
    fold_left (fun (mm : F * F) (row : list F) =>
                 (MAX (fst mm) (rd row j), MIN (snd mm) (rd row j)))
              points (- lit 223 11, lit 223 11) in
  max_p - min_p.

(* the literal 0.0000001f of the span test, converted to CH_FLOAT: the
   binary32 number nearest to 1e-7, which is 14073749 * 2^-47 *)
Definition min_span : F := of_Z 14073749 / of_Z (2 ^ 47).

Fixpoint find_span (msg : string) (points : list (list F)) (js : list nat)
  : outcome (list F) :=
  match js with
  | [] => Ret []
  | j :: js' =>
      let s := span_of points j in
      if fltb s min_span then Throw msg
      else ss <- find_span msg points js' ;; Ret (s :: ss)
  end.

Section Core.
Variable d : nat.
(* the plane through d points, and the (d+1) x (d+1) determinant *)
Variable plane : list F -> list F * F.
Variable det : list F -> F.
Variable points : list (list F).

(* p_s: the d coordinates of each vertex of a face, row-major *)
Definition face_coords (face : list nat) : outcome (list F) :=
  rows <- mapM (fun v => row <- load points v ;; Ret (firstn d row)) face ;;
  Ret (concat rows).

(* A: the rows of the face's vertices and then the row of point q *)
Definition orient_matrix (face : list nat) (q : nat) : outcome (list F) :=
  rows <- mapM (load points) face ;;
  rq <- load points q ;;
  Ret (concat rows ++ rq).

(* reverse the order of the last two vertices *)
Definition swap_last2 (face : list nat) : list nat :=
  match rev face with
  | a :: b :: r => rev r ++ [a; b]
  | _ => face
  end.

Definition negate (c : list F) : list F := map fopp c.

(* the initial simplex: face i holds the vertices 0..d other than i *)
Definition simplex_face (i : nat) : list nat :=
  filter (fun a => negb (Nat.eqb a i)) (seq 0 (d + 1)).

Definition simplex_planes : outcome (list (list nat * (list F * F))) :=
  mapM (fun i =>
          let face := simplex_face i in
          p_s <- face_coords face ;;
          Ret (face, plane p_s))
       (seq 0 (d + 1)).

Definition orient_simplex_face (k : nat) (fc : list nat * (list F * F))
  : outcome (list nat * (list F * F)) :=
  let '(face, (cfk, dfk)) := fc in
  A <- orient_matrix face k ;;
  let v := det A in
  if fltb v f0 then
    let face' := swap_last2 face in
    _ <- orient_matrix face' k ;;
    Ret (face', (negate cfk, - dfk))
  else Ret fc.

Definition hull_of (l : list (list nat * (list F * F))) : hull F :=
  Build_hull (map fst l) (map (fun x => fst (snd x)) l)
             (map (fun x => snd (snd x)) l).

Definition initial_hull : outcome (hull F) :=
  l <- simplex_planes ;;
  l' <- mapM (fun kf => orient_simplex_face (fst kf) (snd kf))
             (combine (seq 0 (d + 1)) l) ;;
  Ret (hull_of l').

(* the candidate queue: the points d+1 .. nVert-1 by decreasing relative
   distance from their mean *)
Definition candidate_queue (span : list F) : list nat :=
  let nVert := length points in
  let rest := skipn (d + 1) points in
  let meanp :=
    map (fun j => fold_left (fun acc row => acc + rd row j) rest f0
                  / of_Z (Z.of_nat nVert - Z.of_nat d - 1)%Z)
        (seq 0 d) in
  let absdist :=
    map (fun row => map (fun j => (rd row j - rd meanp j) / rd span j) (seq 0 d))
        rest in
  let reldist :=
    map (fun a => fold_left (fun acc x => acc + pow2 x) a f0) absdist in
  let ind := snd (sort_float_desc reldist) in
  map (fun x => (x + d + 1)%nat) ind.

(* visible_ind[j] = 1 when points_cf[j] + df[j] > 0.0 *)
Definition visible_flags (h : hull F) (points_s : list F) : list nat :=
  map (fun cd => if fgtb (dot points_s (fst cd) + snd cd) f0 then 1 else 0)
      (combine (cf h) (df h)).

(* the rows j with flag[j] = 0, and those with flag[j] = 1 *)
Definition keep_rows {X : Type} (flags : list nat) (rows : list X) : list X :=
  map snd (filter (fun fx => Nat.eqb (fst fx) 0) (combine flags rows)).
Definition drop_rows {X : Type} (flags : list nat) (rows : list X) : list X :=
  map snd (filter (fun fx => Nat.eqb (fst fx) 1) (combine flags rows)).

(* the part of the horizon a visible face contributes: for every nonvisible
   face sharing d-1 vertices with it, those vertices in the nonvisible
   face's order *)
Definition horizon_of (nonvisible_faces : list (list nat)) (vis_face : list nat)
  : list (list nat) :=
  let face_s := sort_int vis_face false in
  let f0s := map (fun g => ismember g face_s) nonvisible_faces in
  let u := filter (fun gf => Nat.eqb (list_sum (snd gf)) (d - 1))
                  (combine nonvisible_faces f0s) in
  map (fun gf => map fst (filter (fun xf => negb (Nat.eqb (snd xf) 0))
                                 (combine (fst gf) (snd gf))))
      u.

(* add the faces connecting the horizon to point i; None is ERROR = 1 *)
Fixpoint add_faces (i : nat) (horizon : list (list nat)) (h : hull F)
  : outcome (option (hull F)) :=
  match horizon with
  | [] => Ret (Some h)
  | ridge :: horizon' =>
      let face := firstn (d - 1) ridge ++ [i] in
      p_s <- face_coords face ;;
      let '(cfi, dfi) := plane p_s in
      let h' := Build_hull (faces h ++ [face]) (cf h ++ [cfi]) (df h ++ [dfi]) in
      if Nat.ltb CH_MAX_NUM_FACES (nFaces h') then Ret None
      else add_faces i horizon' h'
  end.

(* while (detA == 0.0): try pp[index], pp[index+1], ...; the result is detA
   and the part of pp from the incremented index on *)
Fixpoint find_reference (face : list nat) (pp : list nat)
  : outcome (F * list nat) :=
  match pp with
  | [] => Undef
  | q :: pp' =>
      A <- orient_matrix face q ;;
      let detA := det A in
      if feqb detA f0 then find_reference face pp' else Ret (detA, pp')
  end.

Definition orient_new_face (nF : nat) (fc : list nat * (list F * F))
  : outcome (list nat * (list F * F)) :=
  let '(face, (cfk, dfk)) := fc in
  let face_s := sort_int face false in
  let hVec := seq 0 nF in
  let hVec_mem_face := ismember hVec face_s in
  let pp := keep_rows hVec_mem_face hVec in
  '(detA, pp_next) <- find_reference face pp ;;
  if fltb detA f0 then
    let face' := swap_last2 face in
    q <- load pp_next 0 ;;
    A <- orient_matrix face' q ;;
    if NDEBUG env then Ret (face', (negate cfk, - dfk))
    else if fleb (det A) f0 then Throw "face cannot be properly orientated"
    else Ret (face', (negate cfk, - dfk))
  else Ret fc.

(* one iteration of the main loop for the popped point i; None is ERROR = 1 *)
Definition insert_point (i : nat) (h : hull F) : outcome (option (hull F)) :=
  row <- load points i ;;
  let points_s := firstn d row in
  let visible_ind := visible_flags h points_s in
  let num_visible_ind := list_sum visible_ind in
  if Nat.eqb num_visible_ind 0 then Ret (Some h)
  else
    let visible := drop_rows visible_ind (faces h) in
    let nonvisible_faces := keep_rows visible_ind (faces h) in
    let horizon := concat (map (horizon_of nonvisible_faces) visible) in
    let kept := Build_hull (keep_rows visible_ind (faces h))
                           (keep_rows visible_ind (cf h))
                           (keep_rows visible_ind (df h)) in
    let start := nFaces kept in
    r <- add_faces i horizon kept ;;
    match r with
    | None => Ret None
    | Some h1 =>
        let rows := combine (faces h1) (combine (cf h1) (df h1)) in
        new <- mapM (orient_new_face (nFaces h1)) (skipn start rows) ;;
        Ret (Some (hull_of (firstn start rows ++ new)))
    end.

Fixpoint main_loop (pleft : list nat) (h : hull F) : outcome (option (hull F)) :=
  match pleft with
  | [] => Ret (Some h)
  | i :: pleft' =>
      r <- insert_point i h ;;
      match r with
      | None => Ret None
      | Some h' => main_loop pleft' h'
      end
  end.

Definition build_core (span : list F) : outcome (option (hull F)) :=
  h <- initial_hull ;;
  main_loop (candidate_queue span) h.

End Core.

(** *** convhull_3d_build *)

(* ch_vertex: std::array<double, 3> *)
Definition ch_vertex : Type := F * F * F.
Definition vget (v : ch_vertex) (j : nat) : F :=
  match j with
  | 0 => fst (fst v)
  | 1 => snd (fst v)
  | _ => snd v
  end.

(* the outputs ( *out_faces, *nOut_faces ); None is NULL *)
Definition convhull_3d_build (in_vertices : option (list ch_vertex))
    (rand : nat -> Z) : outcome (option (list nat) * nat) :=
  match in_vertices with
  | None => Ret (None, 0)
  | Some vs =>
      let nVert := length vs in
      if Nat.ltb nVert 3 then Ret (None, 0)
      else
        let d := 3 in
        points <- add_noise d nVert
                    (fun i j => v <- load vs i ;; Ret (vget v j)) rand ;;
        span <- find_span "input does not span all 3 dimensions"
                          points (seq 0 d) ;;
        r <- build_core d plane_3d det_4x4 points span ;;
        match r with
        | None => Ret (None, 0)
        | Some h => Ret (Some (concat (faces h)), nFaces h)
        end
  end.

(** *** convhull_nd_build *)

Record hull_out : Type := {
  out_faces : option (list nat);   (* FLAT: nOut_faces x d *)
  out_cf : option (list F);        (* FLAT: nOut_faces x d *)
  out_df : option (list F);        (* nOut_faces x 1 *)
  nOut_faces : nat
}.

Definition no_hull : hull_out := Build_hull_out None None None 0.

(* the determinant that orients a face in d dimensions *)
Definition orient_det (d : nat) (A : list F) : F :=
  if Nat.eqb d 3 then det_4x4 A else det_NxN A (d + 1).

(* [want_cf], [want_df]: whether out_cf, out_df are not NULL; an output that
   is not wanted stays None *)
Definition convhull_nd_build (in_vertices : option (list F)) (nVert d : nat)
    (want_cf want_df : bool) (rand : nat -> Z) : outcome hull_out :=
  if Nat.ltb CONVHULL_ND_MAX_DIMENSIONS d && negb (NDEBUG env) then Abort
  else
  match in_vertices with
  | None => Ret no_hull
  | Some vs =>
      if Nat.leb nVert d then Ret no_hull
      else
        points <- add_noise d nVert (fun i j => load vs (i * d + j)) rand ;;
        span <- find_span "input vertices do not span all 'd' dimensions"
                          points (seq 0 d) ;;
        (* plane_nd's buffers hold CONVHULL_ND_MAX_DIMENSIONS dimensions *)
        if Nat.ltb CONVHULL_ND_MAX_DIMENSIONS d then Undef
        else
        r <- build_core d (plane_nd d) (orient_det d) points span ;;
        match r with
        | None => Ret no_hull
        | Some h =>
            Ret (Build_hull_out
                   (Some (concat (faces h)))
                   (if want_cf then Some (concat (cf h)) else None)
                   (if want_df then Some (df h) else None)
                   (nFaces h))
        end
  end.

(** *** delaunay_nd_mesh *)

(* row i of a FLAT n x w array *)
Definition row_of {X : Type} (a : list X) (w i : nat) : list X :=
  firstn w (skipn (i * w) a).

Definition flat_rows {X : Type} (a : option (list X)) (w n : nat)
  : list (list X) :=
  match a with
  | None => []
  | Some a => map (row_of a w) (seq 0 n)
  end.

(* the lifted points, and the first row with the largest last coordinate *)
Definition project (points : list F) (nPoints nd : nat) (rand : nat -> Z)
  : outcome (list (list F)) :=
  mapM (fun i =>
          row <- mapM (fun j => x <- load points (i * nd + j) ;;
                               Ret (perturb x (rand (i * nd + j)%nat)))
                      (seq 0 nd) ;;
          Ret (row ++ [fold_left (fun w x => w + x * x) row f0]))
       (seq 0 nPoints).

Definition find_maxW (projpoints : list (list F)) (nd : nat) : option nat :=
  snd (fold_left
         (fun (st : F * option nat) (ir : nat * list F) =>
            if fgtb (rd (snd ir) nd) (fst st)
            then (rd (snd ir) nd, Some (fst ir)) else st)
         (combine (seq 0 (length projpoints)) projpoints)
         (- lit 223 11, None)).

(* w_optimal2 for the lifted point (p0, w0) *)
Definition w_optimal (p0 : list F) (w0 : F) : F :=
  w0 - fold_left (fun acc x => acc + f2 * pow2 x) p0 f0.
Definition w_optimal2 (p0 : list F) (w0 : F) : F :=
  w_optimal p0 w0 - of_Z 1000 * ffabs (w_optimal p0 w0).

(* the point where the tangent plane crosses the w axis *)
Definition synthetic_point (nd : nat) (projpoints : list (list F))
    (maxW_idx : nat) : outcome (list F) :=
  row <- load projpoints maxW_idx ;;
  Ret (repeat f0 nd ++ [w_optimal2 (firstn nd row) (rd row nd)]).

(* visible[i] = sum_j cf[i][j] * p[j], then += df[i] *)
Definition visible_values (cfs : list (list F)) (dfs : list F) (p : list F)
  : list F :=
  map (fun cd => dot (fst cd) p + snd cd) (combine cfs dfs).

(* nVisible: the number of j with visible[j] > 0.0 *)
Definition count_visible (visible : list F) : nat :=
  fold_left (fun n v => if fgtb v f0 then S n else n) visible 0.

(* the rows of hullfaces with visible[i] > 0.0 copied in order, and the
   number j of rows written *)
Definition fill_mesh (visible : list F) (hullfaces : list (list nat))
  : list nat * nat :=
  fold_left (fun (mj : list nat * nat) (vf : F * list nat) =>
               if fgtb (fst vf) f0 then (fst mj ++ snd vf, S (snd mj)) else mj)
            (combine visible hullfaces) ([], 0).

(* [Mesh] is the value of *Mesh at the call; the result is the pair
   ( *Mesh, *nMesh ) at the return *)
Definition delaunay_nd_mesh (points : list F) (nPoints nd : nat)
    (rand : nat -> Z) (Mesh : option (list nat))
  : outcome (option (list nat) * nat) :=
  projpoints <- project points nPoints nd rand ;;
  out <- convhull_nd_build (Some (concat projpoints)) nPoints (nd + 1)
           true true (fun k => rand (nPoints * nd + k)%nat) ;;
  let nHullFaces := nOut_faces out in
  let hullfaces := flat_rows (out_faces out) (nd + 1) nHullFaces in
  let cfs := flat_rows (out_cf out) (nd + 1) nHullFaces in
  let dfs := match out_df out with Some a => firstn nHullFaces a | None => [] end in
  match find_maxW projpoints nd with
  | None => if NDEBUG env then Undef else Abort
  | Some maxW_idx =>
      p <- synthetic_point nd projpoints maxW_idx ;;
      let visible := visible_values cfs dfs p in
      let nVisible := count_visible visible in
      if Nat.ltb 0 nVisible then
        let '(mesh, j) := fill_mesh visible hullfaces in
        if negb (Nat.eqb j nVisible) && negb (NDEBUG env) then Abort
        else Ret (Some mesh, nVisible)
      else Ret (Mesh, nVisible)
  end.

End Engine.

(** ** The comparators and the two sort routines *)

(* qsort(base, n, size, cmp): the array after the call, as a function of
   the comparator and of the array before it *)
Definition qsort_fn : Type := forall A : Type, (A -> A -> Z) -> list A -> list A.

Section Sorting.
Context {F : Type} {SF : Scalar F}.
Local Open Scope F_scope.

(* float_w_idx: val and idx *)
Definition cmp_asc_float (a b : F * nat) : Z :=
  if fltb (fst a) (fst b) then (-1)%Z
  else if fgtb (fst a) (fst b) then 1%Z
  else 0%Z.

Definition cmp_desc_float (a b : F * nat) : Z :=
  if fgtb (fst a) (fst b) then (-1)%Z
  else if fltb (fst a) (fst b) then 1%Z
  else 0%Z.

(* the writes x[i] = v[i] for i < len into an array x of known extent *)
Definition store_prefix {X : Type} (x : list X) (v : list X) (len : nat)
  : outcome (list X) :=
  if Nat.ltb (length x) len then Undef
  else vs <- mapM (load v) (seq 0 len) ;; Ret (vs ++ skipn len x).

(* sort_float: the three arrays after the call; out_vec and new_idices are
   None for NULL *)
Definition sort_float (qsort : qsort_fn) (in_vec : list F)
    (out_vec : option (list F)) (new_idices : option (list nat)) (len : nat)
    (descendFLAG : Z)
  : outcome (list F * option (list F) * option (list nat)) :=
  vals <- mapM (load in_vec) (seq 0 len) ;;
  let data := combine vals (seq 0 len) in
  let data :=
    if Z.eqb descendFLAG 0 then qsort _ cmp_asc_float data
    else qsort _ cmp_desc_float data in
  '(in_vec', out_vec') <-
    match out_vec with
    | Some o => o' <- store_prefix o (map fst data) len ;; Ret (in_vec, Some o')
    | None => i' <- store_prefix in_vec (map fst data) len ;; Ret (i', None)
    end ;;
  idx' <-
    match new_idices with
    | Some x => x' <- store_prefix x (map snd data) len ;; Ret (Some x')
    | None => Ret None
    end ;;
  Ret (in_vec', out_vec', idx').

End Sorting.

(* int_w_idx: val and idx *)
Definition cmp_asc_int (a b : Z * nat) : Z :=
  if (fst a <? fst b)%Z then (-1)%Z
  else if (fst a >? fst b)%Z then 1%Z
  else 0%Z.

Definition cmp_desc_int (a b : Z * nat) : Z :=
  if (fst a >? fst b)%Z then (-1)%Z
  else if (fst a <? fst b)%Z then 1%Z
  else 0%Z.

(* sort_int with its two optional outputs *)
Definition sort_int_idx (qsort : qsort_fn) (in_vec : list Z)
    (out_vec : option (list Z)) (new_idices : option (list nat)) (len : nat)
    (descendFLAG : Z)
  : outcome (list Z * option (list Z) * option (list nat)) :=
  vals <- mapM (load in_vec) (seq 0 len) ;;
  let data := combine vals (seq 0 len) in
  let data :=
    if Z.eqb descendFLAG 0 then qsort _ cmp_asc_int data
    else qsort _ cmp_desc_int data in
  '(in_vec', out_vec') <-
    match out_vec with
    | Some o => o' <- store_prefix o (map fst data) len ;; Ret (in_vec, Some o')
    | None => i' <- store_prefix in_vec (map fst data) len ;; Ret (i', None)
    end ;;
  idx' <-
    match new_idices with
    | Some x => x' <- store_prefix x (map snd data) len ;; Ret (Some x')
    | None => Ret None
    end ;;
  Ret (in_vec', out_vec', idx').

(** ** cross *)

Section Cross.
Context {F : Type} {SF : Scalar F}.
Local Open Scope F_scope.

Definition cross (v1 v2 : @ch_vertex F) : @ch_vertex F :=
  (vget v1 1 * vget v2 2 - vget v1 2 * vget v2 1,
   vget v1 2 * vget v2 0 - vget v1 0 * vget v2 2,
   vget v1 0 * vget v2 1 - vget v1 1 * vget v2 0).

End Cross.

(** ** Text files *)

Definition text : Type := list ascii.
Definition txt (s : string) : text := list_ascii_of_string s.
Definition newline : ascii := "010"%char.

(* what the code takes from <stdio.h> and <stdlib.h> for floating values *)
Record stdio (F : Type) : Type := {
  (* the characters printf writes for a "%f" *)
  fmt_f : F -> text;
  atof : text -> F
}.

(* the characters printf writes for a "%u" *)
Definition fmt_u (n : nat) : text :=
  txt (DecimalString.NilEmpty.string_of_uint (Nat.to_uint n)).

(* char path[256] = "\0"; the copy of strlen(name) characters of the name
   and strcat(path, ext): the string in path, when the 256 bytes hold it
   and its terminator; a write or a read beyond them is Undef *)
Definition path_of (name ext : text) : outcome text :=
  if Nat.ltb 255 (length name + length ext) then Undef else Ret (name ++ ext).

(* the string a char array holds: the characters before the first NUL *)
Fixpoint c_str (s : text) : text :=
  match s with
  | [] => []
  | c :: s' => if Ascii.eqb c zero then [] else c :: c_str s'
  end.

(* while (fgets(line, n, f)): the characters each call stores; a call takes
   characters up to and including a newline, at most n - 1 of them, and
   fails at the end of the file when it has taken none.  [cur] holds the
   characters the current call has taken *)
Fixpoint fgets_all (n : nat) (cur : text) (s : text) : list text :=
  match s with
  | [] => match cur with [] => [] | _ => [cur] end
  | c :: s' =>
      let cur' := cur ++ [c] in
      if Ascii.eqb c newline || Nat.eqb (length cur') (n - 1)
      then cur' :: fgets_all n [] s'
      else fgets_all n cur' s'
  end.

Fixpoint prefixb (p s : text) : bool :=
  match p, s with
  | [], _ => true
  | a :: p', b :: s' => Ascii.eqb a b && prefixb p' s'
  | _ :: _, [] => false
  end.

(* strstr(s, needle) != NULL *)
Fixpoint strstr (s needle : text) : bool :=
  prefixb needle s ||
  match s with
  | [] => false
  | _ :: s' => strstr s' needle
  end.

Definition isdigit (c : ascii) : bool :=
  Nat.leb 48 (nat_of_ascii c) && Nat.leb (nat_of_ascii c) 57.

(** ** convhull_3d_export_obj *)

Section FileFunctions.
Context {F : Type} {SF : Scalar F}.
Variable io : stdio F.
Local Open Scope F_scope.

(* the calls of fprintf on the .obj file, with their arguments *)
Inductive obj_print : Type :=
| print_o                                 (* "o\n" *)
| print_v (x y z : F)                     (* "v %f %f %f\n" *)
| print_vn (x y z : F)                    (* "vn %f %f %f\n" *)
| print_f (v1 n1 v2 n2 v3 n3 : nat).      (* "f %u//%u %u//%u %u//%u\n" *)

Definition fprintf_obj (p : obj_print) : text :=
  match p with
  | print_o => txt "o" ++ [newline]
  | print_v x y z =>
      txt "v " ++ fmt_f io x ++ txt " " ++ fmt_f io y ++ txt " " ++
      fmt_f io z ++ [newline]
  | print_vn x y z =>
      txt "vn " ++ fmt_f io x ++ txt " " ++ fmt_f io y ++ txt " " ++
      fmt_f io z ++ [newline]
  | print_f v1 n1 v2 n2 v3 n3 =>
      txt "f " ++ fmt_u v1 ++ txt "//" ++ fmt_u n1 ++ txt " " ++
      fmt_u v2 ++ txt "//" ++ fmt_u n2 ++ txt " " ++
      fmt_u v3 ++ txt "//" ++ fmt_u n3 ++ [newline]
  end.

Definition print_vertex (v : @ch_vertex F) : obj_print :=
  print_v (vget v 0) (vget v 1) (vget v 2).

(* v1 -= v0, component by component *)
Definition vsub (v1 v0 : @ch_vertex F) : @ch_vertex F :=
  (vget v1 0 - vget v0 0, vget v1 1 - vget v0 1, vget v1 2 - vget v0 2).

(* cross(v1 - v0, v2 - v0) times 1.0 / (its length + 2.23e-9) *)
Definition scaled_normal (v0 v1 v2 : @ch_vertex F) : @ch_vertex F :=
  let normal := cross (vsub v1 v0) (vsub v2 v0) in
  let scale :=
    f1 / (fsqrt (pow2 (vget normal 0) + pow2 (vget normal 1) +
                 pow2 (vget normal 2))
          + lit 223 (-11)) in
  (vget normal 0 * scale, vget normal 1 * scale, vget normal 2 * scale).

(* the normal written for face i *)
Definition face_normal (vertices : list (@ch_vertex F)) (faces : list nat)
    (i : nat) : outcome (@ch_vertex F) :=
  i1 <- load faces (i * 3 + 1) ;;
  v1 <- load vertices i1 ;;
  i2 <- load faces (i * 3 + 2) ;;
  v2 <- load vertices i2 ;;
  i0 <- load faces (i * 3) ;;
  v0 <- load vertices i0 ;;
  Ret (scaled_normal v0 v1 v2).

(* the writes after the open, in order *)
Definition export_obj_prints (vertices : list (@ch_vertex F)) (nVert : nat)
    (faces : list nat) (nFaces : nat) (keepOnlyUsedVerticesFLAG : Z)
  : outcome (list obj_print) :=
  vs <- (if Z.eqb keepOnlyUsedVerticesFLAG 0 then
           mapM (fun i => v <- load vertices i ;; Ret (print_vertex v))
                (seq 0 nVert)
         else
           rows <- mapM (fun i =>
                           mapM (fun j =>
                                   k <- load faces (i * 3 + j) ;;
                                   v <- load vertices k ;;
                                   Ret (print_vertex v))
                                (seq 0 3))
                        (seq 0 nFaces) ;;
           Ret (concat rows)) ;;
  ns <- mapM (fun i =>
                n <- face_normal vertices faces i ;;
                Ret (print_vn (vget n 0) (vget n 1) (vget n 2)))
             (seq 0 nFaces) ;;
  fs <- (if Z.eqb keepOnlyUsedVerticesFLAG 0 then
           mapM (fun i =>
                   a <- load faces (i * 3) ;;
                   b <- load faces (i * 3 + 1) ;;
                   c <- load faces (i * 3 + 2) ;;
                   Ret (print_f (a + 1) (i + 1) (b + 1) (i + 1)
                                (c + 1) (i + 1)))
                (seq 0 nFaces)
         else
           Ret (map (fun i => print_f (i * 3 + 1) (i + 1) (i * 3 + 1 + 1)
                                      (i + 1) (i * 3 + 2 + 1) (i + 1))
                    (seq 0 nFaces))) ;;
  Ret (print_o :: vs ++ ns ++ fs).

(* [writable path]: whether fopen(path, "wt") gives a file; the code goes on
   to write when it gives none.  The result is the path and the text of
   the file *)
Definition convhull_3d_export_obj (writable : text -> bool)
    (vertices : list (@ch_vertex F)) (nVert : nat) (faces : list nat)
    (nFaces : nat) (keepOnlyUsedVerticesFLAG : Z) (obj_filename : text)
  : outcome (text * text) :=
  path <- path_of obj_filename (txt ".obj") ;;
  if writable path then
    ps <- export_obj_prints vertices nVert faces nFaces
            keepOnlyUsedVerticesFLAG ;;
    Ret (path, flat_map fprintf_obj ps)
  else Undef.

(** ** convhull_3d_export_m *)

Inductive m_print : Type :=
| print_vertices_open                     (* "vertices = [\n" *)
| print_row (x y z : F)                   (* "%f, %f, %f;\n" *)
| print_close                             (* "];\n\n\n" *)
| print_faces_open                        (* "faces = [\n" *)
| print_face (a b c : nat).               (* " %u, %u, %u;\n" *)

Definition fprintf_m (p : m_print) : text :=
  match p with
  | print_vertices_open => txt "vertices = [" ++ [newline]
  | print_row x y z =>
      fmt_f io x ++ txt ", " ++ fmt_f io y ++ txt ", " ++ fmt_f io z ++
      txt ";" ++ [newline]
  | print_close => txt "];" ++ [newline; newline; newline]
  | print_faces_open => txt "faces = [" ++ [newline]
  | print_face a b c =>
      txt " " ++ fmt_u a ++ txt ", " ++ fmt_u b ++ txt ", " ++ fmt_u c ++
      txt ";" ++ [newline]
  end.

Definition export_m_prints (vertices : list (@ch_vertex F)) (nVert : nat)
    (faces : list nat) (nFaces : nat) : outcome (list m_print) :=
  vs <- mapM (fun i => v <- load vertices i ;;
                       Ret (print_row (vget v 0) (vget v 1) (vget v 2)))
             (seq 0 nVert) ;;
  fs <- mapM (fun i =>
                a <- load faces (3 * i + 0) ;;
                b <- load faces (3 * i + 1) ;;
                c <- load faces (3 * i + 2) ;;
                Ret (print_face (a + 1) (b + 1) (c + 1)))
             (seq 0 nFaces) ;;
  Ret (print_vertices_open :: vs ++ [print_close; print_faces_open] ++ fs
       ++ [print_close]).

Definition convhull_3d_export_m (writable : text -> bool)
    (vertices : list (@ch_vertex F)) (nVert : nat) (faces : list nat)
    (nFaces : nat) (m_filename : text) : outcome (text * text) :=
  path <- path_of m_filename (txt ".m") ;;
  if writable path then
    ps <- export_m_prints vertices nVert faces nFaces ;;
    Ret (path, flat_map fprintf_m ps)
  else Undef.

(** ** extractVerticesFromObjFile *)

(* a ch_vertex of the malloc'ed array: None is a coordinate never written *)
Definition raw_vertex : Type := (option F * option F * option F)%type.

(* ( *out_vertices )[i][vertID] = x; the array has three coordinates *)
Definition store_coord (v : raw_vertex) (vertID : Z) (x : F)
  : outcome raw_vertex :=
  match vertID with
  | 0%Z => Ret (Some x, snd (fst v), snd v)
  | 1%Z => Ret (fst (fst v), Some x, snd v)
  | 2%Z => Ret (fst (fst v), snd (fst v), Some x)
  | _ => Undef
  end.

(* the characters copied into vert_char *)
Definition numeric (c : ascii) : bool :=
  isdigit c || Ascii.eqb c "." || Ascii.eqb c "-" || Ascii.eqb c "+" ||
  Ascii.eqb c "E" || Ascii.eqb c "e".

(* the loop over j from index [j] on, where [cs] holds line[j] ..
   line[len - 2]; the state is vert_char, prev_char_isDigit, vertID and
   the vertex written to.  None is the return at "not a valid file".
   isdigit is applied to a char: a character above 127 is Undef; so is a
   write that fills vert_char to its last byte *)
Fixpoint scan_line (len j : nat) (cs : text) (vert_char : text) (prev : bool)
    (vertID : Z) (v : raw_vertex) : outcome (option (raw_vertex * text)) :=
  match cs with
  | [] => Ret (Some (v, vert_char))
  | c :: cs' =>
      if Nat.leb 128 (nat_of_ascii c) then Undef
      else
        let cur := numeric c in
        vert_char1 <-
          (if cur then
             if Nat.leb 255 (length vert_char) then Undef
             else Ret (vert_char ++ [c])
           else Ret vert_char) ;;
        if (prev && negb cur) || Nat.eqb j (len - 2) then
          let vertID := (vertID + 1)%Z in
          if (4 <? vertID)%Z then Ret None
          else
            v' <- store_coord v vertID (atof io vert_char1) ;;
            scan_line len (S j) cs' [] cur vertID v'
        else scan_line len (S j) cs' vert_char1 cur vertID v
  end.

(* out[k] = x *)
Definition set_row {X : Type} (out : list X) (k : nat) (x : X) : list X :=
  firstn k out ++ x :: skipn (S k) out.

(* the second pass over the lines; [i] counts the lines with a "v " *)
Fixpoint parse_lines (lines : list text) (i : nat) (vert_char : text)
    (out : list raw_vertex) : outcome (option (list raw_vertex)) :=
  match lines with
  | [] => Ret (Some out)
  | line :: rest =>
      if strstr line (txt "v ") then
        v <- load out i ;;
        r <- scan_line (length line) 0 (removelast line) vert_char false
               (-1) v ;;
        match r with
        | None => Ret None
        | Some (v', vert_char') =>
            parse_lines rest (S i) vert_char' (set_row out i v')
        end
      else parse_lines rest i vert_char out
  end.

(* [fs path]: the text of the file fopen(path, "r") gives, None when it
   gives none; [extent] is the number of bytes of the caller's buffer
   that holds obj_filename.  The result is the string left in that
   buffer, *out_vertices (None is NULL) and *out_nVert *)
Definition extractVerticesFromObjFile (fs : text -> option text)
    (obj_filename : text) (extent : nat)
  : outcome (text * option (list raw_vertex) * nat) :=
  if Nat.ltb extent (length obj_filename + 5) then Undef
  else
    let path := obj_filename ++ txt ".obj" in
    match fs path with
    | None => Undef
    | Some content =>
        let lines := map c_str (fgets_all 256 [] content) in
        let nVert := length (filter (fun l => strstr l (txt "v ")) lines) in
        let out := repeat (@None F, @None F, @None F) nVert in
        r <- parse_lines lines 0 [] out ;;
        match r with
        | None => Ret (path, None, 0)
        | Some out' => Ret (path, Some out', nVert)
        end
    end.

End FileFunctions.

(** ** The mathematical objects the code is compared with *)

Section Reference.
Context {F : Type} {SF : Scalar F}.
Local Open Scope F_scope.

Fixpoint insert_all {A : Type} (x : A) (l : list A) : list (list A) :=
  match l with
  | [] => [[x]]
  | y :: l' => (x :: l) :: map (cons y) (insert_all x l')
  end.

Fixpoint perms {A : Type} (l : list A) : list (list A) :=
  match l with
  | [] => [[]]
  | x :: l' => flat_map (insert_all x) (perms l')
  end.

Fixpoint inversions (l : list nat) : nat :=
  match l with
  | [] => 0
  | x :: l' => length (filter (fun y => Nat.ltb y x) l') + inversions l'
  end.

Definition sgn (s : list nat) : Z :=
  if Nat.even (inversions s) then 1%Z else (-1)%Z.

(* the determinant of the row-major d x d matrix m: the sum over the
   permutations s of 0..d-1 of sgn(s) * prod_i m[i][s(i)] *)
Definition det_spec (m : list F) (d : nat) : F :=
  fold_left
    (fun acc s =>
       acc + of_Z (sgn s) *
             fold_left (fun pr ij => pr * rd m (fst ij * d + snd ij)%nat)
                       (combine (seq 0 d) s) f1)
    (perms (seq 0 d)) f0.

(* the first-row cofactor expansion of the d x d matrix m *)
Definition cofactor_expansion (m : list F) (d : nat) : F :=
  fold_left
    (fun acc i =>
       acc + of_Z ((-1) ^ Z.of_nat i) * rd m i *
             det_spec (createSubMatrix m d i) (d - 1))
    (seq 0 d) f0.

(* point j of the d points stored row-major in p *)
Definition point_of (d : nat) (p : list F) (j : nat) : list F :=
  map (fun k => rd p (j * d + k)%nat) (seq 0 d).

(* the point-difference matrix of p without its column i, row-major *)
Definition minor_spec (d : nat) (p : list F) (i : nat) : list F :=
  flat_map (fun r =>
              map (fun c => rd p ((r + 1) * d + c)%nat - rd p (r * d + c)%nat)
                  (filter (fun c => negb (Nat.eqb c i)) (seq 0 d)))
           (seq 0 (d - 1)).

(* component i of the generalized cross product of the point differences *)
Definition cofactor_spec (d : nat) (p : list F) (i : nat) : F :=
  of_Z ((-1) ^ Z.of_nat i) * det_spec (minor_spec d p i) (d - 1).

Definition sum_squares (c : list F) : F :=
  fold_left (fun acc x => acc + x * x) c f0.

End Reference.

(** ** The real numbers as scalars *)

Definition Rltb (a b : R) : bool := if Rlt_dec a b then true else false.
Definition Rleb (a b : R) : bool := if Rle_dec a b then true else false.
Definition Reqb (a b : R) : bool := if Req_dec_T a b then true else false.

#[export] Instance R_scalar : Scalar R := {
  fadd := Rplus; fsub := Rminus; fmul := Rmult; fdiv := Rdiv; fopp := Ropp;
  fsqrt := R_sqrt.sqrt; ffabs := Rabs;
  fltb := Rltb; fleb := Rleb; feqb := Reqb;
  of_Z := IZR;
  lit := fun m e => (IZR m * powerRZ 10 e)%R
}.

(** ** binary64 numbers as scalars *)

Definition float_of_Z (z : Z) : PrimFloat.float :=
  match z with
  | Z0 => PrimFloat.zero
  | Zpos _ => PrimFloat.of_uint63 (Uint63.of_Z z)
  | Zneg p => PrimFloat.opp (PrimFloat.of_uint63 (Uint63.of_Z (Zpos p)))
  end.

#[export] Instance float_scalar : Scalar PrimFloat.float := {
  fadd := PrimFloat.add; fsub := PrimFloat.sub; fmul := PrimFloat.mul;
  fdiv := PrimFloat.div; fopp := PrimFloat.opp;
  fsqrt := PrimFloat.sqrt; ffabs := PrimFloat.abs;
  fltb := PrimFloat.ltb; fleb := PrimFloat.leb; feqb := PrimFloat.eqb;
  of_Z := float_of_Z;
  lit := fun m e =>
           if (e <? 0)%Z
           then PrimFloat.div (float_of_Z m) (float_of_Z (10 ^ (- e)))
           else float_of_Z (m * 10 ^ e)
}.

(** ** A C library to run with *)

(* a qsort: insertion sort by decreasing value *)
Definition isort_desc {F : Type} {SF : Scalar F} (l : list (F * nat))
  : list (F * nat) :=
  fold_right (insert_by (fun a b => fltb (fst b) (fst a))) [] l.

Definition glibc {F : Type} {SF : Scalar F} (ndebug : bool) : libc F :=
  {| RAND_MAX := 2147483647; qsort_desc_float := isort_desc; NDEBUG := ndebug |}.

(* a linear congruential rand() *)
Definition lcg_rand (k : nat) : Z :=
  ((1103515245 * (Z.of_nat k + 12345) * (Z.of_nat k + 7) + 12345)
   mod 2147483648)%Z.

(* the first 16 draws of glibc's rand() in a program that does not call
   srand; the runs of this file that use it draw 15 numbers *)
Definition glibc_rand (k : nat) : Z :=
  nth k [1804289383; 846930886; 1681692777; 1714636915; 1957747793;
         424238335; 719885386; 1649760492; 596516649; 1189641421;
         1025202362; 1350490027; 783368690; 1102520059; 2044897763;
         1967513926]%Z 0%Z.

(* a qsort to run with: insertion by the comparator *)
Definition isort_by : qsort_fn :=
  fun A cmp l => fold_right (insert_by (fun y x => (cmp y x <? 0)%Z)) [] l.

(** ** printf and atof to run with *)

(* the decimal digits of a number *)
Definition digits_of (n : N) : text :=
  txt (DecimalString.NilEmpty.string_of_uint (N.to_uint n)).

(* the integer nearest to m * 2^e * 10^6, ties to even *)
Definition scaled_micro (m : positive) (e : Z) : Z :=
  if (0 <=? e)%Z then (Zpos m * 2 ^ e * 1000000)%Z
  else
    let num := (Zpos m * 1000000)%Z in
    let den := (2 ^ (- e))%Z in
    let q := (num / den)%Z in
    let r := (num mod den)%Z in
    if (den <? 2 * r)%Z then (q + 1)%Z
    else if (2 * r =? den)%Z then (if Z.even q then q else q + 1)%Z
    else q.

(* "%f" for a binary64 number: six decimals, the exact value rounded to
   even *)
Definition fmt_f_float (x : PrimFloat.float) : text :=
  let sign (s : bool) : text := if s then txt "-" else [] in
  match FloatOps.Prim2SF x with
  | SpecFloat.S754_zero s => sign s ++ txt "0.000000"
  | SpecFloat.S754_infinity s => sign s ++ txt "inf"
  | SpecFloat.S754_nan => txt "nan"
  | SpecFloat.S754_finite s m e =>
      let q := scaled_micro m e in
      sign s ++ digits_of (Z.to_N (q / 1000000)) ++ txt "." ++
      skipn 1 (digits_of (Z.to_N (1000000 + q mod 1000000)))
  end.

Definition digit_of (c : ascii) : Z := Z.of_nat (nat_of_ascii c - 48).

(* the digits at the head of [t]: their number [acc * 10^n + ...], how
   many they are and the characters after them *)
Fixpoint take_digits (t : text) (acc : Z) (n : nat) : Z * nat * text :=
  match t with
  | c :: t' =>
      if isdigit c then take_digits t' (10 * acc + digit_of c)%Z (S n)
      else (acc, n, t)
  | [] => (acc, n, [])
  end.

Definition take_sign (t : text) : bool * text :=
  match t with
  | c :: t' =>
      if Ascii.eqb c "-" then (true, t')
      else if Ascii.eqb c "+" then (false, t')
      else (false, t)
  | [] => (false, [])
  end.

(* the binary64 number nearest to n / d, ties to even, for n >= 0 and
   d > 0: the quotient is taken with 64 bits or more and one more bit that
   says whether a remainder is left, and rounded once *)
Definition nearest_float (n d : Z) : PrimFloat.float :=
  let s := Z.max 0 (64 + Z.log2 d - Z.log2 n) in
  let q := (n * 2 ^ s / d)%Z in
  let r := (n * 2 ^ s mod d)%Z in
  let m := (2 * q + (if (r =? 0)%Z then 0 else 1))%Z in
  FloatOps.SF2Prim
    (SpecFloat.binary_normalize FloatOps.prec FloatOps.emax m (- s - 1) false).

(* atof on a decimal numeral: sign, digits, point, digits, exponent; the
   number the numeral denotes, rounded once *)
Definition atof_float (t : text) : PrimFloat.float :=
  let '(neg, t1) := take_sign t in
  let '(ip, _, t2) := take_digits t1 0 0 in
  let '(m, nf, t3) :=
    match t2 with
    | c :: r => if Ascii.eqb c "." then take_digits r ip 0 else (ip, 0, t2)
    | [] => (ip, 0, t2)
    end in
  let e :=
    match t3 with
    | c :: r =>
        if Ascii.eqb c "e" || Ascii.eqb c "E" then
          let '(eneg, r1) := take_sign r in
          let '(ev, _, _) := take_digits r1 0 0 in
          if eneg then (- ev)%Z else ev
        else 0%Z
    | [] => 0%Z
    end in
  let k := (e - Z.of_nat nf)%Z in
  let v :=
    if (0 <=? k)%Z then nearest_float (m * 10 ^ k) 1
    else nearest_float m (10 ^ (- k)) in
  if neg then PrimFloat.opp v else v.

Definition float_stdio : stdio PrimFloat.float :=
  {| fmt_f := fmt_f_float; atof := atof_float |}.

(** * The vocabulary of the properties *)

(** ** Facets and hulls *)

(* a facet over the points [S] inserted so far *)
Definition face_ok {F : Type} (d : nat) (points : list (list F))
    (S : list nat) (f : list nat) : Prop :=
  length f = d /\ NoDup f /\ incl f S /\ Forall (fun v => v < length points) f.

(* the three arrays of a hull have one row per facet *)
Definition hull_wf {F : Type} (h : hull F) : Prop :=
  length (cf h) = nFaces h /\ length (df h) = nFaces h.

(* a row of the plane array has d entries *)
Definition plane_row {F : Type} (d : nat) (fc : list nat * (list F * F))
  : Prop :=
  length (fst (snd fc)) = d.

(* the flag of a facet for the point with coordinates points_s *)
Definition facet_flag {F : Type} {SF : Scalar F} (points_s : list F)
    (f : list nat * (list F * F)) : nat :=
  if fgtb (fadd (dot points_s (fst (snd f))) (snd (snd f))) f0 then 1 else 0.

(* the facets seen from p, as rows of the three output arrays *)
Definition seen_from {F : Type} {SF : Scalar F} (p : list F)
    (hullfaces : list (list nat)) (cfs : list (list F)) (dfs : list F)
  : list (list nat * (list F * F)) :=
  filter (fun f => fgtb (fadd (dot (fst (snd f)) p) (snd (snd f))) f0)
         (combine hullfaces (combine cfs dfs)).

(* the two parts an iteration makes of a hull from the flags of its
   facets: the facets that stay, and the ridges between them and the
   flagged ones *)
Definition kept_facets {F : Type} (flags : list nat) (h : hull F) : hull F :=
  Build_hull (keep_rows flags (faces h)) (keep_rows flags (cf h))
             (keep_rows flags (df h)).

Definition horizon_ridges {F : Type} (d : nat) (flags : list nat) (h : hull F)
  : list (list nat) :=
  concat (map (horizon_of d (keep_rows flags (faces h)))
              (drop_rows flags (faces h))).

(* the candidates pp of a face: the indices below nF that are not on it *)
Definition candidates (nF : nat) (face : list nat) : list nat :=
  filter (fun x => negb (existsb (Nat.eqb x) (sort_int face false))) (seq 0 nF).

(* the value of facet k of a returned hull at working point q *)
Definition facet_value {F : Type} {SF : Scalar F} (d : nat) (r : hull_out)
    (points : list (list F)) (k q : nat) : option F :=
  match out_cf r, out_df r with
  | Some c, Some o =>
      Some (dot (firstn d (nth q points [])) (row_of c d k) + nth k o f0)%Fs
  | _, _ => None
  end.

(** ** The two builders *)

(* the FLAT nVert x 3 array of the same coordinates *)
Definition flat_vertices {F : Type} {SF : Scalar F} (vs : list (@ch_vertex F))
  : list F :=
  flat_map (fun v => [vget v 0; vget v 1; vget v 2]) vs.

(* the outcomes of the two builders: the same faces and count, or the same
   kind of failure *)
Definition same_outcome {F : Type} (a : outcome (option (list nat) * nat))
    (b : outcome (@hull_out F)) : Prop :=
  match a, b with
  | Ret (o, n), Ret r => out_faces r = o /\ nOut_faces r = n
  | Throw _, Throw _ => True
  | Abort, Abort => True
  | Undef, Undef => True
  | _, _ => False
  end.

(** ** The Delaunay mesh *)


(** ** Working points, determinants and containment *)

(* a working point: d coordinates and a trailing 1 *)
Definition wrow (d : nat) (r : list R) : Prop :=
  length r = d + 1 /\ nth d r 0%R = 1%R.
Definition rows_ok (d : nat) (l : list (list R)) : Prop :=
  Forall (fun r => length r = d + 1) l.

(* what the containment proof needs of the determinant and of the plane
   routine: the sign of an exchange of two adjacent rows, the three-term
   relation, dependence on a basis, and the plane as a determinant *)
Definition det_swaps (d : nat) (det : list R -> R) : Prop :=
  forall pre a b post,
    rows_ok d (pre ++ a :: b :: post) ->
    length (pre ++ a :: b :: post) = d + 1 ->
    det (concat (pre ++ b :: a :: post))
    = (- det (concat (pre ++ a :: b :: post)))%R.

Definition det_three_terms (d : nat) (det : list R -> R) : Prop :=
  forall ridge i q v k,
    rows_ok d (i :: q :: v :: k :: ridge) -> length ridge = d - 1 ->
    let B a b := det (concat (ridge ++ [a; b])) in
    (B i q * B v k - B i v * B q k + B i k * B q v)%R = 0%R.

Definition det_basis (d : nat) (det : list R -> R) : Prop :=
  forall S f x,
    rows_ok d (x :: S ++ f) -> length S = d + 1 -> length f = d ->
    det (concat S) <> 0%R ->
    (forall s, In s S -> det (concat (f ++ [s])) = 0%R) ->
    det (concat (f ++ [x])) = 0%R.

Definition plane_of_det (d : nat) (plane : list R -> list R * R)
    (det : list R -> R) : Prop :=
  forall rows,
    length rows = d -> Forall (wrow d) rows ->
    exists n, (0 <= n)%R /\
      forall x, wrow d x ->
        det (concat (rows ++ [x]))
        = (- n * (dot (firstn d x) (fst (plane (concat (map (firstn d) rows))))
                  + snd (plane (concat (map (firstn d) rows)))))%R.

(* the row of working point v *)
Definition pt (points : list (list R)) (v : nat) : list R := nth v points [].

(* the determinant that orients a face against the row x *)
Definition Dface (det : list R -> R) (points : list (list R))
    (face : list nat) (x : list R) : R :=
  det (concat (map (pt points) face ++ [x])).

(* the value the visibility test computes for a facet and a point *)
Definition side (d : nat) (points : list (list R))
    (f : list nat * (list R * R)) (q : nat) : R :=
  (dot (firstn d (pt points q)) (fst (snd f)) + snd (snd f))%R.

(* a facet of the hull of the points P: its vertices, its plane as a
   positive multiple of its determinant, a point off its plane, and the
   points of P on its inner side *)
Definition facet_inv (d : nat) (det : list R -> R) (points : list (list R))
    (P : list nat) (f : list nat * (list R * R)) : Prop :=
  face_ok d points P (fst f) /\
  (exists n, (0 < n)%R /\
     forall q, q < length points ->
       Dface det points (fst f) (pt points q) = (- n * side d points f q)%R) /\
  (exists q, q < length points /\
             Dface det points (fst f) (pt points q) <> 0%R) /\
  (forall q, In q P -> (side d points f q <= 0)%R).

Definition hull_inv (d : nat) (det : list R -> R) (points : list (list R))
    (P : list nat) (h : hull R) : Prop :=
  exists l, h = hull_of l /\ Forall (facet_inv d det points P) l.

(* the first d+1 working points are affinely independent *)
Definition simplex_ok (d : nat) (det : list R -> R)
    (points : list (list R)) : Prop :=
  d + 1 <= length points /\
  det (concat (map (pt points) (seq 0 (d + 1)))) <> 0%R.

(* no point of the input is strictly outside a facet of the hull *)
Definition contained (d : nat) (points : list (list R)) (h : hull R) : Prop :=
  forall c o, In (c, o) (combine (cf h) (df h)) ->
  forall row, In row points -> (dot (firstn d row) c + o <= 0)%R.

(* no point with its index in P is strictly outside a facet of h *)
Definition contained_on (d : nat) (points : list (list R)) (P : list nat)
    (h : hull R) : Prop :=
  forall c o, In (c, o) (combine (cf h) (df h)) ->
  forall q, In q P -> (dot (firstn d (pt points q)) c + o <= 0)%R.

(* the two ways the builders run the engine *)
Definition builder_engine (d : nat) (plane : list R -> list R * R)
    (det : list R -> R) : Prop :=
  (d = 3 /\ plane = plane_3d /\ det = det_4x4) \/
  (3 <= d <= 5 /\ plane = plane_nd d /\ det = orient_det d).

(* the unit row e_m and the row list with row j replaced *)
Definition unit_row (n m : nat) : list R :=
  map (fun k => if Nat.eqb k m then 1%R else 0%R) (seq 0 n).

Definition replace_row (j : nat) (x : list R) (S : list (list R)) :=
  firstn j S ++ x :: skipn (Datatypes.S j) S.

Definition Rsum (l : list R) : R := fold_right Rplus 0%R l.

(* the real number a binary64 number stands for *)
Definition float_value (x : PrimFloat.float) : R :=
  match FloatOps.Prim2SF x with
  | SpecFloat.S754_finite s m e =>
      let v := if (0 <=? e)%Z then IZR (Zpos m * 2 ^ e)
               else (IZR (Zpos m) / IZR (2 ^ (- e)))%R in
      if s then (- v)%R else v
  | _ => 0%R
  end.

(** ** Sample inputs *)

(* a rand() that returns 0 *)
Definition zero_rand (k : nat) : Z := 0%Z.

Definition fvertex (x y z : Z) : @ch_vertex PrimFloat.float :=
  (float_of_Z x, float_of_Z y, float_of_Z z).

(* a tetrahedron and a point inside it or outside it *)
Definition tetra_in : list (@ch_vertex PrimFloat.float) :=
  [fvertex 0 0 0; fvertex 4 0 0; fvertex 0 4 0; fvertex 0 0 4; fvertex 1 1 1].
Definition tetra_out : list (@ch_vertex PrimFloat.float) :=
  [fvertex 0 0 0; fvertex 4 0 0; fvertex 0 4 0; fvertex 0 0 4; fvertex 4 4 4].

(* the working points of [tetra_in] without noise *)
Definition tetra_in_points : list (list PrimFloat.float) :=
  map (fun v => [vget v 0; vget v 1; vget v 2; f1]) tetra_in.

Definition tetra_hull : hull PrimFloat.float :=
  Eval vm_compute in
    match initial_hull 3 plane_3d det_4x4 tetra_in_points with
    | Ret h => h
    | _ => Build_hull [] [] []
    end.

(* a hull at the ceiling: one facet that point 4 of [tetra_in] sees, and
   49999 that it does not see and that share the edge 0-1 with the first *)
Definition brim_hull : hull PrimFloat.float :=
  Build_hull
    ([0; 1; 2] :: repeat [0; 1; 3] (CH_MAX_NUM_FACES - 1))
    ([float_of_Z 0; float_of_Z 0; float_of_Z 1]
       :: repeat [float_of_Z 0; float_of_Z (-1); float_of_Z 0]
                 (CH_MAX_NUM_FACES - 1))
    (repeat (float_of_Z 0) CH_MAX_NUM_FACES).

(* one point in the plane, lifted *)
Definition one_point_lifted : list (list R) :=
  match project (glibc false) [3; 4]%R 1 2 zero_rand with
  | Ret pp => pp
  | _ => []
  end.

(* three vertices that span the three axes *)
Definition three_points : list (@ch_vertex PrimFloat.float) :=
  [ (float_of_Z 0, float_of_Z 0, float_of_Z 0);
    (float_of_Z 1, float_of_Z 1, float_of_Z 1);
    (float_of_Z 2, float_of_Z 3, float_of_Z 4) ].

(* five vertices of the plane x = 3e13 *)
Definition wall_vertices : list (@ch_vertex PrimFloat.float) :=
  map (fun yz => (float_of_Z (3 * 10 ^ 13), float_of_Z (fst yz),
                  float_of_Z (snd yz)))
      [(0, 0); (4, 0); (0, 4); (4, 4); (1, 1)]%Z.




(* the corner of the unit cube, FLAT *)
Definition corner_in : list R :=
  [0; 0; 0;  1; 0; 0;  0; 1; 0;  0; 0; 1]%R.

(* the corner of the unit cube and the opposite corner: as vertices, FLAT,
   and as working points *)
Definition cube_corners : list (@ch_vertex R) :=
  [(0, 0, 0); (1, 0, 0); (0, 1, 0); (0, 0, 1); (1, 1, 1)]%R.

Definition cube_in : list R :=
  [0; 0; 0;  1; 0; 0;  0; 1; 0;  0; 0; 1;  1; 1; 1]%R.

Definition cube_points : list (list R) :=
  [[0; 0; 0; 1]; [1; 0; 0; 1]; [0; 1; 0; 1]; [0; 0; 1; 1]; [1; 1; 1; 1]]%R.

(* the first four vertices lie in one plane, the fifth is below it *)
Definition flat_simplex_in : list PrimFloat.float :=
  map float_of_Z
    [0; 0; 0;  4; 0; 0;  0; 4; 0;  1; 1; 0;  0; 0; -1]%Z.

(* the same shape away from the origin and 2^40 times as large: the noise
   is below half an ulp of every coordinate but the last one *)
Definition flat_simplex_far : list PrimFloat.float :=
  map (fun z => float_of_Z (z * 2 ^ 40))
    [1; 1; 1;  5; 1; 1;  1; 5; 1;  2; 2; 1;  1; 1; 0]%Z.

(* the corner of a cube of edge 0.6 at (1e6, 1e6, 1e6) and a point beyond
   the opposite corner, FLAT and as vertices: the coordinates are the
   numbers 1000000.0, 1000000.6 and 1000001.2 *)
Definition far_corner : list PrimFloat.float :=
  map (fun k => lit (1000000000 + k) (-3))
    [0; 0; 0;  600; 0; 0;  0; 600; 0;  0; 0; 600;  1200; 1200; 1200]%Z.

Definition far_corner_vertices : list (@ch_vertex PrimFloat.float) :=
  map (fun i => (nth (3 * i) far_corner PrimFloat.zero,
                 nth (3 * i + 1) far_corner PrimFloat.zero,
                 nth (3 * i + 2) far_corner PrimFloat.zero)) (seq 0 5).

(** ** Vectors of three coordinates *)

Definition vdot (a b : @ch_vertex R) : R :=
  (vget a 0 * vget b 0 + vget a 1 * vget b 1 + vget a 2 * vget b 2)%R.

(** ** The initial simplex *)

(* facet k of the simplex on the vertices 0 .. d, as the code stores it *)
Definition simplex_facet (d k : nat) (f : list nat) : Prop :=
  f = simplex_face d k \/ f = swap_last2 (simplex_face d k).

(** ** Files *)

(* a call that returns or is undefined: no exception, no failed assert *)
Definition plain {A : Type} (m : outcome A) : Prop :=
  match m with
  | Ret _ | Undef => True
  | _ => False
  end.

(* when convhull_3d_export_obj returns *)
Definition export_obj_ok {F : Type} (writable : text -> bool)
    (vertices : list (@ch_vertex F)) (nVert : nat) (faces : list nat)
    (nFaces : nat) (keepOnlyUsedVerticesFLAG : Z) (obj_filename : text)
  : Prop :=
  length obj_filename + 4 <= 255 /\
  writable (obj_filename ++ txt ".obj") = true /\
  (keepOnlyUsedVerticesFLAG = 0%Z -> nVert <= length vertices) /\
  nFaces * 3 <= length faces /\
  Forall (fun k => k < length vertices) (firstn (nFaces * 3) faces).

(* when convhull_3d_export_m returns *)
Definition export_m_ok {F : Type} (writable : text -> bool)
    (vertices : list (@ch_vertex F)) (nVert : nat) (faces : list nat)
    (nFaces : nat) (m_filename : text) : Prop :=
  length m_filename + 2 <= 255 /\
  writable (m_filename ++ txt ".m") = true /\
  nVert <= length vertices /\
  3 * nFaces <= length faces.

(* the vertex a face entry names *)
Definition face_vertex {F : Type} (vertices : list (@ch_vertex F))
    (faces : list nat) (k : nat) : outcome (@ch_vertex F) :=
  i <- load faces k ;; load vertices i.

(* the entries of the arrays, with a value for an index outside them *)
Definition face_at (faces : list nat) (k : nat) : nat := nth k faces 0.
Definition vertex_at {F : Type} {SF : Scalar F} (vertices : list (@ch_vertex F))
    (k : nat) : @ch_vertex F :=
  nth k vertices (f0, f0, f0).
Definition normal_at {F : Type} {SF : Scalar F} (vertices : list (@ch_vertex F))
    (faces : list nat) (i : nat) : @ch_vertex F :=
  scaled_normal (vertex_at vertices (face_at faces (i * 3)))
                (vertex_at vertices (face_at faces (i * 3 + 1)))
                (vertex_at vertices (face_at faces (i * 3 + 2))).
Definition print_normal {F : Type} (n : @ch_vertex F) : @obj_print F :=
  print_vn (vget n 0) (vget n 1) (vget n 2).

(** ** The mesh an .obj file describes *)

Section ObjMesh.
Context {F : Type} {SF : Scalar F}.

(* the v lines and the vn lines of a file, in order *)
Definition obj_vertex_lines (ps : list (@obj_print F)) : list (@ch_vertex F) :=
  flat_map (fun p => match p with print_v x y z => [(x, y, z)] | _ => [] end)
           ps.
Definition obj_normal_lines (ps : list (@obj_print F)) : list (@ch_vertex F) :=
  flat_map (fun p => match p with print_vn x y z => [(x, y, z)] | _ => [] end)
           ps.

(* element k of the lines, counted from 1 as an .obj file counts *)
Definition obj_ref {X : Type} (l : list X) (k : nat) : option X :=
  match k with
  | 0 => None
  | S k' => nth_error l k'
  end.

(* the triangles of a file: for each f line the vertex and the normal its
   three corners refer to *)
Definition obj_triangles (ps : list (@obj_print F))
  : list (list (option (@ch_vertex F) * option (@ch_vertex F))) :=
  let vs := obj_vertex_lines ps in
  let ns := obj_normal_lines ps in
  flat_map (fun p =>
              match p with
              | print_f v1 n1 v2 n2 v3 n3 =>
                  [[(obj_ref vs v1, obj_ref ns n1);
                    (obj_ref vs v2, obj_ref ns n2);
                    (obj_ref vs v3, obj_ref ns n3)]]
              | _ => []
              end)
           ps.

(* face i of the hull: its three vertices, each with the normal of the
   face *)
Definition hull_triangle (vertices : list (@ch_vertex F)) (faces : list nat)
    (i : nat) : outcome (list (option (@ch_vertex F) * option (@ch_vertex F))) :=
  n <- face_normal vertices faces i ;;
  a <- face_vertex vertices faces (i * 3) ;;
  b <- face_vertex vertices faces (i * 3 + 1) ;;
  c <- face_vertex vertices faces (i * 3 + 2) ;;
  Ret [(Some a, Some n); (Some b, Some n); (Some c, Some n)].

End ObjMesh.

(** ** Reading an .obj file *)

(* the characters of the lines: those of the numbers and of the formats *)
Definition line_char (c : ascii) : bool :=
  numeric c || Ascii.eqb c " " || Ascii.eqb c "/" || Ascii.eqb c "f" ||
  Ascii.eqb c "o" || Ascii.eqb c "n".

Section ObjText.
Context {F : Type}.
Variable io : stdio F.

(* the loop of [scan_line] with "j is the last index" read off the
   characters that remain *)
Fixpoint scan (cs : text) (vert_char : text) (prev : bool) (vertID : Z)
    (v : @raw_vertex F) : outcome (option (@raw_vertex F * text)) :=
  match cs with
  | [] => Ret (Some (v, vert_char))
  | c :: cs' =>
      if Nat.leb 128 (nat_of_ascii c) then Undef
      else
        let cur := numeric c in
        vert_char1 <-
          (if cur then
             if Nat.leb 255 (length vert_char) then Undef
             else Ret (vert_char ++ [c])
           else Ret vert_char) ;;
        if (prev && negb cur) || match cs' with [] => true | _ => false end
        then
          let vertID := (vertID + 1)%Z in
          if (4 <? vertID)%Z then Ret None
          else
            v' <- store_coord v vertID (atof io vert_char1) ;;
            scan cs' [] cur vertID v'
        else scan cs' vert_char1 cur vertID v
  end.

(* a number as the reader takes it: some characters, all of them copied
   into vert_char, at most 80 *)
Definition tokenb (t : text) : bool :=
  match t with
  | [] => false
  | _ => forallb numeric t && Nat.leb (length t) 80
  end.

(* a line that the reader reads back: it fits, with its newline, the 256
   bytes of [line], and every "%f" on it is written as such a number *)
Definition line_ok (p : @obj_print F) : bool :=
  Nat.leb (length (fprintf_obj io p)) 255 &&
  match p with
  | print_v x y z | print_vn x y z =>
      tokenb (fmt_f io x) && tokenb (fmt_f io y) && tokenb (fmt_f io z)
  | _ => true
  end.

Definition obj_lines_ok (ps : list (@obj_print F)) : bool :=
  forallb line_ok ps.

(* the line of a write without its newline *)
Definition line_body (p : @obj_print F) : text :=
  removelast (fprintf_obj io p).

Definition vline (p : @obj_print F) : bool :=
  match p with
  | print_v _ _ _ => true
  | _ => false
  end.

(* a vertex written with "%f" and read with atof *)
Definition reread (v : @ch_vertex F) : @raw_vertex F :=
  (Some (atof io (fmt_f io (fst (fst v)))),
   Some (atof io (fmt_f io (snd (fst v)))),
   Some (atof io (fmt_f io (snd v)))).

End ObjText.

(** * Properties *)

(** ** Determinants *)

Ltac unfold_det :=
  cbv [det_spec cofactor_expansion det_NxN det_4x4 createSubMatrix perms
       insert_all flat_map map app seq fold_left combine sgn inversions filter
       Nat.ltb Nat.leb Nat.even length Nat.add Nat.mul Nat.sub Nat.eqb negb
       fst snd Nat.modulo Nat.divmod rd nth f0 f1 fadd fsub fmul fopp of_Z
       R_scalar Z.mul Pos.mul Z.opp Z.pow Z.pow_pos Pos.iter Z.of_nat
       Pos.of_succ_nat Pos.succ].

Lemma det_4x4_is_det_NxN (m : list R) : det_4x4 m = det_NxN m 4.
Proof. unfold_det. ring. Qed.

Lemma det_NxN_is_det_spec (m : list R) (d : nat) :
  d <= 5 -> det_NxN m d = det_spec m d.
Proof.
  intros Hd.
  assert (d = 0 \/ d = 1 \/ d = 2 \/ d = 3 \/ d = 4 \/ d = 5) as Hc by lia.
  destruct Hc as [-> | [-> | [-> | [-> | [-> | ->]]]]]; unfold_det; ring.
Qed.

Lemma det_NxN_expansion (m : list R) (d : nat) :
  1 <= d <= 5 -> det_NxN m d = cofactor_expansion m d.
Proof.
  intros Hd.
  assert (d = 1 \/ d = 2 \/ d = 3 \/ d = 4 \/ d = 5) as Hc by lia.
  destruct Hc as [-> | [-> | [-> | [-> | ->]]]]; unfold_det; ring.
Qed.

(** C9. For every real 4x4 matrix [det_4x4] agrees with [det_NxN] at
    size 4; for every size [d <= 5], [det_NxN] is the determinant of the
    matrix, it is the cofactor expansion along the first row when [1 <= d],
    and it is 1 on the empty matrix. *)
Theorem det_fast_path_equals_fallback (m : list R) (d : nat) :
  d <= 5 ->
  det_4x4 m = det_NxN m 4 /\
  det_NxN m d = det_spec m d /\
  (1 <= d -> det_NxN m d = cofactor_expansion m d) /\
  det_NxN m 0 = 1%R.
Proof.
  intros Hd. split; [apply det_4x4_is_det_NxN|].
  split; [now apply det_NxN_is_det_spec|].
  split; [intros; apply det_NxN_expansion; lia | reflexivity].
Qed.

Lemma det_fast_path_equals_fallback_witness :
  let m := [2; 0; 1; 3]%R in
  det_4x4 m = det_NxN m 4 /\
  det_NxN m 2 = det_spec m 2 /\
  (1 <= 2 -> det_NxN m 2 = cofactor_expansion m 2) /\
  det_NxN m 0 = 1%R.
Proof. intro m. apply (@det_fast_path_equals_fallback m 2). lia. Defined.

(** ** Hyperplanes *)

Ltac unfold_plane :=
  cbv [plane_nd plane_3d cofactors pdiff_rows pdiff_s drop_col det_2x2
       det_NxN det_4x4 createSubMatrix cofactor_spec minor_spec det_spec
       point_of perms insert_all sgn inversions
       flat_map map app seq fold_left combine concat plane_offset normalize
       filter Nat.ltb Nat.leb Nat.even length Nat.add Nat.mul Nat.sub Nat.eqb
       negb fst snd Nat.modulo Nat.divmod rd nth f0 f1 fadd fsub fmul fopp
       fdiv of_Z R_scalar Z.mul Pos.mul Z.opp dot pow2 Z.pow Z.pow_pos
       Pos.iter Z.of_nat Pos.of_succ_nat Pos.succ].

(* the loops of plane_nd compute the generalized cross product *)
Lemma cofactors_3 (p : list R) :
  cofactors 3 det_2x2 (pdiff_rows 3 p) = map (cofactor_spec 3 p) (seq 0 3).
Proof. unfold_plane. repeat (f_equal; try ring). Qed.

Lemma cofactors_4 (p : list R) :
  cofactors 4 (fun s => det_NxN s 3) (pdiff_rows 4 p)
  = map (cofactor_spec 4 p) (seq 0 4).
Proof. unfold_plane. repeat (f_equal; try ring). Qed.

Lemma cofactors_5 (p : list R) :
  cofactors 5 det_4x4 (pdiff_rows 5 p) = map (cofactor_spec 5 p) (seq 0 5).
Proof. unfold_plane. repeat (f_equal; try ring). Qed.

Lemma plane_nd_unfold (d : nat) (p : list R) :
  3 <= d <= 5 ->
  plane_nd d p =
  let c := normalize (map (cofactor_spec d p) (seq 0 d)) in
  (c, plane_offset p c).
Proof.
  intros Hd.
  assert (d = 3 \/ d = 4 \/ d = 5) as Hc by lia.
  destruct Hc as [-> | [-> | ->]].
  - unfold plane_nd, plane_3d. simpl Nat.eqb. cbv iota. now rewrite cofactors_3.
  - unfold plane_nd. simpl Nat.eqb. cbv iota.
    change (4 - 1) with 3. now rewrite cofactors_4.
  - unfold plane_nd. simpl Nat.eqb. cbv iota. now rewrite cofactors_5.
Qed.

Lemma sum_squares_acc (c : list R) (a : R) :
  fold_left (fun acc x => acc + x * x)%R c a = (a + sum_squares c)%R.
Proof.
  unfold sum_squares. revert a.
  induction c as [|x c IH]; intros a; simpl.
  - change (@f0 R R_scalar) with 0%R. ring.
  - rewrite IH, (IH (_ + _)%R). change (@f0 R R_scalar) with 0%R. ring.
Qed.

Lemma sum_squares_cons (x : R) (c : list R) :
  sum_squares (x :: c) = (x * x + sum_squares c)%R.
Proof.
  unfold sum_squares at 1. simpl. rewrite sum_squares_acc.
  change (@f0 R R_scalar) with 0%R. ring.
Qed.

Lemma sum_squares_nonneg (c : list R) : (0 <= sum_squares c)%R.
Proof.
  induction c as [|x c IH].
  - unfold sum_squares. simpl. change (@f0 R R_scalar) with 0%R. lra.
  - rewrite sum_squares_cons. nra.
Qed.

Lemma sum_squares_scaled (c : list R) (n : R) :
  n <> 0%R ->
  sum_squares (map (fun x => x / n)%R c) = (sum_squares c / (n * n))%R.
Proof.
  intros Hn. induction c as [|x c IH].
  - unfold sum_squares. simpl. change (@f0 R R_scalar) with 0%R. now field.
  - simpl map. rewrite !sum_squares_cons, IH. now field.
Qed.

Lemma norm_of_eq (c : list R) : norm_of c = sqrt (sum_squares c).
Proof. reflexivity. Qed.

Lemma normalize_unit (c : list R) :
  sum_squares c <> 0%R -> sqrt (sum_squares (normalize c)) = 1%R.
Proof.
  intros Hc. unfold normalize. rewrite norm_of_eq.
  pose proof (sum_squares_nonneg c) as Hpos.
  assert (0 < sqrt (sum_squares c))%R as Hs by (apply sqrt_lt_R0; lra).
  change (fun x : R => fdiv x (sqrt (sum_squares c)))
    with (fun x : R => (x / sqrt (sum_squares c))%R).
  rewrite sum_squares_scaled by lra.
  rewrite sqrt_sqrt by lra.
  replace (sum_squares c / sum_squares c)%R with 1%R by now field.
  apply sqrt_1.
Qed.

(* the normal is orthogonal to the point differences: every point of p
   has the offset of the first one *)
Lemma plane_through_points (d : nat) (p : list R) (n : R) (j : nat) :
  3 <= d <= 5 -> j < d -> n <> 0%R ->
  let c := map (fun x => x / n)%R (map (cofactor_spec d p) (seq 0 d)) in
  (dot c (point_of d p j) + plane_offset p c)%R = 0%R.
Proof.
  intros Hd Hj Hn.
  assert (d = 3 \/ d = 4 \/ d = 5) as Hc by lia.
  destruct Hc as [-> | [-> | ->]].
  - assert (j = 0 \/ j = 1 \/ j = 2) as Hc by lia.
    destruct Hc as [-> | [-> | ->]]; unfold_plane; field; exact Hn.
  - assert (j = 0 \/ j = 1 \/ j = 2 \/ j = 3) as Hc by lia.
    destruct Hc as [-> | [-> | [-> | ->]]]; unfold_plane; field; exact Hn.
  - assert (j = 0 \/ j = 1 \/ j = 2 \/ j = 3 \/ j = 4) as Hc by lia.
    destruct Hc as [-> | [-> | [-> | [-> | ->]]]]; unfold_plane; field; exact Hn.
Qed.

(** C7. In exact real arithmetic, for [d] points in dimension
    [3 <= d <= 5] whose generalized cross product is not zero, [plane_nd]
    (which is [plane_3d] when [d = 3]) returns [d] coefficients of unit
    Euclidean norm and an offset such that [dot c p_j + offset = 0] for
    each of the points; coefficient [i] is the cofactor of the
    point-difference matrix for its column [i], with alternating sign,
    divided by the norm of the vector of these cofactors. *)
Theorem plane_nd_postcondition (d : nat) (p : list R) :
  3 <= d <= 5 ->
  sum_squares (map (cofactor_spec d p) (seq 0 d)) <> 0%R ->
  let c := fst (plane_nd d p) in
  let off := snd (plane_nd d p) in
  length c = d /\
  sqrt (sum_squares c) = 1%R /\
  (forall j, j < d -> (dot c (point_of d p j) + off)%R = 0%R) /\
  (forall i, i < d ->
     nth i c 0%R =
     (cofactor_spec d p i
      / sqrt (sum_squares (map (cofactor_spec d p) (seq 0 d))))%R) /\
  (d = 3 -> plane_3d p = plane_nd d p).
Proof.
  intros Hd Hnz c off. subst c off.
  assert (d = 3 -> plane_3d p = plane_nd d p) as H3
    by (intros ->; reflexivity).
  revert H3. generalize (plane_3d p) as p3. intros p3 H3.
  rewrite (plane_nd_unfold p Hd) in *. cbv zeta in *. cbn [fst snd].
  pose proof (sum_squares_nonneg (map (cofactor_spec d p) (seq 0 d))) as Hpos.
  assert (0 < sqrt (sum_squares (map (cofactor_spec d p) (seq 0 d))))%R
    as Hs by (apply sqrt_lt_R0; lra).
  repeat split; [| | | | exact H3].
  - unfold normalize. now rewrite !length_map, length_seq.
  - now apply normalize_unit.
  - intros j Hj. unfold normalize. rewrite norm_of_eq.
    apply (@plane_through_points d p _ j Hd Hj). lra.
  - intros i Hi. unfold normalize. rewrite norm_of_eq.
    change (fun x : R => fdiv x ?n) with (fun x : R => (x / n)%R).
    rewrite (nth_indep _ 0%R (0 / sqrt (sum_squares (map (cofactor_spec d p) (seq 0 d))))%R)
      by now rewrite !length_map, length_seq.
    rewrite (map_nth (fun x => x / _)%R).
    f_equal.
    rewrite (nth_indep _ 0%R (cofactor_spec d p 0))
      by now rewrite length_map, length_seq.
    rewrite map_nth. now rewrite seq_nth.
Qed.

Lemma plane_nd_postcondition_witness :
  let p := [0; 0; 0; 1; 0; 0; 0; 1; 0]%R in
  let c := fst (plane_nd 3 p) in
  let off := snd (plane_nd 3 p) in
  length c = 3 /\
  sqrt (sum_squares c) = 1%R /\
  (forall j, j < 3 -> (dot c (point_of 3 p j) + off)%R = 0%R) /\
  (forall i, i < 3 ->
     nth i c 0%R =
     (cofactor_spec 3 p i
      / sqrt (sum_squares (map (cofactor_spec 3 p) (seq 0 3))))%R) /\
  (3 = 3 -> plane_3d p = plane_nd 3 p).
Proof.
  intro p. apply (@plane_nd_postcondition 3 p).
  - lia.
  - unfold p, sum_squares. unfold_plane. lra.
Defined.

(** ** Outcomes and list traversals *)

Lemma bind_Ret {A B : Type} (m : outcome A) (k : A -> outcome B) (b : B) :
  bind m k = Ret b -> exists a, m = Ret a /\ k a = Ret b.
Proof. destruct m; simpl; intros H; try discriminate. eauto. Qed.

Ltac bind_inv H :=
  let a := fresh "a" in
  let Ha := fresh "Ha" in
  let Hk := fresh "Hk" in
  apply bind_Ret in H; destruct H as [a [Ha Hk]].

Lemma load_Ret {A : Type} (a : list A) (k : nat) (x : A) :
  load a k = Ret x -> nth_error a k = Some x.
Proof. unfold load. destruct (nth_error a k); intros H; now inversion H. Qed.

Lemma load_lt {A : Type} (a : list A) (k : nat) (x : A) :
  load a k = Ret x -> k < length a.
Proof.
  intros H. apply load_Ret in H. apply nth_error_Some. congruence.
Qed.

Lemma mapM_Ret {A B : Type} (f : A -> outcome B) (l : list A) (bs : list B) :
  mapM f l = Ret bs -> Forall2 (fun a b => f a = Ret b) l bs.
Proof.
  revert bs. induction l as [|a l IH]; intros bs H; simpl in H.
  - inversion H. constructor.
  - bind_inv H. bind_inv Hk. inversion Hk0. subst. constructor; auto.
Qed.

Lemma mapM_length {A B : Type} (f : A -> outcome B) (l : list A) (bs : list B) :
  mapM f l = Ret bs -> length bs = length l.
Proof.
  intros H. apply mapM_Ret in H. symmetry. eapply Forall2_length; eauto.
Qed.

Lemma mapM_Forall {A B : Type} (f : A -> outcome B) (P : B -> Prop)
    (l : list A) (bs : list B) :
  (forall a b, In a l -> f a = Ret b -> P b) ->
  mapM f l = Ret bs -> Forall P bs.
Proof.
  intros Hf H. apply mapM_Ret in H.
  induction H; constructor.
  - apply (Hf x); simpl; auto.
  - apply IHForall2. intros a b Ha. apply Hf. simpl; auto.
Qed.

Lemma mapM_In {A B : Type} (f : A -> outcome B) (l : list A) (bs : list B)
    (b : B) :
  mapM f l = Ret bs -> In b bs -> exists a, In a l /\ f a = Ret b.
Proof.
  intros H. apply mapM_Ret in H. induction H; intros Hin; [contradiction|].
  destruct Hin as [<- | Hin].
  - exists x. simpl; auto.
  - destruct (IHForall2 Hin) as [a [Ha Hf]]. exists a. simpl; auto.
Qed.

(** ** Ordering utilities *)

Lemma insert_by_perm {A : Type} (lt : A -> A -> bool) (x : A) (l : list A) :
  Permutation (insert_by lt x l) (x :: l).
Proof.
  induction l as [|y l IH]; simpl; auto.
  destruct (lt y x); auto.
  rewrite IH. apply perm_swap.
Qed.

Lemma sort_int_perm (v : list nat) (desc : bool) :
  Permutation (sort_int v desc) v.
Proof.
  unfold sort_int. induction v as [|x v IH]; simpl; auto.
  rewrite insert_by_perm. now constructor.
Qed.

Lemma isort_desc_perm {F : Type} {SF : Scalar F} (l : list (F * nat)) :
  Permutation (isort_desc l) l.
Proof.
  unfold isort_desc. induction l as [|x l IH]; simpl; auto.
  rewrite insert_by_perm. now constructor.
Qed.

Lemma ismember_length (l r : list nat) : length (ismember l r) = length l.
Proof. unfold ismember. apply length_map. Qed.

Lemma keep_rows_incl {X : Type} (flags : list nat) (rows : list X) :
  incl (keep_rows flags rows) rows.
Proof.
  unfold keep_rows. intros x Hx. apply in_map_iff in Hx.
  destruct Hx as [[f y] [Hy Hin]]. simpl in Hy. subst.
  apply filter_In in Hin. destruct Hin as [Hin _].
  now apply in_combine_r in Hin.
Qed.

Lemma drop_rows_incl {X : Type} (flags : list nat) (rows : list X) :
  incl (drop_rows flags rows) rows.
Proof.
  unfold drop_rows. intros x Hx. apply in_map_iff in Hx.
  destruct Hx as [[f y] [Hy Hin]]. simpl in Hy. subst.
  apply filter_In in Hin. destruct Hin as [Hin _].
  now apply in_combine_r in Hin.
Qed.

Lemma keep_rows_length {X : Type} (flags : list nat) (rows : list X) :
  length (keep_rows flags rows) <= length rows.
Proof.
  unfold keep_rows. rewrite length_map.
  etransitivity; [apply filter_length_le|].
  rewrite length_combine. lia.
Qed.

Lemma swap_last2_perm (face : list nat) : Permutation (swap_last2 face) face.
Proof.
  unfold swap_last2. destruct (rev face) as [|a [|b r]] eqn:E; auto.
  rewrite <- (rev_involutive face), E. simpl.
  rewrite <- app_assoc. simpl.
  apply Permutation_app_head. apply perm_swap.
Qed.

Lemma in_firstn {A : Type} (n : nat) (l : list A) (x : A) :
  In x (firstn n l) -> In x l.
Proof.
  intros H. rewrite <- (firstn_skipn n l). apply in_or_app. now left.
Qed.

Lemma in_skipn {A : Type} (n : nat) (l : list A) (x : A) :
  In x (skipn n l) -> In x l.
Proof.
  intros H. rewrite <- (firstn_skipn n l). apply in_or_app. now right.
Qed.

Lemma picked_NoDup {A B : Type} (P : A * B -> bool) (g : list A) (fl : list B) :
  NoDup g -> NoDup (map fst (filter P (combine g fl))).
Proof.
  revert fl. induction g as [|x g IH]; intros fl Hn; simpl; [constructor|].
  destruct fl as [|b fl]; simpl; [constructor|].
  inversion Hn; subst.
  destruct (P (x, b)); simpl; auto.
  constructor; auto.
  intros Hin. apply in_map_iff in Hin. destruct Hin as [[y c] [Hy Hin]].
  simpl in Hy. subst y. apply filter_In in Hin. destruct Hin as [Hin _].
  apply in_combine_l in Hin. contradiction.
Qed.

Lemma picked_incl {A B : Type} (P : A * B -> bool) (g : list A) (fl : list B) :
  incl (map fst (filter P (combine g fl))) g.
Proof.
  intros x Hin. apply in_map_iff in Hin. destruct Hin as [[y c] [Hy Hin]].
  simpl in Hy. subst y. apply filter_In in Hin. destruct Hin as [Hin _].
  now apply in_combine_l in Hin.
Qed.

Lemma picked_length (g r : list nat) :
  length (filter (fun xf : nat * nat => negb (Nat.eqb (snd xf) 0))
                 (combine g (ismember g r)))
  = list_sum (ismember g r).
Proof.
  unfold ismember. induction g as [|x g IH]; simpl; auto.
  destruct (existsb (Nat.eqb x) r); simpl; auto.
Qed.

(** ** The main loop *)

Section EngineFacts.
Context {F : Type} {SF : Scalar F}.
Variable env : libc F.
Variable d : nat.
Variable plane : list F -> list F * F.
Variable det : list F -> F.
Variable points : list (list F).

Local Notation insert_pt := (insert_point env d plane det points).
Local Notation loop := (main_loop env d plane det points).
Local Notation add_fs := (add_faces d plane points).
Local Notation orient_nf := (orient_new_face env det points).

Lemma visible_flags_none (h : hull F) (points_s : list F) :
  (forall c o, In (c, o) (combine (cf h) (df h)) ->
               fgtb (fadd (dot points_s c) o) f0 = false) ->
  list_sum (visible_flags h points_s) = 0.
Proof.
  unfold visible_flags. induction (combine (cf h) (df h)) as [|[c o] l IH];
    intros H; simpl; auto.
  rewrite (H c o) by (simpl; auto). simpl. apply IH.
  intros c' o' Hin. apply H. simpl; auto.
Qed.

(** C8. When the popped point [i] sees no facet (the test
    [points_cf[j] + df[j] > 0.0] fails for every facet [j]; over the reals
    this is [dot(normal, i) + offset <= 0]), the iteration returns the
    arrays [faces], [cf] and [df], and so the facet count, as they were:
    the rest of the loop runs from the same hull with the queue without
    [i]. *)
Theorem interior_point_frame (i : nat) (row : list F) (pleft' : list nat)
    (h : hull F) :
  nth_error points i = Some row ->
  (forall c o, In (c, o) (combine (cf h) (df h)) ->
               fgtb (fadd (dot (firstn d row) c) o) f0 = false) ->
  insert_pt i h = Ret (Some h) /\
  loop (i :: pleft') h = loop pleft' h.
Proof.
  intros Hrow Hvis.
  assert (insert_pt i h = Ret (Some h)) as Hstep.
  { unfold insert_point, load. rewrite Hrow. simpl.
    now rewrite (visible_flags_none h (firstn d row) Hvis). }
  split; [exact Hstep|].
  simpl. now rewrite Hstep.
Qed.

(** *** The facet count *)

Lemma hull_of_faces (l : list (list nat * (list F * F))) :
  faces (hull_of l) = map fst l.
Proof. reflexivity. Qed.

Lemma nFaces_hull_of (l : list (list nat * (list F * F))) :
  nFaces (hull_of l) = length l.
Proof. unfold nFaces. simpl. apply length_map. Qed.

Lemma add_faces_count (i : nat) (horizon : list (list nat)) (h : hull F)
    (r : option (hull F)) :
  nFaces h <= CH_MAX_NUM_FACES ->
  add_fs i horizon h = Ret r ->
  match r with
  | Some h' => nFaces h' = nFaces h + length horizon /\
               nFaces h' <= CH_MAX_NUM_FACES
  | None => CH_MAX_NUM_FACES < nFaces h + length horizon
  end.
Proof.
  revert h r. induction horizon as [|ridge hz IH]; intros h r Hle H; simpl in H.
  - inversion H. subst. simpl. lia.
  - bind_inv H. destruct (plane a) as [cfi dfi].
    set (h' := Build_hull _ _ _) in Hk.
    assert (nFaces h' = S (nFaces h)) as Hn.
    { unfold nFaces, h'. simpl. rewrite length_app. simpl. lia. }
    destruct (Nat.ltb CH_MAX_NUM_FACES (nFaces h')) eqn:E.
    + inversion Hk. subst. apply Nat.ltb_lt in E. simpl. lia.
    + apply Nat.ltb_ge in E. specialize (IH h' r E Hk).
      destruct r as [h''|]; simpl; lia.
Qed.

Lemma insert_point_count (i : nat) (h h' : hull F) :
  nFaces h <= CH_MAX_NUM_FACES ->
  insert_pt i h = Ret (Some h') ->
  nFaces h' <= CH_MAX_NUM_FACES.
Proof.
  intros Hle H. unfold insert_point in H.
  bind_inv H.
  destruct (Nat.eqb (list_sum (visible_flags h (firstn d a))) 0).
  - inversion Hk. now subst.
  - bind_inv Hk. destruct a0 as [h1|]; [|discriminate].
    bind_inv Hk0. inversion Hk. subst h'. clear Hk.
    apply add_faces_count in Ha0.
    2:{ unfold nFaces. simpl. pose proof (keep_rows_length
          (visible_flags h (firstn d a)) (faces h)). unfold nFaces in Hle. lia. }
    destruct Ha0 as [_ Hle1].
    rewrite nFaces_hull_of, length_app.
    apply mapM_length in Ha1. rewrite Ha1, length_firstn, length_skipn.
    rewrite length_combine. unfold nFaces in Hle1. lia.
Qed.

Lemma main_loop_count (pleft : list nat) (h h' : hull F) :
  nFaces h <= CH_MAX_NUM_FACES ->
  loop pleft h = Ret (Some h') ->
  nFaces h' <= CH_MAX_NUM_FACES.
Proof.
  revert h. induction pleft as [|i pl IH]; intros h Hle H; simpl in H.
  - inversion H. now subst.
  - bind_inv H. destruct a as [h1|]; [|discriminate].
    apply (IH h1); [|exact Hk]. eapply insert_point_count; eauto.
Qed.

(* ERROR in an iteration comes from the facets added for the horizon, and
   from nothing else *)
Lemma insert_point_error (i : nat) (row : list F) (h : hull F) :
  nth_error points i = Some row ->
  let flags := visible_flags h (firstn d row) in
  insert_pt i h = Ret None <->
  0 < list_sum flags /\
  add_fs i (horizon_ridges d flags h) (kept_facets flags h) = Ret None.
Proof.
  intros Hrow flags. unfold insert_point, load. rewrite Hrow. cbn [bind].
  fold flags. fold (kept_facets flags h). fold (horizon_ridges d flags h).
  destruct (Nat.eqb (list_sum flags) 0) eqn:E.
  - apply Nat.eqb_eq in E. split; [discriminate|]. intros [H _]. lia.
  - apply Nat.eqb_neq in E.
    destruct (add_fs i (horizon_ridges d flags h) (kept_facets flags h))
      as [[h1|]| | |] eqn:Ha; cbn [bind].
    + split; [|intros [_ H]; discriminate].
      destruct (mapM _ _); cbn [bind]; discriminate.
    + split; [intros _; split; [lia|reflexivity]|reflexivity].
    + split; [discriminate|intros [_ H]; discriminate].
    + split; [discriminate|intros [_ H]; discriminate].
    + split; [discriminate|intros [_ H]; discriminate].
Qed.

(* an iteration that returns reports ERROR exactly when the point sees a
   facet and the facets that stay and those of the horizon pass the ceiling *)
Lemma insert_point_ceiling (i : nat) (row : list F) (h : hull F)
    (r : option (hull F)) :
  nth_error points i = Some row ->
  nFaces h <= CH_MAX_NUM_FACES ->
  insert_pt i h = Ret r ->
  let flags := visible_flags h (firstn d row) in
  r = None <->
  0 < list_sum flags /\
  CH_MAX_NUM_FACES
  < nFaces (kept_facets flags h) + length (horizon_ridges d flags h).
Proof.
  intros Hrow Hle Hr flags.
  assert (nFaces (kept_facets flags h) <= CH_MAX_NUM_FACES) as Hk.
  { unfold nFaces, kept_facets. cbn [faces].
    pose proof (keep_rows_length flags (faces h)). unfold nFaces in Hle. lia. }
  pose proof (@insert_point_error i row h Hrow) as He. cbv zeta in He.
  fold flags in He.
  split.
  - intros ->. apply He in Hr. destruct Hr as [Hv Ha]. split; auto.
    eapply add_faces_count in Ha; [exact Ha|exact Hk].
  - intros [Hv Hc].
    destruct (add_fs i (horizon_ridges d flags h) (kept_facets flags h))
      as [r'| | |] eqn:Ha.
    + pose proof Ha as Hn. eapply add_faces_count in Hn; [|exact Hk].
      destruct r' as [h1|]; [lia|].
      assert (insert_pt i h = Ret None) as E by (apply He; auto).
      congruence.
    + exfalso. revert Hr. unfold insert_point, load. rewrite Hrow. cbn [bind].
      fold flags. fold (kept_facets flags h). fold (horizon_ridges d flags h).
      destruct (Nat.eqb (list_sum flags) 0) eqn:E;
        [apply Nat.eqb_eq in E; lia|].
      rewrite Ha. discriminate.
    + exfalso. revert Hr. unfold insert_point, load. rewrite Hrow. cbn [bind].
      fold flags. fold (kept_facets flags h). fold (horizon_ridges d flags h).
      destruct (Nat.eqb (list_sum flags) 0) eqn:E;
        [apply Nat.eqb_eq in E; lia|].
      rewrite Ha. discriminate.
    + exfalso. revert Hr. unfold insert_point, load. rewrite Hrow. cbn [bind].
      fold flags. fold (kept_facets flags h). fold (horizon_ridges d flags h).
      destruct (Nat.eqb (list_sum flags) 0) eqn:E;
        [apply Nat.eqb_eq in E; lia|].
      rewrite Ha. discriminate.
Qed.

(* the loop reports ERROR exactly when one of its iterations does, and
   then at once: the points after it in the queue are not inserted *)
Lemma main_loop_None (pleft : list nat) (h : hull F) :
  loop pleft h = Ret None <->
  exists pre i post h',
    pleft = pre ++ i :: post /\ loop pre h = Ret (Some h') /\
    insert_pt i h' = Ret None.
Proof.
  revert h. induction pleft as [|j pl IH]; intros h.
  - split; [discriminate|].
    intros (pre & i & post & h' & E & _). destruct pre; discriminate.
  - cbn [main_loop].
    destruct (insert_pt j h) as [[h1|]| | |] eqn:Hj; cbn [bind].
    + rewrite IH. split.
      * intros (pre & i & post & h' & -> & Hpre & Hi).
        exists (j :: pre), i, post, h'. split; [reflexivity|].
        split; auto. cbn [main_loop]. rewrite Hj. exact Hpre.
      * intros (pre & i & post & h' & E & Hpre & Hi).
        destruct pre as [|j' pre]; cbn [app] in E; inversion E; subst.
        -- cbn [main_loop] in Hpre. inversion Hpre. subst h'. congruence.
        -- cbn [main_loop] in Hpre. rewrite Hj in Hpre. cbn [bind] in Hpre.
           exists pre, i, post, h'. auto.
    + split; auto. intros _. exists [], j, pl, h. auto.
    + split; [discriminate|].
      intros (pre & i & post & h' & E & Hpre & Hi).
      destruct pre as [|j' pre]; cbn [app] in E; inversion E; subst.
      * cbn [main_loop] in Hpre. inversion Hpre. subst h'. congruence.
      * cbn [main_loop] in Hpre. rewrite Hj in Hpre. discriminate.
    + split; [discriminate|].
      intros (pre & i & post & h' & E & Hpre & Hi).
      destruct pre as [|j' pre]; cbn [app] in E; inversion E; subst.
      * cbn [main_loop] in Hpre. inversion Hpre. subst h'. congruence.
      * cbn [main_loop] in Hpre. rewrite Hj in Hpre. discriminate.
    + split; [discriminate|].
      intros (pre & i & post & h' & E & Hpre & Hi).
      destruct pre as [|j' pre]; cbn [app] in E; inversion E; subst.
      * cbn [main_loop] in Hpre. inversion Hpre. subst h'. congruence.
      * cbn [main_loop] in Hpre. rewrite Hj in Hpre. discriminate.
Qed.

Lemma build_core_None (span : list F) :
  build_core env d plane det points span = Ret None <->
  exists h0,
    initial_hull d plane det points = Ret h0 /\
    loop (candidate_queue env d points span) h0 = Ret None.
Proof.
  unfold build_core.
  destruct (initial_hull d plane det points) as [h0| | |]; cbn [bind].
  - split; eauto. intros (h & E & H). inversion E. now subst.
  - split; [discriminate|]. intros (h & E & _). discriminate.
  - split; [discriminate|]. intros (h & E & _). discriminate.
  - split; [discriminate|]. intros (h & E & _). discriminate.
Qed.

Lemma initial_hull_count (h : hull F) :
  initial_hull d plane det points = Ret h -> nFaces h = d + 1.
Proof.
  unfold initial_hull, simplex_planes. intros H.
  bind_inv H. bind_inv Hk. inversion Hk0. subst h.
  rewrite nFaces_hull_of.
  apply mapM_length in Ha, Ha0.
  rewrite Ha0, length_combine, Ha, !length_seq. lia.
Qed.

Lemma build_core_count (span : list F) (h : hull F) :
  d + 1 <= CH_MAX_NUM_FACES ->
  build_core env d plane det points span = Ret (Some h) ->
  nFaces h <= CH_MAX_NUM_FACES.
Proof.
  intros Hd H. unfold build_core in H. bind_inv H.
  eapply main_loop_count; eauto.
  apply initial_hull_count in Ha. lia.
Qed.

(** *** The vertices of the facets *)

Lemma face_ok_perm (S : list nat) (f f' : list nat) :
  Permutation f' f -> face_ok d points S f -> face_ok d points S f'.
Proof.
  intros Hp (Hl & Hn & Hi & Hr). repeat split.
  - now rewrite (Permutation_length Hp).
  - eapply Permutation_NoDup; [symmetry|]; eauto.
  - intros x Hx. apply Hi. eapply Permutation_in; eauto.
  - eapply Permutation_Forall; [symmetry|]; eauto.
Qed.

Lemma face_ok_mono (S S' : list nat) (f : list nat) :
  incl S S' -> face_ok d points S f -> face_ok d points S' f.
Proof.
  intros HS (Hl & Hn & Hi & Hr). repeat split; auto.
  intros x Hx. auto.
Qed.

Lemma face_coords_lt (face : list nat) (ps : list F) :
  face_coords d points face = Ret ps ->
  Forall (fun v => v < length points) face.
Proof.
  unfold face_coords. intros H. bind_inv H. clear Hk.
  apply mapM_Ret in Ha.
  induction Ha; constructor; auto.
  bind_inv H. eapply load_lt; eauto.
Qed.

Lemma filter_neq_seq (k n : nat) :
  k < n ->
  filter (fun a => negb (Nat.eqb a k)) (seq 0 n)
  = seq 0 k ++ seq (S k) (n - S k).
Proof.
  intros Hk.
  replace n with (k + (1 + (n - S k))) at 1 by lia.
  rewrite !seq_app, !filter_app. simpl seq at 2.
  replace (0 + k + 1) with (S k) by lia. simpl (0 + k).
  f_equal.
  - apply forallb_filter_id. apply forallb_forall. intros x Hx.
    apply in_seq in Hx. apply negb_true_iff, Nat.eqb_neq. lia.
  - simpl. rewrite Nat.eqb_refl. simpl.
    apply forallb_filter_id. apply forallb_forall. intros x Hx.
    apply in_seq in Hx. apply negb_true_iff, Nat.eqb_neq. lia.
Qed.

Lemma simplex_face_length (k : nat) :
  k <= d -> length (simplex_face d k) = d.
Proof.
  intros Hk. unfold simplex_face. rewrite filter_neq_seq by lia.
  rewrite length_app, !length_seq. lia.
Qed.

Lemma simplex_face_NoDup (k : nat) : NoDup (simplex_face d k).
Proof. unfold simplex_face. apply NoDup_filter, seq_NoDup. Qed.

Lemma simplex_face_incl (k : nat) : incl (simplex_face d k) (seq 0 (d + 1)).
Proof. unfold simplex_face. intros x Hx. now apply filter_In in Hx. Qed.

Lemma orient_simplex_face_perm (k : nat) (fc fc' : list nat * (list F * F)) :
  orient_simplex_face det points k fc = Ret fc' ->
  Permutation (fst fc') (fst fc).
Proof.
  unfold orient_simplex_face. destruct fc as [face [cfk dfk]]. intros H.
  bind_inv H. destruct (fltb (det a) f0).
  - bind_inv Hk. inversion Hk0. subst. simpl. apply swap_last2_perm.
  - inversion Hk. subst. reflexivity.
Qed.

Lemma initial_hull_faces (h : hull F) :
  initial_hull d plane det points = Ret h ->
  Forall (face_ok d points (seq 0 (d + 1))) (faces h).
Proof.
  unfold initial_hull, simplex_planes. intros H.
  bind_inv H. bind_inv Hk. inversion Hk0. subst h. clear Hk0.
  rewrite hull_of_faces. apply Forall_map.
  eapply mapM_Forall; [|exact Ha0].
  intros [k fc] fc' Hin Ho. simpl in Ho.
  apply in_combine_r in Hin as Hfc. apply in_combine_l in Hin as Hk.
  apply in_seq in Hk.
  apply orient_simplex_face_perm in Ho.
  eapply face_ok_perm; [exact Ho|].
  destruct (@mapM_In _ _ _ _ _ _ Ha Hfc) as (j & Hj & Hf).
  apply in_seq in Hj. bind_inv Hf. inversion Hk0. subst fc. simpl.
  repeat split.
  - apply simplex_face_length. lia.
  - apply simplex_face_NoDup.
  - apply simplex_face_incl.
  - eapply face_coords_lt; eauto.
Qed.

Lemma horizon_of_ridge (nonvis : list (list nat)) (V ridge : list nat) :
  In ridge (horizon_of d nonvis V) ->
  exists g, In g nonvis /\ length ridge = d - 1 /\ incl ridge g /\
            (NoDup g -> NoDup ridge) /\ incl ridge V.
Proof.
  unfold horizon_of. intros H. apply in_map_iff in H.
  destruct H as [[g fl] [Hr Hin]]. simpl in Hr.
  apply filter_In in Hin. destruct Hin as [Hin Hsum]. simpl in Hsum.
  apply Nat.eqb_eq in Hsum.
  assert (fl = ismember g (sort_int V false)) as ->.
  { clear - Hin. revert Hin. induction nonvis as [|g' nv IH]; simpl; [tauto|].
    intros [H | H]; [inversion H; now subst | auto]. }
  apply in_combine_l in Hin.
  exists g. subst ridge. repeat split; auto.
  - rewrite length_map, picked_length. exact Hsum.
  - apply picked_incl.
  - apply picked_NoDup.
  - intros x Hx. apply in_map_iff in Hx. destruct Hx as [[y c] [Hy Hx]].
    simpl in Hy. subst y. apply filter_In in Hx. destruct Hx as [Hx Hc].
    simpl in Hc. unfold ismember in Hx.
    assert (c = if existsb (Nat.eqb x) (sort_int V false) then 1 else 0) as ->.
    { clear - Hx. revert Hx. induction g as [|y g IH]; simpl; [tauto|].
      intros [H | H]; [inversion H; now subst | auto]. }
    destruct (existsb (Nat.eqb x) (sort_int V false)) eqn:E; [|discriminate].
    apply existsb_exists in E. destruct E as [y [Hy Hxy]].
    apply Nat.eqb_eq in Hxy. subst y.
    eapply Permutation_in; [apply sort_int_perm|]. exact Hy.
Qed.

Lemma add_faces_faces (S : list nat) (i : nat) (hz : list (list nat))
    (h h' : hull F) :
  1 <= d -> ~ In i S ->
  (forall ridge, In ridge hz ->
                 length ridge = d - 1 /\ NoDup ridge /\ incl ridge S) ->
  Forall (face_ok d points (i :: S)) (faces h) ->
  add_fs i hz h = Ret (Some h') ->
  Forall (face_ok d points (i :: S)) (faces h').
Proof.
  intros Hd Hi. revert h. induction hz as [|ridge hz IH]; intros h Hr Hf H;
    simpl in H.
  - inversion H. now subst.
  - bind_inv H. destruct (plane a) as [cfi dfi].
    destruct (Nat.ltb _ _); [discriminate|].
    apply IH in Hk; auto.
    + intros r Hin. apply Hr. simpl; auto.
    + simpl. apply Forall_app. split; auto. constructor; [|constructor].
      destruct (Hr ridge) as (Hl & Hn & Hs); [simpl; auto|].
      rewrite firstn_all2 in * by lia.
      repeat split.
      * rewrite length_app. simpl. lia.
      * apply NoDup_app; auto.
        -- repeat constructor. simpl. tauto.
        -- intros x Hx [<- | []]. apply Hi. auto.
      * intros x Hx. apply in_app_or in Hx. destruct Hx as [Hx | [<- | []]];
          simpl; auto.
      * eapply face_coords_lt; eauto.
Qed.

Lemma orient_new_face_perm (nF : nat) (fc fc' : list nat * (list F * F)) :
  orient_nf nF fc = Ret fc' ->
  Permutation (fst fc') (fst fc).
Proof.
  unfold orient_new_face. destruct fc as [face [cfk dfk]]. intros H.
  bind_inv H. destruct a as [detA pp_next].
  destruct (fltb detA f0).
  - bind_inv Hk. bind_inv Hk0.
    destruct (NDEBUG env).
    + inversion Hk. subst. simpl. apply swap_last2_perm.
    + destruct (fleb _ _); [discriminate|].
      inversion Hk. subst. simpl. apply swap_last2_perm.
  - inversion Hk. subst. reflexivity.
Qed.

Lemma keep_rows_Forall {X : Type} (P : X -> Prop) (flags : list nat)
    (rows : list X) :
  Forall P rows -> Forall P (keep_rows flags rows).
Proof.
  intros H. apply Forall_forall. intros x Hx.
  apply keep_rows_incl in Hx. revert x Hx. now apply Forall_forall.
Qed.

Lemma insert_point_faces (S : list nat) (i : nat) (h h' : hull F) :
  1 <= d -> ~ In i S ->
  Forall (face_ok d points S) (faces h) ->
  insert_pt i h = Ret (Some h') ->
  Forall (face_ok d points (i :: S)) (faces h').
Proof.
  intros Hd Hi Hf H.
  assert (Forall (face_ok d points (i :: S)) (faces h)) as Hf'.
  { eapply Forall_impl; [|exact Hf]. intros f. apply face_ok_mono.
    intros x; simpl; auto. }
  unfold insert_point in H. bind_inv H.
  destruct (Nat.eqb _ 0).
  { inversion Hk. now subst. }
  bind_inv Hk. destruct a0 as [h1|]; [|discriminate].
  bind_inv Hk0. inversion Hk. subst h'. clear Hk.
  set (flags := visible_flags h (firstn d a)) in *.
  apply add_faces_faces with (S := S) in Ha0; auto.
  - rewrite hull_of_faces, map_app. apply Forall_app. split.
    + apply Forall_forall. intros f Hin. apply in_map_iff in Hin.
      destruct Hin as [[f' c] [<- Hin]]. apply in_firstn in Hin.
      apply in_combine_l in Hin. simpl.
      revert f' Hin. now apply Forall_forall.
    + apply Forall_map. eapply mapM_Forall; [|exact Ha1].
      intros fc fc' Hin Ho. apply orient_new_face_perm in Ho.
      eapply face_ok_perm; [exact Ho|].
      apply in_skipn in Hin.
      destruct fc as [f' c]. apply in_combine_l in Hin. simpl.
      clear Ho. revert f' Hin. now apply Forall_forall.
  - intros ridge Hin. apply in_concat in Hin.
    destruct Hin as [l [Hl Hin]]. apply in_map_iff in Hl.
    destruct Hl as [V [<- HV]].
    apply horizon_of_ridge in Hin.
    destruct Hin as (g & Hg & Hl & Hig & Hnd & _).
    apply keep_rows_incl in Hg.
    assert (face_ok d points S g) as (_ & Hgn & Hgs & _)
      by (eapply Forall_forall in Hf; eauto).
    repeat split; auto.
    intros x Hx. auto.
  - simpl. now apply keep_rows_Forall.
Qed.

Lemma main_loop_faces (S : list nat) (pleft : list nat) (h h' : hull F) :
  1 <= d -> NoDup pleft -> (forall x, In x pleft -> ~ In x S) ->
  Forall (face_ok d points S) (faces h) ->
  loop pleft h = Ret (Some h') ->
  Forall (face_ok d points (rev pleft ++ S)) (faces h').
Proof.
  intros Hd. revert S h. induction pleft as [|i pl IH]; intros S h Hn Hdis Hf H;
    simpl in H.
  - inversion H. now subst.
  - bind_inv H. destruct a as [h1|]; [|discriminate].
    inversion Hn; subst.
    apply insert_point_faces with (S := S) in Ha; auto.
    2:{ apply Hdis. simpl; auto. }
    apply IH with (S := i :: S) in Hk; auto.
    + simpl. now rewrite <- app_assoc.
    + intros x Hx [<- | Hs]; [contradiction|].
      apply (Hdis x); simpl; auto.
Qed.

Lemma candidate_queue_perm (span : list F) :
  (forall l, Permutation (qsort_desc_float env l) l) ->
  Permutation (candidate_queue env d points span)
              (seq (d + 1) (length points - (d + 1))).
Proof.
  intros Hq. unfold candidate_queue, sort_float_desc. cbn [snd].
  set (reldist := map _ (map _ (skipn (d + 1) points))).
  assert (length reldist = length points - (d + 1)) as Hl
    by (unfold reldist; now rewrite !length_map, length_skipn).
  rewrite Hq.
  assert (map snd (combine reldist (seq 0 (length reldist)))
          = seq 0 (length reldist)) as ->.
  { clear. generalize 0. induction reldist as [|x l IH]; intros n; simpl; auto.
    now rewrite IH. }
  rewrite Hl.
  assert (forall n m, map (fun x => x + d + 1) (seq n m) = seq (n + d + 1) m) as E.
  { intros n m. revert n. induction m as [|m IH]; intros n; simpl; auto.
    now rewrite (IH (S n)). }
  rewrite E. simpl. replace (d + 1) with (0 + d + 1) at 3 by lia. reflexivity.
Qed.

Lemma build_core_faces (span : list F) (h : hull F) :
  1 <= d ->
  (forall l, Permutation (qsort_desc_float env l) l) ->
  build_core env d plane det points span = Ret (Some h) ->
  Forall (fun f => length f = d /\ NoDup f /\
                   Forall (fun v => v < length points) f) (faces h).
Proof.
  intros Hd Hq H. unfold build_core in H. bind_inv H.
  apply initial_hull_faces in Ha.
  pose proof (candidate_queue_perm span Hq) as Hp.
  apply main_loop_faces with (S := seq 0 (d + 1)) in Hk; auto.
  - eapply Forall_impl; [|exact Hk]. intros f (H1 & H2 & _ & H4). auto.
  - eapply Permutation_NoDup; [symmetry; exact Hp|]. apply seq_NoDup.
  - intros x Hx Hs. apply (Permutation_in _ Hp) in Hx.
    apply in_seq in Hx. apply in_seq in Hs. lia.
Qed.

End EngineFacts.

(** ** The builders *)

Lemma row_of_concat {X : Type} (d : nat) (rows : list (list X)) (k : nat) :
  Forall (fun f => length f = d) rows -> k < length rows ->
  row_of (concat rows) d k = nth k rows [].
Proof.
  unfold row_of. intros H. revert k. induction H as [|f rows Hf H IH];
    intros k Hk; simpl in *; [lia|].
  destruct k as [|k].
  - simpl. rewrite firstn_app, Hf, Nat.sub_diag. simpl.
    rewrite firstn_all2 by lia. apply app_nil_r.
  - simpl. rewrite skipn_app, Hf.
    rewrite skipn_all2 by lia. simpl.
    replace (d + k * d - d) with (k * d) by lia.
    apply IH. lia.
Qed.

Lemma mapM_nth {A B : Type} (f : A -> outcome B) (l : list A) (bs : list B)
    (i : nat) (a : A) :
  mapM f l = Ret bs -> nth_error l i = Some a ->
  exists b, nth_error bs i = Some b /\ f a = Ret b.
Proof.
  intros H. apply mapM_Ret in H. revert i.
  induction H; intros i Hi; destruct i; simpl in *; try discriminate.
  - inversion Hi. subst. eauto.
  - eauto.
Qed.

Lemma ceiling_6 : 6 <= CH_MAX_NUM_FACES.
Proof. apply Nat.leb_le. vm_compute. reflexivity. Qed.

Section BuilderFacts.
Context {F : Type} {SF : Scalar F}.
Variable env : libc F.

Lemma add_noise_length (d nVert : nat) (coord : nat -> nat -> outcome F)
    (rand : nat -> Z) (points : list (list F)) :
  add_noise env d nVert coord rand = Ret points -> length points = nVert.
Proof.
  unfold add_noise. intros H. apply mapM_length in H.
  now rewrite H, length_seq.
Qed.

(* row i of the working points is vertex i of the input, perturbed *)
Lemma add_noise_rows (d nVert : nat) (coord : nat -> nat -> outcome F)
    (rand : nat -> Z) (points : list (list F)) (i : nat) :
  add_noise env d nVert coord rand = Ret points -> i < nVert ->
  exists row, nth_error points i = Some row /\ length row = d + 1 /\
    forall j, j < d ->
      exists x, coord i j = Ret x /\
                nth_error row j = Some (perturb env x (rand (i * d + j))).
Proof.
  unfold add_noise. intros H Hi.
  destruct (@mapM_nth _ _ _ _ _ i i H) as (row & Hrow & Hf).
  { rewrite nth_error_nth' with (d := 0) by now rewrite length_seq.
    now rewrite seq_nth. }
  exists row. split; auto. bind_inv Hf. inversion Hk. subst row. clear Hk.
  split.
  - apply mapM_length in Ha. rewrite length_app, Ha, length_seq. simpl. lia.
  - intros j Hj.
    destruct (@mapM_nth _ _ _ _ _ j j Ha) as (y & Hy & Hfy).
    { rewrite nth_error_nth' with (d := 0) by now rewrite length_seq.
      now rewrite seq_nth. }
    bind_inv Hfy. inversion Hk. subst y. exists a0. split; auto.
    rewrite nth_error_app1; auto.
    apply nth_error_Some. congruence.
Qed.

(* the calls that reach the hull engine *)
Lemma convhull_3d_build_Ret (vs : list ch_vertex) (rand : nat -> Z)
    (out : option (list nat)) (n : nat) :
  convhull_3d_build env (Some vs) rand = Ret (out, n) ->
  (out = None /\ n = 0) \/
  exists points span h,
    add_noise env 3 (length vs)
      (fun i j => v <- load vs i ;; Ret (vget v j)) rand = Ret points /\
    build_core env 3 plane_3d det_4x4 points span = Ret (Some h) /\
    out = Some (concat (faces h)) /\ n = nFaces h.
Proof.
  unfold convhull_3d_build. intros H.
  destruct (Nat.ltb (length vs) 3).
  { inversion H. auto. }
  bind_inv H. bind_inv Hk. bind_inv Hk0.
  destruct a1 as [h|]; inversion Hk; subst; auto.
  right. exists a, a0, h. auto.
Qed.

Lemma convhull_nd_build_Ret (vs : option (list F)) (nVert d : nat)
    (want_cf want_df : bool) (rand : nat -> Z) (r : hull_out) :
  convhull_nd_build env vs nVert d want_cf want_df rand = Ret r ->
  r = no_hull \/
  exists vs' points span h,
    vs = Some vs' /\
    d <= CONVHULL_ND_MAX_DIMENSIONS /\
    add_noise env d nVert (fun i j => load vs' (i * d + j)) rand
      = Ret points /\
    build_core env d (plane_nd d) (orient_det d) points span = Ret (Some h) /\
    r = Build_hull_out (Some (concat (faces h)))
                       (if want_cf then Some (concat (cf h)) else None)
                       (if want_df then Some (df h) else None)
                       (nFaces h).
Proof.
  unfold convhull_nd_build. intros H.
  destruct (_ && _); [discriminate|].
  destruct vs as [vs|]; [|inversion H; auto].
  destruct (Nat.leb nVert d); [inversion H; auto|].
  bind_inv H. bind_inv Hk.
  destruct (Nat.ltb CONVHULL_ND_MAX_DIMENSIONS d) eqn:E; [discriminate|].
  apply Nat.ltb_ge in E.
  bind_inv Hk0.
  destruct a1 as [h|]; inversion Hk; subst; auto.
  right. exists vs, a, a0, h. auto.
Qed.

End BuilderFacts.

(** C4. The facet count is compared with [CH_MAX_NUM_FACES] after every
    added facet.  Adding the facets of the horizon reports ERROR exactly
    when the count passes 50000; an iteration of the main loop reports ERROR
    exactly when the point sees a facet and adding the facets of its horizon
    to the facets that stay reports it, that is when their count passes
    50000; the main loop reports ERROR exactly when one of its iterations
    does, whatever the rest of the queue is; the engine reports ERROR
    exactly when the loop from the initial simplex does; a build whose
    engine reports ERROR returns the empty result (no faces, count 0, and
    for the N-D builder no plane coefficients and offsets); and every build
    that returns faces returns at most 50000 of them, those of a hull the
    engine returned without ERROR. *)
Theorem resource_ceiling {F : Type} {SF : Scalar F} (env : libc F) :
  (forall d plane points i horizon (h : hull F) r,
     nFaces h <= CH_MAX_NUM_FACES ->
     add_faces d plane points i horizon h = Ret r ->
     (r = None <-> CH_MAX_NUM_FACES < nFaces h + length horizon)) /\
  (forall d plane det points i row (h : hull F),
     nth_error points i = Some row ->
     let flags := visible_flags h (firstn d row) in
     (insert_point env d plane det points i h = Ret None <->
      0 < list_sum flags /\
      add_faces d plane points i (horizon_ridges d flags h)
        (kept_facets flags h) = Ret None) /\
     (forall r,
        nFaces h <= CH_MAX_NUM_FACES ->
        insert_point env d plane det points i h = Ret r ->
        (r = None <->
         0 < list_sum flags /\
         CH_MAX_NUM_FACES
         < nFaces (kept_facets flags h)
           + length (horizon_ridges d flags h)))) /\
  (forall d plane det points pleft (h : hull F),
     main_loop env d plane det points pleft h = Ret None <->
     exists pre i post h',
       pleft = pre ++ i :: post /\
       main_loop env d plane det points pre h = Ret (Some h') /\
       insert_point env d plane det points i h' = Ret None) /\
  (forall d plane det points span,
     build_core env d plane det points span = Ret None <->
     exists h0,
       initial_hull d plane det points = Ret h0 /\
       main_loop env d plane det points (candidate_queue env d points span) h0
       = Ret None) /\
  (forall vs rand points span,
     Nat.ltb (length vs) 3 = false ->
     add_noise env 3 (length vs)
       (fun i j => v <- load vs i ;; Ret (vget v j)) rand = Ret points ->
     find_span "input does not span all 3 dimensions" points (seq 0 3)
       = Ret span ->
     build_core env 3 plane_3d det_4x4 points span = Ret None ->
     convhull_3d_build env (Some vs) rand = Ret (None, 0)) /\
  (forall vs nVert d want_cf want_df rand points span,
     d <= CONVHULL_ND_MAX_DIMENSIONS -> Nat.leb nVert d = false ->
     add_noise env d nVert (fun i j => load vs (i * d + j)) rand = Ret points ->
     find_span "input vertices do not span all 'd' dimensions" points (seq 0 d)
       = Ret span ->
     build_core env d (plane_nd d) (orient_det d) points span = Ret None ->
     convhull_nd_build env (Some vs) nVert d want_cf want_df rand
     = Ret (Build_hull_out None None None 0)) /\
  (forall vs rand out n,
     convhull_3d_build env vs rand = Ret (out, n) ->
     n <= CH_MAX_NUM_FACES /\ (out = None -> n = 0) /\
     (forall fs, out = Some fs ->
        exists vs' points span h,
          vs = Some vs' /\
          add_noise env 3 (length vs')
            (fun i j => v <- load vs' i ;; Ret (vget v j)) rand = Ret points /\
          build_core env 3 plane_3d det_4x4 points span = Ret (Some h) /\
          fs = concat (faces h) /\ n = nFaces h)) /\
  (forall vs nVert d want_cf want_df rand r,
     convhull_nd_build env vs nVert d want_cf want_df rand = Ret r ->
     nOut_faces r <= CH_MAX_NUM_FACES /\
     (out_faces r = None -> r = Build_hull_out None None None 0) /\
     (forall fs, out_faces r = Some fs ->
        exists vs' points span h,
          vs = Some vs' /\
          add_noise env d nVert (fun i j => load vs' (i * d + j)) rand
            = Ret points /\
          build_core env d (plane_nd d) (orient_det d) points span
            = Ret (Some h) /\
          fs = concat (faces h) /\ nOut_faces r = nFaces h)).
Proof.
  split; [|split; [|split; [|split; [|split; [|split; [|split]]]]]].
  - intros d plane points i horizon h r Hle H. split.
    + intros ->. eapply add_faces_count in H; eauto.
    + intros Hlt. eapply add_faces_count in H; eauto.
      destruct r as [h'|]; auto. lia.
  - intros d plane det points i row h Hrow flags. split.
    + apply insert_point_error; auto.
    + intros r Hle Hr. eapply insert_point_ceiling; eauto.
  - intros. apply main_loop_None.
  - intros. apply build_core_None.
  - intros vs rand points span Hn Hp Hs Hb.
    unfold convhull_3d_build. rewrite Hn, Hp. cbn [bind]. rewrite Hs.
    cbn [bind]. now rewrite Hb.
  - intros vs nVert d wc wd rand points span Hd Hn Hp Hs Hb.
    unfold convhull_nd_build.
    apply Nat.ltb_ge in Hd as Hd'. rewrite Hd'. cbn [andb].
    rewrite Hn, Hp. cbn [bind]. rewrite Hs. cbn [bind]. now rewrite Hb.
  - intros vs rand out n H.
    destruct vs as [vs|];
      [|inversion H; split; [lia|split; [auto|intros fs E; discriminate]]].
    apply convhull_3d_build_Ret in H.
    destruct H as [[-> ->] | (points & span & h & Hp & Hb & -> & ->)].
    + split; [lia|split; [auto|intros fs E; discriminate]].
    + split; [|split; [discriminate|]].
      * apply build_core_count in Hb; auto. pose proof ceiling_6. lia.
      * intros fs E. inversion E. exists vs, points, span, h. auto.
  - intros vs nVert d wc wd rand r H.
    apply convhull_nd_build_Ret in H.
    destruct H as [-> | (vs' & points & span & h & -> & Hd & Hp & Hb & ->)].
    + split; [simpl; lia|split; [auto|intros fs E; discriminate]].
    + cbn [nOut_faces out_faces]. split; [|split; [discriminate|]].
      * apply build_core_count in Hb; auto.
        pose proof ceiling_6. unfold CONVHULL_ND_MAX_DIMENSIONS in Hd. lia.
      * intros fs E. inversion E. exists vs', points, span, h. auto.
Qed.

(** C6. With a [qsort] that permutes its input, every facet of a build
    that returns faces has exactly [d] vertex indices (3 for the 3-D
    builder), pairwise distinct and each below the number [n] of input
    points.  The indices are row numbers of the input array: the working
    working point in row [i] is vertex [i] of the input with the noise
    added, whatever the draws of rand() are. *)
Theorem facet_validity {F : Type} {SF : Scalar F} (env : libc F) :
  (forall l, Permutation (qsort_desc_float env l) l) ->
  (forall d nVert coord rand points i,
     add_noise env d nVert coord rand = Ret points -> i < nVert ->
     exists row, nth_error points i = Some row /\ length row = d + 1 /\
       forall j, j < d ->
         exists x, coord i j = Ret x /\
                   nth_error row j = Some (perturb env x (rand (i * d + j)))) /\
  (forall vs rand out n,
     convhull_3d_build env (Some vs) rand = Ret (Some out, n) ->
     length out = n * 3 /\
     forall k, k < n ->
       length (row_of out 3 k) = 3 /\ NoDup (row_of out 3 k) /\
       Forall (fun v => v < length vs) (row_of out 3 k)) /\
  (forall vs nVert d want_cf want_df rand r out,
     2 <= d ->
     convhull_nd_build env vs nVert d want_cf want_df rand = Ret r ->
     out_faces r = Some out ->
     length out = nOut_faces r * d /\
     forall k, k < nOut_faces r ->
       length (row_of out d k) = d /\ NoDup (row_of out d k) /\
       Forall (fun v => v < nVert) (row_of out d k)).
Proof.
  intros Hq.
  assert (forall (d : nat) (rows : list (list nat)) (n : nat),
            Forall (fun f => length f = d /\ NoDup f /\
                             Forall (fun v => v < n) f) rows ->
            length (concat rows) = length rows * d /\
            forall k, k < length rows ->
              length (row_of (concat rows) d k) = d /\
              NoDup (row_of (concat rows) d k) /\
              Forall (fun v => v < n) (row_of (concat rows) d k)) as Hrows.
  { intros d rows n Hf. split.
    - clear -Hf. induction Hf as [|f rows (Hl & _) _ IH]; simpl; auto.
      rewrite length_app, IH, Hl. lia.
    - intros k Hk. rewrite row_of_concat; auto.
      + assert (In (nth k rows []) rows) as Hin by now apply nth_In.
        eapply Forall_forall in Hf; eauto.
      + eapply Forall_impl; [|exact Hf]. now intros f (Hl & _). }
  split; [intros; eapply add_noise_rows; eauto|].
  split.
  - intros vs rand out n H.
    apply convhull_3d_build_Ret in H.
    destruct H as [[H _] | (points & span & h & Hl & Hb & Ho & ->)];
      [discriminate|].
    apply add_noise_length in Hl.
    inversion Ho. subst out.
    apply build_core_faces in Hb; auto. rewrite Hl in Hb.
    now apply Hrows.
  - intros vs nVert d wc wd rand r out Hd H Ho.
    apply convhull_nd_build_Ret in H.
    destruct H as [-> | (vs' & points & span & h & _ & _ & Hl & Hb & ->)];
      [discriminate|].
    apply add_noise_length in Hl.
    simpl in Ho. inversion Ho. subst out. simpl.
    apply build_core_faces in Hb; auto; [|lia]. rewrite Hl in Hb.
    now apply Hrows.
Qed.

(** ** Runs on the sample inputs *)

Lemma interior_point_frame_witness :
  insert_point (glibc false) 3 plane_3d det_4x4 tetra_in_points 4 tetra_hull
  = Ret (Some tetra_hull) /\
  main_loop (glibc false) 3 plane_3d det_4x4 tetra_in_points [4] tetra_hull
  = main_loop (glibc false) 3 plane_3d det_4x4 tetra_in_points [] tetra_hull.
Proof.
  apply (@interior_point_frame _ _ (glibc false) 3 plane_3d det_4x4
           tetra_in_points 4
           [float_of_Z 1; float_of_Z 1; float_of_Z 1; f1] [] tetra_hull).
  - reflexivity.
  - intros c o Hin. simpl in Hin.
    repeat (destruct Hin as [Hin | Hin];
            [inversion Hin; subst c o; vm_compute; reflexivity|]).
    contradiction.
Defined.

(* a run into the ceiling: point 4 sees one facet of the hull, the 49999
   others stay, and the second facet added for the horizon is facet 50001;
   and a run below it *)
Lemma resource_ceiling_witness :
  let flags :=
    visible_flags brim_hull [float_of_Z 1; float_of_Z 1; float_of_Z 1] in
  (insert_point (glibc false) 3 plane_3d det_4x4 tetra_in_points 4 brim_hull
   = Ret None /\
   0 < list_sum flags /\
   CH_MAX_NUM_FACES
   < nFaces (kept_facets flags brim_hull)
     + length (horizon_ridges 3 flags brim_hull)) /\
  main_loop (glibc false) 3 plane_3d det_4x4 tetra_in_points [4] brim_hull
  = Ret None /\
  (6 <= CH_MAX_NUM_FACES /\
   exists vs' points span h,
     Some tetra_out = Some vs' /\
     add_noise (glibc false) 3 (length vs')
       (fun i j => v <- load vs' i ;; Ret (vget v j)) lcg_rand = Ret points /\
     build_core (glibc false) 3 plane_3d det_4x4 points span = Ret (Some h) /\
     [0; 3; 2; 0; 1; 3; 0; 2; 1; 3; 4; 2; 1; 4; 3; 2; 4; 1]
     = concat (faces h) /\
     6 = nFaces h).
Proof.
  intros flags.
  destruct (resource_ceiling (glibc (F := PrimFloat.float) false))
    as (_ & Hins & Hloop & _ & _ & _ & H3d & _).
  destruct (Hins 3 plane_3d det_4x4 tetra_in_points 4
              [float_of_Z 1; float_of_Z 1; float_of_Z 1; f1] brim_hull
              eq_refl) as [Herr Hceil].
  assert (insert_point (glibc false) 3 plane_3d det_4x4 tetra_in_points 4
            brim_hull = Ret None) as Hi.
  { apply Herr. split.
    - apply Nat.ltb_lt. vm_compute. reflexivity.
    - vm_compute. reflexivity. }
  split; [|split].
  - split; [exact Hi|].
    apply (Hceil None); [|exact Hi|reflexivity].
    apply Nat.leb_le. vm_compute. reflexivity.
  - apply Hloop. exists [], 4, [], brim_hull.
    split; [reflexivity|split; [reflexivity|exact Hi]].
  - destruct (H3d (Some tetra_out) lcg_rand
                (Some [0; 3; 2; 0; 1; 3; 0; 2; 1; 3; 4; 2; 1; 4; 3; 2; 4; 1]) 6)
      as (H1 & _ & H3).
    + vm_compute. reflexivity.
    + split; [exact H1|]. apply H3. reflexivity.
Defined.

Lemma facet_validity_witness :
  let out := [0; 3; 2; 0; 1; 3; 0; 2; 1; 3; 4; 2; 1; 4; 3; 2; 4; 1] in
  length out = 6 * 3 /\
  forall k, k < 6 ->
    length (row_of out 3 k) = 3 /\ NoDup (row_of out 3 k) /\
    Forall (fun v => v < length tetra_out) (row_of out 3 k).
Proof.
  intro out.
  destruct (facet_validity (glibc (F := PrimFloat.float) false)
              (@isort_desc_perm _ _)) as (_ & H3d & _).
  apply (H3d tetra_out lcg_rand out 6).
  vm_compute. reflexivity.
Defined.

(** ** The Delaunay reduction *)

Section HullShape.
Context {F : Type} {SF : Scalar F}.
Variable env : libc F.

Lemma hull_of_wf (l : list (list nat * (list F * F))) : hull_wf (hull_of l).
Proof. unfold hull_wf, nFaces. simpl. now rewrite !length_map. Qed.

Lemma insert_point_wf d plane det points (i : nat) (h h' : hull F) :
  hull_wf h ->
  insert_point env d plane det points i h = Ret (Some h') -> hull_wf h'.
Proof.
  intros Hw H. unfold insert_point in H. bind_inv H.
  destruct (Nat.eqb _ 0).
  { inversion Hk. now subst. }
  bind_inv Hk. destruct a0 as [h1|]; [|discriminate].
  bind_inv Hk0. inversion Hk. apply hull_of_wf.
Qed.

Lemma main_loop_wf d plane det points (pleft : list nat) (h h' : hull F) :
  hull_wf h ->
  main_loop env d plane det points pleft h = Ret (Some h') -> hull_wf h'.
Proof.
  revert h. induction pleft as [|i pl IH]; intros h Hw H; simpl in H.
  - inversion H. now subst.
  - bind_inv H. destruct a as [h1|]; [|discriminate].
    apply (IH h1); auto. eapply insert_point_wf; eauto.
Qed.

Lemma build_core_wf d plane det points (span : list F) (h : hull F) :
  build_core env d plane det points span = Ret (Some h) -> hull_wf h.
Proof.
  unfold build_core. intros H. bind_inv H.
  eapply main_loop_wf; [|exact Hk].
  unfold initial_hull in Ha. bind_inv Ha. bind_inv Hk0. inversion Hk1.
  apply hull_of_wf.
Qed.

Lemma convhull_nd_build_df (vs : option (list F)) (nVert d : nat)
    (rand : nat -> Z) (out : hull_out) :
  convhull_nd_build env vs nVert d true true rand = Ret out ->
  length (match out_df out with
          | Some a => firstn (nOut_faces out) a
          | None => []
          end) = nOut_faces out.
Proof.
  intros H. apply convhull_nd_build_Ret in H.
  destruct H as [-> | (vs' & points & span & h & _ & _ & _ & Hb & ->)];
    [reflexivity|].
  simpl. apply build_core_wf in Hb. destruct Hb as [_ Hb].
  rewrite length_firstn. lia.
Qed.

Lemma flat_rows_length {X : Type} (a : option (list X)) (w n : nat) :
  a <> None -> length (flat_rows a w n) = n.
Proof.
  destruct a; [|congruence]. intros _. unfold flat_rows.
  now rewrite length_map, length_seq.
Qed.

(* the two output loops of delaunay_nd_mesh *)
Lemma count_visible_filter (visible : list F) :
  count_visible visible = length (filter (fun v => fgtb v f0) visible).
Proof.
  unfold count_visible.
  assert (forall n, fold_left (fun n v => if fgtb v f0 then S n else n) visible n
                    = n + length (filter (fun v => fgtb v f0) visible)) as H.
  { induction visible as [|v l IH]; intros n; simpl; [lia|].
    rewrite IH. destruct (fgtb v f0); simpl; lia. }
  apply (H 0).
Qed.

Lemma fill_mesh_filter (visible : list F) (hullfaces : list (list nat)) :
  fill_mesh visible hullfaces
  = (concat (map snd (filter (fun vf => fgtb (fst vf) f0)
                             (combine visible hullfaces))),
     length (filter (fun vf => fgtb (fst vf) f0) (combine visible hullfaces))).
Proof.
  unfold fill_mesh.
  assert (forall l (m : list nat) (j : nat),
            fold_left (fun (mj : list nat * nat) (vf : F * list nat) =>
                         if fgtb (fst vf) f0
                         then (fst mj ++ snd vf, S (snd mj)) else mj) l (m, j)
            = (m ++ concat (map snd (filter (fun vf => fgtb (fst vf) f0) l)),
               j + length (filter (fun vf => fgtb (fst vf) f0) l))) as H.
  { induction l as [|[v f] l IH]; intros m j; simpl.
    - now rewrite app_nil_r, Nat.add_0_r.
    - destruct (fgtb v f0); simpl; rewrite IH; simpl.
      + now rewrite <- app_assoc, Nat.add_succ_r.
      + reflexivity. }
  apply (H _ [] 0).
Qed.

Lemma seen_from_visible (p : list F) (hullfaces : list (list nat))
    (cfs : list (list F)) (dfs : list F) :
  map snd (filter (fun vf => fgtb (fst vf) f0)
                  (combine (visible_values cfs dfs p) hullfaces))
  = map fst (seen_from p hullfaces cfs dfs).
Proof.
  unfold seen_from, visible_values.
  generalize (combine cfs dfs) as cds. intros cds. revert hullfaces.
  induction cds as [|[c o] cds IH]; intros [|f hf]; simpl; auto.
  destruct (fgtb _ f0); simpl; now rewrite IH.
Qed.

Lemma seen_from_count (p : list F) (hullfaces : list (list nat))
    (cfs : list (list F)) (dfs : list F) :
  length hullfaces = length (combine cfs dfs) ->
  length (filter (fun v => fgtb v f0) (visible_values cfs dfs p))
  = length (seen_from p hullfaces cfs dfs).
Proof.
  unfold seen_from, visible_values.
  generalize (combine cfs dfs) as cds. intros cds. revert hullfaces.
  induction cds as [|[c o] cds IH]; intros [|f hf] Hl; simpl in *;
    try discriminate; auto.
  destruct (fgtb _ f0); simpl; rewrite (IH hf); auto.
Qed.

(* the scan for the largest height returns the number of a lifted point *)
Lemma find_maxW_lt (projpoints : list (list F)) (nd k : nat) :
  find_maxW projpoints nd = Some k -> k < length projpoints.
Proof.
  unfold find_maxW.
  generalize (fopp (lit 223 11)) as m.
  assert (forall rows off (st : F * option nat) k,
            snd (fold_left
                   (fun (st : F * option nat) (ir : nat * list F) =>
                      if fgtb (rd (snd ir) nd) (fst st)
                      then (rd (snd ir) nd, Some (fst ir)) else st)
                   (combine (seq off (length rows)) rows) st) = Some k ->
            snd st = Some k \/ off <= k < off + length rows) as H.
  { induction rows as [|r rows IH]; intros off st j;
      cbn [length seq combine fold_left fst snd]; auto.
    intros E. apply IH in E.
    destruct (fgtb (rd r nd) (fst st)); cbn [snd] in E.
    - destruct E as [E | E]; [inversion E; subst; right; lia|right; lia].
    - destruct E as [E | E]; [auto|right; lia]. }
  intros m E. apply H in E. cbn [snd] in E.
  destruct E as [E | E]; [discriminate|lia].
Qed.

(* the call from the scan on: without a largest height the assert ends it
   (with NDEBUG, the read of projpoints[-1]); with one, it returns the
   facets seen from the viewpoint *)
Lemma delaunay_nd_mesh_scan (points : list F) (nPoints nd : nat)
    (rand : nat -> Z) (Mesh : option (list nat))
    (projpoints : list (list F)) (out : hull_out) :
  project env points nPoints nd rand = Ret projpoints ->
  convhull_nd_build env (Some (concat projpoints)) nPoints (nd + 1) true true
    (fun k => rand (nPoints * nd + k)) = Ret out ->
  match find_maxW projpoints nd with
  | None =>
      delaunay_nd_mesh env points nPoints nd rand Mesh
      = if NDEBUG env then Undef else Abort
  | Some maxW_idx =>
      exists p,
        synthetic_point nd projpoints maxW_idx = Ret p /\
        let facets :=
          seen_from p
            (flat_rows (out_faces out) (nd + 1) (nOut_faces out))
            (flat_rows (out_cf out) (nd + 1) (nOut_faces out))
            (match out_df out with
             | Some a => firstn (nOut_faces out) a
             | None => []
             end) in
        count_visible
          (visible_values
             (flat_rows (out_cf out) (nd + 1) (nOut_faces out))
             (match out_df out with
              | Some a => firstn (nOut_faces out) a
              | None => []
              end) p) = length facets /\
        delaunay_nd_mesh env points nPoints nd rand Mesh
        = Ret (if Nat.ltb 0 (length facets)
               then Some (concat (map fst facets)) else Mesh,
               length facets)
  end.
Proof.
  intros Hproj Hbuild.
  unfold delaunay_nd_mesh. rewrite Hproj. cbn [bind]. rewrite Hbuild.
  cbn [bind].
  destruct (find_maxW projpoints nd) as [k|] eqn:Hk; [|reflexivity].
  apply find_maxW_lt in Hk.
  destruct (nth_error projpoints k) as [row|] eqn:Hrow;
    [|apply nth_error_None in Hrow; lia].
  unfold synthetic_point, load. rewrite Hrow. cbn [bind].
  eexists. split; [reflexivity|].
  set (p := repeat f0 nd ++ [w_optimal2 (firstn nd row) (rd row nd)]).
  set (hullfaces := flat_rows (out_faces out) (nd + 1) (nOut_faces out)).
  set (cfs := flat_rows (out_cf out) (nd + 1) (nOut_faces out)).
  set (dfs := match out_df out with
              | Some a => firstn (nOut_faces out) a
              | None => []
              end).
  assert (length hullfaces = length (combine cfs dfs)) as Hl.
  { pose proof Hbuild as Hdf. apply convhull_nd_build_df in Hdf.
    fold dfs in Hdf.
    rewrite length_combine, Hdf. unfold hullfaces, cfs.
    apply convhull_nd_build_Ret in Hbuild.
    destruct Hbuild as [-> | (vs' & pts & span & h & _ & _ & _ & _ & ->)];
      simpl; [reflexivity|].
    rewrite !length_map, length_seq. lia. }
  cbv zeta. set (facets := seen_from p hullfaces cfs dfs).
  rewrite count_visible_filter, (seen_from_count p hullfaces cfs dfs Hl).
  fold facets. split; [reflexivity|].
  destruct (Nat.ltb 0 (length facets)) eqn:E; [|reflexivity].
  rewrite fill_mesh_filter.
  rewrite seen_from_visible. fold facets.
  assert (length (filter (fun vf : F * list nat => fgtb (fst vf) f0)
                         (combine (visible_values cfs dfs p) hullfaces))
          = length facets) as ->.
  { rewrite <- (length_map snd), seen_from_visible. fold facets.
    apply length_map. }
  now rewrite Nat.eqb_refl.
Qed.

End HullShape.

(** *** Over the reals *)

Lemma Rltb_true (a b : R) : Rltb a b = true <-> (a < b)%R.
Proof. unfold Rltb. destruct (Rlt_dec a b); split; auto; discriminate. Qed.

Lemma Rltb_false (a b : R) : Rltb a b = false <-> (b <= a)%R.
Proof.
  unfold Rltb. destruct (Rlt_dec a b); split; auto; try discriminate; lra.
Qed.









(** C10 as amended. In a call in which the lifted points are formed and
    their hull build returns: when the scan for the largest height finds no
    point, the assert on [maxW_idx] ends the call (with NDEBUG the call reads
    [projpoints[-1]]); when it finds one, the viewpoint is formed, and if no
    facet is classified visible from it (as when the build reports no
    facets, which it does for too few points and after the facet ceiling),
    [*nMesh] is 0, [*Mesh] keeps the value it had, and the call returns. *)
Theorem delaunay_no_visible_facet {F : Type} {SF : Scalar F} (env : libc F)
    (points : list F) (nPoints nd : nat) (rand : nat -> Z)
    (Mesh : option (list nat)) (projpoints : list (list F)) (out : hull_out) :
  project env points nPoints nd rand = Ret projpoints ->
  convhull_nd_build env (Some (concat projpoints)) nPoints (nd + 1) true true
    (fun k => rand (nPoints * nd + k)) = Ret out ->
  match find_maxW projpoints nd with
  | None =>
      delaunay_nd_mesh env points nPoints nd rand Mesh
      = if NDEBUG env then Undef else Abort
  | Some maxW_idx =>
      exists p,
        synthetic_point nd projpoints maxW_idx = Ret p /\
        (count_visible
           (visible_values
              (flat_rows (out_cf out) (nd + 1) (nOut_faces out))
              (match out_df out with
               | Some a => firstn (nOut_faces out) a
               | None => []
               end) p) = 0 ->
         delaunay_nd_mesh env points nPoints nd rand Mesh = Ret (Mesh, 0)) /\
        (nOut_faces out = 0 ->
         delaunay_nd_mesh env points nPoints nd rand Mesh = Ret (Mesh, 0))
  end /\
  (nPoints <= nd + 1 -> out = Build_hull_out None None None 0).
Proof.
  intros Hproj Hbuild. split.
  - pose proof (@delaunay_nd_mesh_scan _ _ env points nPoints nd rand Mesh _ _
                  Hproj Hbuild) as H.
    destruct (find_maxW projpoints nd) as [k|]; [|exact H].
    destruct H as (p & Hp & H). cbv zeta in H. destruct H as [Hc Hret].
    exists p. split; [exact Hp|]. split.
    + intros H0. rewrite Hret. rewrite <- Hc, H0. reflexivity.
    + intros H0. rewrite Hret.
      assert (seen_from p (flat_rows (out_faces out) (nd + 1) (nOut_faces out))
                (flat_rows (out_cf out) (nd + 1) (nOut_faces out))
                (match out_df out with
                 | Some a => firstn (nOut_faces out) a
                 | None => []
                 end) = []) as ->.
      { unfold seen_from. rewrite H0. destruct (out_faces out); reflexivity. }
      reflexivity.
  - intros Hle. unfold convhull_nd_build in Hbuild.
    destruct (_ && _); [discriminate|].
    apply Nat.leb_le in Hle. rewrite Hle in Hbuild. now inversion Hbuild.
Qed.

(** C10 as stated fails for a call without points: the hull build reports
    no facets, and the assert on the largest height ends the call (with
    NDEBUG the call reads a lifted point that does not exist).  In binary64
    the same happens for one point with a coordinate that is not a number:
    its height is not a number either, and the scan, which keeps a height
    only if it is larger than the sentinel, finds no point. *)
Lemma delaunay_no_points :
  (delaunay_nd_mesh (F := R) (glibc false) [] 0 2 zero_rand None
   <> Ret (None, 0) /\
   delaunay_nd_mesh (F := R) (glibc false) [] 0 2 zero_rand None = Abort /\
   delaunay_nd_mesh (F := R) (glibc true) [] 0 2 zero_rand None = Undef) /\
  (exists projpoints out,
     project (glibc false) [PrimFloat.nan; float_of_Z 0] 1 2 zero_rand
     = Ret projpoints /\
     convhull_nd_build (glibc false) (Some (concat projpoints)) 1 (2 + 1)
       true true (fun k => zero_rand (1 * 2 + k)) = Ret out /\
     nOut_faces out = 0 /\
     find_maxW projpoints 2 = None /\
     delaunay_nd_mesh (glibc false) [PrimFloat.nan; float_of_Z 0] 1 2
       zero_rand (Some [7; 7; 7]) = Abort /\
     delaunay_nd_mesh (glibc true) [PrimFloat.nan; float_of_Z 0] 1 2
       zero_rand (Some [7; 7; 7]) = Undef).
Proof.
  split.
  - repeat split. discriminate.
  - eexists. eexists. split; [vm_compute; reflexivity|].
    split; [vm_compute; reflexivity|].
    repeat split; vm_compute; reflexivity.
Qed.


(** ** Degenerate input and the two builders *)

Lemma mapM_ext {A B : Type} (f g : A -> outcome B) (l : list A) :
  (forall a, In a l -> f a = g a) -> mapM f l = mapM g l.
Proof.
  induction l as [|a l IH]; intros H; simpl; auto.
  rewrite (H a) by (simpl; auto). rewrite IH; auto.
  intros b Hb. apply H. simpl; auto.
Qed.

Section Guards.
Context {F : Type} {SF : Scalar F}.
Variable env : libc F.

Lemma few_points_3d (vs : list ch_vertex) (rand : nat -> Z) :
  length vs < 3 -> convhull_3d_build env (Some vs) rand = Ret (None, 0).
Proof.
  intros H. unfold convhull_3d_build.
  apply Nat.ltb_lt in H. now rewrite H.
Qed.

Lemma few_points_nd (vs : option (list F)) (nVert d : nat)
    (want_cf want_df : bool) (rand : nat -> Z) :
  d <= CONVHULL_ND_MAX_DIMENSIONS -> nVert < d + 1 ->
  convhull_nd_build env vs nVert d want_cf want_df rand
  = Ret (Build_hull_out None None None 0).
Proof.
  intros Hd H. unfold convhull_nd_build.
  apply Nat.ltb_ge in Hd. rewrite Hd. cbn [andb].
  destruct vs; auto.
  assert (Nat.leb nVert d = true) as -> by (apply Nat.leb_le; lia).
  reflexivity.
Qed.

Lemma small_span (msg : string) (points : list (list F)) (js : list nat) :
  (exists j, In j js /\ fltb (span_of points j) min_span = true) ->
  find_span msg points js = Throw msg.
Proof.
  induction js as [|j js IH]; intros (k & Hin & Hk); simpl; [contradiction|].
  destruct (fltb (span_of points j) min_span) eqn:E; auto.
  destruct Hin as [-> | Hin]; [congruence|].
  rewrite IH; eauto.
Qed.

Lemma small_span_3d (vs : list ch_vertex) (rand : nat -> Z)
    (points : list (list F)) :
  3 <= length vs ->
  add_noise env 3 (length vs)
    (fun i j => v <- load vs i ;; Ret (vget v j)) rand = Ret points ->
  (exists j, j < 3 /\ fltb (span_of points j) min_span = true) ->
  convhull_3d_build env (Some vs) rand
  = Throw "input does not span all 3 dimensions".
Proof.
  intros Hn Hp (j & Hj & Hs). unfold convhull_3d_build.
  assert (Nat.ltb (length vs) 3 = false) as -> by (apply Nat.ltb_ge; lia).
  rewrite Hp. cbn [bind]. rewrite small_span; auto.
  exists j. split; auto. apply in_seq. lia.
Qed.

Lemma small_span_nd (vs : list F) (nVert d : nat) (want_cf want_df : bool)
    (rand : nat -> Z) (points : list (list F)) :
  d <= CONVHULL_ND_MAX_DIMENSIONS -> d + 1 <= nVert ->
  add_noise env d nVert (fun i j => load vs (i * d + j)) rand = Ret points ->
  (exists j, j < d /\ fltb (span_of points j) min_span = true) ->
  convhull_nd_build env (Some vs) nVert d want_cf want_df rand
  = Throw "input vertices do not span all 'd' dimensions".
Proof.
  intros Hd Hn Hp (j & Hj & Hs). unfold convhull_nd_build.
  apply Nat.ltb_ge in Hd. rewrite Hd. cbn [andb].
  assert (Nat.leb nVert d = false) as -> by (apply Nat.leb_gt; lia).
  rewrite Hp. cbn [bind]. rewrite small_span; auto.
  exists j. split; auto. apply in_seq. lia.
Qed.

(* with exactly three vertices the 3-D builder passes its guard; the
   initial simplex then needs the row 3 of a 3-row array *)
Lemma three_points_3d (a b c : ch_vertex) (rand : nat -> Z) :
  convhull_3d_build env (Some [a; b; c]) rand = Undef \/
  exists msg, convhull_3d_build env (Some [a; b; c]) rand = Throw msg.
Proof.
  unfold convhull_3d_build. cbn [length Nat.ltb Nat.leb].
  unfold add_noise. cbn [seq mapM load nth_error bind Nat.add Nat.mul app].
  set (points := [_; _; _]).
  destruct (find_span "input does not span all 3 dimensions" points [0; 1; 2])
    as [span| | |] eqn:Hs; cbn [bind].
  - left. reflexivity.
  - right. eauto.
  - exfalso. revert Hs. cbn [find_span].
    repeat (destruct (fltb _ _); [discriminate|]; cbn [bind]).
    discriminate.
  - exfalso. revert Hs. cbn [find_span].
    repeat (destruct (fltb _ _); [discriminate|]; cbn [bind]).
    discriminate.
Qed.

Lemma flat_vertices_load (vs : list ch_vertex) (i j : nat) :
  j < 3 ->
  load (flat_vertices vs) (i * 3 + j) = (v <- load vs i ;; Ret (vget v j)).
Proof.
  intros Hj. revert i. induction vs as [|v vs IH]; intros i.
  - unfold load. simpl. destruct i, j; reflexivity.
  - destruct i as [|i].
    + destruct j as [|[|[|j]]]; try lia; reflexivity.
    + replace (S i * 3 + j) with (3 + (i * 3 + j)) by lia.
      change (flat_vertices (v :: vs))
        with ([vget v 0; vget v 1; vget v 2] ++ flat_vertices vs).
      unfold load at 1. rewrite nth_error_app2 by (simpl; lia).
      replace (3 + (i * 3 + j) - length [vget v 0; vget v 1; vget v 2])
        with (i * 3 + j) by (simpl; lia).
      apply IH.
Qed.

Lemma find_span_msg (m1 m2 : string) (points : list (list F)) (js : list nat) :
  match find_span m1 points js, find_span m2 points js with
  | Ret s1, Ret s2 => s1 = s2
  | Throw _, Throw _ => True
  | _, _ => False
  end.
Proof.
  induction js as [|j js IH]; simpl; auto.
  destruct (fltb _ _); auto.
  destruct (find_span m1 points js), (find_span m2 points js); simpl; auto;
    try contradiction.
  now subst.
Qed.

(** X27. Apart from the count guard the two builders are one computation:
    for every number of vertices other than 3, [convhull_3d_build] and
    [convhull_nd_build] with [d = 3] on the same coordinates and the same
    draws of rand() have the same outcome: the same faces and the same
    count, or the same kind of failure. *)
Lemma builders_agree (vs : list ch_vertex) (want_cf want_df : bool)
    (rand : nat -> Z) :
  length vs <> 3 ->
  same_outcome
    (convhull_3d_build env (Some vs) rand)
    (convhull_nd_build env (Some (flat_vertices vs)) (length vs) 3
       want_cf want_df rand).
Proof.
  intros Hn. unfold convhull_3d_build, convhull_nd_build.
  change (Nat.ltb CONVHULL_ND_MAX_DIMENSIONS 3) with false. cbn [andb].
  destruct (Nat.ltb (length vs) 3) eqn:E.
  { apply Nat.ltb_lt in E.
    assert (Nat.leb (length vs) 3 = true) as -> by (apply Nat.leb_le; lia).
    simpl. split; reflexivity. }
  apply Nat.ltb_ge in E.
  assert (Nat.leb (length vs) 3 = false) as -> by (apply Nat.leb_gt; lia).
  assert (add_noise env 3 (length vs)
            (fun i j => load (flat_vertices vs) (i * 3 + j)) rand
          = add_noise env 3 (length vs)
              (fun i j => v <- load vs i ;; Ret (vget v j)) rand) as ->.
  { unfold add_noise. apply mapM_ext. intros i _. f_equal.
    apply mapM_ext. intros j Hj. apply in_seq in Hj.
    rewrite flat_vertices_load by lia. reflexivity. }
  destruct (add_noise env 3 (length vs) _ rand) as [points| | |];
    cbn [bind same_outcome]; auto.
  pose proof (find_span_msg "input does not span all 3 dimensions"
                "input vertices do not span all 'd' dimensions"
                points (seq 0 3)) as Hs.
  cbn [seq] in Hs.
  destruct (find_span "input does not span all 3 dimensions" points _)
    as [s1| | |];
  destruct (find_span "input vertices do not span all 'd' dimensions" points _)
    as [s2| | |]; try contradiction; cbn [bind same_outcome]; auto.
  subst s2.
  change (plane_nd 3) with (@plane_3d F SF).
  change (orient_det 3) with (@det_4x4 F SF).
  destruct (build_core env 3 plane_3d det_4x4 points s1) as [[h|]| | |];
    cbn [bind same_outcome out_faces nOut_faces no_hull]; auto.
Qed.

End Guards.

(* three vertices: the two builders on the same coordinates *)
Lemma three_points_runs :
  convhull_3d_build (glibc false) (Some three_points) lcg_rand = Undef /\
  convhull_nd_build (glibc false) (Some (flat_vertices three_points)) 3 3
    false false lcg_rand = Ret (Build_hull_out None None None 0).
Proof. split; vm_compute; reflexivity. Qed.

(** C3 at two failing inputs.  Three vertices that span the three axes
    pass the guard [nVert < 3] of the 3-D builder, which then reads the
    working point 3 behind its three rows (the N-D builder returns the empty
    result for the same coordinates).  Five vertices of the plane
    [x = 3e13]: every working point has the same first coordinate, so the
    span along that axis is 0, but the scan starts the minimum at the
    sentinel 2.23e13 and finds a span of 7.7e12; the input is not rejected
    and the build returns four facets. *)
Theorem degenerate_input_not_rejected :
  (convhull_3d_build (glibc false) (Some three_points) lcg_rand = Undef /\
   convhull_nd_build (glibc false) (Some (flat_vertices three_points)) 3 3
     false false lcg_rand = Ret (Build_hull_out None None None 0)) /\
  (exists points,
     add_noise (glibc false) 3 5
       (fun i j => v <- load wall_vertices i ;; Ret (vget v j)) lcg_rand
     = Ret points /\
     map (fun row => rd row 0) points = repeat (float_of_Z (3 * 10 ^ 13)) 5 /\
     span_of points 0 = float_of_Z (3 * 10 ^ 13 - 223 * 10 ^ 11) /\
     convhull_3d_build (glibc false) (Some wall_vertices) lcg_rand
     = Ret (Some [1; 3; 2;  0; 2; 3;  0; 1; 3;  0; 1; 2], 4)).
Proof.
  split; [exact three_points_runs|].
  eexists. split; [vm_compute; reflexivity|].
  split; [vm_compute; reflexivity|].
  split; vm_compute; reflexivity.
Qed.

(** C5 at a failing input: on three vertices the 3-D builder and the N-D
    builder with [d = 3] end differently. *)
Theorem builders_differ_on_three_points :
  ~ same_outcome
      (convhull_3d_build (glibc false) (Some three_points) lcg_rand)
      (convhull_nd_build (glibc false) (Some (flat_vertices three_points))
         (length three_points) 3 false false lcg_rand).
Proof.
  destruct three_points_runs as [H3 Hn].
  change (length three_points) with 3. rewrite H3, Hn. simpl. tauto.
Qed.

(** ** Containment *)

(** *** The hull as a list of facets *)

Lemma combine_hull_of {F : Type} (l : list (list nat * (list F * F))) :
  combine (faces (hull_of l)) (combine (cf (hull_of l)) (df (hull_of l))) = l.
Proof.
  induction l as [|[f [c o]] l IH]; simpl; auto.
  simpl in IH. now rewrite IH.
Qed.

Lemma hull_of_app {F : Type} (l : list (list nat * (list F * F)))
    (face : list nat) (c : list F) (o : F) :
  Build_hull (map fst l ++ [face])
             (map (fun x => fst (snd x)) l ++ [c])
             (map (fun x => snd (snd x)) l ++ [o])
  = hull_of (l ++ [(face, (c, o))]).
Proof. unfold hull_of. simpl. now rewrite !map_app. Qed.

Section Flags.
Context {F : Type} {SF : Scalar F}.

Lemma visible_flags_hull_of (l : list (list nat * (list F * F)))
    (points_s : list F) :
  visible_flags (hull_of l) points_s = map (facet_flag points_s) l.
Proof.
  unfold visible_flags. induction l as [|[f [c o]] l IH]; simpl; auto.
  simpl in IH. now rewrite IH.
Qed.

Lemma keep_rows_map {A X : Type} (flag : A -> nat) (f : A -> X) (l : list A) :
  keep_rows (map flag l) (map f l)
  = map f (filter (fun x => Nat.eqb (flag x) 0) l).
Proof.
  unfold keep_rows. induction l as [|a l IH]; simpl; auto.
  destruct (Nat.eqb (flag a) 0); simpl; now rewrite IH.
Qed.

Lemma drop_rows_map {A X : Type} (flag : A -> nat) (f : A -> X) (l : list A) :
  drop_rows (map flag l) (map f l)
  = map f (filter (fun x => Nat.eqb (flag x) 1) l).
Proof.
  unfold drop_rows. induction l as [|a l IH]; simpl; auto.
  destruct (Nat.eqb (flag a) 1); simpl; now rewrite IH.
Qed.

Lemma kept_hull_of (l : list (list nat * (list F * F))) (flag : _ -> nat) :
  Build_hull (keep_rows (map flag l) (faces (hull_of l)))
             (keep_rows (map flag l) (cf (hull_of l)))
             (keep_rows (map flag l) (df (hull_of l)))
  = hull_of (filter (fun x => Nat.eqb (flag x) 0) l).
Proof. unfold hull_of. simpl. now rewrite !keep_rows_map. Qed.

Lemma list_sum_flags_0 (points_s : list F) (l : list (list nat * (list F * F))) :
  list_sum (map (facet_flag points_s) l) = 0 ->
  forall f, In f l -> facet_flag points_s f = 0.
Proof.
  induction l as [|a l IH]; simpl; intros H f Hin; [contradiction|].
  destruct Hin as [<- | Hin]; [lia|]. apply IH; auto. lia.
Qed.

Lemma keep_rows_ismember (l r : list nat) :
  keep_rows (ismember l r) l
  = filter (fun x => negb (existsb (Nat.eqb x) r)) l.
Proof.
  unfold keep_rows, ismember. induction l as [|x l IH]; simpl; auto.
  destruct (existsb (Nat.eqb x) r); simpl; now rewrite IH.
Qed.

End Flags.

Lemma swap_last2_app (pre : list nat) (a b : nat) :
  swap_last2 (pre ++ [a; b]) = pre ++ [b; a].
Proof.
  unfold swap_last2. rewrite rev_app_distr. simpl.
  now rewrite rev_involutive.
Qed.

Lemma last_two {A : Type} (l : list A) :
  2 <= length l -> exists pre a b, l = pre ++ [a; b].
Proof.
  intros H. destruct (rev l) as [|b [|a r]] eqn:E.
  - apply (f_equal (@length A)) in E. rewrite length_rev in E. simpl in E. lia.
  - apply (f_equal (@length A)) in E. rewrite length_rev in E. simpl in E. lia.
  - exists (rev r), a, b. rewrite <- (rev_involutive l), E. simpl.
    now rewrite <- app_assoc.
Qed.

Lemma dot_negate (x c : list R) : dot x (map Ropp c) = (- dot x c)%R.
Proof.
  unfold dot.
  assert (forall a, fold_left (fun acc ab => fadd acc (fmul (fst ab) (snd ab)))
                              (combine x (map Ropp c)) (- a)%R
                    = (- fold_left (fun acc ab => fadd acc (fmul (fst ab) (snd ab)))
                                   (combine x c) a)%R) as H.
  { revert c. induction x as [|y x IH]; intros [|e c] a; simpl; auto.
    rewrite <- IH. f_equal. ring. }
  change (@f0 R R_scalar) with 0%R.
  rewrite <- (H 0%R). f_equal. ring.
Qed.

Lemma filter_seq_sorted (p : nat -> bool) (a n : nat) :
  StronglySorted lt (filter p (seq a n)).
Proof.
  revert a. induction n as [|n IH]; intros a; simpl; [constructor|].
  destruct (p a); auto. constructor; auto.
  apply Forall_forall. intros x Hx. apply filter_In in Hx.
  destruct Hx as [Hx _]. apply in_seq in Hx. lia.
Qed.

Lemma sorted_first (pre rest : list nat) (q0 s : nat) :
  StronglySorted lt (pre ++ q0 :: rest) ->
  In s (pre ++ q0 :: rest) -> ~ In s pre -> q0 <= s.
Proof.
  induction pre as [|x pre IH]; simpl; intros Hs Hin Hn.
  - inversion Hs; subst. destruct Hin as [-> | Hin]; [lia|].
    eapply Forall_forall in H2; eauto. lia.
  - inversion Hs; subst. destruct Hin as [-> | Hin]; [tauto|].
    apply IH; auto.
Qed.

(** *** The determinant and the side of a facet *)

Section Containment.
Variable env : libc R.
Variable d : nat.
Variable plane : list R -> list R * R.
Variable det : list R -> R.

Hypothesis d2 : 2 <= d.
Hypothesis Hswap : det_swaps d det.
Hypothesis Hthree : det_three_terms d det.
Hypothesis Hbasis : det_basis d det.
Hypothesis Hplane : plane_of_det d plane det.

Lemma rows_ok_perm (l l' : list (list R)) :
  Permutation l l' -> rows_ok d l -> rows_ok d l'.
Proof. intros Hp. unfold rows_ok. now apply Permutation_Forall. Qed.

(* a permutation of the rows changes the determinant by a sign *)
Lemma det_perm (l l' : list (list R)) :
  Permutation l l' ->
  exists s, (s = 1 \/ s = -1)%R /\
    forall pre post,
      rows_ok d (pre ++ l ++ post) -> length (pre ++ l ++ post) = d + 1 ->
      det (concat (pre ++ l' ++ post)) = (s * det (concat (pre ++ l ++ post)))%R.
Proof.
  induction 1 as [|x l l' Hp IH|x y l|l l' l'' Hp1 IH1 Hp2 IH2].
  - exists 1%R. split; [now left|]. intros. ring.
  - destruct IH as (s & Hs & IH). exists s. split; auto.
    intros pre post Hok Hlen.
    specialize (IH (pre ++ [x]) post).
    rewrite <- !app_assoc in IH. simpl in *. apply IH; auto.
  - exists (-1)%R. split; [now right|]. intros pre post Hok Hlen.
    simpl in *. rewrite (Hswap pre y x (l ++ post)); auto. ring.
  - destruct IH1 as (s1 & Hs1 & IH1). destruct IH2 as (s2 & Hs2 & IH2).
    exists (s2 * s1)%R. split.
    { destruct Hs1 as [-> | ->], Hs2 as [-> | ->]; [left|right|right|left]; ring. }
    intros pre post Hok Hlen.
    rewrite IH2, IH1; auto; [ring| |].
    + eapply rows_ok_perm; [|exact Hok].
      apply Permutation_app_head, Permutation_app_tail. exact Hp1.
    + rewrite <- Hlen. apply Permutation_length.
      apply Permutation_app_head, Permutation_app_tail. now symmetry.
Qed.

Lemma det_perm_face (l l' : list (list R)) :
  Permutation l l' -> rows_ok d l -> length l = d ->
  exists s, (s = 1 \/ s = -1)%R /\
    forall x, length x = d + 1 ->
      det (concat (l' ++ [x])) = (s * det (concat (l ++ [x])))%R.
Proof.
  intros Hp Hok Hlen. destruct (det_perm Hp) as (s & Hs & H).
  exists s. split; auto. intros x Hx.
  apply (H [] [x]); simpl.
  - apply Forall_app. split; auto.
  - rewrite length_app. simpl. lia.
Qed.

(* twice the same row: the determinant is 0 *)
Lemma det_dup (l : list (list R)) (a : list R) (l1 l2 l3 : list (list R)) :
  l = l1 ++ a :: l2 ++ a :: l3 ->
  rows_ok d l -> length l = d + 1 -> det (concat l) = 0%R.
Proof.
  intros -> Hok Hlen.
  assert (Permutation (a :: a :: l1 ++ l2 ++ l3) (l1 ++ a :: l2 ++ a :: l3))
    as Hp.
  { apply Permutation_sym. rewrite <- Permutation_middle. constructor.
    rewrite app_assoc, <- Permutation_middle, <- app_assoc. reflexivity. }
  destruct (det_perm Hp) as (s & Hs & H).
  assert (rows_ok d (a :: a :: l1 ++ l2 ++ l3)) as Hok'
    by (eapply rows_ok_perm; [symmetry; exact Hp | exact Hok]).
  assert (length (a :: a :: l1 ++ l2 ++ l3) = d + 1) as Hlen'
    by (rewrite (Permutation_length Hp); exact Hlen).
  specialize (H [] []). simpl in H. rewrite !app_nil_r in H.
  rewrite H; auto.
  pose proof (Hswap [] a a (l1 ++ l2 ++ l3) Hok' Hlen') as Hs2.
  simpl in Hs2.
  assert (det (a ++ a ++ concat (l1 ++ l2 ++ l3)) = 0)%R as -> by lra.
  ring.
Qed.

Lemma det_face_vertex (rows : list (list R)) (x : list R) :
  rows_ok d rows -> length rows = d -> In x rows ->
  det (concat (rows ++ [x])) = 0%R.
Proof.
  intros Hok Hlen Hin. apply in_split in Hin. destruct Hin as (l1 & l2 & ->).
  apply det_dup with (a := x) (l1 := l1) (l2 := l2) (l3 := []).
  - now rewrite <- app_assoc.
  - apply Forall_app. split; auto. constructor; auto.
    apply Forall_app in Hok. destruct Hok as [_ Hok]. now inversion Hok.
  - rewrite length_app. simpl. lia.
Qed.

(* the determinant of the ridge with two more rows is antisymmetric *)
Lemma det_ridge_swap (ridge : list (list R)) (a b : list R) :
  rows_ok d (a :: b :: ridge) -> length ridge = d - 1 ->
  det (concat (ridge ++ [b; a])) = (- det (concat (ridge ++ [a; b])))%R.
Proof.
  intros Hok Hlen. apply Hswap.
  - inversion Hok as [|? ? Ha Hok']. inversion Hok' as [|? ? Hb Hr]. subst.
    apply Forall_app. split; auto.
  - rewrite length_app. simpl. lia.
Qed.

(* the new facet through a horizon ridge and the inserted point i keeps
   on one side what the visible facet V and the facet K behind the ridge
   keep on one side *)
Lemma new_facet_side (ridge S : list (list R)) (i v k q0 : list R)
    (Prows : list R -> Prop) (sV sK sN : R) :
  let B a b := det (concat (ridge ++ [a; b])) in
  length ridge = d - 1 -> rows_ok d ridge ->
  (forall q, Prows q -> length q = d + 1) ->
  length i = d + 1 ->
  (sV = 1 \/ sV = -1)%R -> (sK = 1 \/ sK = -1)%R -> (sN = 1 \/ sN = -1)%R ->
  Prows v -> Prows k -> Prows q0 ->
  (forall q, Prows q -> 0 <= sV * B v q)%R ->
  (forall q, Prows q -> 0 <= sK * B k q)%R ->
  (sV * B v i < 0)%R ->
  (0 <= sK * B k i)%R ->
  (exists x, length x = d + 1 /\ B k x <> 0%R) ->
  length S = d + 1 -> (forall s, In s S -> Prows s) ->
  det (concat S) <> 0%R ->
  (0 < sN * B i q0)%R ->
  forall q, Prows q -> (0 <= sN * B i q)%R.
Proof.
  intros B Hlen Hrok HP Hi HsV HsK HsN Hv Hk Hq0 HV HK HVi HKi Hnd HS HSP HdS
         Hq0pos q Hq.
  assert (forall a b, length a = d + 1 -> length b = d + 1 ->
                      B b a = (- B a b)%R) as Hanti.
  { intros a b Ha Hb. unfold B. apply det_ridge_swap; auto.
    unfold rows_ok. auto. }
  assert (forall a, Prows a ->
            (B i a * B v k = B v i * B k a - B k i * B v a)%R) as Hpl.
  { intros a Ha.
    assert (rows_ok d (i :: a :: v :: k :: ridge)) as Hok
      by (repeat constructor; auto).
    pose proof (Hthree Hok Hlen) as H3. cbv zeta in H3.
    pose proof (Hanti v i (HP v Hv) Hi) as A1.
    pose proof (Hanti k a (HP k Hk) (HP a Ha)) as A2.
    pose proof (Hanti k i (HP k Hk) Hi) as A3.
    pose proof (Hanti v a (HP v Hv) (HP a Ha)) as A4.
    unfold B in *. rewrite A1, A2, A3, A4 in H3. lra. }
  pose proof (Hpl q Hq) as Eq. pose proof (Hpl q0 Hq0) as Eq0.
  pose proof (HV q Hq) as HVq. pose proof (HK q Hq) as HKq.
  pose proof (HV q0 Hq0) as HVq0. pose proof (HK q0 Hq0) as HKq0.
  destruct (Req_dec (B v k) 0) as [Hz | Hnz].
  - (* V and K span one hyperplane: every processed point lies on it *)
    exfalso.
    assert (forall a, Prows a -> B k a = 0%R) as Hall.
    { intros a Ha. pose proof (Hpl a Ha) as Ea.
      pose proof (HV a Ha) as HVa. pose proof (HK a Ha) as HKa.
      rewrite Hz in Ea.
      destruct HsV as [-> | ->], HsK as [-> | ->]; nra. }
    destruct Hnd as (x & Hx & HBx). apply HBx. unfold B.
    replace (ridge ++ [k; x]) with ((ridge ++ [k]) ++ [x])
      by now rewrite <- app_assoc.
    apply (@Hbasis S (ridge ++ [k]) x); auto.
    + constructor; auto. apply Forall_app. split.
      * apply Forall_forall. intros s Hs. auto.
      * apply Forall_app. split; auto.
    + rewrite length_app. simpl. lia.
    + intros s Hs. rewrite <- app_assoc. simpl. apply Hall. auto.
  - destruct HsV as [-> | ->], HsK as [-> | ->], HsN as [-> | ->];
      nra.
Qed.

(** *** The working points and the facets *)

Variable points : list (list R).
Hypothesis Hpoints : Forall (wrow d) points.

Lemma pt_wrow (v : nat) : v < length points -> wrow d (pt points v).
Proof.
  intros Hv. unfold pt.
  eapply Forall_forall in Hpoints; [exact Hpoints|]. now apply nth_In.
Qed.

Lemma load_pt (v : nat) : v < length points -> load points v = Ret (pt points v).
Proof.
  intros Hv. unfold load, pt.
  now rewrite (nth_error_nth' points [] Hv).
Qed.

Lemma mapM_load_pts (face : list nat) :
  Forall (fun v => v < length points) face ->
  mapM (load points) face = Ret (map (pt points) face).
Proof.
  induction 1 as [|v face Hv _ IH]; simpl; auto.
  now rewrite load_pt, IH.
Qed.

Lemma concat_snoc (rows : list (list R)) (x : list R) :
  concat (rows ++ [x]) = concat rows ++ x.
Proof. rewrite concat_app. simpl. now rewrite app_nil_r. Qed.

Lemma orient_matrix_pts (face : list nat) (q : nat) :
  Forall (fun v => v < length points) face -> q < length points ->
  orient_matrix points face q
  = Ret (concat (map (pt points) face ++ [pt points q])).
Proof.
  intros Hf Hq. unfold orient_matrix.
  rewrite mapM_load_pts by auto. cbn [bind]. rewrite load_pt by auto.
  cbn [bind]. now rewrite concat_snoc.
Qed.

Lemma orient_matrix_lt (face : list nat) (q : nat) (A : list R) :
  orient_matrix points face q = Ret A ->
  Forall (fun v => v < length points) face /\ q < length points.
Proof.
  unfold orient_matrix. intros H. bind_inv H. bind_inv Hk. split.
  - apply mapM_Ret in Ha. clear - Ha.
    induction Ha; constructor; auto. eapply load_lt; eauto.
  - eapply load_lt; eauto.
Qed.

Lemma face_coords_pts (face : list nat) :
  Forall (fun v => v < length points) face ->
  face_coords d points face = Ret (concat (map (firstn d) (map (pt points) face))).
Proof.
  intros Hf. unfold face_coords.
  assert (mapM (fun v => row <- load points v ;; Ret (firstn d row)) face
          = Ret (map (firstn d) (map (pt points) face))) as ->.
  { induction Hf as [|v face Hv _ IH]; simpl; auto.
    now rewrite load_pt, IH. }
  reflexivity.
Qed.

Lemma rows_ok_pts (face : list nat) :
  Forall (fun v => v < length points) face -> rows_ok d (map (pt points) face).
Proof.
  intros H. apply Forall_map. eapply Forall_impl; [|exact H].
  intros v Hv. now apply pt_wrow.
Qed.

Lemma wrows_pts (face : list nat) :
  Forall (fun v => v < length points) face ->
  Forall (wrow d) (map (pt points) face).
Proof.
  intros H. apply Forall_map. eapply Forall_impl; [|exact H].
  intros v Hv. now apply pt_wrow.
Qed.

Lemma side_negate (face face' : list nat) (c : list R) (o : R) (q : nat) :
  side d points (face', (negate c, (- o)%R)) q
  = (- side d points (face, (c, o)) q)%R.
Proof.
  unfold side, negate. cbn [fst snd].
  change (@fopp R R_scalar) with Ropp. rewrite dot_negate. ring.
Qed.

(* the plane and the determinant of a face, before it is oriented *)
Lemma plane_face (face : list nat) :
  length face = d -> Forall (fun v => v < length points) face ->
  exists n, (0 <= n)%R /\
    forall q, q < length points ->
      Dface det points face (pt points q)
      = (- n * side d points
               (face, plane (concat (map (firstn d) (map (pt points) face))))
               q)%R.
Proof.
  intros Hl Hf.
  destruct (Hplane (rows := map (pt points) face)) as (n & Hn & H).
  - now rewrite length_map.
  - now apply wrows_pts.
  - exists n. split; auto. intros q Hq. unfold Dface, side. cbn [fst snd].
    apply H. now apply pt_wrow.
Qed.

(* reversing the last two vertices changes the sign of the determinant *)
Lemma Dface_swap (face : list nat) (x : list R) :
  length face = d -> Forall (fun v => v < length points) face ->
  length x = d + 1 ->
  Dface det points (swap_last2 face) x = (- Dface det points face x)%R.
Proof.
  intros Hl Hf Hx.
  destruct (@last_two _ face) as (pre & a & b & ->); [lia|].
  rewrite swap_last2_app. unfold Dface.
  rewrite !map_app. cbn [map]. rewrite <- !app_assoc. cbn [app].
  apply Hswap.
  - apply Forall_app in Hf. destruct Hf as [Hpre Hab].
    apply Forall_cons_iff in Hab. destruct Hab as [Ha Hb'].
    apply Forall_cons_iff in Hb'. destruct Hb' as [Hb _].
    apply Forall_app. split; [now apply rows_ok_pts|].
    repeat constructor; auto; now apply pt_wrow.
  - rewrite length_app in *. rewrite length_map. simpl in *. lia.
Qed.

Lemma Dface_vertex (face : list nat) (q : nat) :
  length face = d -> Forall (fun v => v < length points) face ->
  In q face -> Dface det points face (pt points q) = 0%R.
Proof.
  intros Hl Hf Hq. unfold Dface. apply det_face_vertex.
  - now apply rows_ok_pts.
  - now rewrite length_map.
  - now apply in_map.
Qed.

Lemma Dface_perm (face face' : list nat) :
  Permutation face face' -> length face = d ->
  Forall (fun v => v < length points) face ->
  exists s, (s = 1 \/ s = -1)%R /\
    forall x, length x = d + 1 ->
      Dface det points face' x = (s * Dface det points face x)%R.
Proof.
  intros Hp Hl Hf.
  destruct (@det_perm_face (map (pt points) face) (map (pt points) face'))
    as (s & Hs & H).
  - now apply Permutation_map.
  - now apply rows_ok_pts.
  - now rewrite length_map.
  - exists s. split; auto.
Qed.

(** *** The initial simplex *)

Lemma facet_inv_intro (P : list nat) (f : list nat * (list R * R)) (n : R) :
  face_ok d points P (fst f) ->
  (0 < n)%R ->
  (forall q, q < length points ->
     Dface det points (fst f) (pt points q) = (- n * side d points f q)%R) ->
  (exists q, q < length points /\ Dface det points (fst f) (pt points q) <> 0%R) ->
  (forall q, In q P -> q < length points) ->
  (forall q, In q P -> (0 <= Dface det points (fst f) (pt points q))%R) ->
  facet_inv d det points P f.
Proof.
  intros Hok Hn Hrel Hw HP Hpos.
  split; [exact Hok|]. split; [exists n; auto|]. split; [exact Hw|].
  intros q Hq. specialize (Hrel q (HP q Hq)). specialize (Hpos q Hq).
  nra.
Qed.

Lemma facet_inv_pos (P : list nat) (f : list nat * (list R * R)) (q : nat) :
  facet_inv d det points P f -> q < length points ->
  (side d points f q <= 0)%R -> (0 <= Dface det points (fst f) (pt points q))%R.
Proof.
  intros (_ & (n & Hn & Hrel) & _) Hq H. specialize (Hrel q Hq). nra.
Qed.

Lemma facet_inv_neg (P : list nat) (f : list nat * (list R * R)) (q : nat) :
  facet_inv d det points P f -> q < length points ->
  (0 < side d points f q)%R -> (Dface det points (fst f) (pt points q) < 0)%R.
Proof.
  intros (_ & (n & Hn & Hrel) & _) Hq H. specialize (Hrel q Hq). nra.
Qed.

Lemma simplex_face_perm (k : nat) :
  k <= d -> Permutation (seq 0 (d + 1)) (simplex_face d k ++ [k]).
Proof.
  intros Hk. unfold simplex_face. rewrite filter_neq_seq by lia.
  replace (d + 1) with (k + (1 + (d + 1 - S k))) at 1 by lia.
  rewrite !seq_app. simpl seq at 2. cbn [Nat.add].
  rewrite <- app_assoc. apply Permutation_app_head.
  replace (k + 1) with (S k) by lia.
  rewrite Permutation_app_comm. reflexivity.
Qed.

Lemma simplex_vertex_det (k : nat) :
  simplex_ok d det points -> k <= d ->
  Dface det points (simplex_face d k) (pt points k) <> 0%R.
Proof.
  intros [Hn Hdet] Hk. unfold Dface.
  assert (Permutation (map (pt points) (seq 0 (d + 1)))
                      (map (pt points) (simplex_face d k) ++ [pt points k])) as Hp.
  { replace (map (pt points) (simplex_face d k) ++ [pt points k])
      with (map (pt points) (simplex_face d k ++ [k])) by now rewrite map_app.
    apply Permutation_map. now apply simplex_face_perm. }
  destruct (det_perm Hp) as (s & Hs & H).
  specialize (H [] []). simpl in H. rewrite !app_nil_r in H.
  rewrite H.
  - destruct Hs as [-> | ->]; nra.
  - apply rows_ok_pts. apply Forall_forall. intros v Hv.
    apply in_seq in Hv. lia.
  - now rewrite length_map, length_seq.
Qed.

Lemma orient_simplex_face_inv (k : nat) (ps : list R)
    (fc' : list nat * (list R * R)) :
  simplex_ok d det points -> k <= d ->
  face_coords d points (simplex_face d k) = Ret ps ->
  orient_simplex_face det points k (simplex_face d k, plane ps) = Ret fc' ->
  facet_inv d det points (seq 0 (d + 1)) fc'.
Proof.
  intros Hsx Hk Hps Ho. pose proof Hsx as [Hn Hdet].
  set (face := simplex_face d k) in *.
  assert (length face = d) as Hl by now apply simplex_face_length.
  assert (Forall (fun v => v < length points) face) as Hf.
  { apply Forall_forall. intros v Hv. apply simplex_face_incl in Hv.
    apply in_seq in Hv. lia. }
  assert (k < length points) as Hkn by lia.
  rewrite face_coords_pts in Hps by auto. inversion Hps. subst ps. clear Hps.
  destruct (plane_face Hl Hf) as (n & Hn0 & Hrel).
  pose proof (simplex_vertex_det Hsx Hk) as Hv. fold face in Hv.
  assert (0 < n)%R as Hnpos.
  { specialize (Hrel k Hkn). destruct (Req_dec n 0) as [-> | Hne]; [|lra].
    rewrite Hrel in Hv. exfalso. apply Hv. ring. }
  assert (face_ok d points (seq 0 (d + 1)) face) as Hok.
  { repeat split; auto.
    - apply simplex_face_NoDup.
    - apply simplex_face_incl. }
  assert (forall q, In q (seq 0 (d + 1)) -> q < length points) as HP
    by (intros q Hq; apply in_seq in Hq; lia).
  assert (forall q, In q (seq 0 (d + 1)) -> q <> k -> In q face) as Hin.
  { intros q Hq Hqk. unfold face, simplex_face. apply filter_In. split; auto.
    apply negb_true_iff, Nat.eqb_neq. exact Hqk. }
  unfold orient_simplex_face in Ho.
  destruct (plane (concat (map (firstn d) (map (pt points) face))))
    as [c o] eqn:Epl.
  rewrite orient_matrix_pts in Ho by auto. cbn [bind] in Ho.
  fold (Dface det points face (pt points k)) in Ho.
  change (fltb (Dface det points face (pt points k)) f0)
    with (Rltb (Dface det points face (pt points k)) 0) in Ho.
  destruct (Rltb (Dface det points face (pt points k)) 0) eqn:E.
  - apply Rltb_true in E.
    rewrite orient_matrix_pts in Ho; auto.
    2:{ eapply Permutation_Forall; [symmetry; apply swap_last2_perm|exact Hf]. }
    cbn [bind] in Ho. inversion Ho. subst fc'. clear Ho.
    apply facet_inv_intro with (n := n); cbn [fst]; auto.
    + eapply face_ok_perm; [apply swap_last2_perm|exact Hok].
    + intros q Hq. rewrite Dface_swap; auto; [|apply pt_wrow; auto].
      rewrite Hrel by auto.
      rewrite (side_negate face (swap_last2 face) c o q). ring.
    + exists k. split; auto. rewrite Dface_swap; auto; [lra|apply pt_wrow; auto].
    + intros q Hq. destruct (Nat.eq_dec q k) as [-> | Hqk].
      * rewrite Dface_swap; auto; [lra|apply pt_wrow; auto].
      * rewrite Dface_swap; auto; [|apply pt_wrow; auto].
        rewrite Dface_vertex; auto. lra.
  - apply Rltb_false in E. inversion Ho. subst fc'. clear Ho.
    apply facet_inv_intro with (n := n); cbn [fst]; auto.
    + exists k. auto.
    + intros q Hq. destruct (Nat.eq_dec q k) as [-> | Hqk]; [lra|].
      rewrite Dface_vertex; auto. lra.
Qed.

Lemma mapM_combine {A B : Type} (f : A -> outcome B) (l : list A)
    (bs : list B) (a : A) (b : B) :
  mapM f l = Ret bs -> In (a, b) (combine l bs) -> f a = Ret b.
Proof.
  intros H. apply mapM_Ret in H. induction H; simpl; [tauto|].
  intros [E | Hin]; [inversion E; now subst | auto].
Qed.

Lemma initial_hull_inv (h : hull R) :
  simplex_ok d det points ->
  initial_hull d plane det points = Ret h ->
  hull_inv d det points (seq 0 (d + 1)) h.
Proof.
  intros Hsx H. unfold initial_hull, simplex_planes in H.
  bind_inv H. bind_inv Hk. inversion Hk0. subst h. clear Hk0.
  exists a0. split; auto.
  eapply mapM_Forall; [|exact Ha0].
  intros [k fc] fc' Hin Ho. cbn [fst snd] in Ho.
  apply in_combine_l in Hin as Hk. apply in_seq in Hk.
  apply (@mapM_combine _ _ _ _ _ _ _ Ha) in Hin.
  bind_inv Hin.
  match goal with H : Ret _ = Ret fc |- _ => inversion H; subst fc end.
  assert (k <= d) as Hkd by lia.
  eapply orient_simplex_face_inv; eauto.
Qed.

(** *** Orienting a new facet *)

Lemma Reqb_true (a b : R) : Reqb a b = true <-> a = b.
Proof. unfold Reqb. destruct (Req_dec_T a b); split; auto; discriminate. Qed.

Lemma find_reference_spec (face : list nat) (pp : list nat) (detA : R)
    (rest : list nat) :
  find_reference det points face pp = Ret (detA, rest) ->
  exists pre q0,
    pp = pre ++ q0 :: rest /\ q0 < length points /\
    detA = Dface det points face (pt points q0) /\ detA <> 0%R /\
    forall q, In q pre -> Dface det points face (pt points q) = 0%R.
Proof.
  induction pp as [|q pp IH]; simpl; intros H; [discriminate|].
  bind_inv H. apply orient_matrix_lt in Ha as Hlt. destruct Hlt as [Hf Hq].
  rewrite orient_matrix_pts in Ha by auto. inversion Ha. subst a. clear Ha.
  fold (Dface det points face (pt points q)) in Hk.
  change (feqb (Dface det points face (pt points q)) f0)
    with (Reqb (Dface det points face (pt points q)) 0) in Hk.
  destruct (Reqb (Dface det points face (pt points q)) 0) eqn:E.
  - apply Reqb_true in E. destruct (IH Hk) as (pre & q0 & -> & H1 & H2 & H3 & H4).
    exists (q :: pre), q0. repeat split; auto.
    intros q' [<- | Hin]; auto.
  - inversion Hk. subst. exists [], q. repeat split; auto.
    + intros Hz. rewrite Hz in E. unfold Reqb in E.
      destruct (Req_dec_T 0 0); [discriminate|congruence].
    + intros q' [].
Qed.

Lemma existsb_eqb_In (x : nat) (l : list nat) :
  existsb (Nat.eqb x) l = true <-> In x l.
Proof.
  rewrite existsb_exists. split.
  - intros (y & Hy & E). apply Nat.eqb_eq in E. now subst.
  - intros H. exists x. split; auto. apply Nat.eqb_refl.
Qed.

Lemma candidates_In (nF : nat) (face : list nat) (x : nat) :
  In x (candidates nF face) <-> x < nF /\ ~ In x face.
Proof.
  unfold candidates. rewrite filter_In, in_seq, negb_true_iff.
  rewrite <- not_true_iff_false, existsb_eqb_In.
  split; intros [H1 H2]; split; try lia; intros H; apply H2.
  - eapply Permutation_in; [symmetry; apply sort_int_perm|exact H].
  - eapply Permutation_in; [apply sort_int_perm|exact H].
Qed.

Lemma orient_new_face_spec (nF : nat) (face : list nat) (c : list R) (o : R)
    (fc' : list nat * (list R * R)) :
  orient_new_face env det points nF (face, (c, o)) = Ret fc' ->
  exists pre q0 rest,
    candidates nF face = pre ++ q0 :: rest /\ q0 < length points /\
    Dface det points face (pt points q0) <> 0%R /\
    (forall q, In q pre -> Dface det points face (pt points q) = 0%R) /\
    ((fc' = (face, (c, o)) /\ (0 < Dface det points face (pt points q0))%R) \/
     (fc' = (swap_last2 face, (negate c, (- o)%R)) /\
      (Dface det points face (pt points q0) < 0)%R)).
Proof.
  unfold orient_new_face. rewrite keep_rows_ismember. fold (candidates nF face).
  intros H. bind_inv H. destruct a as [detA rest].
  destruct (find_reference_spec _ _ Ha) as (pre & q0 & Hpp & Hq0 & -> & Hnz & Hz).
  exists pre, q0, rest. repeat split; auto.
  change (fltb (Dface det points face (pt points q0)) f0)
    with (Rltb (Dface det points face (pt points q0)) 0) in Hk.
  destruct (Rltb (Dface det points face (pt points q0)) 0) eqn:E.
  - apply Rltb_true in E. right. split; auto.
    bind_inv Hk. bind_inv Hk0.
    destruct (NDEBUG env); [now inversion Hk|].
    destruct (fleb _ _); [discriminate|]. now inversion Hk.
  - apply Rltb_false in E. left. inversion Hk. split; auto. lra.
Qed.

(* with a simplex of nonzero volume, the reference point that orients a
   face is a vertex of the simplex *)
Lemma reference_in_simplex (nF : nat) (face pre rest : list nat) (q0 : nat) :
  simplex_ok d det points ->
  length face = d -> Forall (fun v => v < length points) face ->
  candidates nF face = pre ++ q0 :: rest ->
  q0 < length points ->
  Dface det points face (pt points q0) <> 0%R ->
  (forall q, In q pre -> Dface det points face (pt points q) = 0%R) ->
  q0 <= d.
Proof.
  intros [Hn Hdet] Hl Hf Hpp Hq0 Hnz Hz.
  destruct (le_lt_dec q0 d) as [|Hgt]; auto. exfalso.
  assert (In q0 (candidates nF face)) as Hin
    by (rewrite Hpp; apply in_or_app; right; left; auto).
  apply candidates_In in Hin. destruct Hin as [HqF _].
  apply Hnz. unfold Dface.
  apply (@Hbasis (map (pt points) (seq 0 (d + 1))) (map (pt points) face)
           (pt points q0)); auto.
  - constructor; [apply pt_wrow; auto|].
    apply Forall_app. split; apply rows_ok_pts; auto.
    apply Forall_forall. intros v Hv. apply in_seq in Hv. lia.
  - now rewrite length_map, length_seq.
  - now rewrite length_map.
  - intros s Hs. apply in_map_iff in Hs. destruct Hs as (v & <- & Hv).
    apply in_seq in Hv. fold (Dface det points face (pt points v)).
    destruct (in_dec Nat.eq_dec v face) as [Hvf | Hvf].
    + now apply Dface_vertex.
    + apply Hz.
      assert (In v (candidates nF face)) as Hc
        by (apply candidates_In; split; auto; lia).
      destruct (in_dec Nat.eq_dec v pre) as [|Hnp]; auto.
      exfalso.
      assert (q0 <= v); [|lia].
      apply (@sorted_first pre rest q0 v); auto.
      * rewrite <- Hpp. apply filter_seq_sorted.
      * now rewrite <- Hpp.
Qed.

(** *** A new facet *)

Lemma incl_Permutation_app (r l : list nat) :
  NoDup r -> incl r l -> exists l', Permutation l (r ++ l').
Proof.
  revert l. induction r as [|x r IH]; intros l Hn Hi.
  - exists l. reflexivity.
  - inversion Hn; subst.
    assert (In x l) as Hx by (apply Hi; simpl; auto).
    apply in_split in Hx. destruct Hx as (l1 & l2 & ->).
    destruct (IH (l1 ++ l2)) as (l' & Hp); auto.
    + intros y Hy. assert (In y (l1 ++ x :: l2)) as H by (apply Hi; simpl; auto).
      apply in_app_or in H. apply in_or_app.
      destruct H as [H | [<- | H]]; auto. contradiction.
    + exists l'. rewrite <- Permutation_middle. simpl. now constructor.
Qed.

Lemma ridge_plus_one (l r : list nat) :
  NoDup l -> NoDup r -> incl r l -> length l = S (length r) ->
  exists k, In k l /\ Permutation (r ++ [k]) l.
Proof.
  intros Hl Hr Hi Hlen.
  destruct (incl_Permutation_app Hr Hi) as (l' & Hp).
  pose proof (Permutation_length Hp) as E. rewrite length_app in E.
  destruct l' as [|k [|? ?]]; simpl in E; try lia.
  exists k. split; [|now symmetry].
  eapply Permutation_in; [symmetry; exact Hp|]. apply in_or_app. right.
  simpl; auto.
Qed.

Lemma Dface_ridge (ridge : list nat) (k : nat) (x : list R) :
  Dface det points (ridge ++ [k]) x
  = det (concat (map (pt points) ridge ++ [pt points k; x])).
Proof. unfold Dface. rewrite map_app. cbn [map]. now rewrite <- app_assoc. Qed.

Lemma new_facet_inv (P : list nat) (fV fK : list nat * (list R * R))
    (ridge : list nat) (i nF : nat) (ps : list R)
    (fc' : list nat * (list R * R)) :
  simplex_ok d det points -> incl (seq 0 (d + 1)) P ->
  (forall q, In q P -> q < length points) ->
  facet_inv d det points P fV -> facet_inv d det points P fK ->
  ~ In i P -> i < length points ->
  (0 < side d points fV i)%R -> (side d points fK i <= 0)%R ->
  length ridge = d - 1 -> NoDup ridge ->
  incl ridge (fst fK) -> incl ridge (fst fV) ->
  face_coords d points (ridge ++ [i]) = Ret ps ->
  orient_new_face env det points nF (ridge ++ [i], plane ps) = Ret fc' ->
  facet_inv d det points (i :: P) fc'.
Proof.
  intros Hsx HsP HPn HV HK HiP Hi HVi HKi Hrl Hrn HrK HrV Hps Ho.
  pose proof HV as (HVok & _ & _ & HVc). pose proof HK as (HKok & _ & HKw & HKc).
  destruct HVok as (HVl & HVn & HVP & HVf).
  destruct HKok as (HKl & HKn & HKP & HKf).
  set (face := ridge ++ [i]) in *.
  assert (Forall (fun v => v < length points) ridge) as Hrf.
  { apply Forall_forall. intros v Hv. apply HPn, HKP, HrK, Hv. }
  assert (length face = d) as Hl by (unfold face; rewrite length_app; simpl; lia).
  assert (Forall (fun v => v < length points) face) as Hf
    by (apply Forall_app; split; auto).
  assert (face_ok d points (i :: P) face) as Hok.
  { repeat split; auto.
    - apply NoDup_app; auto.
      + repeat constructor. simpl. tauto.
      + intros x Hx [<- | []]. apply HiP, HKP, HrK, Hx.
    - intros x Hx. apply in_app_or in Hx.
      destruct Hx as [Hx | [<- | []]]; simpl; auto. }
  rewrite face_coords_pts in Hps by auto. inversion Hps. subst ps. clear Hps.
  destruct (plane (concat (map (firstn d) (map (pt points) face))))
    as [c o] eqn:Epl.
  destruct (plane_face Hl Hf) as (n & Hn0 & Hrel). rewrite Epl in Hrel.
  apply orient_new_face_spec in Ho.
  destruct Ho as (pre & q0 & rest & Hpp & Hq0 & Hnz & Hz & Hcase).
  assert (q0 <= d) as Hq0d by (eapply reference_in_simplex; eauto).
  assert (In q0 P) as Hq0P by (apply HsP, in_seq; lia).
  assert (0 < n)%R as Hnpos.
  { specialize (Hrel q0 Hq0). destruct (Req_dec n 0) as [-> | Hne]; [|lra].
    rewrite Hrel in Hnz. exfalso. apply Hnz. ring. }
  (* K and V as the ridge and one more vertex *)
  destruct (@ridge_plus_one (fst fK) ridge) as (k & Hk & HpK); auto; [lia|].
  destruct (@ridge_plus_one (fst fV) ridge) as (v & Hv & HpV); auto; [lia|].
  assert (Forall (fun v => v < length points) (ridge ++ [k])) as HfK'
    by (eapply Permutation_Forall; [symmetry; exact HpK|exact HKf]).
  assert (Forall (fun v => v < length points) (ridge ++ [v])) as HfV'
    by (eapply Permutation_Forall; [symmetry; exact HpV|exact HVf]).
  destruct (@Dface_perm (ridge ++ [k]) (fst fK)) as (sK & HsK & HDK); auto.
  { rewrite length_app. simpl. lia. }
  destruct (@Dface_perm (ridge ++ [v]) (fst fV)) as (sV & HsV & HDV); auto.
  { rewrite length_app. simpl. lia. }
  set (B := fun a b => det (concat (map (pt points) ridge ++ [a; b]))).
  assert (forall q, q < length points ->
                    Dface det points (fst fK) (pt points q)
                    = (sK * B (pt points k) (pt points q))%R) as EK.
  { intros q Hq. rewrite HDK by (apply pt_wrow; auto). now rewrite Dface_ridge. }
  assert (forall q, q < length points ->
                    Dface det points (fst fV) (pt points q)
                    = (sV * B (pt points v) (pt points q))%R) as EV.
  { intros q Hq. rewrite HDV by (apply pt_wrow; auto). now rewrite Dface_ridge. }
  assert (forall (sN : R), (sN = 1 \/ sN = -1)%R ->
            (0 < sN * B (pt points i) (pt points q0))%R ->
            forall q, In q P ->
                      (0 <= sN * B (pt points i) (pt points q))%R) as Hside.
  { intros sN HsN Hpos q Hq.
    apply (@new_facet_side (map (pt points) ridge) (map (pt points) (seq 0 (d + 1)))
             (pt points i) (pt points v) (pt points k) (pt points q0)
             (fun r => exists u, In u P /\ r = pt points u) sV sK sN); auto.
    - now rewrite length_map.
    - now apply rows_ok_pts.
    - intros r (u & Hu & ->). apply pt_wrow. auto.
    - apply pt_wrow. auto.
    - exists v. split; auto.
    - exists k. split; auto.
    - exists q0. split; auto.
    - intros r (u & Hu & ->). fold (B (pt points v) (pt points u)).
      rewrite <- EV by auto.
      eapply facet_inv_pos; eauto.
    - intros r (u & Hu & ->). fold (B (pt points k) (pt points u)).
      rewrite <- EK by auto.
      eapply facet_inv_pos; eauto.
    - fold (B (pt points v) (pt points i)). rewrite <- EV by auto.
      eapply facet_inv_neg; eauto.
    - fold (B (pt points k) (pt points i)). rewrite <- EK by auto.
      eapply facet_inv_pos; eauto.
    - destruct HKw as (w & Hw & HDw). exists (pt points w). split.
      + apply pt_wrow. auto.
      + fold (B (pt points k) (pt points w)). rewrite EK in HDw by auto.
        intros Hz0. apply HDw. rewrite Hz0. ring.
    - now rewrite length_map, length_seq.
    - intros s Hs. apply in_map_iff in Hs. destruct Hs as (u & <- & Hu).
      exists u. split; auto.
    - apply Hsx.
    - exists q. split; auto. }
  assert (forall x, Dface det points face x = B (pt points i) x) as EN
    by (intros x; unfold face; apply Dface_ridge).
  assert (forall q, In q (i :: P) -> q < length points) as HPn'
    by (intros q [<- | Hq]; auto).
  destruct Hcase as [[-> Hpos] | [-> Hneg]].
  - apply facet_inv_intro with (n := n); cbn [fst]; auto.
    + exists q0. auto.
    + intros q [<- | Hq].
      * rewrite Dface_vertex; auto; [lra|].
        unfold face. apply in_or_app. right. simpl; auto.
      * rewrite EN. rewrite EN in Hpos.
        specialize (Hside 1%R (or_introl eq_refl)).
        rewrite !Rmult_1_l in Hside. specialize (Hside Hpos q Hq).
        now rewrite Rmult_1_l in Hside.
  - apply facet_inv_intro with (n := n); cbn [fst]; auto.
    + eapply face_ok_perm; [apply swap_last2_perm|exact Hok].
    + intros q Hq. rewrite Dface_swap; auto; [|apply pt_wrow; auto].
      rewrite Hrel by auto.
      rewrite (side_negate face (swap_last2 face) c o q). ring.
    + exists q0. split; auto.
      rewrite Dface_swap; auto; [lra|apply pt_wrow; auto].
    + intros q Hq. rewrite Dface_swap; auto; [|apply pt_wrow; auto].
      destruct Hq as [<- | Hq].
      * rewrite Dface_vertex; auto; [lra|].
        unfold face. apply in_or_app. right. simpl; auto.
      * rewrite EN. rewrite EN in Hneg.
        specialize (Hside (-1)%R (or_intror eq_refl)).
        assert (0 < -1 * B (pt points i) (pt points q0))%R as Hp by lra.
        specialize (Hside Hp q Hq). lra.
Qed.

(** *** One insertion, and the loop *)

Lemma facet_flag_side (i : nat) (f : list nat * (list R * R)) :
  (facet_flag (firstn d (pt points i)) f = 1 /\ (0 < side d points f i)%R) \/
  (facet_flag (firstn d (pt points i)) f = 0 /\ (side d points f i <= 0)%R).
Proof.
  unfold facet_flag, fgtb, side. cbn [fltb fadd R_scalar].
  unfold Rltb. change (@f0 R R_scalar) with 0%R.
  destruct (Rlt_dec 0 _) as [H | H]; [left | right]; split; auto; lra.
Qed.

Lemma facet_inv_extend (P : list nat) (f : list nat * (list R * R)) (i : nat) :
  facet_inv d det points P f -> (side d points f i <= 0)%R ->
  facet_inv d det points (i :: P) f.
Proof.
  intros (Hok & Hrel & Hw & Hc) Hi. repeat split; auto.
  - apply Hok.
  - apply Hok.
  - intros x Hx. right. now apply Hok.
  - apply Hok.
  - intros q [<- | Hq]; auto.
Qed.

Lemma add_faces_hull_of (i : nat) (hz : list (list nat))
    (l : list (list nat * (list R * R))) (h1 : hull R) :
  add_faces d plane points i hz (hull_of l) = Ret (Some h1) ->
  exists new0,
    h1 = hull_of (l ++ new0) /\
    Forall2 (fun ridge fc =>
               exists ps,
                 face_coords d points (firstn (d - 1) ridge ++ [i]) = Ret ps /\
                 fc = (firstn (d - 1) ridge ++ [i], plane ps)) hz new0.
Proof.
  revert l. induction hz as [|ridge hz IH]; intros l H; simpl in H.
  - inversion H. exists []. rewrite app_nil_r. split; auto.
  - bind_inv H. destruct (plane a) as [cfi dfi] eqn:E.
    destruct (Nat.ltb _ _); [discriminate|].
    rewrite hull_of_app in Hk. destruct (IH _ Hk) as (new0 & -> & HF).
    exists ((firstn (d - 1) ridge ++ [i], (cfi, dfi)) :: new0).
    rewrite <- app_assoc. split; auto.
    constructor; auto. exists a. rewrite E. auto.
Qed.

Lemma Forall2_In_r {A B : Type} (R : A -> B -> Prop) (l : list A)
    (l' : list B) (b : B) :
  Forall2 R l l' -> In b l' -> exists a, In a l /\ R a b.
Proof.
  induction 1; simpl; [tauto|]. intros [<- | Hin].
  - exists x. auto.
  - destruct (IHForall2 Hin) as (a & Ha & HR). exists a. auto.
Qed.

Lemma insert_point_inv (P : list nat) (i : nat) (h h' : hull R) :
  simplex_ok d det points -> incl (seq 0 (d + 1)) P ->
  (forall q, In q P -> q < length points) ->
  hull_inv d det points P h -> ~ In i P ->
  insert_point env d plane det points i h = Ret (Some h') ->
  hull_inv d det points (i :: P) h'.
Proof.
  intros Hsx HsP HPn (l & -> & Hl) HiP H.
  unfold insert_point in H. bind_inv H.
  apply load_lt in Ha as Hi. rewrite load_pt in Ha by auto.
  inversion Ha. subst a. clear Ha.
  rewrite visible_flags_hull_of in Hk.
  set (flag := facet_flag (firstn d (pt points i))) in *.
  destruct (Nat.eqb (list_sum (map flag l)) 0) eqn:E.
  - inversion Hk. subst h'. exists l. split; auto.
    apply Nat.eqb_eq in E.
    apply Forall_forall. intros f Hf.
    apply facet_inv_extend; [eapply Forall_forall in Hl; eauto|].
    pose proof (@list_sum_flags_0 _ _ _ _ E f Hf) as Hflag. fold flag in Hflag.
    destruct (facet_flag_side i f) as [[Hf1 _] | [_ Hf0]]; auto.
    unfold flag in Hflag. congruence.
  - clear E. rewrite kept_hull_of in Hk.
    rewrite !nFaces_hull_of in Hk.
    cbn [faces hull_of] in Hk.
    rewrite keep_rows_map, drop_rows_map in Hk.
    set (l0 := filter (fun x => Nat.eqb (flag x) 0) l) in *.
    set (lv := filter (fun x => Nat.eqb (flag x) 1) l) in *.
    bind_inv Hk. destruct a as [h1|]; [|discriminate].
    apply add_faces_hull_of in Ha. destruct Ha as (new0 & -> & Hnew0).
    rewrite combine_hull_of in Hk0.
    rewrite nFaces_hull_of in Hk0.
    assert (firstn (length l0) (l0 ++ new0) = l0) as E1.
    { rewrite firstn_app, Nat.sub_diag, firstn_all. simpl. apply app_nil_r. }
    assert (skipn (length l0) (l0 ++ new0) = new0) as E2.
    { rewrite skipn_app, Nat.sub_diag, skipn_all. reflexivity. }
    rewrite E1, E2 in Hk0. bind_inv Hk0.
    match goal with H : Ret _ = Ret (Some h') |- _ => inversion H end.
    exists (l0 ++ a). split; auto. apply Forall_app. split.
    + apply Forall_forall. intros f Hf. unfold l0 in Hf.
      apply filter_In in Hf. destruct Hf as [Hf Hflag].
      apply Nat.eqb_eq in Hflag.
      apply facet_inv_extend; [eapply Forall_forall in Hl; eauto|].
      destruct (facet_flag_side i f) as [[Hf1 _] | [_ Hf0]]; auto.
      unfold flag in Hflag. congruence.
    + eapply mapM_Forall; [|exact Ha].
      intros fc fc' Hfc Ho.
      destruct (@Forall2_In_r _ _ _ _ _ _ Hnew0 Hfc)
        as (ridge & Hr & ps & Hps & ->).
      apply in_concat in Hr. destruct Hr as (hz & Hhz & Hr).
      apply in_map_iff in Hhz. destruct Hhz as (V & <- & HV).
      apply horizon_of_ridge in Hr.
      destruct Hr as (g & Hg & Hrl & Hrg & Hrn & HrV).
      apply in_map_iff in HV. destruct HV as (fV & <- & HfV).
      apply in_map_iff in Hg. destruct Hg as (fK & <- & HfK).
      unfold lv in HfV. apply filter_In in HfV. destruct HfV as [HfV HflagV].
      unfold l0 in HfK. apply filter_In in HfK. destruct HfK as [HfK HflagK].
      apply Nat.eqb_eq in HflagV, HflagK.
      assert (facet_inv d det points P fV) as HinvV
        by (eapply Forall_forall in Hl; eauto).
      assert (facet_inv d det points P fK) as HinvK
        by (eapply Forall_forall in Hl; eauto).
      rewrite firstn_all2 in Hps, Ho by lia.
      eapply new_facet_inv with (fV := fV) (fK := fK); eauto.
      * destruct (facet_flag_side i fV) as [[_ Hf1] | [Hf0 _]]; auto.
        unfold flag in HflagV. congruence.
      * destruct (facet_flag_side i fK) as [[Hf1 _] | [_ Hf0]]; auto.
        unfold flag in HflagK. congruence.
      * apply Hrn. apply HinvK.
Qed.

Lemma main_loop_inv (P : list nat) (pleft : list nat) (h h' : hull R) :
  simplex_ok d det points -> incl (seq 0 (d + 1)) P ->
  (forall q, In q P -> q < length points) ->
  NoDup pleft -> (forall x, In x pleft -> ~ In x P) ->
  hull_inv d det points P h ->
  main_loop env d plane det points pleft h = Ret (Some h') ->
  hull_inv d det points (rev pleft ++ P) h'.
Proof.
  intros Hsx. revert P h.
  induction pleft as [|i pl IH]; intros P h HsP HPn Hnd Hdis Hinv H;
    simpl in H.
  - inversion H. now subst.
  - bind_inv H. destruct a as [h1|]; [|discriminate].
    inversion Hnd; subst.
    assert (i < length points) as Hi.
    { unfold insert_point in Ha. bind_inv Ha. eapply load_lt; eauto. }
    apply insert_point_inv with (P := P) in Ha; auto.
    2:{ apply Hdis. simpl; auto. }
    apply IH with (P := i :: P) in Hk; auto.
    + simpl. now rewrite <- app_assoc.
    + intros x Hx. right. auto.
    + intros q [<- | Hq]; auto.
    + intros x Hx [<- | Hp]; [contradiction|].
      apply (Hdis x); simpl; auto.
Qed.

Lemma hull_inv_contained (P : list nat) (h : hull R) :
  (forall q, q < length points -> In q P) ->
  hull_inv d det points P h -> contained d points h.
Proof.
  intros HP (l & -> & Hl) c o Hin row Hrow.
  apply In_nth with (d := []) in Hrow. destruct Hrow as (q & Hq & <-).
  assert (exists face, In (face, (c, o)) l) as (face & Hf).
  { clear - Hin. induction l as [|[f [c' o']] l IH]; simpl in *; [tauto|].
    destruct Hin as [E | Hin]; [inversion E; subst; eauto|].
    destruct (IH Hin) as (face & Hf). eauto. }
  eapply Forall_forall in Hl; eauto.
  destruct Hl as (_ & _ & _ & Hc).
  apply (Hc q). auto.
Qed.

Lemma build_core_inv (span : list R) (h : hull R) :
  simplex_ok d det points ->
  (forall l, Permutation (qsort_desc_float env l) l) ->
  build_core env d plane det points span = Ret (Some h) ->
  contained d points h.
Proof.
  intros Hsx Hq H. unfold build_core in H. bind_inv H.
  apply initial_hull_inv in Ha; auto.
  pose proof (candidate_queue_perm env d points span Hq) as Hp.
  apply main_loop_inv with (P := seq 0 (d + 1)) in Hk; auto.
  - eapply hull_inv_contained; [|exact Hk].
    intros q Hq'. apply in_or_app.
    destruct (le_lt_dec (d + 1) q).
    + left. rewrite <- in_rev. eapply Permutation_in; [symmetry; exact Hp|].
      apply in_seq. lia.
    + right. apply in_seq. lia.
  - intros x Hx. auto.
  - intros q Hq'. apply in_seq in Hq'. destruct Hsx. lia.
  - eapply Permutation_NoDup; [symmetry; exact Hp|]. apply seq_NoDup.
  - intros x Hx Hs. apply (Permutation_in _ Hp) in Hx.
    apply in_seq in Hx. apply in_seq in Hs. lia.
Qed.

End Containment.

(** *** The determinants of the code have these properties *)

Ltac unfold_orient :=
  cbv [orient_det det_NxN det_4x4 createSubMatrix
       flat_map map app seq fold_left combine concat
       filter Nat.ltb Nat.leb Nat.even length Nat.add Nat.mul Nat.sub Nat.eqb
       negb fst snd Nat.modulo Nat.divmod rd nth f0 f1 fadd fsub fmul fopp
       fdiv of_Z R_scalar Z.mul Pos.mul Z.opp].

(* a list of known length as its elements *)
Ltac explode_list l :=
  destruct l as [|? [|? [|? [|? [|? [|? [|? ?]]]]]]].

Ltac explode_rows :=
  repeat match goal with
    | H : rows_ok _ _ |- _ => unfold rows_ok in H
    | H : Forall _ (_ ++ _) |- _ => apply Forall_app in H; destruct H
    | H : Forall _ (_ :: _) |- _ => inversion H; clear H; subst
    | H : Forall _ [] |- _ => clear H
    end;
  repeat match goal with
    | H : length ?r = _ |- _ =>
        is_var r; explode_list r; simpl in H; try discriminate H;
        try (exfalso; lia); clear H
    end.

Lemma det_swaps_at (d : nat) :
  2 <= d <= 5 -> det_swaps d (orient_det d).
Proof.
  intros Hd pre a b post Hok Hlen.
  assert (d = 2 \/ d = 3 \/ d = 4 \/ d = 5) as Hc by lia.
  destruct Hc as [-> | [-> | [-> | ->]]];
    explode_list pre; simpl in Hlen; try (exfalso; lia);
    explode_list post; simpl in Hlen; try (exfalso; lia);
    explode_rows; unfold_orient; ring.
Qed.

Lemma det_three_terms_at (d : nat) :
  3 <= d <= 5 -> det_three_terms d (orient_det d).
Proof.
  intros Hd ridge i q v k Hok Hlen B.
  assert (d = 3 \/ d = 4 \/ d = 5) as Hc by lia.
  destruct Hc as [-> | [-> | ->]];
    explode_list ridge; simpl in Hlen; try (exfalso; lia);
    explode_rows; subst B; unfold_orient; ring.
Qed.

Lemma Rsum_zero (l : list R) : Forall (fun x => x = 0%R) l -> Rsum l = 0%R.
Proof. induction 1; simpl; [reflexivity|]. subst. rewrite IHForall. ring. Qed.

(* the determinant is linear in its last row *)
Lemma det_last_row_linear (d : nat) (f : list (list R)) :
  3 <= d <= 5 -> rows_ok d f -> length f = d ->
  exists lv, length lv = d + 1 /\
    forall y, length y = d + 1 ->
      orient_det d (concat (f ++ [y])) = dot y lv.
Proof.
  intros Hd Hok Hlen.
  exists (map (fun m => orient_det d (concat (f ++ [unit_row (d + 1) m])))
              (seq 0 (d + 1))).
  split; [now rewrite length_map, length_seq|].
  intros y Hy.
  assert (d = 3 \/ d = 4 \/ d = 5) as Hc by lia.
  destruct Hc as [-> | [-> | ->]];
    explode_list f; simpl in Hlen; try (exfalso; lia);
    explode_rows; unfold unit_row; unfold_orient; cbv [dot]; unfold_orient;
    ring.
Qed.

(* Cramer's rule against a linear form *)
Lemma cramer_linear_form (d : nat) (S : list (list R)) (x lv : list R) :
  3 <= d <= 5 -> rows_ok d (x :: S) -> length S = d + 1 ->
  length lv = d + 1 ->
  (orient_det d (concat S) * dot x lv
   = Rsum (map (fun j => orient_det d (concat (replace_row j x S))
                         * dot (nth j S []) lv) (seq 0 (d + 1))))%R.
Proof.
  intros Hd Hok Hlen Hlv.
  assert (d = 3 \/ d = 4 \/ d = 5) as Hc by lia.
  destruct Hc as [-> | [-> | ->]];
    explode_list S; simpl in Hlen; try (exfalso; lia);
    explode_list lv; simpl in Hlv; try (exfalso; lia);
    explode_rows; cbv [replace_row firstn skipn Rsum fold_right];
    unfold_orient; cbv [dot]; unfold_orient; ring.
Qed.

Lemma det_basis_at (d : nat) :
  3 <= d <= 5 -> det_basis d (orient_det d).
Proof.
  intros Hd S f x Hok HS Hf Hdet Hzero.
  unfold rows_ok in Hok. apply Forall_cons_iff in Hok.
  destruct Hok as [Hx Hrest].
  apply Forall_app in Hrest. destruct Hrest as [HSr Hfr].
  destruct (det_last_row_linear Hd Hfr Hf) as (lv & Hlv & Hlin).
  rewrite (Hlin x Hx).
  apply Rmult_eq_reg_l with (r := orient_det d (concat S)); [|exact Hdet].
  rewrite (@cramer_linear_form d S x lv); auto;
    [|constructor; auto].
  rewrite Rmult_0_r. apply Rsum_zero.
  apply Forall_forall. intros t Ht. apply in_map_iff in Ht.
  destruct Ht as (j & <- & Hj). apply in_seq in Hj.
  assert (In (nth j S []) S) as Hin by (apply nth_In; lia).
  rewrite <- Hlin by (eapply Forall_forall in HSr; eauto).
  rewrite (Hzero _ Hin). ring.
Qed.

(** the plane of a facet against the orientation determinant *)

Lemma dot_fold (l : list (R * R)) (a : R) :
  fold_left (fun acc ab => fadd acc (fmul (fst ab) (snd ab))) l a
  = (a + fold_left (fun acc ab => fadd acc (fmul (fst ab) (snd ab))) l 0)%R.
Proof.
  revert a. induction l as [|x l IH]; intros a; cbn [fold_left].
  - ring.
  - rewrite IH. rewrite (IH (fadd 0%R _)). simpl. ring.
Qed.

Lemma dot_scale (x c : list R) (k : R) :
  dot x (map (fun v => v * k)%R c) = (dot x c * k)%R.
Proof.
  unfold dot. change (@f0 R R_scalar) with 0%R.
  revert x. induction c as [|b c IH]; intros [|a x];
    cbn [map combine fold_left fst snd]; try ring.
  rewrite dot_fold. rewrite (dot_fold _ (fadd 0%R _)).
  rewrite IH. simpl. ring.
Qed.

Lemma offset_fold (p : list R) (l : list (nat * R)) (a : R) :
  fold_left (fun acc ix => fadd acc (fmul (fopp (rd p (fst ix))) (snd ix))) l a
  = (a + fold_left
           (fun acc ix => fadd acc (fmul (fopp (rd p (fst ix))) (snd ix)))
           l 0)%R.
Proof.
  revert a. induction l as [|x l IH]; intros a; cbn [fold_left].
  - ring.
  - rewrite IH. rewrite (IH (fadd 0%R _)). simpl. ring.
Qed.

Lemma offset_scale (p c : list R) (k : R) :
  plane_offset p (map (fun v => v * k)%R c) = (plane_offset p c * k)%R.
Proof.
  unfold plane_offset. change (@f0 R R_scalar) with 0%R.
  rewrite length_map. generalize 0%nat.
  induction c as [|b c IH]; intros s;
    cbn [map length seq combine fold_left fst snd]; try ring.
  rewrite offset_fold. rewrite (offset_fold _ _ (fadd 0%R _)).
  rewrite IH. simpl. ring.
Qed.

Lemma sum_squares_zero (c : list R) :
  sum_squares c = 0%R -> c = map (fun v => v * 0)%R c.
Proof.
  induction c as [|x c IH]; intros H; [reflexivity|].
  rewrite sum_squares_cons in H.
  pose proof (sum_squares_nonneg c) as Hc.
  assert (x = 0%R) as -> by nra.
  assert (sum_squares c = 0%R) as Hs by nra.
  simpl. rewrite <- (IH Hs). f_equal. ring.
Qed.

Lemma wrow_explode (d : nat) (x : list R) :
  wrow d x -> length x = d + 1 /\ x = firstn d x ++ [1%R].
Proof.
  intros [Hl Hn]. split; [exact Hl|].
  rewrite <- (firstn_skipn d x) at 1. f_equal.
  assert (length (skipn d x) = 1) as H1 by (rewrite length_skipn; lia).
  destruct (skipn d x) as [|y [|? ?]] eqn:E; try discriminate H1.
  f_equal. rewrite <- Hn.
  assert (nth d x 0%R = nth d (firstn d x ++ skipn d x) 0%R) as Hx
    by now rewrite firstn_skipn.
  rewrite E in Hx. rewrite app_nth2 in Hx by (rewrite length_firstn; lia).
  rewrite length_firstn in Hx.
  replace (d - Nat.min d (length x)) with 0 in Hx by lia.
  now rewrite Hx.
Qed.

(* the determinant with a last row x is minus the unnormalised plane at x *)
Lemma det_is_cross_product (d : nat) (rows : list (list R)) (x : list R) :
  3 <= d <= 5 -> length rows = d ->
  Forall (fun r => length r = d) rows -> length x = d ->
  let p := concat rows in
  let raw := map (cofactor_spec d p) (seq 0 d) in
  orient_det d (concat (map (fun r => r ++ [1%R]) rows ++ [x ++ [1%R]]))
  = (- (dot x raw + plane_offset p raw))%R.
Proof.
  intros Hd Hlen Hrows Hx.
  assert (d = 3 \/ d = 4 \/ d = 5) as Hc by lia.
  destruct Hc as [-> | [-> | ->]];
    explode_list rows; simpl in Hlen; try (exfalso; lia);
    explode_rows; unfold_plane; cbv [orient_det]; unfold_plane; ring.
Qed.

Lemma plane_of_det_at (d : nat) :
  3 <= d <= 5 -> plane_of_det d (plane_nd d) (orient_det d).
Proof.
  intros Hd rows Hlen Hrows.
  rewrite plane_nd_unfold by exact Hd. cbv zeta. cbn [fst snd].
  set (p := concat (map (firstn d) rows)).
  set (raw := map (cofactor_spec d p) (seq 0 d)).
  exists (sqrt (sum_squares raw)). split; [apply sqrt_pos|].
  intros x Hx.
  assert (rows = map (fun r => r ++ [1%R]) (map (firstn d) rows)) as Hr.
  { rewrite map_map. rewrite <- (map_id rows) at 1.
    apply map_ext_in. intros r Hin.
    eapply Forall_forall in Hrows; eauto.
    now apply wrow_explode in Hrows. }
  destruct (wrow_explode Hx) as [Hxl Hxe].
  rewrite Hr, Hxe.
  rewrite det_is_cross_product; auto.
  2: now rewrite length_map.
  2: { apply Forall_forall. intros r Hin. apply in_map_iff in Hin.
       destruct Hin as (r0 & <- & Hin).
       eapply Forall_forall in Hrows; eauto. destruct Hrows as [Hl _].
       rewrite length_firstn. lia. }
  2: rewrite length_firstn; lia.
  fold p. fold raw.
  rewrite firstn_app, firstn_firstn.
  replace (Nat.min d d) with d by lia.
  rewrite length_firstn.
  replace (d - Nat.min d (length x)) with 0 by lia.
  cbn [firstn]. rewrite app_nil_r.
  unfold normalize. rewrite norm_of_eq.
  change (map (fun v : R => fdiv v (sqrt (sum_squares raw))) raw)
    with (map (fun v : R => (v * / sqrt (sum_squares raw))%R) raw).
  rewrite dot_scale, offset_scale.
  destruct (Req_dec (sqrt (sum_squares raw)) 0) as [Hz | Hnz].
  - rewrite Hz.
    apply sqrt_eq_0 in Hz; [|apply sum_squares_nonneg].
    apply sum_squares_zero in Hz.
    assert (dot (firstn d x) raw = 0%R) as ->
      by (rewrite Hz, dot_scale; ring).
    assert (plane_offset p raw = 0%R) as ->
      by (rewrite Hz, offset_scale; ring).
    ring.
  - field. exact Hnz.
Qed.

(** the working points carry a trailing 1 *)
Lemma add_noise_wrow (env : libc R) (d nVert : nat)
    (coord : nat -> nat -> outcome R) (rand : nat -> Z)
    (points : list (list R)) :
  add_noise env d nVert coord rand = Ret points -> Forall (wrow d) points.
Proof.
  unfold add_noise. intros H.
  eapply mapM_Forall in H.
  2: { intros i row _ Hf. instantiate (1 := wrow d).
       bind_inv Hf.
       match goal with H : Ret _ = Ret row |- _ => inversion H; subst row end.
       match goal with H : mapM _ _ = Ret _ |- _ =>
         apply mapM_length in H; rewrite length_seq in H; rename H into Hl end.
       split.
       - rewrite length_app. simpl. lia.
       - rewrite app_nth2 by lia. rewrite Hl, Nat.sub_diag. reflexivity. }
  exact H.
Qed.

(** *** The rows of the plane arrays *)

Section PlaneRows.
Context {F : Type} {SF : Scalar F}.
Variable env : libc F.
Variable d : nat.
Variable plane : list F -> list F * F.
Variable det : list F -> F.
Variable points : list (list F).
Hypothesis plane_length : forall p, length (fst (plane p)) = d.

Lemma hull_of_cf (l : list (list nat * (list F * F))) :
  Forall (plane_row d) l -> Forall (fun c => length c = d) (cf (hull_of l)).
Proof.
  intros H. simpl. apply Forall_forall. intros c Hc.
  apply in_map_iff in Hc. destruct Hc as (fc & <- & Hin).
  eapply Forall_forall in H; eauto.
Qed.

Lemma orient_simplex_face_row (k : nat) (fc fc' : list nat * (list F * F)) :
  plane_row d fc ->
  orient_simplex_face det points k fc = Ret fc' -> plane_row d fc'.
Proof.
  unfold orient_simplex_face, plane_row.
  destruct fc as [face [cfk dfk]]. intros Hl H. bind_inv H.
  destruct (fltb _ _).
  - bind_inv Hk. inversion Hk0. subst fc'. simpl in *.
    unfold negate. now rewrite length_map.
  - inversion Hk. now subst fc'.
Qed.

Lemma initial_hull_rows (h : hull F) :
  initial_hull d plane det points = Ret h ->
  Forall (fun c => length c = d) (cf h).
Proof.
  unfold initial_hull. intros H. bind_inv H. bind_inv Hk.
  inversion Hk0. subst h. apply hull_of_cf.
  eapply mapM_Forall; [|exact Ha0].
  intros [k fc] fc' Hin Hf. simpl in Hf.
  apply in_combine_r in Hin.
  eapply orient_simplex_face_row; [|exact Hf].
  unfold simplex_planes in Ha.
  eapply mapM_Forall in Ha.
  - eapply Forall_forall in Ha; [exact Ha|exact Hin].
  - intros i x _ Hx. simpl in Hx. bind_inv Hx.
    inversion Hk. unfold plane_row. simpl. apply plane_length.
Qed.

Lemma add_faces_rows (i : nat) (horizon : list (list nat)) (h h' : hull F) :
  Forall (fun c => length c = d) (cf h) ->
  add_faces d plane points i horizon h = Ret (Some h') ->
  Forall (fun c => length c = d) (cf h').
Proof.
  revert h. induction horizon as [|ridge hz IH]; intros h Hc H; simpl in H.
  - inversion H. now subst.
  - bind_inv H.
    pose proof (plane_length a) as Hp.
    destruct (plane a) as [cfi dfi].
    destruct (Nat.ltb _ _); [discriminate|].
    apply IH in Hk; auto. simpl.
    apply Forall_app. split; auto.
Qed.

Lemma orient_new_face_row (nF : nat) (fc fc' : list nat * (list F * F)) :
  plane_row d fc ->
  orient_new_face env det points nF fc = Ret fc' -> plane_row d fc'.
Proof.
  unfold orient_new_face, plane_row.
  destruct fc as [face [cfk dfk]]. intros Hl H. bind_inv H.
  destruct a as [detA pp].
  destruct (fltb _ _).
  - bind_inv Hk. bind_inv Hk0.
    destruct (NDEBUG env); [|destruct (fleb _ _); [discriminate|]];
      inversion Hk; subst fc'; simpl in *;
      unfold negate; now rewrite length_map.
  - inversion Hk. now subst fc'.
Qed.

Lemma insert_point_rows (i : nat) (h h' : hull F) :
  Forall (fun c => length c = d) (cf h) ->
  insert_point env d plane det points i h = Ret (Some h') ->
  Forall (fun c => length c = d) (cf h').
Proof.
  intros Hc H. unfold insert_point in H. bind_inv H.
  destruct (Nat.eqb _ 0).
  { inversion Hk. now subst. }
  bind_inv Hk. destruct a0 as [h1|]; [|discriminate].
  bind_inv Hk0. inversion Hk. subst h'.
  apply add_faces_rows in Ha0; [|simpl; now apply keep_rows_Forall].
  assert (Forall (plane_row d)
            (combine (faces h1) (combine (cf h1) (df h1)))) as Hrows.
  { apply Forall_forall. intros [f [c o]] Hin.
    apply in_combine_r in Hin. apply in_combine_l in Hin.
    unfold plane_row. simpl. eapply Forall_forall in Ha0; eauto. }
  apply hull_of_cf. apply Forall_app. split.
  - apply Forall_forall. intros x Hx. apply in_firstn in Hx.
    eapply Forall_forall in Hrows; eauto.
  - eapply mapM_Forall; [|exact Ha1].
    intros fc fc' Hin Hf. eapply orient_new_face_row; [|exact Hf].
    apply in_skipn in Hin. eapply Forall_forall in Hrows; eauto.
Qed.

Lemma main_loop_rows (pleft : list nat) (h h' : hull F) :
  Forall (fun c => length c = d) (cf h) ->
  main_loop env d plane det points pleft h = Ret (Some h') ->
  Forall (fun c => length c = d) (cf h').
Proof.
  revert h. induction pleft as [|i pl IH]; intros h Hc H; simpl in H.
  - inversion H. now subst.
  - bind_inv H. destruct a as [h1|]; [|discriminate].
    apply (IH h1); auto. eapply insert_point_rows; eauto.
Qed.

Lemma build_core_rows (span : list F) (h : hull F) :
  build_core env d plane det points span = Ret (Some h) ->
  Forall (fun c => length c = d) (cf h).
Proof.
  unfold build_core. intros H. bind_inv H.
  eapply main_loop_rows; [|exact Hk]. now apply initial_hull_rows.
Qed.

End PlaneRows.

Lemma plane_nd_length (d : nat) (p : list R) :
  3 <= d <= 5 -> length (fst (plane_nd d p)) = d.
Proof.
  intros Hd. rewrite plane_nd_unfold by exact Hd. cbv zeta. cbn [fst].
  unfold normalize. now rewrite !length_map, length_seq.
Qed.

(** *** The builders *)

Lemma builder_engine_facts (d : nat) (plane : list R -> list R * R)
    (det : list R -> R) :
  builder_engine d plane det ->
  2 <= d /\ det_swaps d det /\ det_three_terms d det /\ det_basis d det /\
  plane_of_det d plane det /\ forall p, length (fst (plane p)) = d.
Proof.
  intros [(-> & -> & ->) | (Hd & -> & ->)].
  - assert (3 <= 3 <= 5) as H3 by lia.
    split; [lia|].
    split; [exact (@det_swaps_at 3 ltac:(lia))|].
    split; [exact (det_three_terms_at H3)|].
    split; [exact (det_basis_at H3)|].
    split; [exact (plane_of_det_at H3)|].
    exact (fun p => plane_nd_length p H3).
  - split; [lia|].
    split; [apply det_swaps_at; lia|].
    split; [now apply det_three_terms_at|].
    split; [now apply det_basis_at|].
    split; [now apply plane_of_det_at|].
    intros p. now apply plane_nd_length.
Qed.

Lemma hull_inv_contained_on (d : nat) (det : list R -> R)
    (points : list (list R)) (P : list nat) (h : hull R) :
  hull_inv d det points P h -> contained_on d points P h.
Proof.
  intros (l & -> & Hl) c o Hin q Hq.
  assert (exists face, In (face, (c, o)) l) as (face & Hf).
  { clear - Hin. induction l as [|[f [c' o']] l IH]; simpl in *; [tauto|].
    destruct Hin as [E | Hin]; [inversion E; subst; eauto|].
    destruct (IH Hin) as (face & Hf). eauto. }
  eapply Forall_forall in Hl; eauto.
  destruct Hl as (_ & _ & _ & Hc).
  apply (Hc q Hq).
Qed.

Lemma engine_contained (env : libc R) (d : nat)
    (plane : list R -> list R * R) (det : list R -> R)
    (points : list (list R)) (span : list R) (h : hull R) :
  builder_engine d plane det ->
  (forall l, Permutation (qsort_desc_float env l) l) ->
  Forall (wrow d) points -> simplex_ok d det points ->
  build_core env d plane det points span = Ret (Some h) ->
  contained d points h.
Proof.
  intros He Hq Hp Hs Hb.
  destruct (builder_engine_facts He) as (H2 & Hsw & Ht & Hba & Hpl & _).
  eapply build_core_inv; eauto.
Qed.

(** C1. The builders keep every working point on the inner side of every
    facet when the first d+1 working points are affinely independent.
    In exact real arithmetic, with a qsort that permutes its input: the hull
    a successful [convhull_3d_build] returns the faces of, and the planes a
    successful [convhull_nd_build] returns, have
    [dot normal p + offset <= 0] for every working point [p], provided that
    the determinant of the first d+1 working points is not 0.  The initial
    simplex satisfies the invariant for its own vertices, every step of the
    main loop extends it by the inserted point, and the invariant gives the
    inequality for all the points inserted so far. *)
Theorem containment_invariant (env : libc R) :
  (forall l, Permutation (qsort_desc_float env l) l) ->
  (forall vs rand out n points,
     convhull_3d_build env (Some vs) rand = Ret (Some out, n) ->
     add_noise env 3 (length vs)
       (fun i j => v <- load vs i ;; Ret (vget v j)) rand = Ret points ->
     simplex_ok 3 det_4x4 points ->
     exists span h,
       build_core env 3 plane_3d det_4x4 points span = Ret (Some h) /\
       out = concat (faces h) /\ n = nFaces h /\ contained 3 points h) /\
  (forall vs nVert d rand r points,
     3 <= d <= 5 ->
     convhull_nd_build env (Some vs) nVert d true true rand = Ret r ->
     add_noise env d nVert (fun i j => load vs (i * d + j)) rand
       = Ret points ->
     simplex_ok d (orient_det d) points ->
     forall c_out d_out, out_cf r = Some c_out -> out_df r = Some d_out ->
     forall k row, k < nOut_faces r -> In row points ->
       (dot (firstn d row) (row_of c_out d k) + nth k d_out 0 <= 0)%R) /\
  (forall d plane det points,
     builder_engine d plane det -> Forall (wrow d) points ->
     simplex_ok d det points ->
     (forall h, initial_hull d plane det points = Ret h ->
                hull_inv d det points (seq 0 (d + 1)) h) /\
     (forall P i h h',
        incl (seq 0 (d + 1)) P -> (forall q, In q P -> q < length points) ->
        ~ In i P -> hull_inv d det points P h ->
        insert_point env d plane det points i h = Ret (Some h') ->
        hull_inv d det points (i :: P) h') /\
     (forall P h, hull_inv d det points P h -> contained_on d points P h)).
Proof.
  intros Hq. split; [|split].
  - intros vs rand out n points H Hn Hs.
    apply convhull_3d_build_Ret in H.
    destruct H as [[H _] | (points' & span & h & Hl & Hb & Ho & ->)];
      [discriminate|].
    rewrite Hn in Hl. inversion Hl. subst points'. inversion Ho. subst out.
    exists span, h. repeat split; auto.
    eapply engine_contained; eauto.
    + left. auto.
    + eapply add_noise_wrow; eauto.
  - intros vs nVert d rand r points Hd H Hn Hs c_out d_out Hc Hdf k row Hk Hr.
    apply convhull_nd_build_Ret in H.
    destruct H as [-> | (vs' & points' & span & h & Hv & _ & Hl & Hb & ->)];
      [discriminate|].
    inversion Hv. subst vs'. rewrite Hn in Hl. inversion Hl. subst points'.
    simpl in Hc, Hdf, Hk. inversion Hc. inversion Hdf. subst c_out d_out.
    pose proof (@build_core_wf _ _ _ _ _ _ _ _ _ Hb) as [Hwc Hwd].
    pose proof (@build_core_rows _ _ env d (plane_nd d) (orient_det d) points
                  (fun p => plane_nd_length p Hd) span h Hb) as Hrows.
    rewrite row_of_concat by (auto; lia).
    assert (contained d points h) as Hcont.
    { eapply engine_contained; eauto.
      - right. auto.
      - eapply add_noise_wrow; eauto. }
    apply Hcont; auto.
    rewrite <- (combine_nth (cf h) (df h) k [] 0%R) by lia.
    apply nth_In. rewrite length_combine. lia.
  - intros d plane det points He Hp Hs.
    destruct (builder_engine_facts He) as (H2 & Hsw & Ht & Hba & Hpl & _).
    split; [|split].
    + intros h Hi. eapply initial_hull_inv; eauto.
    + intros P i h h' HP Hlt Hi Hinv Hstep.
      eapply insert_point_inv; eauto.
    + intros P h. apply hull_inv_contained_on.
Qed.

(** *** A run with an insertion *)

Lemma perturb_zero (env : libc R) (x : R) : perturb env x 0 = x.
Proof. unfold perturb. simpl. unfold Rdiv. ring. Qed.

Lemma MAX_left (a b : R) : (b <= a)%R -> MAX a b = a.
Proof.
  intros H. unfold MAX, fgtb. cbn [fltb R_scalar].
  destruct (Rltb b a) eqn:E; [reflexivity|].
  apply Rltb_false in E. lra.
Qed.

Lemma MAX_right (a b : R) : (a < b)%R -> MAX a b = b.
Proof.
  intros H. unfold MAX, fgtb. cbn [fltb R_scalar].
  destruct (Rltb b a) eqn:E; [|reflexivity].
  apply Rltb_true in E. lra.
Qed.

Lemma MIN_left (a b : R) : (a < b)%R -> MIN a b = a.
Proof.
  intros H. unfold MIN. cbn [fltb R_scalar].
  destruct (Rltb a b) eqn:E; [reflexivity|].
  apply Rltb_false in E. lra.
Qed.

Lemma MIN_right (a b : R) : (b <= a)%R -> MIN a b = b.
Proof.
  intros H. unfold MIN. cbn [fltb R_scalar].
  destruct (Rltb a b) eqn:E; [|reflexivity].
  apply Rltb_true in E. lra.
Qed.

Lemma Rltb_is_true (a b : R) : (a < b)%R -> Rltb a b = true.
Proof. apply Rltb_true. Qed.

Lemma Rltb_is_false (a b : R) : (b <= a)%R -> Rltb a b = false.
Proof. apply Rltb_false. Qed.

Lemma sentinel_large : (223 <= lit 223 11)%R.
Proof.
  cbn [lit R_scalar]. assert (1 <= powerRZ 10 11)%R.
  { change 11%Z with (Z.of_nat 11). rewrite <- pow_powerRZ.
    apply pow_R1_Rle. lra. }
  lra.
Qed.

Lemma noise_small : (0 < lit 1 (-7) < 1)%R.
Proof.
  cbn [lit R_scalar]. change (-7)%Z with (- Z.of_nat 7)%Z.
  rewrite powerRZ_neg', <- pow_powerRZ.
  assert (1 < 10 ^ 7)%R by (simpl; lra).
  assert (0 < / 10 ^ 7 < 1)%R.
  { split; [apply Rinv_0_lt_compat; lra|].
    rewrite <- Rinv_1. apply Rinv_lt_contravar; lra. }
  lra.
Qed.

(* the threshold of the span test lies just above 1e-7 *)
Lemma threshold_above_noise : (lit 1 (-7) < min_span)%R.
Proof.
  unfold min_span. cbn [lit fdiv of_Z R_scalar].
  change (-7)%Z with (- Z.of_nat 7)%Z.
  rewrite powerRZ_neg', <- pow_powerRZ.
  replace (10 ^ 7)%R with 10000000%R by (simpl; lra).
  change (2 ^ 47)%Z with 140737488355328%Z.
  lra.
Qed.

Lemma threshold_small : (0 < min_span < 1)%R.
Proof.
  split; [pose proof noise_small; pose proof threshold_above_noise; lra|].
  unfold min_span. cbn [fdiv of_Z R_scalar].
  change (2 ^ 47)%Z with 140737488355328%Z.
  lra.
Qed.

(* the comparisons of a run on given numbers *)
Ltac decide_cmp :=
  repeat match goal with
    | |- context [MAX ?a ?b] =>
        first [rewrite (@MAX_left a b) by lra | rewrite (@MAX_right a b) by lra]
    | |- context [MIN ?a ?b] =>
        first [rewrite (@MIN_left a b) by lra | rewrite (@MIN_right a b) by lra]
    | |- context [Rltb ?a ?b] =>
        first [rewrite (@Rltb_is_true a b) by lra
              | rewrite (@Rltb_is_false a b) by lra]
    end.

Lemma cube_noise :
  add_noise (glibc false) 3 5
    (fun i j => v <- load cube_corners i ;; Ret (vget v j)) zero_rand
  = Ret cube_points.
Proof.
  unfold add_noise, zero_rand, cube_corners.
  cbn [seq mapM load nth_error bind Nat.mul Nat.add app vget fst snd].
  rewrite !perturb_zero. reflexivity.
Qed.

Lemma cube_span (msg : string) :
  exists span, find_span msg cube_points (seq 0 3) = Ret span.
Proof.
  unfold cube_points.
  cbn [seq find_span span_of fold_left rd nth fst snd].
  pose proof sentinel_large. pose proof threshold_small.
  cbn [fltb R_scalar fsub fopp].
  decide_cmp. cbn [bind]. eexists. reflexivity.
Qed.

Ltac decide_det :=
  repeat match goal with
    | |- context [Rltb ?a ?b] =>
        first [rewrite (@Rltb_is_true a b) by (unfold_orient; lra)
              | rewrite (@Rltb_is_false a b) by (unfold_orient; lra)]
    end.

Lemma Reqb_is_false (a b : R) : a <> b -> Reqb a b = false.
Proof.
  intros H. unfold Reqb.
  destruct (Req_dec_T a b); [contradiction|reflexivity].
Qed.

Lemma Reqb_is_true (a b : R) : a = b -> Reqb a b = true.
Proof.
  intros H. unfold Reqb.
  destruct (Req_dec_T a b); [reflexivity|contradiction].
Qed.

Lemma Rleb_is_true (a b : R) : (a <= b)%R -> Rleb a b = true.
Proof.
  intros H. unfold Rleb.
  destruct (Rle_dec a b); [reflexivity|contradiction].
Qed.

Lemma Rleb_is_false (a b : R) : (b < a)%R -> Rleb a b = false.
Proof.
  intros H. unfold Rleb. destruct (Rle_dec a b); [lra|reflexivity].
Qed.

(* the norms of the planes of a run: each square root gets a name, with
   the fact that its inverse is positive *)
Ltac name_roots :=
  repeat match goal with
    | |- context [sqrt ?S] =>
        let s := fresh "s" in
        let Hs := fresh "Hs" in
        assert (0 < / sqrt S)%R as Hs
          by (apply Rinv_0_lt_compat, sqrt_lt_R0; lra);
        set (s := sqrt S) in *; clearbody s
    end.

(* the tests of a run on given numbers: signs of determinants and of the
   values of planes *)
Ltac decide_all :=
  repeat match goal with
    | |- context [Rltb ?a ?b] =>
        first [rewrite (@Rltb_is_true a b) by (unfold_orient; lra)
              | rewrite (@Rltb_is_false a b) by (unfold_orient; lra)]
    | |- context [Reqb ?a ?b] =>
        first [rewrite (@Reqb_is_false a b) by (unfold_orient; lra)
              | rewrite (@Reqb_is_true a b) by (unfold_orient; lra)]
    | |- context [Rleb ?a ?b] =>
        first [rewrite (@Rleb_is_true a b) by (unfold_orient; lra)
              | rewrite (@Rleb_is_false a b) by (unfold_orient; lra)]
    end.



(* the plane through three given points *)
Lemma plane_3d_eq (a b c d e f g h i : R) :
  plane_3d [a; b; c; d; e; f; g; h; i]
  = ltac:(let t := eval cbv [plane_3d normalize cofactors pdiff_rows norm_of
                       pow2 plane_offset det_2x2 pdiff_s drop_col
                       flat_map map app seq fold_left combine concat
                       filter length Nat.add Nat.mul Nat.sub Nat.eqb
                       negb fst snd rd nth f0 f1 fadd fsub fmul fopp
                       fdiv fsqrt of_Z R_scalar]
                  in (plane_3d [a; b; c; d; e; f; g; h; i]) in exact t).
Proof. reflexivity. Qed.

(* the comparisons of the facet count with the ceiling in a short run *)
Ltac under_ceiling :=
  repeat match goal with
    | |- context [Nat.ltb CH_MAX_NUM_FACES ?n] =>
        let H := fresh in
        assert (Nat.ltb CH_MAX_NUM_FACES n = false) as H
          by (apply Nat.ltb_ge; cbn [nFaces faces length];
              pose proof ceiling_6; lia);
        rewrite H; clear H
    end.

(* the faces of the initial simplex *)
Ltac step0 :=
  cbn [seq mapM simplex_face filter negb Nat.eqb Nat.add face_coords load
       nth_error bind firstn concat app combine orient_simplex_face
       orient_matrix fst snd fltb R_scalar swap_last2 rev].

(* the run on the corner of the cube and the opposite corner: the point
   sees the facet 1-2-3 of the simplex, which three facets replace *)
Lemma cube_core (span : list R) :
  exists h,
    build_core (glibc false) 3 plane_3d det_4x4 cube_points span
    = Ret (Some h) /\
    concat (faces h)
    = [0; 3; 2; 0; 1; 3; 0; 2; 1; 3; 4; 2; 1; 4; 3; 2; 4; 1] /\
    nFaces h = 6.
Proof.
  unfold build_core, initial_hull, simplex_planes, cube_points.
  step0. decide_det. step0.
  rewrite !plane_3d_eq. cbn [negate map fopp R_scalar]. name_roots.
  unfold candidate_queue, sort_float_desc.
  cbn [skipn map length seq combine qsort_desc_float glibc isort_desc
       fold_right snd fst bind insert_by Nat.add].
  cbn [main_loop bind insert_point load nth_error firstn visible_flags map
       combine cf df hull_of fst snd].
  cbn [dot fold_left combine fst snd fgtb fltb f0 f1 of_Z fadd fmul R_scalar].
  decide_all.
  cbn [list_sum fold_right Nat.add Nat.eqb].
  cbn [keep_rows drop_rows combine filter map fst snd Nat.eqb faces cf df
       hull_of
       nFaces length horizon_of sort_int fold_right insert_by Nat.ltb Nat.leb
       ismember existsb orb list_sum Nat.add Nat.sub concat app negb].
  cbn [add_faces firstn app face_coords mapM load nth_error bind concat
       Nat.sub faces cf df].
  rewrite !plane_3d_eq. name_roots. under_ceiling.
  cbn [bind nFaces faces cf df length combine skipn firstn app].
  cbn [mapM orient_new_face sort_int fold_right insert_by Nat.ltb Nat.leb seq
       ismember existsb Nat.eqb orb keep_rows filter map fst snd combine
       find_reference orient_matrix load nth_error concat app bind
       feqb fltb fleb R_scalar].
  decide_all.
  cbn [bind fltb R_scalar]. decide_all.
  cbn [bind load nth_error orient_matrix mapM swap_last2 rev app concat
       NDEBUG glibc fleb R_scalar].
  decide_all.
  cbn [bind negate map fopp R_scalar hull_of firstn app].
  eexists. split; [reflexivity|]. split; reflexivity.
Qed.

Lemma cube_run_3d :
  convhull_3d_build (glibc false) (Some cube_corners) zero_rand
  = Ret (Some [0; 3; 2; 0; 1; 3; 0; 2; 1; 3; 4; 2; 1; 4; 3; 2; 4; 1], 6).
Proof.
  destruct (cube_span "input does not span all 3 dimensions")
    as (span & Hspan).
  destruct (cube_core span) as (h & Hh & Hf & Hn).
  unfold convhull_3d_build.
  change (length cube_corners) with 5. cbn [Nat.ltb Nat.leb].
  rewrite cube_noise. cbn [bind]. rewrite Hspan. cbn [bind].
  rewrite Hh. cbn [bind]. now rewrite Hf, Hn.
Qed.

Lemma cube_noise_nd :
  add_noise (glibc false) 3 5 (fun i j => load cube_in (i * 3 + j)) zero_rand
  = Ret cube_points.
Proof.
  unfold add_noise, zero_rand, cube_in.
  cbn [seq mapM load nth_error bind Nat.mul Nat.add app].
  rewrite !perturb_zero. reflexivity.
Qed.

Lemma cube_run_nd :
  exists h,
    convhull_nd_build (glibc false) (Some cube_in) 5 3 true true zero_rand
    = Ret (Build_hull_out (Some (concat (faces h))) (Some (concat (cf h)))
             (Some (df h)) (nFaces h)) /\
    nFaces h = 6.
Proof.
  destruct (cube_span "input vertices do not span all 'd' dimensions")
    as (span & Hspan).
  destruct (cube_core span) as (h & Hh & Hf & Hn).
  exists h. split; [|exact Hn].
  unfold convhull_nd_build.
  change (Nat.ltb CONVHULL_ND_MAX_DIMENSIONS 3) with false.
  cbn [andb Nat.leb].
  rewrite cube_noise_nd. cbn [bind].
  rewrite Hspan. cbn [bind].
  change (plane_nd 3) with (@plane_3d R _).
  change (orient_det 3) with (@det_4x4 R _).
  rewrite Hh. reflexivity.
Qed.

Lemma cube_simplex : simplex_ok 3 det_4x4 cube_points.
Proof.
  split; [simpl; lia|].
  unfold cube_points, pt. cbn [seq map nth Nat.add concat app].
  unfold_orient. lra.
Qed.

Lemma containment_invariant_witness :
  (exists span h,
     build_core (glibc false) 3 plane_3d det_4x4 cube_points span
     = Ret (Some h) /\
     [0; 3; 2; 0; 1; 3; 0; 2; 1; 3; 4; 2; 1; 4; 3; 2; 4; 1]
     = concat (faces h) /\
     6 = nFaces h /\ contained 3 cube_points h) /\
  (exists r c_out d_out,
     convhull_nd_build (glibc false) (Some cube_in) 5 3 true true zero_rand
     = Ret r /\
     out_cf r = Some c_out /\ out_df r = Some d_out /\ nOut_faces r = 6 /\
     forall k row, k < 6 -> In row cube_points ->
       (dot (firstn 3 row) (row_of c_out 3 k) + nth k d_out 0 <= 0)%R).
Proof.
  destruct (containment_invariant (glibc (F := R) false)
              (@isort_desc_perm _ _)) as (H3d & Hnd & _).
  split.
  - apply (H3d cube_corners zero_rand _ 6 cube_points);
      [exact cube_run_3d | exact cube_noise | exact cube_simplex].
  - destruct cube_run_nd as (h & Hrun & Hn).
    eexists. exists (concat (cf h)), (df h).
    split; [exact Hrun|].
    split; [reflexivity|]. split; [reflexivity|]. split; [exact Hn|].
    intros k row Hk Hrow.
    eapply (Hnd cube_in 5 3 zero_rand _ cube_points);
      [lia | exact Hrun | exact cube_noise_nd | exact cube_simplex
      | reflexivity | reflexivity | simpl; lia | exact Hrow].
Defined.

(** *** Builds that leave a point outside *)

(* the real numbers that binary64 numbers stand for, as quotients of
   integers *)
Ltac float_values :=
  unfold float_value;
  repeat match goal with
    | |- context [FloatOps.Prim2SF ?x] =>
        let y := eval vm_compute in (FloatOps.Prim2SF x) in
        change (FloatOps.Prim2SF x) with y
    end;
  cbv beta iota zeta;
  repeat match goal with
    | |- context [Z.leb ?a ?b] =>
        let y := eval vm_compute in (Z.leb a b) in
        change (Z.leb a b) with y
    end;
  cbv beta iota;
  repeat match goal with
    | |- context [IZR (Z.pow ?a ?b)] =>
        let y := eval vm_compute in (Z.pow a b) in
        change (Z.pow a b) with y
    | |- context [IZR (Z.mul ?a ?b)] =>
        let y := eval vm_compute in (Z.mul a b) in
        change (Z.mul a b) with y
    | |- context [IZR (Z.opp ?a)] =>
        let y := eval vm_compute in (Z.opp a) in
        change (Z.opp a) with y
    end.

(** C1, as stated, fails on the code in two ways.
    With four coplanar first vertices the build succeeds with 6 facets, and
    working point 2 is strictly outside facet 4 (vertices 0, 3, 4) by more
    than 1; for the large input this happens with the noise of a rand() that
    is not constant.
    In binary64 arithmetic a point is left outside also when the first four
    working points are affinely independent as real numbers: for five
    vertices near (1e6, 1e6, 1e6), with the noise of glibc's rand(), both
    builders return 6 facets, and working point 3 is outside facet 5
    (vertices 2, 1, 4) by more than 0.7.  In [det_4x4] the products are of
    the order of 1e18 and the determinant, about 0.2, is lost in their
    rounding: the restriction of the invariant to exact arithmetic cannot
    be dropped. *)
Lemma containment_fails :
  (exists r points v,
     convhull_nd_build (glibc false) (Some flat_simplex_in) 5 3 true true
       zero_rand = Ret r /\
     add_noise (glibc false) 3 5 (fun i j => load flat_simplex_in (i * 3 + j))
       zero_rand = Ret points /\
     nOut_faces r = 6 /\
     option_map (fun f => row_of f 3 4) (out_faces r) = Some [0; 3; 4] /\
     facet_value 3 r points 4 2 = Some v /\ fltb f1 v = true) /\
  (exists r points v,
     convhull_nd_build (glibc false) (Some flat_simplex_far) 5 3 true true
       lcg_rand = Ret r /\
     add_noise (glibc false) 3 5
       (fun i j => load flat_simplex_far (i * 3 + j)) lcg_rand = Ret points /\
     nOut_faces r = 6 /\
     option_map (fun f => row_of f 3 4) (out_faces r) = Some [0; 3; 4] /\
     facet_value 3 r points 4 2 = Some v /\ fltb f1 v = true) /\
  (exists r points v,
     convhull_nd_build (glibc false) (Some far_corner) 5 3 true true
       glibc_rand = Ret r /\
     add_noise (glibc false) 3 5 (fun i j => load far_corner (i * 3 + j))
       glibc_rand = Ret points /\
     simplex_ok 3 (orient_det 3) (map (map float_value) points) /\
     nOut_faces r = 6 /\
     out_faces r
     = Some [0; 3; 2; 0; 1; 3; 0; 2; 1; 3; 4; 2; 1; 4; 3; 2; 1; 4] /\
     convhull_3d_build (glibc false) (Some far_corner_vertices) glibc_rand
     = Ret (out_faces r, 6) /\
     facet_value 3 r points 5 3 = Some v /\ fltb (lit 7 (-1)) v = true).
Proof.
  split; [|split].
  - eexists. eexists. eexists.
    split; [vm_compute; reflexivity|].
    split; [vm_compute; reflexivity|].
    split; [reflexivity|]. split; [reflexivity|].
    split; [vm_compute; reflexivity|]. vm_compute. reflexivity.
  - eexists. eexists. eexists.
    split; [vm_compute; reflexivity|].
    split; [vm_compute; reflexivity|].
    split; [reflexivity|]. split; [reflexivity|].
    split; [vm_compute; reflexivity|]. vm_compute. reflexivity.
  - eexists. eexists. eexists.
    split; [vm_compute; reflexivity|].
    split; [vm_compute; reflexivity|].
    split.
    { split; [simpl; lia|].
      unfold pt. cbn [seq map nth Nat.add concat app].
      float_values.
      unfold_orient. lra. }
    split; [reflexivity|]. split; [reflexivity|].
    split; [vm_compute; reflexivity|].
    split; [vm_compute; reflexivity|]. vm_compute. reflexivity.
Qed.

(** *** A run of the Delaunay reduction *)


Lemma one_point_scan : find_maxW one_point_lifted 2 = Some 0.
Proof.
  unfold find_maxW, one_point_lifted, project, zero_rand.
  cbn [seq mapM load nth_error bind Nat.mul Nat.add app fold_left length
       combine fst snd rd nth].
  rewrite !perturb_zero.
  cbn [fold_left fgtb fltb fopp fadd fmul f0 of_Z R_scalar].
  pose proof sentinel_large.
  rewrite Rltb_is_true by lra. reflexivity.
Qed.

(* a call with one point, and in binary64 a call with one point that has a
   coordinate that is not a number *)
Lemma delaunay_no_visible_facet_witness :
  delaunay_nd_mesh (glibc false) [3; 4]%R 1 2 zero_rand (Some [7; 7; 7])
  = Ret (Some [7; 7; 7], 0) /\
  delaunay_nd_mesh (glibc false) [PrimFloat.nan; float_of_Z 0] 1 2 zero_rand
    (Some [7; 7; 7]) = Abort.
Proof.
  split.
  - pose proof (proj1 (@delaunay_no_visible_facet _ _ (glibc false)
                         [3; 4]%R 1 2 zero_rand (Some [7; 7; 7])
                         one_point_lifted (Build_hull_out None None None 0)
                         eq_refl eq_refl)) as H.
    rewrite one_point_scan in H.
    destruct H as (p & _ & _ & H). apply H. reflexivity.
  - assert (project (glibc false) [PrimFloat.nan; float_of_Z 0] 1 2 zero_rand
            = Ret [[PrimFloat.nan; float_of_Z 0; PrimFloat.nan]]) as Hp
      by (vm_compute; reflexivity).
    assert (convhull_nd_build (glibc false)
              (Some (concat [[PrimFloat.nan; float_of_Z 0; PrimFloat.nan]]))
              1 (2 + 1) true true (fun k => zero_rand (1 * 2 + k))
            = Ret (Build_hull_out None None None 0)) as Hb
      by (vm_compute; reflexivity).
    pose proof (proj1 (@delaunay_no_visible_facet _ _ (glibc false)
                         [PrimFloat.nan; float_of_Z 0] 1 2 zero_rand
                         (Some [7; 7; 7]) _ _ Hp Hb)) as H.
    exact H.
Defined.


(** * The sort routines, the vector helpers and the file functions *)

(** ** The comparators *)

(** X1. The two int comparators order the records by their values alone:
    the result is 0 exactly for equal values and -1 exactly for a smaller
    first value, exchanging the arguments negates it, the order is
    transitive, and the descending comparator is the ascending one with its
    arguments exchanged. *)
Theorem cmp_int_total_order (a b c : Z * nat) :
  (cmp_asc_int a b = 0 <-> fst a = fst b)%Z /\
  (cmp_asc_int a b = -1 <-> fst a < fst b)%Z /\
  (cmp_asc_int a b = - cmp_asc_int b a)%Z /\
  ((cmp_asc_int a b <= 0)%Z -> (cmp_asc_int b c <= 0)%Z ->
   (cmp_asc_int a c <= 0)%Z) /\
  cmp_desc_int a b = cmp_asc_int b a.
Proof.
  unfold cmp_asc_int, cmp_desc_int.
  repeat match goal with
    | |- context [(?x <? ?y)%Z] => destruct (Z.ltb_spec x y)
    | |- context [(?x >? ?y)%Z] => rewrite (Z.gtb_ltb x y)
    end; repeat split; intros; try lia.
Qed.

Lemma Rltb_cases (x y : R) :
  (Rltb x y = true /\ (x < y)%R) \/ (Rltb x y = false /\ (y <= x)%R).
Proof.
  unfold Rltb. destruct (Rlt_dec x y); [left | right]; split; auto. lra.
Qed.

(** X2. On real values the two float comparators are a total order of the
    records by value: 0 exactly for equal values, -1 exactly for a smaller
    first value, antisymmetric, transitive, and the descending comparator is
    the ascending one with its arguments exchanged. *)
Theorem cmp_float_total_order (a b c : R * nat) :
  (cmp_asc_float a b = 0%Z <-> fst a = fst b) /\
  (cmp_asc_float a b = (-1)%Z <-> (fst a < fst b)%R) /\
  (cmp_asc_float a b = - cmp_asc_float b a)%Z /\
  ((cmp_asc_float a b <= 0)%Z -> (cmp_asc_float b c <= 0)%Z ->
   (cmp_asc_float a c <= 0)%Z) /\
  cmp_desc_float a b = cmp_asc_float b a.
Proof.
  unfold cmp_asc_float, cmp_desc_float, fgtb. cbn [fltb R_scalar].
  destruct a as [x i], b as [y j], c as [z k]. cbn [fst].
  repeat match goal with
    | |- context [Rltb ?u ?v] =>
        let H := fresh in destruct (Rltb_cases u v) as [[-> H] | [-> H]]
    end;
    repeat split; intros; try lia; try lra; try discriminate.
Qed.

Lemma ltb_nan_l (x y : PrimFloat.float) :
  PrimFloat.is_nan x = true -> PrimFloat.ltb x y = false.
Proof.
  intros H. rewrite FloatAxioms.ltb_spec.
  unfold PrimFloat.is_nan in H. rewrite FloatAxioms.eqb_spec in H.
  unfold SpecFloat.SFltb. unfold SpecFloat.SFeqb in H.
  destruct (FloatOps.Prim2SF x) as [s| s | |s m e] eqn:E; simpl in *;
    try reflexivity.
  all: try (destruct s; discriminate).
  all: rewrite ?Z.compare_refl, ?Pos.compare_refl in H; simpl in H.
  all: try (destruct s; simpl in H; rewrite ?Z.compare_refl, ?Pos.compare_refl in H; discriminate).
Qed.

Lemma ltb_nan_r (x y : PrimFloat.float) :
  PrimFloat.is_nan y = true -> PrimFloat.ltb x y = false.
Proof.
  intros H. rewrite FloatAxioms.ltb_spec.
  unfold PrimFloat.is_nan in H. rewrite FloatAxioms.eqb_spec in H.
  unfold SpecFloat.SFltb. unfold SpecFloat.SFeqb in H.
  destruct (FloatOps.Prim2SF y) as [s| s | |s m e] eqn:E; simpl in *.
  all: try (destruct s; discriminate).
  - destruct (FloatOps.Prim2SF x) as [[|]|[|]| |[|] ? ?]; reflexivity.
  - rewrite ?Z.compare_refl, ?Pos.compare_refl in H.
    destruct s; simpl in H;
      rewrite ?Z.compare_refl, ?Pos.compare_refl in H; discriminate.
Qed.

(** X3. On binary64 values a NaN compares as equal to every value, on
    either side and in both comparators; a NaN in the array therefore makes
    the comparators inconsistent (two different numbers are both "equal" to
    it). *)
Theorem cmp_float_nan (n a : PrimFloat.float * nat) :
  PrimFloat.is_nan (fst n) = true ->
  cmp_asc_float n a = 0%Z /\ cmp_asc_float a n = 0%Z /\
  cmp_desc_float n a = 0%Z /\ cmp_desc_float a n = 0%Z.
Proof.
  intros H. unfold cmp_asc_float, cmp_desc_float, fgtb.
  cbn [fltb float_scalar].
  rewrite (ltb_nan_l _ _ H), (ltb_nan_r _ _ H). auto.
Qed.

Lemma cmp_float_nan_witness :
  let n := (PrimFloat.nan, 0) in
  let a := (float_of_Z 1, 1) in
  let b := (float_of_Z 2, 2) in
  (cmp_asc_float a n = 0%Z /\ cmp_asc_float n b = 0%Z /\
   cmp_asc_float a b = (-1)%Z).
Proof.
  intros n a b.
  destruct (@cmp_float_nan n a eq_refl) as (_ & H1 & _).
  destruct (@cmp_float_nan n b eq_refl) as (H2 & _).
  split; [exact H1|]. split; [exact H2|]. reflexivity.
Defined.

(** ** The sort routines *)

Lemma mapM_load_prefix {A : Type} (v : list A) (len : nat) (vs : list A) :
  mapM (load v) (seq 0 len) = Ret vs -> len <= length v /\ vs = firstn len v.
Proof.
  intros H.
  assert (forall i, i < len -> exists b,
            nth_error vs i = Some b /\ nth_error v i = Some b) as Hn.
  { intros i Hi. destruct (@mapM_nth _ _ _ _ _ i i H) as (b & Hb & Hl).
    { rewrite nth_error_nth' with (d := 0) by now rewrite length_seq.
      now rewrite seq_nth. }
    apply load_Ret in Hl. eauto. }
  assert (len <= length v) as Hlen.
  { destruct len as [|n]; [lia|].
    destruct (Hn n) as (b & _ & Hb); [lia|].
    assert (n < length v) by (apply nth_error_Some; congruence). lia. }
  split; [exact Hlen|].
  apply nth_error_ext. intros i.
  destruct (Nat.lt_ge_cases i len) as [Hi | Hi].
  - destruct (Hn i Hi) as (b & -> & Hb).
    rewrite nth_error_firstn.
    destruct (Nat.ltb_spec i len); [now rewrite Hb | lia].
  - apply mapM_length in H. rewrite length_seq in H.
    rewrite (proj2 (nth_error_None vs i)) by lia.
    symmetry. apply nth_error_None. rewrite length_firstn. lia.
Qed.

Lemma store_prefix_Ret {X : Type} (x v : list X) (len : nat) (x' : list X) :
  store_prefix x v len = Ret x' ->
  len <= length x /\ len <= length v /\
  x' = firstn len v ++ skipn len x /\ length x' = length x.
Proof.
  unfold store_prefix. intros H.
  destruct (Nat.ltb_spec (length x) len); [discriminate|].
  bind_inv H. inversion Hk. subst x'.
  apply mapM_load_prefix in Ha. destruct Ha as [Hl ->].
  repeat split; auto.
  rewrite length_app, length_firstn, length_skipn. lia.
Qed.

Lemma map_fst_combine_seq {A : Type} (vals : list A) (s : nat) :
  map fst (combine vals (seq s (length vals))) = vals.
Proof.
  revert s. induction vals as [|x vals IH]; intros s; simpl; auto.
  now rewrite IH.
Qed.

Lemma map_snd_combine_seq {A : Type} (vals : list A) (s : nat) :
  map snd (combine vals (seq s (length vals))) = seq s (length vals).
Proof.
  revert s. induction vals as [|x vals IH]; intros s; simpl; auto.
  now rewrite IH.
Qed.

Lemma in_combine_seq {A : Type} (vals : list A) (s : nat) (a : A) (k : nat) :
  In (a, k) (combine vals (seq s (length vals))) ->
  s <= k /\ nth_error vals (k - s) = Some a.
Proof.
  revert s. induction vals as [|x vals IH]; intros s Hin;
    simpl in Hin; [contradiction|].
  destruct Hin as [E | Hin].
  - inversion E. subst. split; [lia|]. now rewrite Nat.sub_diag.
  - destruct (IH _ Hin) as [Hs Hn]. split; [lia|].
    replace (k - s) with (S (k - S s)) by lia. exact Hn.
Qed.

(* what a permutation of the records keeps *)
Lemma records_permuted {A : Type} (vals : list A) (data : list (A * nat)) :
  Permutation data (combine vals (seq 0 (length vals))) ->
  length data = length vals /\
  Permutation (map fst data) vals /\
  Permutation (map snd data) (seq 0 (length vals)) /\
  forall i, i < length vals ->
    nth_error (map fst data) i = nth_error vals (nth i (map snd data) 0) /\
    nth i (map snd data) 0 < length vals.
Proof.
  intros Hp.
  assert (length data = length vals) as Hlen.
  { rewrite (Permutation_length Hp), length_combine, length_seq. lia. }
  split; [exact Hlen|].
  split; [rewrite Hp; now rewrite map_fst_combine_seq|].
  split; [rewrite Hp; now rewrite map_snd_combine_seq|].
  assert (Forall (fun r => nth_error vals (snd r) = Some (fst r)) data) as Hf.
  { apply Forall_forall. intros [a k] Hin.
    apply (Permutation_in _ Hp) in Hin. cbn [fst snd].
    apply in_combine_seq in Hin. destruct Hin as [_ Hin].
    now rewrite Nat.sub_0_r in Hin. }
  intros i Hi.
  destruct (nth_error data i) as [[a k]|] eqn:E.
  2: { apply nth_error_None in E. lia. }
  assert (In (a, k) data) as Hin by (eapply nth_error_In; eauto).
  eapply Forall_forall in Hf; eauto. cbn [fst snd] in Hf.
  rewrite (map_nth_error fst _ _ E). cbn [fst].
  rewrite nth_error_nth with (x := k)
    by (rewrite (map_nth_error snd _ _ E); reflexivity).
  split; [now rewrite Hf|].
  apply nth_error_Some. congruence.
Qed.

Lemma firstn_app_exact {A : Type} (l1 l2 : list A) (n : nat) :
  length l1 = n -> firstn n (l1 ++ l2) = l1 /\ skipn n (l1 ++ l2) = l2.
Proof.
  intros <-. split.
  - rewrite firstn_app, Nat.sub_diag, firstn_all. simpl. apply app_nil_r.
  - rewrite skipn_app, Nat.sub_diag, skipn_all. reflexivity.
Qed.

Section SortFloat.
Context {F : Type} {SF : Scalar F}.
Variable qsort : qsort_fn.
Hypothesis qsort_perm : forall A cmp l, Permutation (@qsort A cmp l) l.

(* the sorted records of a call *)
Lemma sorted_records (in_vec : list F) (len : nat) (flag : Z) (vals : list F) :
  mapM (load in_vec) (seq 0 len) = Ret vals ->
  let data :=
    if Z.eqb flag 0 then @qsort _ cmp_asc_float (combine vals (seq 0 len))
    else @qsort _ cmp_desc_float (combine vals (seq 0 len)) in
  len <= length in_vec /\ vals = firstn len in_vec /\
  length (map fst data) = len /\ length (map snd data) = len /\
  Permutation (map fst data) (firstn len in_vec) /\
  Permutation (map snd data) (seq 0 len) /\
  forall i, i < len ->
    nth_error (map fst data) i = nth_error in_vec (nth i (map snd data) 0) /\
    nth i (map snd data) 0 < len.
Proof.
  intros H data. apply mapM_load_prefix in H. destruct H as [Hlen ->].
  assert (length (firstn len in_vec) = len) as Hl
    by (rewrite length_firstn; lia).
  assert (Permutation data
            (combine (firstn len in_vec)
                     (seq 0 (length (firstn len in_vec))))) as Hp.
  { rewrite Hl. unfold data. destruct (Z.eqb flag 0); apply qsort_perm. }
  destruct (records_permuted _ Hp) as (Hd & Hf & Hs & Hn).
  rewrite Hl in *.
  repeat split; auto; try (rewrite length_map; exact Hd).
  - destruct (Hn i H) as [Hi Hk]. rewrite Hi.
    rewrite nth_error_firstn.
    destruct (Nat.ltb_spec (nth i (map snd data) 0) len); [reflexivity|lia].
  - now destruct (Hn i H).
Qed.

(** X4. With a qsort that permutes the array, [sort_float] with both
    outputs leaves the input vector as it was, writes a permutation of its
    first [len] values, and the index output maps every sorted value back to
    where it came from: [out_vec[i] = in_vec[new_idices[i]]], with
    [new_idices] a permutation of [0 .. len-1]; the entries behind [len] of
    the two output arrays keep their values. *)
Theorem sort_float_indices (in_vec o : list F) (x : list nat) (len : nat)
    (flag : Z) (in' o' : list F) (x' : list nat) :
  sort_float qsort in_vec (Some o) (Some x) len flag
  = Ret (in', Some o', Some x') ->
  in' = in_vec /\
  Permutation (firstn len o') (firstn len in_vec) /\
  Permutation (firstn len x') (seq 0 len) /\
  (forall i, i < len ->
     nth_error o' i = nth_error in_vec (nth i x' 0) /\ nth i x' 0 < len) /\
  skipn len o' = skipn len o /\ skipn len x' = skipn len x.
Proof.
  unfold sort_float. intros H.
  apply bind_Ret in H. destruct H as (vals & Hv & H).
  pose proof (sorted_records _ _ flag Hv) as Hrec. cbv zeta in Hrec.
  set (data := if Z.eqb flag 0 then _ else _) in *.
  destruct Hrec as (Hlen & -> & Hlf & Hls & Hpf & Hps & Hn).
  apply bind_Ret in H. destruct H as ([i1 o1] & Ho & H).
  apply bind_Ret in Ho. destruct Ho as (o2 & Ho & E). inversion E. subst i1 o1.
  apply bind_Ret in H. destruct H as (x1 & Hx & H).
  apply bind_Ret in Hx. destruct Hx as (x2 & Hx & E'). inversion E'. subst x1.
  inversion H. subst in' o' x'.
  apply store_prefix_Ret in Ho, Hx.
  destruct Ho as (_ & _ & -> & _). destruct Hx as (_ & _ & -> & _).
  rewrite (firstn_all2 (n := len) (map fst data)) by lia.
  rewrite (firstn_all2 (n := len) (map snd data)) by lia.
  destruct (firstn_app_exact (map fst data) (skipn len o) Hlf) as [E1 E2].
  destruct (firstn_app_exact (map snd data) (skipn len x) Hls) as [E3 E4].
  rewrite E1, E2, E3, E4. clear H E E'.
  split; [reflexivity|]. split; [exact Hpf|]. split; [exact Hps|].
  split; [|split; reflexivity].
  intros i Hi. destruct (Hn i Hi) as [Hv' Hk].
  rewrite nth_error_app1 by lia.
  rewrite app_nth1 by lia. split; assumption.
Qed.

(** X5. With a qsort that permutes the array, [sort_float] without an
    output vector sorts in place: the first [len] entries of the input
    vector are permuted among themselves, the entries behind them and the
    length of the vector are unchanged. *)
Theorem sort_float_in_place (in_vec : list F) (len : nat) (flag : Z)
    (in' : list F) :
  sort_float qsort in_vec None None len flag = Ret (in', None, None) ->
  Permutation (firstn len in') (firstn len in_vec) /\
  skipn len in' = skipn len in_vec /\
  length in' = length in_vec /\ Permutation in' in_vec.
Proof.
  unfold sort_float. intros H.
  apply bind_Ret in H. destruct H as (vals & Hv & H).
  pose proof (sorted_records _ _ flag Hv) as Hrec. cbv zeta in Hrec.
  set (data := if Z.eqb flag 0 then _ else _) in *.
  destruct Hrec as (Hlen & -> & Hlf & Hls & Hpf & Hps & Hn).
  apply bind_Ret in H. destruct H as ([i1 o1] & Ho & H).
  apply bind_Ret in Ho. destruct Ho as (o2 & Ho & E). inversion E. subst i1 o1.
  cbn [bind] in H. inversion H. subst in'.
  apply store_prefix_Ret in Ho.
  destruct Ho as (_ & _ & -> & Hl).
  rewrite (firstn_all2 (n := len) (map fst data)) by lia.
  destruct (firstn_app_exact (map fst data) (skipn len in_vec) Hlf) as [E1 E2].
  rewrite (firstn_all2 (n := len) (map fst data)) in Hl by lia.
  rewrite E1, E2. clear H E.
  split; [exact Hpf|]. split; [reflexivity|]. split; [exact Hl|].
  rewrite <- (firstn_skipn len in_vec) at 2.
  now apply Permutation_app_tail.
Qed.

End SortFloat.

Lemma isort_by_perm (A : Type) (cmp : A -> A -> Z) (l : list A) :
  Permutation (isort_by cmp l) l.
Proof.
  unfold isort_by. induction l as [|x l IH]; simpl; auto.
  rewrite insert_by_perm. now constructor.
Qed.

(* insertion keeps a list sorted when the comparator is a total preorder *)
Lemma isort_by_sorted (A : Type) (cmp : A -> A -> Z) (l : list A) :
  (forall a b, (cmp a b = - cmp b a)%Z) ->
  (forall a b c, (cmp a b <= 0)%Z -> (cmp b c <= 0)%Z -> (cmp a c <= 0)%Z) ->
  StronglySorted (fun a b => (cmp a b <= 0)%Z) (isort_by cmp l).
Proof.
  intros Hanti Htrans. unfold isort_by.
  induction l as [|x l IH]; simpl; [constructor|].
  revert IH. generalize (fold_right (insert_by (fun y x0 => (cmp y x0 <? 0)%Z)) [] l).
  intros s Hs. induction Hs as [|y s Hs IHs Hy]; simpl.
  - repeat constructor.
  - destruct (Z.ltb_spec (cmp y x) 0) as [Hlt | Hge].
    + constructor; auto.
      assert (Permutation (insert_by (fun y0 x0 => (cmp y0 x0 <? 0)%Z) x s)
                          (x :: s)) as Hp by apply insert_by_perm.
      apply Forall_forall. intros z Hz.
      apply (Permutation_in _ Hp) in Hz. destruct Hz as [<- | Hz]; [lia|].
      eapply Forall_forall in Hy; eauto.
    + assert (cmp x y <= 0)%Z as Hxy by (rewrite Hanti; lia).
      constructor; [constructor; auto|].
      constructor; auto.
      eapply Forall_impl; [|exact Hy]. intros z Hz. cbv beta in Hz.
      eapply Htrans; eauto.
Qed.

Lemma StronglySorted_map {A B : Type} (f : A -> B) (R : A -> A -> Prop)
    (S : B -> B -> Prop) (l : list A) :
  (forall a b, R a b -> S (f a) (f b)) ->
  StronglySorted R l -> StronglySorted S (map f l).
Proof.
  intros H Hs. induction Hs as [|a l Hs IH Ha]; simpl; constructor; auto.
  apply Forall_map. eapply Forall_impl; [|exact Ha]. intros b. apply H.
Qed.

Lemma StronglySorted_firstn {A : Type} (R : A -> A -> Prop) (n : nat)
    (l : list A) :
  StronglySorted R l -> StronglySorted R (firstn n l).
Proof.
  intros Hs. revert n. induction Hs as [|a l Hs IH Ha]; intros [|n]; simpl;
    try constructor; auto.
  apply Forall_forall. intros x Hx. apply in_firstn in Hx.
  eapply Forall_forall in Ha; eauto.
Qed.

Lemma cmp_asc_float_le (a b : R * nat) :
  (cmp_asc_float a b <= 0)%Z <-> (fst a <= fst b)%R.
Proof.
  unfold cmp_asc_float, fgtb. cbn [fltb R_scalar].
  repeat match goal with
    | |- context [Rltb ?u ?v] =>
        let H := fresh in destruct (Rltb_cases u v) as [[-> H] | [-> H]]
    end; split; intros; try lia; try lra.
Qed.

Lemma cmp_desc_float_swap {F : Type} {SF : Scalar F} (a b : F * nat) :
  cmp_desc_float a b = cmp_asc_float b a.
Proof. reflexivity. Qed.

Lemma cmp_desc_float_le (a b : R * nat) :
  (cmp_desc_float a b <= 0)%Z <-> (fst b <= fst a)%R.
Proof. rewrite cmp_desc_float_swap. apply cmp_asc_float_le. Qed.

(** X6. On real values, when qsort returns its array sorted by the
    comparator it is given, the first [len] entries of the vector sorted in
    place are in nondecreasing order for [descendFLAG = 0] and in
    nonincreasing order for every other value of the flag. *)
Theorem sort_float_sorted (qsort : qsort_fn) (in_vec : list R) (len : nat)
    (flag : Z) (in' : list R) :
  (forall l, StronglySorted (fun a b => (cmp_asc_float a b <= 0)%Z)
               (qsort (R * nat)%type cmp_asc_float l)) ->
  (forall l, StronglySorted (fun a b => (cmp_desc_float a b <= 0)%Z)
               (qsort (R * nat)%type cmp_desc_float l)) ->
  sort_float qsort in_vec None None len flag = Ret (in', None, None) ->
  if Z.eqb flag 0 then StronglySorted Rle (firstn len in')
  else StronglySorted Rge (firstn len in').
Proof.
  intros Hasc Hdesc H. unfold sort_float in H.
  apply bind_Ret in H. destruct H as (vals & Hv & H).
  apply bind_Ret in H. destruct H as ([i1 o1] & Ho & H).
  apply bind_Ret in Ho. destruct Ho as (o2 & Ho & E). inversion E. subst i1 o1.
  cbn [bind] in H. inversion H. subst in'. clear H E.
  apply store_prefix_Ret in Ho. destruct Ho as (_ & Hl & -> & _).
  match goal with
  | |- context [firstn len (firstn len ?v ++ _)] =>
      assert (length (firstn len v) = len) as Hlen
        by (rewrite length_firstn; lia);
      rewrite (proj1 (firstn_app_exact _ (skipn len in_vec) Hlen))
  end.
  destruct (Z.eqb flag 0); apply StronglySorted_firstn.
  - eapply StronglySorted_map; [|apply Hasc].
    intros a b. apply cmp_asc_float_le.
  - eapply StronglySorted_map; [|apply Hdesc].
    intros a b Hab. apply cmp_desc_float_le in Hab. lra.
Qed.

(* runs of the sort routines with the insertion qsort *)
Lemma sort_float_indices_witness :
  let in_vec := map float_of_Z [3; 1; 2]%Z in
  let o' := map float_of_Z [3; 2; 1; 9]%Z in
  let x' := [0; 2; 1; 7] in
  Permutation (firstn 3 o') (firstn 3 in_vec) /\
  Permutation (firstn 3 x') (seq 0 3) /\
  (forall i, i < 3 ->
     nth_error o' i = nth_error in_vec (nth i x' 0) /\ nth i x' 0 < 3).
Proof.
  intros in_vec o' x'.
  destruct (@sort_float_indices _ _ isort_by isort_by_perm in_vec
              (map float_of_Z [9; 9; 9; 9]%Z) [7; 7; 7; 7] 3 1 in_vec o' x')
    as (_ & H1 & H2 & H3 & _).
  - vm_compute. reflexivity.
  - auto.
Defined.

Lemma sort_float_in_place_witness :
  let in_vec := map float_of_Z [3; 1; 2; 0]%Z in
  let in' := map float_of_Z [1; 3; 2; 0]%Z in
  Permutation (firstn 2 in') (firstn 2 in_vec) /\
  skipn 2 in' = skipn 2 in_vec /\
  length in' = length in_vec /\ Permutation in' in_vec.
Proof.
  intros in_vec in'.
  apply (@sort_float_in_place _ _ isort_by isort_by_perm in_vec 2 0 in').
  vm_compute. reflexivity.
Defined.

Lemma isort_by_asc_sorted (l : list (R * nat)) :
  StronglySorted (fun a b => (cmp_asc_float a b <= 0)%Z)
    (isort_by cmp_asc_float l).
Proof.
  apply isort_by_sorted.
  - intros a b. unfold cmp_asc_float, fgtb. cbn [fltb R_scalar].
    repeat match goal with
      | |- context [Rltb ?u ?v] =>
          let H := fresh in destruct (Rltb_cases u v) as [[-> H] | [-> H]]
      end; try lia; lra.
  - intros a b c H1 H2. apply cmp_asc_float_le in H1, H2.
    apply cmp_asc_float_le. lra.
Qed.

Lemma isort_by_desc_sorted (l : list (R * nat)) :
  StronglySorted (fun a b => (cmp_desc_float a b <= 0)%Z)
    (isort_by cmp_desc_float l).
Proof.
  apply isort_by_sorted.
  - intros a b. unfold cmp_desc_float, fgtb. cbn [fltb R_scalar].
    repeat match goal with
      | |- context [Rltb ?u ?v] =>
          let H := fresh in destruct (Rltb_cases u v) as [[-> H] | [-> H]]
      end; try lia; lra.
  - intros a b c H1 H2. apply cmp_desc_float_le in H1, H2.
    apply cmp_desc_float_le. lra.
Qed.

Lemma sort_float_sorted_witness :
  StronglySorted Rge (firstn 3 [3; 2; 1; 0]%R).
Proof.
  apply (@sort_float_sorted isort_by [3; 1; 2; 0]%R 3 7 [3; 2; 1; 0]%R
           isort_by_asc_sorted isort_by_desc_sorted).
  unfold sort_float, store_prefix, isort_by, cmp_desc_float, fgtb.
  cbn [seq mapM load nth_error bind combine fold_right insert_by fst snd
       Z.eqb fltb R_scalar].
  decide_cmp.
  cbn [seq mapM load nth_error bind combine fold_right insert_by fst snd
       Z.ltb Z.compare].
  decide_cmp.
  cbn [seq mapM load nth_error bind combine fold_right insert_by fst snd
       Z.ltb Z.compare map length Nat.ltb Nat.leb skipn app].
  reflexivity.
Defined.

(** ** sort_int *)

Lemma sorted_perm_unique {A : Type} (R : A -> A -> Prop) (l1 l2 : list A) :
  (forall a b, R a b -> R b a -> a = b) ->
  StronglySorted R l1 -> StronglySorted R l2 -> Permutation l1 l2 -> l1 = l2.
Proof.
  intros Hanti H1. revert l2.
  induction H1 as [|a l1 H1 IH Ha]; intros l2 H2 Hp.
  - apply Permutation_nil in Hp. now subst.
  - destruct H2 as [|b l2 H2 Hb].
    + symmetry in Hp. apply Permutation_nil in Hp. discriminate.
    + assert (a = b) as ->.
      { assert (In a (b :: l2)) as Hin
          by (apply (Permutation_in _ Hp); simpl; auto).
        assert (In b (a :: l1)) as Hin'
          by (apply (Permutation_in _ (Permutation_sym Hp)); simpl; auto).
        destruct Hin as [E | Hin]; [now subst|].
        destruct Hin' as [E | Hin']; [now subst|].
        eapply Forall_forall in Ha; eauto.
        eapply Forall_forall in Hb; eauto. }
      f_equal. apply IH; auto. eapply Permutation_cons_inv; eauto.
Qed.

Lemma insert_by_sorted {A : Type} (lt : A -> A -> bool) (R : A -> A -> Prop)
    (x : A) (l : list A) :
  (forall a b, lt a b = true -> R a b) ->
  (forall a b, lt a b = false -> R b a) ->
  (forall a b c, R a b -> R b c -> R a c) ->
  StronglySorted R l -> StronglySorted R (insert_by lt x l).
Proof.
  intros Ht Hf Htr Hs. induction Hs as [|y s Hs IHs Hy]; simpl.
  - repeat constructor.
  - destruct (lt y x) eqn:E.
    + constructor; auto.
      apply Forall_forall. intros z Hz.
      apply (Permutation_in _ (insert_by_perm lt x s)) in Hz.
      destruct Hz as [<- | Hz]; [auto|].
      eapply Forall_forall in Hy; eauto.
    + constructor; [constructor; auto|].
      constructor; auto.
      eapply Forall_impl; [|exact Hy]. intros z Hz. cbv beta in Hz.
      eapply Htr; eauto.
Qed.

Lemma sort_int_sorted (l : list nat) (desc : bool) :
  if desc then StronglySorted ge (sort_int l true)
  else StronglySorted le (sort_int l false).
Proof.
  unfold sort_int. destruct desc.
  - induction l as [|x l IH]; simpl; [constructor|].
    apply insert_by_sorted; auto.
    + intros a b H. apply Nat.ltb_lt in H. unfold ge. lia.
    + intros a b H. apply Nat.ltb_ge in H. unfold ge. lia.
    + unfold ge. intros. lia.
  - induction l as [|x l IH]; simpl; [constructor|].
    apply insert_by_sorted; auto.
    + intros a b H. apply Nat.ltb_lt in H. lia.
    + intros a b H. apply Nat.ltb_ge in H. lia.
    + intros. lia.
Qed.

(** X8. [sort_int] on the values (the call [sort_int(v, NULL, NULL, len,
    flag)] of the builders) returns a permutation of its input in
    nondecreasing order, or in nonincreasing order with the flag; the result
    depends on the values only, not on their order in the input, so two
    faces with the same vertices sort to the same vector. *)
Theorem sort_int_canonical (l : list nat) (desc : bool) :
  Permutation (sort_int l desc) l /\
  (if desc then StronglySorted ge (sort_int l desc)
   else StronglySorted le (sort_int l desc)) /\
  (forall l', Permutation l l' -> sort_int l' desc = sort_int l desc).
Proof.
  split; [apply sort_int_perm|].
  split; [destruct desc; [apply (sort_int_sorted l true)
                         | apply (sort_int_sorted l false)]|].
  intros l' Hp.
  assert (Permutation (sort_int l' desc) (sort_int l desc)) as Hq.
  { rewrite !sort_int_perm. now symmetry. }
  destruct desc.
  - apply (sorted_perm_unique (R := ge)); auto.
    + unfold ge. intros. lia.
    + apply (sort_int_sorted l' true).
    + apply (sort_int_sorted l true).
  - apply (sorted_perm_unique (R := le)); auto.
    + intros. lia.
    + apply (sort_int_sorted l' false).
    + apply (sort_int_sorted l false).
Qed.

Lemma cmp_asc_int_le (a b : Z * nat) :
  (cmp_asc_int a b <= 0)%Z <-> (fst a <= fst b)%Z.
Proof.
  unfold cmp_asc_int. rewrite Z.gtb_ltb.
  destruct (Z.ltb_spec (fst a) (fst b)), (Z.ltb_spec (fst b) (fst a));
    split; intros; lia.
Qed.

Lemma cmp_desc_int_le (a b : Z * nat) :
  (cmp_desc_int a b <= 0)%Z <-> (fst b <= fst a)%Z.
Proof.
  unfold cmp_desc_int. rewrite Z.gtb_ltb.
  destruct (Z.ltb_spec (fst a) (fst b)), (Z.ltb_spec (fst b) (fst a));
    split; intros; lia.
Qed.

(** X7. The vector [sort_int] leaves in place does not depend on the qsort
    of the C library: with any qsort that permutes the array and returns it
    sorted by the comparator, the call on a vector of indices leaves the
    vector that insertion sort gives, ascending for [descendFLAG = 0] and
    descending otherwise. *)
Theorem sort_int_idx_values (qsort : qsort_fn) (l : list nat) (flag : Z)
    (in' : list Z) :
  (forall A cmp l, Permutation (qsort A cmp l) l) ->
  (forall l, StronglySorted (fun a b => (cmp_asc_int a b <= 0)%Z)
               (qsort (Z * nat)%type cmp_asc_int l)) ->
  (forall l, StronglySorted (fun a b => (cmp_desc_int a b <= 0)%Z)
               (qsort (Z * nat)%type cmp_desc_int l)) ->
  sort_int_idx qsort (map Z.of_nat l) None None (length l) flag
  = Ret (in', None, None) ->
  in' = map Z.of_nat (sort_int l (negb (Z.eqb flag 0))).
Proof.
  intros Hperm Hasc Hdesc H. unfold sort_int_idx in H.
  set (zl := map Z.of_nat l) in *.
  assert (length l = length zl) as Hzl by (symmetry; apply length_map).
  rewrite Hzl in H.
  apply bind_Ret in H. destruct H as (vals & Hv & H).
  apply mapM_load_prefix in Hv. destruct Hv as [_ ->].
  rewrite firstn_all in H.
  apply bind_Ret in H. destruct H as ([i1 o1] & Ho & H).
  apply bind_Ret in Ho. destruct Ho as (o2 & Ho & E). inversion E. subst i1 o1.
  cbn [bind] in H. inversion H. subst in'. clear H E.
  apply store_prefix_Ret in Ho. destruct Ho as (_ & Hl & -> & _).
  rewrite skipn_all, app_nil_r.
  set (recs := combine zl (seq 0 (length zl))) in *.
  assert (map fst recs = zl) as Hrecs by apply map_fst_combine_seq.
  assert (length recs = length zl) as Hlr
    by (unfold recs; rewrite length_combine, length_seq; lia).
  destruct (Z.eqb flag 0); cbn [negb].
  - rewrite firstn_all2
      by (rewrite length_map, (Permutation_length (Hperm _ _ _)); lia).
    apply (sorted_perm_unique (R := Z.le)).
    + intros. lia.
    + eapply StronglySorted_map; [|apply Hasc].
      intros a b. apply cmp_asc_int_le.
    + eapply StronglySorted_map; [|apply (sort_int_sorted l false)].
      intros a b. cbv beta. lia.
    + rewrite (Hperm _ _ _), Hrecs. apply Permutation_map.
      symmetry. apply sort_int_perm.
  - rewrite firstn_all2
      by (rewrite length_map, (Permutation_length (Hperm _ _ _)); lia).
    apply (sorted_perm_unique (R := Z.ge)).
    + intros. lia.
    + eapply StronglySorted_map; [|apply Hdesc].
      intros a b Hab. apply cmp_desc_int_le in Hab. lia.
    + eapply StronglySorted_map; [|apply (sort_int_sorted l true)].
      intros a b. unfold ge. lia.
    + rewrite (Hperm _ _ _), Hrecs. apply Permutation_map.
      symmetry. apply sort_int_perm.
Qed.

Lemma isort_by_int_asc_sorted (l : list (Z * nat)) :
  StronglySorted (fun a b => (cmp_asc_int a b <= 0)%Z)
    (isort_by cmp_asc_int l).
Proof.
  apply isort_by_sorted.
  - intros a b. unfold cmp_asc_int. rewrite !Z.gtb_ltb.
    destruct (Z.ltb_spec (fst a) (fst b)), (Z.ltb_spec (fst b) (fst a)); lia.
  - intros a b c H1 H2. apply cmp_asc_int_le in H1, H2.
    apply cmp_asc_int_le. lia.
Qed.

Lemma isort_by_int_desc_sorted (l : list (Z * nat)) :
  StronglySorted (fun a b => (cmp_desc_int a b <= 0)%Z)
    (isort_by cmp_desc_int l).
Proof.
  apply isort_by_sorted.
  - intros a b. unfold cmp_desc_int. rewrite !Z.gtb_ltb.
    destruct (Z.ltb_spec (fst a) (fst b)), (Z.ltb_spec (fst b) (fst a)); lia.
  - intros a b c H1 H2. apply cmp_desc_int_le in H1, H2.
    apply cmp_desc_int_le. lia.
Qed.

Lemma sort_int_idx_values_witness :
  [0; 1; 2; 2]%Z = map Z.of_nat (sort_int [2; 0; 2; 1] (negb (Z.eqb 0 0))).
Proof.
  apply (@sort_int_idx_values isort_by [2; 0; 2; 1] 0 [0; 1; 2; 2]%Z
           isort_by_perm isort_by_int_asc_sorted isort_by_int_desc_sorted).
  vm_compute. reflexivity.
Defined.

(** ** ismember *)

(** X9. [ismember] writes one flag for every element of the left vector:
    1 when the element occurs somewhere in the right vector and 0 when it
    does not (so all flags are 0 for an empty right vector). *)
Theorem ismember_flags (pLeft pRight : list nat) :
  length (ismember pLeft pRight) = length pLeft /\
  forall i x, nth_error pLeft i = Some x ->
    (In x pRight -> nth_error (ismember pLeft pRight) i = Some 1) /\
    (~ In x pRight -> nth_error (ismember pLeft pRight) i = Some 0).
Proof.
  split; [apply ismember_length|].
  intros i x Hx. unfold ismember.
  rewrite (map_nth_error _ _ _ Hx).
  destruct (existsb (Nat.eqb x) pRight) eqn:E.
  - split; [reflexivity|]. intros Hn. exfalso. apply Hn.
    apply existsb_exists in E. destruct E as (y & Hy & Hxy).
    apply Nat.eqb_eq in Hxy. now subst.
  - split; [|reflexivity]. intros Hin. exfalso.
    assert (existsb (Nat.eqb x) pRight = true) as E'.
    { apply existsb_exists. exists x. split; auto. apply Nat.eqb_refl. }
    congruence.
Qed.

(** ** cross and the planes *)

(** X10. Over the reals [cross v1 v2] is orthogonal to both arguments,
    exchanging the arguments negates every component, and it is the zero
    vector when one argument is a multiple of the other. *)
Theorem cross_orthogonal (v1 v2 : @ch_vertex R) (k : R) :
  vdot (cross v1 v2) v1 = 0%R /\ vdot (cross v1 v2) v2 = 0%R /\
  (forall j, j < 3 -> vget (cross v2 v1) j = (- vget (cross v1 v2) j)%R) /\
  (forall j, j < 3 ->
     vget (cross v1 (k * vget v1 0, k * vget v1 1, k * vget v1 2)%R) j = 0%R).
Proof.
  destruct v1 as [[x1 y1] z1], v2 as [[x2 y2] z2].
  unfold vdot, cross, vget. cbn [fst snd fsub fmul R_scalar].
  split; [ring|]. split; [ring|].
  split; intros [|[|[|j]]] Hj; try lia; cbn [fst snd]; ring.
Qed.

(** X11. The normal [plane_3d] computes for three points is the normalised
    [cross] of the two edge vectors [p1 - p0] and [p2 - p1], component by
    component, and its offset is minus its product with [p0]. *)
Theorem plane_3d_is_cross (p0 p1 p2 : @ch_vertex R) :
  let p := [vget p0 0; vget p0 1; vget p0 2;
            vget p1 0; vget p1 1; vget p1 2;
            vget p2 0; vget p2 1; vget p2 2] in
  let e1 := (vget p1 0 - vget p0 0, vget p1 1 - vget p0 1,
             vget p1 2 - vget p0 2)%R in
  let e2 := (vget p2 0 - vget p1 0, vget p2 1 - vget p1 1,
             vget p2 2 - vget p1 2)%R in
  let n := cross e1 e2 in
  let len := sqrt (vdot n n) in
  fst (plane_3d p) = [vget n 0 / len; vget n 1 / len; vget n 2 / len]%R /\
  snd (plane_3d p)
  = (- (vget p0 0 * (vget n 0 / len) + vget p0 1 * (vget n 1 / len)
        + vget p0 2 * (vget n 2 / len)))%R.
Proof.
  destruct p0 as [[x0 y0] z0], p1 as [[x1 y1] z1], p2 as [[x2 y2] z2].
  intros p e1 e2 n len.
  assert (norm_of (cofactors 3 det_2x2 (pdiff_rows 3 p)) = len) as Hn.
  { unfold len, norm_of, vdot, n, cross, e1, e2, p, vget.
    unfold_plane. cbn [fst snd fsqrt R_scalar]. f_equal. ring. }
  unfold plane_3d. cbv zeta. unfold normalize. rewrite Hn.
  generalize len. intros l.
  unfold p, n, cross, e1, e2, vget. unfold_plane. cbn [fst snd].
  split.
  - repeat (f_equal; try (unfold Rdiv; ring)).
  - unfold Rdiv. ring.
Qed.

Lemma sum_squares_opp (c : list R) : sum_squares (map Ropp c) = sum_squares c.
Proof.
  induction c as [|x c IH]; [reflexivity|].
  cbn [map]. rewrite !sum_squares_cons, IH. ring.
Qed.

Lemma normalize_opp (c : list R) :
  normalize (map Ropp c) = map Ropp (normalize c).
Proof.
  unfold normalize. rewrite !norm_of_eq, sum_squares_opp, !map_map.
  apply map_ext. intros x. cbn [fdiv R_scalar]. unfold Rdiv. ring.
Qed.

Lemma plane_offset_first_point (p p' c : list R) :
  (forall i, i < length c -> rd p' i = rd p i) ->
  plane_offset p' c = plane_offset p c.
Proof.
  unfold plane_offset. generalize (@f0 R R_scalar).
  assert (forall s r, (forall i, s <= i < s + length c -> rd p' i = rd p i) ->
            fold_left (fun acc ix => fadd acc (fmul (fopp (rd p' (fst ix)))
                                                    (snd ix)))
                      (combine (seq s (length c)) c) r
            = fold_left (fun acc ix => fadd acc (fmul (fopp (rd p (fst ix)))
                                                      (snd ix)))
                        (combine (seq s (length c)) c) r) as H.
  { induction c as [|x c IH]; intros s r Hs; [reflexivity|].
    cbn [length seq combine fold_left fst snd].
    rewrite (Hs s) by (simpl; lia). apply IH.
    intros i Hi. apply Hs. simpl. lia. }
  intros r Hp. apply H. intros i Hi. apply Hp. lia.
Qed.

Lemma plane_offset_opp (p c : list R) :
  plane_offset p (map Ropp c) = (- plane_offset p c)%R.
Proof.
  rewrite (map_ext Ropp (fun v => v * -1)%R) by (intros; ring).
  rewrite offset_scale. ring.
Qed.

(* exchanging the last two points negates the generalized cross product *)
Lemma cofactors_swap (d : nat) (pre : list (list R)) (a b : list R) :
  3 <= d <= 5 -> length (pre ++ [a; b]) = d ->
  Forall (fun r => length r = d) (pre ++ [a; b]) ->
  map (cofactor_spec d (concat (pre ++ [b; a]))) (seq 0 d)
  = map Ropp (map (cofactor_spec d (concat (pre ++ [a; b]))) (seq 0 d)).
Proof.
  intros Hd Hlen Hrows.
  assert (d = 3 \/ d = 4 \/ d = 5) as Hc by lia.
  destruct Hc as [-> | [-> | ->]];
    explode_list pre; simpl in Hlen; try (exfalso; lia);
    explode_rows; unfold_plane; repeat (f_equal; try ring).
Qed.

(** X12. The builders change the orientation of a face by exchanging its
    last two vertices and negating the stored plane instead of computing it
    again.  Over the reals and for [3 <= d <= 5] the two agree: [plane_nd]
    on the points in the new order returns the negated coefficients and the
    negated offset. *)
Theorem plane_nd_swap_negates (d : nat) (pre : list (list R)) (a b : list R) :
  3 <= d <= 5 -> length (pre ++ [a; b]) = d ->
  Forall (fun r => length r = d) (pre ++ [a; b]) ->
  plane_nd d (concat (pre ++ [b; a]))
  = (negate (fst (plane_nd d (concat (pre ++ [a; b])))),
     (- snd (plane_nd d (concat (pre ++ [a; b]))))%R).
Proof.
  intros Hd Hlen Hrows.
  rewrite !plane_nd_unfold by exact Hd. cbv zeta. cbn [fst snd].
  rewrite (cofactors_swap pre a b Hd Hlen Hrows).
  set (raw := map (cofactor_spec d (concat (pre ++ [a; b]))) (seq 0 d)).
  rewrite normalize_opp. unfold negate.
  change (@fopp R R_scalar) with Ropp. f_equal.
  rewrite plane_offset_opp. f_equal.
  apply plane_offset_first_point.
  intros i Hi.
  assert (length (normalize raw) = d) as Hl
    by (unfold normalize, raw; now rewrite !length_map, length_seq).
  rewrite Hl in Hi.
  destruct pre as [|r0 pre]; [simpl in Hlen; lia|].
  inversion Hrows as [|? ? Hr0 _]. subst.
  unfold rd. cbn [app concat].
  rewrite !app_nth1 by lia. reflexivity.
Qed.

Lemma plane_nd_swap_negates_witness :
  plane_nd 3 (concat ([[0; 0; 0]] ++ [[0; 1; 0]; [1; 0; 0]]))%R
  = (negate (fst (plane_nd 3 (concat ([[0; 0; 0]] ++ [[1; 0; 0]; [0; 1; 0]]))%R)),
     (- snd (plane_nd 3 (concat ([[0; 0; 0]] ++ [[1; 0; 0]; [0; 1; 0]]))%R))%R).
Proof.
  apply (@plane_nd_swap_negates 3 [[0; 0; 0]] [1; 0; 0] [0; 1; 0])%R.
  - lia.
  - reflexivity.
  - repeat constructor.
Defined.

(** ** The determinants *)

Lemma seq_offset (s n : nat) : seq s n = map (fun c => s + c) (seq 0 n).
Proof.
  revert s. induction n as [|n IH]; intros s; [reflexivity|].
  cbn [seq map]. f_equal; [lia|].
  rewrite IH, (IH 1), map_map. apply map_ext. intros c. lia.
Qed.

Lemma seq_blocks (N k r : nat) :
  seq (k * N) (r * N)
  = concat (map (fun q => map (fun c => q * N + c) (seq 0 N)) (seq k r)).
Proof.
  revert k. induction r as [|r IH]; intros k; [reflexivity|].
  cbn [seq map concat]. rewrite <- IH.
  replace (S r * N) with (N + r * N) by lia.
  rewrite seq_app. f_equal.
  - apply seq_offset.
  - f_equal. lia.
Qed.

Lemma list_sum_const {A : Type} (k : nat) (l : list A) :
  list_sum (map (fun _ => k) l) = length l * k.
Proof. induction l as [|x l IH]; simpl; [reflexivity|]. now rewrite IH. Qed.

(** X13. [createSubMatrix] copies the rows [1 .. N-1] of the [N x N] matrix
    without their entry in column [i], row after row, so it writes
    [(N-1) * (N-1)] entries: the 25 entries of the buffer in [det_NxN] are
    enough for every size up to 6. *)
Theorem createSubMatrix_rows {F : Type} {SF : Scalar F} (m : list F)
    (N i : nat) :
  i < N ->
  createSubMatrix m N i
  = concat (map (fun r =>
                   map (fun c => rd m (r * N + c))
                       (filter (fun c => negb (Nat.eqb c i)) (seq 0 N)))
                (seq 1 (N - 1))) /\
  length (createSubMatrix m N i) = (N - 1) * (N - 1) /\
  (N <= 6 ->
   length (createSubMatrix m N i)
   <= CONVHULL_ND_MAX_DIMENSIONS * CONVHULL_ND_MAX_DIMENSIONS).
Proof.
  intros Hi.
  assert (createSubMatrix m N i
          = concat (map (fun r =>
                           map (fun c => rd m (r * N + c))
                               (filter (fun c => negb (Nat.eqb c i))
                                       (seq 0 N)))
                        (seq 1 (N - 1)))) as E.
  { unfold createSubMatrix.
    replace (N * N - N) with ((N - 1) * N) by nia.
    replace (seq N ((N - 1) * N)) with (seq (1 * N) ((N - 1) * N))
      by (f_equal; lia).
    rewrite seq_blocks, <- concat_filter_map, concat_map, !map_map.
    f_equal. apply map_ext_in. intros q Hq.
    rewrite filter_map_swap, map_map.
    f_equal. apply filter_ext_in. intros c Hc. apply in_seq in Hc.
    f_equal. f_equal.
    rewrite Nat.add_comm, Nat.Div0.mod_add. apply Nat.mod_small. lia. }
  assert (length (createSubMatrix m N i) = (N - 1) * (N - 1)) as L.
  { rewrite E, length_concat, map_map.
    rewrite (map_ext _ (fun _ => N - 1)).
    - rewrite list_sum_const, length_seq. reflexivity.
    - intros r. rewrite length_map, filter_neq_seq by exact Hi.
      rewrite length_app, !length_seq. lia. }
  split; [exact E|]. split; [exact L|].
  intros HN. rewrite L. unfold CONVHULL_ND_MAX_DIMENSIONS. nia.
Qed.

Lemma createSubMatrix_rows_witness :
  createSubMatrix [1; 2; 3; 4; 5; 6; 7; 8; 9]%R 3 1 = [4; 6; 7; 9]%R.
Proof.
  destruct (@createSubMatrix_rows _ _ [1; 2; 3; 4; 5; 6; 7; 8; 9]%R 3 1)
    as (E & _); [lia|].
  rewrite E. reflexivity.
Defined.

(** X14. [det_NxN] is the determinant also at size 6, the size of the
    orientation matrix of the N-D builder in 5 dimensions. *)
Theorem det_NxN_6_is_det_spec (m : list R) : det_NxN m 6 = det_spec m 6.
Proof. unfold_det. ring. Qed.

(** ** The builders *)

(** X15. Over the reals, with [0 <= rand() <= RAND_MAX] and [0 < RAND_MAX],
    the noise never lowers a coordinate and raises it by at most
    [CH_NOISE_VAL = 1e-7]: every working coordinate lies in
    [[x, x + 1e-7]] for the input coordinate [x] it comes from. *)
Theorem noise_one_sided (env : libc R) (d nVert : nat)
    (coord : nat -> nat -> outcome R) (rand : nat -> Z)
    (points : list (list R)) (i j : nat) :
  (0 < RAND_MAX env)%Z ->
  (forall k, 0 <= rand k <= RAND_MAX env)%Z ->
  add_noise env d nVert coord rand = Ret points ->
  i < nVert -> j < d ->
  exists x,
    coord i j = Ret x /\
    (x <= nth j (nth i points []) 0 <= x + / 10 ^ 7)%R /\
    nth d (nth i points []) 0%R = 1%R.
Proof.
  intros HM Hr H Hi Hj.
  destruct (@add_noise_rows _ _ env d nVert coord rand points i H Hi)
    as (row & Hrow & Hlen & Hc).
  destruct (Hc j Hj) as (x & Hx & Hn).
  exists x. split; [exact Hx|].
  rewrite (nth_error_nth points i [] Hrow).
  rewrite (nth_error_nth row j 0%R Hn).
  split.
  - unfold perturb, CH_NOISE_VAL. cbn [fadd fmul fdiv of_Z lit R_scalar].
    change (-7)%Z with (- Z.of_nat 7)%Z.
    rewrite powerRZ_neg', <- pow_powerRZ.
    assert (0 <= IZR (rand (i * d + j)%nat) <= IZR (RAND_MAX env))%R as [H0 H1]
      by (split; apply IZR_le; apply Hr).
    assert (0 < IZR (RAND_MAX env))%R as HM' by (now apply IZR_lt).
    assert (0 < / 10 ^ 7)%R as Hp by (apply Rinv_0_lt_compat; simpl; lra).
    set (q := (IZR (rand (i * d + j)%nat) / IZR (RAND_MAX env))%R).
    assert (0 <= q <= 1)%R as [Hq0 Hq1].
    { unfold q. split.
      - apply Rmult_le_pos; [lra|]. left. now apply Rinv_0_lt_compat.
      - apply (Rmult_le_reg_r (IZR (RAND_MAX env))); [exact HM'|].
        unfold Rdiv. rewrite Rmult_assoc, Rinv_l by lra. lra. }
    replace (1 * / 10 ^ 7 * IZR (rand (i * d + j)%nat) / IZR (RAND_MAX env))%R
      with (/ 10 ^ 7 * q)%R by (unfold q, Rdiv; ring).
    split; nra.
  - unfold add_noise in H.
    destruct (@mapM_nth _ _ _ _ _ i i H) as (row' & Hrow' & Hf).
    { rewrite nth_error_nth' with (d := 0) by now rewrite length_seq.
      now rewrite seq_nth. }
    rewrite Hrow in Hrow'. inversion Hrow'. subst row'.
    apply bind_Ret in Hf. destruct Hf as (cs & Hcs & E). inversion E.
    apply mapM_length in Hcs. rewrite length_seq in Hcs.
    rewrite app_nth2 by lia. rewrite Hcs, Nat.sub_diag. reflexivity.
Qed.

Lemma lcg_rand_range (k : nat) : (0 <= lcg_rand k <= 2147483647)%Z.
Proof.
  unfold lcg_rand.
  match goal with |- (_ <= ?a mod ?m <= _)%Z =>
    pose proof (Z.mod_pos_bound a m ltac:(lia)) end.
  lia.
Qed.

Lemma noise_one_sided_witness :
  exists points,
    add_noise (glibc false) 3 4 (fun i j => load corner_in (i * 3 + j))
      lcg_rand = Ret points /\
    exists x,
      load corner_in (1 * 3 + 2) = Ret x /\
      (x <= nth 2 (nth 1 points []) 0 <= x + / 10 ^ 7)%R /\
      nth 3 (nth 1 points []) 0%R = 1%R.
Proof.
  eexists. split.
  - unfold add_noise, corner_in.
    cbn [seq mapM load nth_error bind Nat.mul Nat.add app]. reflexivity.
  - apply (@noise_one_sided (glibc false) 3 4
             (fun i j => load corner_in (i * 3 + j)) lcg_rand _ 1 2).
    + reflexivity.
    + intro k. apply lcg_rand_range.
    + unfold add_noise, corner_in.
      cbn [seq mapM load nth_error bind Nat.mul Nat.add app]. reflexivity.
    + lia.
    + lia.
Defined.

(** ** The span of the working points *)

Lemma span_fold (j : nat) (points : list (list R)) (M m : R) :
  let r := fold_left (fun (mm : R * R) (row : list R) =>
                        (MAX (fst mm) (rd row j), MIN (snd mm) (rd row j)))
                     points (M, m) in
  ((M <= fst r)%R /\ (snd r <= m)%R /\
   (forall row, In row points -> (snd r <= rd row j <= fst r)%R)) /\
  (fst r = M \/ exists row, In row points /\ fst r = rd row j) /\
  (snd r = m \/ exists row, In row points /\ snd r = rd row j).
Proof.
  revert M m. induction points as [|p ps IH]; intros M m; cbn [fold_left].
  - cbn [fst snd]. split; [|auto]. split; [lra|]. split; [lra|].
    intros ? [].
  - cbn [fst snd].
    specialize (IH (MAX M (rd p j)) (MIN m (rd p j))). cbv zeta in IH.
    destruct IH as ((IH1 & IH2 & IH3) & IH4 & IH5).
    set (r := fold_left _ ps _) in *.
    assert ((M <= MAX M (rd p j))%R /\ (rd p j <= MAX M (rd p j))%R /\
            (MAX M (rd p j) = M \/ MAX M (rd p j) = rd p j)) as (A1 & A2 & A3).
    { destruct (Rle_lt_dec (rd p j) M) as [H|H].
      - rewrite MAX_left by exact H. repeat split; auto; lra.
      - rewrite MAX_right by exact H. repeat split; auto; lra. }
    assert ((MIN m (rd p j) <= m)%R /\ (MIN m (rd p j) <= rd p j)%R /\
            (MIN m (rd p j) = m \/ MIN m (rd p j) = rd p j)) as (B1 & B2 & B3).
    { destruct (Rle_lt_dec (rd p j) m) as [H|H].
      - rewrite MIN_right by exact H. repeat split; auto; lra.
      - rewrite MIN_left by exact H. repeat split; auto; lra. }
    split; [|split].
    + split; [lra|]. split; [lra|].
      intros row [<- | H]; [lra|]. now apply IH3.
    + destruct IH4 as [E | (row & Hin & E)].
      * destruct A3 as [A3 | A3].
        -- left. congruence.
        -- right. exists p. split; [now left | congruence].
      * right. exists row. split; [now right | exact E].
    + destruct IH5 as [E | (row & Hin & E)].
      * destruct B3 as [B3 | B3].
        -- left. congruence.
        -- right. exists p. split; [now left | congruence].
      * right. exists row. split; [now right | exact E].
Qed.

(** X16. Over the reals the span of column [j] bounds every difference of
    two [j]-th coordinates of the working points; and when there is a point
    and all [j]-th coordinates lie between the sentinels [-2.23e13] and
    [2.23e13], the span is the difference of two of them: the largest minus
    the smallest. *)
Theorem span_of_is_range (points : list (list R)) (j : nat) :
  (forall r1 r2, In r1 points -> In r2 points ->
     (rd r1 j - rd r2 j <= span_of points j)%R) /\
  (points <> [] ->
   (forall r, In r points -> (- lit 223 11 <= rd r j <= lit 223 11)%R) ->
   exists r1 r2, In r1 points /\ In r2 points /\
     span_of points j = (rd r1 j - rd r2 j)%R /\
     forall r, In r points -> (rd r2 j <= rd r j <= rd r1 j)%R).
Proof.
  unfold span_of.
  pose proof (span_fold j points (- lit 223 11) (lit 223 11)) as H.
  cbv zeta in H.
  destruct (fold_left _ points _) as [max_p min_p]. cbn [fst snd] in H.
  destruct H as ((H1 & H2 & H3) & H4 & H5).
  cbn [fsub R_scalar].
  split.
  - intros r1 r2 Hr1 Hr2.
    pose proof (H3 r1 Hr1). pose proof (H3 r2 Hr2). lra.
  - intros Hne Hs.
    destruct points as [|p ps]; [congruence|].
    assert (exists r1, In r1 (p :: ps) /\ max_p = rd r1 j) as (r1 & Hr1 & E1).
    { destruct H4 as [E | H4]; [|exact H4].
      exists p. split; [now left|].
      pose proof (H3 p (or_introl eq_refl)).
      pose proof (Hs p (or_introl eq_refl)). lra. }
    assert (exists r2, In r2 (p :: ps) /\ min_p = rd r2 j) as (r2 & Hr2 & E2).
    { destruct H5 as [E | H5]; [|exact H5].
      exists p. split; [now left|].
      pose proof (H3 p (or_introl eq_refl)).
      pose proof (Hs p (or_introl eq_refl)). lra. }
    exists r1, r2. repeat split; auto; try congruence.
    + rewrite <- E2. now apply H3.
    + rewrite <- E1. now apply H3.
Qed.

(** ** An input of exactly d+1 points *)

Lemma mapM_Forall2 {A B : Type} (f : A -> outcome B) (l : list A) (bs : list B) :
  mapM f l = Ret bs -> Forall2 (fun a b => f a = Ret b) l bs.
Proof.
  revert bs. induction l as [|a l IH]; intros bs H; simpl in H.
  - inversion H. constructor.
  - apply bind_Ret in H. destruct H as (b & Hb & H).
    apply bind_Ret in H. destruct H as (bs' & Hbs & H).
    inversion H. subst bs. constructor; auto.
Qed.

Lemma Forall2_combine_l {A B C : Type} (P : A -> B -> Prop) (Q : A * B -> C -> Prop)
    (R : A -> C -> Prop) (la : list A) (lb : list B) (lc : list C) :
  (forall a b c, P a b -> Q (a, b) c -> R a c) ->
  Forall2 P la lb -> Forall2 Q (combine la lb) lc -> Forall2 R la lc.
Proof.
  intros HR H. revert lc. induction H as [|a b la lb Hab H IH]; intros lc HQ.
  - inversion HQ. constructor.
  - simpl in HQ. inversion HQ; subst. constructor; eauto.
Qed.

Lemma Forall2_map_right {A B C : Type} (P : A -> C -> Prop) (f : B -> C)
    (l : list A) (l' : list B) :
  Forall2 (fun a b => P a (f b)) l l' -> Forall2 P l (map f l').
Proof. induction 1; simpl; constructor; auto. Qed.

Section SimplexInput.
Context {F : Type} {SF : Scalar F}.
Variable env : libc F.

Lemma initial_hull_simplex d plane det (points : list (list F)) (h : hull F) :
  initial_hull d plane det points = Ret h ->
  Forall2 (simplex_facet d) (seq 0 (d + 1)) (faces h).
Proof.
  unfold initial_hull, simplex_planes. intros H.
  apply bind_Ret in H. destruct H as (l & Hl & H).
  apply bind_Ret in H. destruct H as (l' & Hl' & H).
  inversion H. subst h. clear H. cbn [faces hull_of].
  apply mapM_Forall2 in Hl. apply mapM_Forall2 in Hl'.
  apply Forall2_map_right.
  eapply Forall2_combine_l; [|exact Hl|exact Hl'].
  intros k fc fc' Hfc Ho. cbn [fst snd] in Ho.
  apply bind_Ret in Hfc. destruct Hfc as (ps & _ & Hfc). inversion Hfc.
  subst fc. clear Hfc.
  unfold orient_simplex_face in Ho. destruct (plane ps) as [cfk dfk].
  apply bind_Ret in Ho. destruct Ho as (A & _ & Ho).
  destruct (fltb (det A) f0).
  - apply bind_Ret in Ho. destruct Ho as (A' & _ & Ho). inversion Ho.
    right. reflexivity.
  - inversion Ho. left. reflexivity.
Qed.

Lemma candidate_queue_nil d (points : list (list F)) (span : list F) :
  qsort_desc_float env [] = [] -> length points = d + 1 ->
  candidate_queue env d points span = [].
Proof.
  intros Hq Hl. unfold candidate_queue, sort_float_desc.
  rewrite skipn_all2 by lia. cbn [map length seq combine snd].
  now rewrite Hq.
Qed.

Lemma build_core_simplex d plane det (points : list (list F)) (span : list F)
    (r : option (hull F)) :
  qsort_desc_float env [] = [] -> length points = d + 1 ->
  build_core env d plane det points span = Ret r ->
  exists h, r = Some h /\ nFaces h = d + 1 /\
            Forall2 (simplex_facet d) (seq 0 (d + 1)) (faces h).
Proof.
  intros Hq Hl H. unfold build_core in H.
  apply bind_Ret in H. destruct H as (h & Hh & H).
  rewrite candidate_queue_nil in H by assumption. cbn [main_loop] in H.
  inversion H. exists h. split; [reflexivity|].
  apply initial_hull_simplex in Hh. split; [|exact Hh].
  apply Forall2_length in Hh. rewrite length_seq in Hh.
  unfold nFaces. lia.
Qed.

End SimplexInput.

(** X17. An input of exactly [d + 1] points (four vertices for the 3-D
    builder) leaves the candidate queue empty: a build that returns, returns
    the initial simplex, [d + 1] facets of which facet [k] holds the
    vertices [0 .. d] other than [k] in increasing order, possibly with its
    last two vertices exchanged; it never returns the empty result.  The
    [qsort] of the library is only assumed to leave an empty array empty. *)
Theorem simplex_input_hull {F : Type} {SF : Scalar F} (env : libc F) :
  qsort_desc_float env [] = [] ->
  (forall vs rand out n,
     length vs = 4 ->
     convhull_3d_build env (Some vs) rand = Ret (out, n) ->
     exists fs, out = Some (concat fs) /\ n = 4 /\
                Forall2 (simplex_facet 3) (seq 0 4) fs) /\
  (forall vs d want_cf want_df rand r,
     convhull_nd_build env (Some vs) (d + 1) d want_cf want_df rand = Ret r ->
     exists fs, out_faces r = Some (concat fs) /\ nOut_faces r = d + 1 /\
                Forall2 (simplex_facet d) (seq 0 (d + 1)) fs).
Proof.
  intros Hq. split.
  - intros vs rand out n Hl H. unfold convhull_3d_build in H.
    rewrite Hl in H. cbn [Nat.ltb Nat.leb] in H.
    apply bind_Ret in H. destruct H as (points & Hp & H).
    apply bind_Ret in H. destruct H as (span & Hs & H).
    apply bind_Ret in H. destruct H as (r & Hr & H).
    apply add_noise_length in Hp.
    apply build_core_simplex in Hr; [|exact Hq|exact Hp].
    destruct Hr as (h & -> & Hn & Hf). inversion H. subst out n.
    exists (faces h). auto.
  - intros vs d want_cf want_df rand r H. unfold convhull_nd_build in H.
    destruct (_ && _); [discriminate|].
    replace (Nat.leb (d + 1) d) with false in H
      by (symmetry; apply Nat.leb_gt; lia).
    apply bind_Ret in H. destruct H as (points & Hp & H).
    apply bind_Ret in H. destruct H as (span & Hs & H).
    destruct (Nat.ltb CONVHULL_ND_MAX_DIMENSIONS d); [discriminate|].
    apply bind_Ret in H. destruct H as (r' & Hr & H).
    apply add_noise_length in Hp.
    apply build_core_simplex in Hr; [|exact Hq|exact Hp].
    destruct Hr as (h & -> & Hn & Hf). inversion H. cbn [out_faces nOut_faces].
    exists (faces h). auto.
Qed.

Lemma simplex_input_hull_witness :
  convhull_3d_build (glibc false) (Some (firstn 4 tetra_in)) lcg_rand
  = Ret (Some [1; 2; 3;  0; 3; 2;  0; 1; 3;  0; 2; 1], 4) /\
  exists fs, Some [1; 2; 3;  0; 3; 2;  0; 1; 3;  0; 2; 1] = Some (concat fs) /\
             4 = 4 /\ Forall2 (simplex_facet 3) (seq 0 4) fs.
Proof.
  assert (convhull_3d_build (glibc false) (Some (firstn 4 tetra_in)) lcg_rand
          = Ret (Some [1; 2; 3;  0; 3; 2;  0; 1; 3;  0; 2; 1], 4)) as E
    by (vm_compute; reflexivity).
  split; [exact E|].
  destruct (@simplex_input_hull _ float_scalar (glibc false) eq_refl) as [H _].
  apply (H (firstn 4 tetra_in) lcg_rand); [reflexivity | exact E].
Defined.

(** ** The sort call of the builders *)

Lemma mapM_load_from {A : Type} (pre v : list A) :
  mapM (load (pre ++ v)) (seq (length pre) (length v)) = Ret v.
Proof.
  revert pre. induction v as [|a v IH]; intros pre; simpl; auto.
  unfold load at 1. rewrite nth_error_app2, Nat.sub_diag by lia. simpl.
  specialize (IH (pre ++ [a])). rewrite <- app_assoc in IH. simpl in IH.
  rewrite length_app in IH. simpl in IH. rewrite Nat.add_1_r in IH.
  now rewrite IH.
Qed.

Lemma mapM_load_all {A : Type} (v : list A) :
  mapM (load v) (seq 0 (length v)) = Ret v.
Proof. exact (mapM_load_from [] v). Qed.

Lemma store_prefix_all {X : Type} (x v : list X) :
  length x = length v -> store_prefix x v (length v) = Ret v.
Proof.
  intros H. unfold store_prefix. rewrite H, Nat.ltb_irrefl.
  rewrite mapM_load_all. simpl. rewrite <- H, skipn_all. now rewrite app_nil_r.
Qed.

(** X18. The call [sort_float(reldist, desReldist, ind, n, 1)] of the
    builders, on buffers of [n] entries each and with a [qsort] that keeps
    the number of records, returns: [reldist] is unchanged, [desReldist]
    holds the values and [ind] the original indices of the records in the
    order [qsort] leaves them with [cmp_desc_float]. *)
Theorem sort_float_desc_call {F : Type} {SF : Scalar F} (env : libc F)
    (qsort : qsort_fn) (reldist desReldist : list F) (ind : list nat) :
  (forall A cmp l, length (@qsort A cmp l) = length l) ->
  (forall l, qsort_desc_float env l = qsort (F * nat)%type cmp_desc_float l) ->
  length desReldist = length reldist ->
  length ind = length reldist ->
  sort_float qsort reldist (Some desReldist) (Some ind) (length reldist) 1
  = Ret (reldist, Some (fst (sort_float_desc env reldist)),
                  Some (snd (sort_float_desc env reldist))).
Proof.
  intros Hlen Henv Ho Hx. unfold sort_float, sort_float_desc.
  rewrite mapM_load_all. cbn [bind Z.eqb fst snd]. rewrite Henv.
  set (data := qsort _ cmp_desc_float _).
  assert (length data = length reldist) as Hd.
  { unfold data. rewrite Hlen, length_combine, length_seq. lia. }
  assert (store_prefix desReldist (map fst data) (length reldist)
          = Ret (map fst data)) as ->.
  { rewrite <- Hd, <- (length_map fst data).
    apply store_prefix_all. rewrite length_map. congruence. }
  assert (store_prefix ind (map snd data) (length reldist)
          = Ret (map snd data)) as E.
  { rewrite <- Hd, <- (length_map snd data).
    apply store_prefix_all. rewrite length_map. congruence. }
  cbn [bind]. rewrite E.
  reflexivity.
Qed.

Lemma insert_by_ext {A : Type} (lt lt' : A -> A -> bool) (x : A) (l : list A) :
  (forall a b, lt a b = lt' a b) -> insert_by lt x l = insert_by lt' x l.
Proof.
  intros H. induction l as [|y l IH]; simpl; auto.
  rewrite H, IH. reflexivity.
Qed.

Lemma isort_desc_is_isort_by {F : Type} {SF : Scalar F} (l : list (F * nat)) :
  isort_desc l = isort_by cmp_desc_float l.
Proof.
  unfold isort_desc, isort_by. induction l as [|x l IH]; simpl; auto.
  rewrite IH. apply insert_by_ext. intros a b.
  unfold cmp_desc_float, fgtb.
  destruct (fltb (fst b) (fst a)); [reflexivity|].
  now destruct (fltb (fst a) (fst b)).
Qed.

Lemma sort_float_desc_call_witness :
  sort_float isort_by (map float_of_Z [1; 3; 2]%Z)
    (Some (map float_of_Z [0; 0; 0]%Z)) (Some [0; 0; 0]) 3 1
  = Ret (map float_of_Z [1; 3; 2]%Z,
         Some (map float_of_Z [3; 2; 1]%Z), Some [1; 2; 0]).
Proof.
  etransitivity.
  - apply (@sort_float_desc_call _ float_scalar (glibc false) isort_by
             (map float_of_Z [1; 3; 2]%Z) (map float_of_Z [0; 0; 0]%Z)
             [0; 0; 0]).
    + intros A cmp l. apply Permutation_length, isort_by_perm.
    + intros l. apply isort_desc_is_isort_by.
    + reflexivity.
    + reflexivity.
  - vm_compute. reflexivity.
Defined.

(** ** The plane arrays of the N-D builder *)

Section PlaneLength.
Context {F : Type} {SF : Scalar F}.

Lemma cofactors_length (Nd : nat) (minor : list F -> F) (pdiff : list (list F)) :
  length (cofactors Nd minor pdiff) = Nd.
Proof.
  unfold cofactors.
  assert (forall l c s,
            length (fst (fold_left
                           (fun (st : list F * F) (i : nat) =>
                              let '(c, sign) := st in
                              (c ++ [fmul sign (minor (pdiff_s i pdiff))],
                               fmul sign (fopp f1)))
                           l (c, s)))
            = length c + length l) as H.
  { induction l as [|i l IH]; intros c s; simpl; [lia|].
    rewrite IH, length_app. simpl. lia. }
  rewrite H, length_seq. reflexivity.
Qed.

Lemma plane_nd_rows (d : nat) (p : list F) : length (fst (plane_nd d p)) = d.
Proof.
  unfold plane_nd, plane_3d.
  destruct (Nat.eqb_spec d 3) as [-> | _]; cbn [fst]; unfold normalize;
    now rewrite length_map, cofactors_length.
Qed.

Lemma concat_rows_length {X : Type} (d : nat) (rows : list (list X)) :
  Forall (fun c => length c = d) rows -> length (concat rows) = length rows * d.
Proof.
  induction 1 as [|c rows Hc _ IH]; simpl; auto.
  rewrite length_app, IH, Hc. reflexivity.
Qed.

End PlaneLength.

(** X19. A call of the N-D builder that returns leaves an output that was
    not asked for NULL, and gives an output that was asked for exactly one
    row per returned facet: [nOut_faces * d] plane coefficients and
    [nOut_faces] offsets; only the empty result has NULL for an output that
    was asked for. *)
Theorem plane_arrays_extent {F : Type} {SF : Scalar F} (env : libc F)
    (vs : option (list F)) (nVert d : nat) (want_cf want_df : bool)
    (rand : nat -> Z) (r : hull_out) :
  convhull_nd_build env vs nVert d want_cf want_df rand = Ret r ->
  match out_cf r with
  | Some c => want_cf = true /\ length c = nOut_faces r * d
  | None => want_cf = false \/ r = no_hull
  end /\
  match out_df r with
  | Some o => want_df = true /\ length o = nOut_faces r
  | None => want_df = false \/ r = no_hull
  end.
Proof.
  intros H. apply convhull_nd_build_Ret in H.
  destruct H as [-> | (vs' & points & span & h & _ & _ & _ & Hb & ->)].
  { simpl. auto. }
  pose proof (@build_core_wf _ _ _ _ _ _ _ _ _ Hb) as [Hc Hd].
  pose proof (@build_core_rows _ _ env d (plane_nd d) (orient_det d) points
                (plane_nd_rows d) span h Hb) as Hr.
  cbn [out_cf out_df nOut_faces]. split.
  - destruct want_cf; [|now left]. split; [reflexivity|].
    rewrite (concat_rows_length Hr). now rewrite Hc.
  - destruct want_df; [|now left]. auto.
Qed.

Lemma plane_arrays_extent_witness :
  exists r,
    convhull_nd_build (glibc false) (Some (flat_vertices tetra_in)) 5 3
      true false lcg_rand = Ret r /\
    match out_cf r with
    | Some c => true = true /\ length c = nOut_faces r * 3
    | None => true = false \/ r = no_hull
    end /\
    match out_df r with
    | Some o => false = true /\ length o = nOut_faces r
    | None => false = false \/ r = no_hull
    end.
Proof.
  eexists. split.
  - vm_compute. reflexivity.
  - apply (@plane_arrays_extent _ float_scalar (glibc false)
             (Some (flat_vertices tetra_in)) 5 3 true false lcg_rand).
    vm_compute. reflexivity.
Defined.

(** ** Writing a hull to a file *)

Lemma plain_bind {A B : Type} (m : outcome A) (k : A -> outcome B) :
  plain m -> (forall a, m = Ret a -> plain (k a)) -> plain (bind m k).
Proof. destruct m; simpl; auto; contradiction. Qed.

Lemma plain_load {A : Type} (a : list A) (k : nat) : plain (load a k).
Proof. unfold load. now destruct (nth_error a k). Qed.

Lemma plain_mapM {A B : Type} (f : A -> outcome B) (l : list A) :
  (forall a, In a l -> plain (f a)) -> plain (mapM f l).
Proof.
  induction l as [|a l IH]; intros H; simpl; auto.
  apply plain_bind; [apply H; now left|]. intros b _.
  apply plain_bind; [apply IH; intros; apply H; now right|].
  intros bs _. exact I.
Qed.

Lemma plain_cases {A : Type} (m : outcome A) :
  plain m -> m = Undef \/ exists a, m = Ret a.
Proof. destruct m; simpl; intros H; try contradiction; eauto. Qed.

Lemma mapM_total {A B : Type} (f : A -> outcome B) (l : list A) :
  (forall a, In a l -> exists b, f a = Ret b) -> exists bs, mapM f l = Ret bs.
Proof.
  induction l as [|a l IH]; intros H; simpl; eauto.
  destruct (H a (or_introl eq_refl)) as (b & ->).
  destruct IH as (bs & ->); [intros; apply H; now right|].
  simpl. eauto.
Qed.

Lemma load_total {A : Type} (a : list A) (k : nat) :
  k < length a -> exists x, load a k = Ret x /\ nth_error a k = Some x.
Proof.
  intros H. unfold load. destruct (nth_error a k) eqn:E; eauto.
  apply nth_error_None in E. lia.
Qed.

Section ExportFacts.
Context {F : Type} {SF : Scalar F}.
Variable io : stdio F.
Variable vertices : list (@ch_vertex F).
Variable faces : list nat.

Lemma face_vertex_total (nFaces k : nat) :
  nFaces * 3 <= length faces ->
  Forall (fun k => k < length vertices) (firstn (nFaces * 3) faces) ->
  k < nFaces * 3 ->
  exists i v, load faces k = Ret i /\ load vertices i = Ret v.
Proof.
  intros Hl Hf Hk.
  destruct (@load_total _ faces k) as (i & Hi & Hn); [lia|].
  assert (i < length vertices) as Hv.
  { eapply Forall_forall in Hf; [exact Hf|].
    apply nth_error_In with (n := k). rewrite nth_error_firstn.
    destruct (Nat.ltb_spec k (nFaces * 3)); [exact Hn | lia]. }
  destruct (@load_total _ vertices i Hv) as (v & Hv' & _).
  eauto.
Qed.

Lemma face_normal_total (nFaces i : nat) :
  nFaces * 3 <= length faces ->
  Forall (fun k => k < length vertices) (firstn (nFaces * 3) faces) ->
  i < nFaces ->
  exists n, face_normal vertices faces i = Ret n.
Proof.
  intros Hl Hf Hi. unfold face_normal.
  destruct (@face_vertex_total nFaces (i * 3 + 1) Hl Hf) as (i1 & v1 & -> & E1);
    [lia|]. cbn [bind]. rewrite E1. cbn [bind].
  destruct (@face_vertex_total nFaces (i * 3 + 2) Hl Hf) as (i2 & v2 & -> & E2);
    [lia|]. cbn [bind]. rewrite E2. cbn [bind].
  destruct (@face_vertex_total nFaces (i * 3) Hl Hf) as (i0 & v0 & -> & E0);
    [lia|]. cbn [bind]. rewrite E0. cbn [bind].
  eauto.
Qed.

(* the reads a returned face_normal has made *)
Lemma face_normal_reads (i : nat) (n : @ch_vertex F) :
  face_normal vertices faces i = Ret n ->
  forall j, j < 3 ->
    exists k, nth_error faces (i * 3 + j) = Some k /\ k < length vertices.
Proof.
  unfold face_normal. intros H.
  apply bind_Ret in H. destruct H as (i1 & H1 & H).
  apply bind_Ret in H. destruct H as (v1 & V1 & H).
  apply bind_Ret in H. destruct H as (i2 & H2 & H).
  apply bind_Ret in H. destruct H as (v2 & V2 & H).
  apply bind_Ret in H. destruct H as (i0 & H0 & H).
  apply bind_Ret in H. destruct H as (v0 & V0 & H).
  apply load_Ret in H0, H1, H2.
  apply load_lt in V0, V1, V2.
  intros j Hj.
  destruct j as [|[|[|j]]]; [| | |lia].
  - exists i0. now rewrite Nat.add_0_r.
  - exists i1. auto.
  - exists i2. auto.
Qed.

Lemma plain_face_normal (i : nat) : plain (face_normal vertices faces i).
Proof.
  unfold face_normal.
  repeat (apply plain_bind; [apply plain_load|]; intros ? _).
  exact I.
Qed.

Lemma plain_export_obj_prints (nVert nFaces : nat) (flag : Z) :
  plain (export_obj_prints vertices nVert faces nFaces flag).
Proof.
  unfold export_obj_prints.
  apply plain_bind.
  { destruct (Z.eqb flag 0).
    - apply plain_mapM. intros i _.
      apply plain_bind; [apply plain_load|]. intros; exact I.
    - apply plain_bind; [|intros; exact I].
      apply plain_mapM. intros i _. apply plain_mapM. intros j _.
      repeat (apply plain_bind; [apply plain_load|]; intros ? _).
      exact I. }
  intros vs _. apply plain_bind.
  { apply plain_mapM. intros i _.
    apply plain_bind; [apply plain_face_normal|]. intros; exact I. }
  intros ns _. apply plain_bind; [|intros; exact I].
  destruct (Z.eqb flag 0); [|exact I].
  apply plain_mapM. intros i _.
  repeat (apply plain_bind; [apply plain_load|]; intros ? _).
  exact I.
Qed.

Lemma export_obj_prints_total (nVert nFaces : nat) (flag : Z) :
  (flag = 0%Z -> nVert <= length vertices) ->
  nFaces * 3 <= length faces ->
  Forall (fun k => k < length vertices) (firstn (nFaces * 3) faces) ->
  exists ps, export_obj_prints vertices nVert faces nFaces flag = Ret ps.
Proof.
  intros Hv Hl Hf. unfold export_obj_prints.
  assert (exists vs,
            (if Z.eqb flag 0
             then mapM (fun i => v <- load vertices i ;; Ret (print_vertex v))
                       (seq 0 nVert)
             else rows <- mapM (fun i =>
                                  mapM (fun j =>
                                          k <- load faces (i * 3 + j) ;;
                                          v <- load vertices k ;;
                                          Ret (print_vertex v))
                                       (seq 0 3))
                               (seq 0 nFaces) ;;
                  Ret (concat rows)) = Ret vs) as (vs & ->).
  { destruct (Z.eqb_spec flag 0) as [E | _].
    - apply mapM_total. intros i Hi. apply in_seq in Hi.
      destruct (@load_total _ vertices i) as (v & -> & _);
        [specialize (Hv E); lia|].
      simpl. eauto.
    - destruct (@mapM_total _ _
                  (fun i => mapM (fun j =>
                                    k <- load faces (i * 3 + j) ;;
                                    v <- load vertices k ;;
                                    Ret (print_vertex v))
                                 (seq 0 3))
                  (seq 0 nFaces)) as (rows & ->); [|simpl; eauto].
      intros i Hi. apply in_seq in Hi. apply mapM_total.
      intros j Hj. apply in_seq in Hj.
      destruct (@face_vertex_total nFaces (i * 3 + j) Hl Hf)
        as (k & v & -> & E); [lia|].
      cbn [bind]. rewrite E. simpl. eauto. }
  cbn [bind].
  destruct (@mapM_total _ _
              (fun i => n <- face_normal vertices faces i ;;
                        Ret (print_vn (vget n 0) (vget n 1) (vget n 2)))
              (seq 0 nFaces)) as (ns & ->).
  { intros i Hi. apply in_seq in Hi.
    destruct (@face_normal_total nFaces i Hl Hf) as (n & ->); [lia|].
    simpl. eauto. }
  cbn [bind].
  destruct (Z.eqb flag 0); [|simpl; eauto].
  destruct (@mapM_total _ _
              (fun i => a <- load faces (i * 3) ;;
                        b <- load faces (i * 3 + 1) ;;
                        c <- load faces (i * 3 + 2) ;;
                        Ret (print_f (F := F) (a + 1) (i + 1) (b + 1) (i + 1)
                                     (c + 1) (i + 1)))
              (seq 0 nFaces)) as (fs & ->); [|simpl; eauto].
  intros i Hi. apply in_seq in Hi.
  destruct (@load_total _ faces (i * 3)) as (a & -> & _); [lia|].
  destruct (@load_total _ faces (i * 3 + 1)) as (b & -> & _); [lia|].
  destruct (@load_total _ faces (i * 3 + 2)) as (c & -> & _); [lia|].
  simpl. eauto.
Qed.

Lemma export_obj_prints_reads (nVert nFaces : nat) (flag : Z)
    (ps : list obj_print) :
  export_obj_prints vertices nVert faces nFaces flag = Ret ps ->
  (flag = 0%Z -> nVert <= length vertices) /\
  nFaces * 3 <= length faces /\
  Forall (fun k => k < length vertices) (firstn (nFaces * 3) faces).
Proof.
  unfold export_obj_prints. intros H.
  apply bind_Ret in H. destruct H as (vs & Hvs & H).
  apply bind_Ret in H. destruct H as (ns & Hns & H).
  assert (forall i j, i < nFaces -> j < 3 ->
            exists k, nth_error faces (i * 3 + j) = Some k /\
                      k < length vertices) as Hr.
  { intros i j Hi Hj.
    destruct (@mapM_nth _ _ _ _ _ i i Hns) as (p & _ & Hp).
    { rewrite nth_error_nth' with (d := 0) by now rewrite length_seq.
      now rewrite seq_nth. }
    apply bind_Ret in Hp. destruct Hp as (n & Hn & _).
    exact (face_normal_reads _ Hn Hj). }
  split; [|split].
  - intros E. rewrite E in Hvs. cbn [Z.eqb] in Hvs.
    destruct nVert as [|n]; [lia|].
    destruct (@mapM_nth _ _ _ _ _ n n Hvs) as (p & _ & Hp).
    { rewrite nth_error_nth' with (d := 0) by (rewrite length_seq; lia).
      rewrite seq_nth by lia. reflexivity. }
    apply bind_Ret in Hp. destruct Hp as (v & Hv & _).
    apply load_lt in Hv. lia.
  - destruct nFaces as [|n]; [simpl; lia|].
    destruct (Hr n 2) as (k & Hk & _); [lia | lia |].
    assert (n * 3 + 2 < length faces) by (apply nth_error_Some; congruence).
    lia.
  - apply Forall_forall. intros k Hk.
    apply In_nth_error in Hk. destruct Hk as (q & Hq).
    assert (q < nFaces * 3) as Hlt.
    { assert (q < length (firstn (nFaces * 3) faces))
        by (apply nth_error_Some; congruence).
      rewrite length_firstn in H0. lia. }
    rewrite nth_error_firstn in Hq.
    destruct (Nat.ltb_spec q (nFaces * 3)); [|lia].
    destruct (Hr (q / 3) (q mod 3)) as (k' & Hk' & Hv).
    { apply Nat.Div0.div_lt_upper_bound. lia. }
    { apply Nat.mod_upper_bound. lia. }
    replace (q / 3 * 3 + q mod 3) with q in Hk'
      by (pose proof (Nat.div_mod_eq q 3); lia).
    congruence.
Qed.

End ExportFacts.

(** X20. [convhull_3d_export_obj] returns exactly when the name with
    [.obj] and its terminator fit the 256 bytes of [path], the file opens,
    [faces] has [3 * nFaces] entries that are all indices into [vertices],
    and, when all vertices are written, [vertices] has [nVert] entries.
    Then the path is the name followed by [.obj].  In every other case the
    call is undefined: a file that does not open is written to all the
    same, and no index is checked. *)
Theorem export_obj_returns_iff {F : Type} {SF : Scalar F} (io : stdio F)
    (writable : text -> bool) (vertices : list (@ch_vertex F)) (nVert : nat)
    (faces : list nat) (nFaces : nat) (flag : Z) (name : text) :
  (export_obj_ok writable vertices nVert faces nFaces flag name ->
   exists content,
     convhull_3d_export_obj io writable vertices nVert faces nFaces flag name
     = Ret (name ++ txt ".obj", content)) /\
  (~ export_obj_ok writable vertices nVert faces nFaces flag name ->
   convhull_3d_export_obj io writable vertices nVert faces nFaces flag name
   = Undef).
Proof.
  unfold export_obj_ok, convhull_3d_export_obj, path_of.
  change (length (txt ".obj")) with 4.
  split.
  - intros (Hn & Hw & Hv & Hl & Hf).
    destruct (Nat.ltb_spec 255 (length name + 4)); [lia|].
    cbn [bind]. rewrite Hw.
    destruct (@export_obj_prints_total _ _ vertices faces nVert nFaces flag
                Hv Hl Hf) as (ps & ->).
    simpl. eauto.
  - intros Hno.
    destruct (Nat.ltb_spec 255 (length name + 4)); [reflexivity|].
    cbn [bind].
    destruct (writable (name ++ txt ".obj")) eqn:Hw; [|reflexivity].
    pose proof (@plain_export_obj_prints _ _ vertices faces nVert nFaces flag)
      as Hp.
    apply plain_cases in Hp. destruct Hp as [-> | (ps & Hps)]; [reflexivity|].
    exfalso. apply Hno.
    apply export_obj_prints_reads in Hps. tauto.
Qed.

(** ** The mesh an .obj file describes *)

Lemma flat_map_nil {A B : Type} (f : A -> list B) (l : list A) :
  Forall (fun a => f a = []) l -> flat_map f l = [].
Proof. induction 1 as [|a l Ha _ IH]; simpl; auto. now rewrite Ha, IH. Qed.

Lemma flat_map_single {A B : Type} (f : A -> list B) (g : A -> B) (l : list A) :
  Forall (fun a => f a = [g a]) l -> flat_map f l = map g l.
Proof. induction 1 as [|a l Ha _ IH]; simpl; auto. now rewrite Ha, IH. Qed.

Lemma mapM_eq_map {A B : Type} (f : A -> outcome B) (g : A -> B) (l : list A) :
  (forall a, In a l -> f a = Ret (g a)) -> mapM f l = Ret (map g l).
Proof.
  induction l as [|a l IH]; intros H; simpl; auto.
  rewrite (H a (or_introl eq_refl)). cbn [bind].
  rewrite IH by (intros; apply H; now right). reflexivity.
Qed.

Lemma mapM_as_map {A B : Type} (f : A -> outcome B) (d : B) (l : list A)
    (bs : list B) :
  mapM f l = Ret bs ->
  bs = map (fun a => match f a with Ret b => b | _ => d end) l /\
  forall a, In a l -> exists b, f a = Ret b.
Proof.
  revert bs. induction l as [|a l IH]; intros bs H; simpl in H.
  - inversion H. split; [reflexivity|]. intros ? [].
  - apply bind_Ret in H. destruct H as (b & Hb & H).
    apply bind_Ret in H. destruct H as (bs' & Hbs & H). inversion H.
    destruct (IH _ Hbs) as [E Hall]. split.
    + simpl. rewrite Hb. now rewrite <- E.
    + intros x [<- | Hx]; eauto.
Qed.

Lemma vertex_eta {F : Type} {SF : Scalar F} (v : @ch_vertex F) :
  (vget v 0, vget v 1, vget v 2) = v.
Proof. now destruct v as [[x y] z]. Qed.

Lemma nth_error_map_seq {B : Type} (g : nat -> B) (n k : nat) :
  k < n -> nth_error (map g (seq 0 n)) k = Some (g k).
Proof.
  intros H. rewrite nth_error_map, nth_error_nth' with (d := 0)
    by (rewrite length_seq; lia).
  now rewrite seq_nth.
Qed.

Lemma concat_triples {B : Type} (p : nat -> B) (n : nat) :
  concat (map (fun i => map (fun j => p (i * 3 + j)) (seq 0 3)) (seq 0 n))
  = map p (seq 0 (n * 3)).
Proof.
  induction n as [|n IH]; [reflexivity|].
  rewrite (seq_S n 0), map_app, concat_app, IH. cbn [map concat seq Nat.add].
  replace (S n * 3) with (n * 3 + 3) by lia.
  rewrite seq_app, map_app. cbn [seq map Nat.add app].
  now rewrite !Nat.add_0_r, !Nat.add_succ_r, !Nat.add_0_r.
Qed.

Section ObjMeshFacts.
Context {F : Type} {SF : Scalar F}.
Variable vertices : list (@ch_vertex F).
Variable faces : list nat.
Variable nFaces : nat.
Hypothesis faces_extent : nFaces * 3 <= length faces.
Hypothesis faces_index :
  Forall (fun k => k < length vertices) (firstn (nFaces * 3) faces).

Local Notation fd := (face_at faces).
Local Notation vd := (vertex_at vertices).
Local Notation nd := (normal_at vertices faces).
Local Notation pvn := print_normal.

Lemma load_faces (k : nat) :
  k < nFaces * 3 ->
  load faces k = Ret (fd k) /\ load vertices (fd k) = Ret (vd (fd k)) /\
  fd k < length vertices.
Proof.
  intros Hk.
  assert (nth_error faces k = Some (fd k)) as E
    by (apply nth_error_nth'; lia).
  assert (fd k < length vertices) as Hv.
  { eapply Forall_forall in faces_index; [exact faces_index|].
    apply nth_error_In with (n := k). rewrite nth_error_firstn.
    destruct (Nat.ltb_spec k (nFaces * 3)); [exact E | lia]. }
  unfold load. rewrite E. split; [reflexivity|]. split; [|exact Hv].
  unfold vd. now rewrite (nth_error_nth' vertices (f0, f0, f0) Hv).
Qed.

Lemma face_normal_eq (i : nat) :
  i < nFaces -> face_normal vertices faces i = Ret (nd i).
Proof.
  intros Hi. unfold face_normal.
  destruct (@load_faces (i * 3 + 1)) as (E1 & V1 & _); [lia|].
  destruct (@load_faces (i * 3 + 2)) as (E2 & V2 & _); [lia|].
  destruct (@load_faces (i * 3)) as (E0 & V0 & _); [lia|].
  repeat first [rewrite E0 | rewrite E1 | rewrite E2 | rewrite V0
               | rewrite V1 | rewrite V2 | progress cbn [bind]].
  reflexivity.
Qed.

Lemma hull_triangle_eq (i : nat) :
  i < nFaces ->
  hull_triangle vertices faces i
  = Ret [(Some (vd (fd (i * 3))), Some (nd i));
         (Some (vd (fd (i * 3 + 1))), Some (nd i));
         (Some (vd (fd (i * 3 + 2))), Some (nd i))].
Proof.
  intros Hi. unfold hull_triangle, face_vertex.
  rewrite face_normal_eq by exact Hi.
  destruct (@load_faces (i * 3 + 1)) as (E1 & V1 & _); [lia|].
  destruct (@load_faces (i * 3 + 2)) as (E2 & V2 & _); [lia|].
  destruct (@load_faces (i * 3)) as (E0 & V0 & _); [lia|].
  repeat first [rewrite E0 | rewrite E1 | rewrite E2 | rewrite V0
               | rewrite V1 | rewrite V2 | progress cbn [bind]].
  reflexivity.
Qed.

(* what a call that returns has written *)
Lemma export_obj_prints_eq (nVert : nat) (flag : Z) :
  (flag = 0%Z -> nVert <= length vertices) ->
  export_obj_prints vertices nVert faces nFaces flag
  = Ret (print_o ::
         map print_vertex
             (if Z.eqb flag 0 then map vd (seq 0 nVert)
              else map (fun k => vd (fd k)) (seq 0 (nFaces * 3))) ++
         map pvn (map nd (seq 0 nFaces)) ++
         (if Z.eqb flag 0 then
            map (fun i => print_f (fd (i * 3) + 1) (i + 1)
                                  (fd (i * 3 + 1) + 1) (i + 1)
                                  (fd (i * 3 + 2) + 1) (i + 1))
                (seq 0 nFaces)
          else
            map (fun i => print_f (i * 3 + 1) (i + 1) (i * 3 + 1 + 1) (i + 1)
                                  (i * 3 + 2 + 1) (i + 1))
                (seq 0 nFaces))).
Proof.
  intros Hv. unfold export_obj_prints.
  rewrite (@mapM_eq_map _ _
             (fun i => n <- face_normal vertices faces i ;;
                       Ret (print_vn (vget n 0) (vget n 1) (vget n 2)))
             (fun i => pvn (nd i)) (seq 0 nFaces)).
  2: { intros i Hi. apply in_seq in Hi. rewrite face_normal_eq by lia.
       reflexivity. }
  destruct (Z.eqb_spec flag 0) as [E | _].
  - rewrite (@mapM_eq_map _ _
               (fun i => v <- load vertices i ;; Ret (print_vertex v))
               (fun i => print_vertex (vd i)) (seq 0 nVert)).
    2: { intros i Hi. apply in_seq in Hi. unfold load, vd.
         rewrite (nth_error_nth' vertices (f0, f0, f0))
           by (specialize (Hv E); lia).
         reflexivity. }
    cbn [bind].
    rewrite (@mapM_eq_map _ _
               (fun i => a <- load faces (i * 3) ;;
                         b <- load faces (i * 3 + 1) ;;
                         c <- load faces (i * 3 + 2) ;;
                         Ret (print_f (F := F) (a + 1) (i + 1) (b + 1) (i + 1)
                                      (c + 1) (i + 1)))
               (fun i => print_f (fd (i * 3) + 1) (i + 1)
                                 (fd (i * 3 + 1) + 1) (i + 1)
                                 (fd (i * 3 + 2) + 1) (i + 1))
               (seq 0 nFaces)).
    2: { intros i Hi. apply in_seq in Hi.
         destruct (@load_faces (i * 3 + 1)) as (E1 & _); [lia|].
         destruct (@load_faces (i * 3 + 2)) as (E2 & _); [lia|].
         destruct (@load_faces (i * 3)) as (E0 & _); [lia|].
         rewrite E0. cbn [bind]. rewrite E1. cbn [bind]. rewrite E2.
         reflexivity. }
    cbn [bind]. now rewrite !map_map.
  - rewrite (@mapM_eq_map _ _
               (fun i => mapM (fun j => k <- load faces (i * 3 + j) ;;
                                        v <- load vertices k ;;
                                        Ret (print_vertex v))
                              (seq 0 3))
               (fun i => map (fun j => print_vertex (vd (fd (i * 3 + j))))
                             (seq 0 3))
               (seq 0 nFaces)).
    2: { intros i Hi. apply in_seq in Hi. apply mapM_eq_map.
         intros j Hj. apply in_seq in Hj.
         destruct (@load_faces (i * 3 + j)) as (E1 & V1 & _); [lia|].
         rewrite E1. cbn [bind]. rewrite V1. reflexivity. }
    cbn [bind].
    rewrite (concat_triples (fun k => print_vertex (vd (fd k)))).
    now rewrite !map_map.
Qed.

Lemma vertex_lines_of (vl nl : list (@ch_vertex F)) (fl : list (@obj_print F)) :
  Forall (fun p => match p with print_f _ _ _ _ _ _ => True | _ => False end)
         fl ->
  let ps := print_o :: map print_vertex vl ++ map pvn nl ++ fl in
  obj_vertex_lines ps = vl /\ obj_normal_lines ps = nl.
Proof.
  intros Hf ps. unfold ps, obj_vertex_lines, obj_normal_lines.
  cbn [flat_map app]. rewrite !flat_map_app. split.
  - rewrite (@flat_map_nil _ _ _ (map pvn nl)), (@flat_map_nil _ _ _ fl).
    + rewrite !app_nil_r.
      rewrite flat_map_single with (g := fun p => match p with
                                                 | print_v x y z => (x, y, z)
                                                 | _ => (f0, f0, f0)
                                                 end).
      * rewrite map_map. rewrite <- (map_id vl) at 2. apply map_ext.
        intros v. apply vertex_eta.
      * apply Forall_forall. intros p Hp. apply in_map_iff in Hp.
        now destruct Hp as (v & <- & _).
    + eapply Forall_impl; [|exact Hf]. now intros [].
    + apply Forall_forall. intros p Hp. apply in_map_iff in Hp.
      now destruct Hp as (v & <- & _).
  - rewrite (@flat_map_nil _ _ _ (map print_vertex vl)),
      (@flat_map_nil _ _ _ fl).
    + rewrite app_nil_r. cbn [app].
      rewrite flat_map_single with (g := fun p => match p with
                                                 | print_vn x y z => (x, y, z)
                                                 | _ => (f0, f0, f0)
                                                 end).
      * rewrite map_map. rewrite <- (map_id nl) at 2. apply map_ext.
        intros v. apply vertex_eta.
      * apply Forall_forall. intros p Hp. apply in_map_iff in Hp.
        now destruct Hp as (v & <- & _).
    + eapply Forall_impl; [|exact Hf]. now intros [].
    + apply Forall_forall. intros p Hp. apply in_map_iff in Hp.
      now destruct Hp as (v & <- & _).
Qed.

Lemma triangles_of (vl nl : list (@ch_vertex F))
    (corner : nat -> nat * nat * nat) (n : nat) :
  let fl := map (fun i => print_f (F := F) (fst (fst (corner i))) (i + 1)
                                  (snd (fst (corner i))) (i + 1)
                                  (snd (corner i)) (i + 1))
                (seq 0 n) in
  obj_triangles (print_o :: map print_vertex vl ++ map pvn nl ++ fl)
  = map (fun i => [(obj_ref vl (fst (fst (corner i))), obj_ref nl (i + 1));
                   (obj_ref vl (snd (fst (corner i))), obj_ref nl (i + 1));
                   (obj_ref vl (snd (corner i)), obj_ref nl (i + 1))])
        (seq 0 n).
Proof.
  intros fl. unfold obj_triangles.
  assert (Forall (fun p : @obj_print F =>
                    match p with print_f _ _ _ _ _ _ => True | _ => False end)
                 fl) as Hf.
  { apply Forall_forall. intros p Hp. apply in_map_iff in Hp.
    now destruct Hp as (v & <- & _). }
  destruct (vertex_lines_of vl nl Hf) as [-> ->].
  cbn [flat_map app]. rewrite !flat_map_app.
  rewrite (@flat_map_nil _ _ _ (map print_vertex vl)),
    (@flat_map_nil _ _ _ (map pvn nl)).
  - cbn [app]. unfold fl. rewrite flat_map_concat_map, map_map.
    rewrite <- flat_map_concat_map. apply flat_map_single.
    apply Forall_forall. intros i _. reflexivity.
  - apply Forall_forall. intros p Hp. apply in_map_iff in Hp.
    now destruct Hp as (v & <- & _).
  - apply Forall_forall. intros p Hp. apply in_map_iff in Hp.
    now destruct Hp as (v & <- & _).
Qed.

Lemma export_obj_triangles (nVert : nat) (flag : Z) (ps : list (@obj_print F)) :
  export_obj_prints vertices nVert faces nFaces flag = Ret ps ->
  (flag = 0%Z -> nVert <= length vertices) ->
  (flag = 0%Z -> Forall (fun k => k < nVert) (firstn (nFaces * 3) faces)) ->
  mapM (hull_triangle vertices faces) (seq 0 nFaces) = Ret (obj_triangles ps) /\
  length (obj_vertex_lines ps) = (if Z.eqb flag 0 then nVert else nFaces * 3) /\
  length (obj_normal_lines ps) = nFaces.
Proof.
  intros H Hv Hin. rewrite export_obj_prints_eq in H by exact Hv.
  inversion H as [E]. clear H E.
  assert (forall k, flag = 0%Z -> k < nFaces * 3 -> fd k < nVert) as Hlt.
  { intros k E Hk. specialize (Hin E).
    eapply Forall_forall in Hin; [exact Hin|].
    apply nth_error_In with (n := k). rewrite nth_error_firstn.
    destruct (Nat.ltb_spec k (nFaces * 3)); [|lia].
    apply nth_error_nth'. lia. }
  split; [|split].
  - destruct (Z.eqb_spec flag 0) as [E | _].
    + pose proof (triangles_of (map vd (seq 0 nVert)) (map nd (seq 0 nFaces))
                    (fun i => (fd (i * 3) + 1, fd (i * 3 + 1) + 1,
                               fd (i * 3 + 2) + 1)) nFaces) as T.
      cbv beta zeta in T. cbn [fst snd] in T. cbv beta iota. rewrite T. clear T.
      apply mapM_eq_map. intros i Hi. apply in_seq in Hi.
      rewrite hull_triangle_eq by lia. cbn [fst snd].
      rewrite !Nat.add_1_r. cbn [obj_ref].
      rewrite !nth_error_map_seq by (try apply Hlt; auto; lia).
      reflexivity.
    + pose proof (triangles_of (map (fun k => vd (fd k)) (seq 0 (nFaces * 3)))
                    (map nd (seq 0 nFaces))
                    (fun i => (i * 3 + 1, i * 3 + 1 + 1, i * 3 + 2 + 1))
                    nFaces) as T.
      cbv beta zeta in T. cbn [fst snd] in T. cbv beta iota. rewrite T. clear T.
      apply mapM_eq_map. intros i Hi. apply in_seq in Hi.
      rewrite hull_triangle_eq by lia. cbn [fst snd].
      rewrite !Nat.add_1_r. cbn [obj_ref].
      rewrite !nth_error_map_seq by lia.
      reflexivity.
  - match goal with
    | |- context [print_o :: map print_vertex ?vl ++ map pvn ?nl ++ ?fl] =>
        destruct (@vertex_lines_of vl nl fl) as [-> _]
    end.
    { destruct (Z.eqb flag 0); apply Forall_forall; intros p Hp;
        apply in_map_iff in Hp; now destruct Hp as (v & <- & _). }
    destruct (Z.eqb flag 0); now rewrite length_map, length_seq.
  - match goal with
    | |- context [print_o :: map print_vertex ?vl ++ map pvn ?nl ++ ?fl] =>
        destruct (@vertex_lines_of vl nl fl) as [_ ->]
    end.
    { destruct (Z.eqb flag 0); apply Forall_forall; intros p Hp;
        apply in_map_iff in Hp; now destruct Hp as (v & <- & _). }
    now rewrite length_map, length_seq.
Qed.

End ObjMeshFacts.

(** X21. The .obj file of a call that returns describes the hull in both
    modes: it has one [vn] line and one [f] line per face, and the three
    corners of the [f] line of face [i], resolved as an .obj file counts
    its lines from 1, are the vertices [faces[3i]], [faces[3i+1]],
    [faces[3i+2]] of the input, each with normal [i].  With
    [keepOnlyUsedVerticesFLAG] the file has three [v] lines per face;
    without it, it has [nVert] of them, and the corners are resolved this
    way when every face index is below [nVert]. *)
Theorem export_obj_mesh {F : Type} {SF : Scalar F}
    (vertices : list (@ch_vertex F)) (nVert : nat) (faces : list nat)
    (nFaces : nat) (flag : Z) (ps : list (@obj_print F)) :
  export_obj_prints vertices nVert faces nFaces flag = Ret ps ->
  (flag = 0%Z -> Forall (fun k => k < nVert) (firstn (nFaces * 3) faces)) ->
  mapM (hull_triangle vertices faces) (seq 0 nFaces) = Ret (obj_triangles ps) /\
  length (obj_vertex_lines ps) = (if Z.eqb flag 0 then nVert else nFaces * 3) /\
  length (obj_normal_lines ps) = nFaces.
Proof.
  intros H Hin.
  destruct (export_obj_prints_reads _ _ _ _ _ H) as (Hv & Hl & Hf).
  exact (@export_obj_triangles _ _ vertices faces nFaces Hl Hf nVert flag ps
           H Hv Hin).
Qed.

Lemma export_obj_mesh_witness :
  let vertices := firstn 4 tetra_in in
  let faces := [1; 2; 3;  0; 3; 2;  0; 1; 3;  0; 2; 1] in
  exists ps,
    export_obj_prints vertices 4 faces 4 0 = Ret ps /\
    mapM (hull_triangle vertices faces) (seq 0 4) = Ret (obj_triangles ps) /\
    length (obj_vertex_lines ps) = 4 /\
    length (obj_normal_lines ps) = 4.
Proof.
  intros vertices faces. eexists. split.
  - vm_compute. reflexivity.
  - apply (@export_obj_mesh _ float_scalar vertices 4 faces 4 0%Z).
    + vm_compute. reflexivity.
    + intros _. repeat constructor.
Defined.

(** ** The normals of the .obj file *)

Lemma normal_offset_pos : (0 < lit 223 (-11))%R.
Proof.
  cbn [lit R_scalar]. apply Rmult_lt_0_compat; [lra|].
  apply powerRZ_lt. lra.
Qed.

(** X22. Over the reals the normal written for a face with vertices [v0],
    [v1], [v2] is [cross (v1 - v0) (v2 - v0)] times a positive factor: it is
    orthogonal to both edges, it is the zero vector for three vertices on
    a line (the added [2.23e-9] keeps the divisor positive), and its length
    stays below 1. *)
Theorem exported_normal (v0 v1 v2 : @ch_vertex R) :
  let n := scaled_normal v0 v1 v2 in
  let c := cross (vsub v1 v0) (vsub v2 v0) in
  (exists s, (0 < s)%R /\ forall j, j < 3 -> vget n j = (vget c j * s)%R) /\
  vdot n (vsub v1 v0) = 0%R /\ vdot n (vsub v2 v0) = 0%R /\
  (vdot n n < 1)%R /\
  (vdot c c = 0%R -> forall j, j < 3 -> vget n j = 0%R).
Proof.
  intros n c.
  set (L := sqrt (vdot c c)).
  set (s := (1 / (L + lit 223 (-11)))%R).
  pose proof normal_offset_pos as He.
  assert (0 <= vdot c c)%R as Hcc by (unfold vdot; nra).
  assert (0 <= L)%R as HL by apply sqrt_pos.
  assert (L * L = vdot c c)%R as HLL by (apply sqrt_sqrt; exact Hcc).
  assert (0 < s)%R as Hs.
  { unfold s. apply Rdiv_lt_0_compat; lra. }
  assert (s * (L + lit 223 (-11)) = 1)%R as Hs1.
  { unfold s. field. lra. }
  assert (n = (vget c 0 * s, vget c 1 * s, vget c 2 * s)%R) as Hn.
  { unfold n, scaled_normal. fold c. cbv zeta.
    replace (fsqrt (pow2 (vget c 0) + pow2 (vget c 1) + pow2 (vget c 2))%Fs)
      with L; [reflexivity|].
    unfold L, vdot, pow2. reflexivity. }
  assert (vdot c (vsub v1 v0) = 0%R /\ vdot c (vsub v2 v0) = 0%R) as [H1 H2].
  { unfold c. destruct v0 as [[x0 y0] z0], v1 as [[x1 y1] z1],
      v2 as [[x2 y2] z2].
    unfold vdot, cross, vsub, vget. cbn [fst snd fsub fmul R_scalar].
    split; ring. }
  clearbody n. subst n. clearbody c.
  generalize dependent (vsub v1 v0). generalize dependent (vsub v2 v0).
  intros e2 H2 e1 H1.
  destruct c as [[c0 c1] c2], e1 as [[a0 a1] a2], e2 as [[b0 b1] b2].
  unfold vdot, vget in *. cbn [fst snd] in *.
  split; [|split; [|split; [|split]]].
  - exists s. split; [exact Hs|].
    intros [|[|[|j]]] Hj; try lia; reflexivity.
  - transitivity (s * (c0 * a0 + c1 * a1 + c2 * a2))%R; [|rewrite H1]; ring.
  - transitivity (s * (c0 * b0 + c1 * b1 + c2 * b2))%R; [|rewrite H2]; ring.
  - assert (c0 * s * (c0 * s) + c1 * s * (c1 * s) + c2 * s * (c2 * s)
            = (s * L) * (s * L))%R as ->.
    { transitivity (s * s * (L * L))%R; [rewrite HLL|]; ring. }
    assert (0 <= s * L)%R by (apply Rmult_le_pos; lra).
    assert (s * L < 1)%R by nra.
    nra.
  - intros Hz.
    assert (c0 = 0 /\ c1 = 0 /\ c2 = 0)%R as (E0 & E1 & E2)
      by (repeat split; nra).
    intros [|[|[|j]]] Hj; try lia; rewrite ?E0, ?E1, ?E2; ring.
Qed.

(** ** Writing a hull for Matlab *)

Lemma plain_export_m_prints {F : Type} (vertices : list (@ch_vertex F))
    (nVert : nat) (faces : list nat) (nFaces : nat) :
  plain (export_m_prints vertices nVert faces nFaces).
Proof.
  unfold export_m_prints.
  apply plain_bind.
  { apply plain_mapM. intros i _.
    apply plain_bind; [apply plain_load|]. intros; exact I. }
  intros vs _. apply plain_bind; [|intros; exact I].
  apply plain_mapM. intros i _.
  repeat (apply plain_bind; [apply plain_load|]; intros ? _).
  exact I.
Qed.

Lemma export_m_prints_reads {F : Type} (vertices : list (@ch_vertex F))
    (nVert : nat) (faces : list nat) (nFaces : nat) (ps : list (@m_print F)) :
  export_m_prints vertices nVert faces nFaces = Ret ps ->
  nVert <= length vertices /\ 3 * nFaces <= length faces.
Proof.
  unfold export_m_prints. intros H.
  apply bind_Ret in H. destruct H as (vs & Hvs & H).
  apply bind_Ret in H. destruct H as (fs & Hfs & _).
  split.
  - destruct nVert as [|n]; [lia|].
    destruct (@mapM_nth _ _ _ _ _ n n Hvs) as (p & _ & Hp).
    { rewrite nth_error_nth' with (d := 0) by (rewrite length_seq; lia).
      rewrite seq_nth by lia. reflexivity. }
    apply bind_Ret in Hp. destruct Hp as (v & Hv & _).
    apply load_lt in Hv. lia.
  - destruct nFaces as [|n]; [lia|].
    destruct (@mapM_nth _ _ _ _ _ n n Hfs) as (p & _ & Hp).
    { rewrite nth_error_nth' with (d := 0) by (rewrite length_seq; lia).
      rewrite seq_nth by lia. reflexivity. }
    apply bind_Ret in Hp. destruct Hp as (a & _ & Hp).
    apply bind_Ret in Hp. destruct Hp as (b & _ & Hp).
    apply bind_Ret in Hp. destruct Hp as (c & Hc & _).
    apply load_lt in Hc. lia.
Qed.

Lemma export_m_prints_eq {F : Type} {SF : Scalar F}
    (vertices : list (@ch_vertex F)) (nVert : nat) (faces : list nat)
    (nFaces : nat) :
  nVert <= length vertices -> 3 * nFaces <= length faces ->
  export_m_prints vertices nVert faces nFaces
  = Ret (print_vertices_open ::
         map (fun v => print_row (vget v 0) (vget v 1) (vget v 2))
             (firstn nVert vertices) ++
         [print_close; print_faces_open] ++
         map (fun i => print_face (nth (3 * i) faces 0 + 1)
                                  (nth (3 * i + 1) faces 0 + 1)
                                  (nth (3 * i + 2) faces 0 + 1))
             (seq 0 nFaces) ++
         [print_close]).
Proof.
  intros Hv Hf. unfold export_m_prints.
  assert (mapM (load vertices) (seq 0 nVert) = Ret (firstn nVert vertices))
    as Hl.
  { destruct (@mapM_total _ _ (load vertices) (seq 0 nVert)) as (vs & E).
    - intros i Hi. apply in_seq in Hi.
      destruct (@load_total _ vertices i) as (v & -> & _); [lia|]. eauto.
    - rewrite E. f_equal. now apply mapM_load_prefix in E. }
  assert (forall (g : @ch_vertex F -> @m_print F) l vs,
            mapM (load vertices) l = Ret vs ->
            mapM (fun i => v <- load vertices i ;; Ret (g v)) l
            = Ret (map g vs)) as Hmap.
  { intros g. induction l as [|i l IH]; intros vs E; simpl in E |- *.
    - now inversion E.
    - apply bind_Ret in E. destruct E as (v & -> & E).
      apply bind_Ret in E. destruct E as (vs' & E' & E). inversion E.
      cbn [bind]. rewrite (IH _ E'). reflexivity. }
  rewrite (Hmap _ _ _ Hl). cbn [bind].
  rewrite (@mapM_eq_map _ _
             (fun i => a <- load faces (3 * i + 0) ;;
                       b <- load faces (3 * i + 1) ;;
                       c <- load faces (3 * i + 2) ;;
                       Ret (print_face (F := F) (a + 1) (b + 1) (c + 1)))
             (fun i => print_face (nth (3 * i) faces 0 + 1)
                                  (nth (3 * i + 1) faces 0 + 1)
                                  (nth (3 * i + 2) faces 0 + 1))
             (seq 0 nFaces)); [reflexivity|].
  intros i Hi. apply in_seq in Hi. unfold load.
  rewrite Nat.add_0_r.
  rewrite !(nth_error_nth' faces 0) by lia. reflexivity.
Qed.

(** X23. [convhull_3d_export_m] returns exactly when the name with [.m]
    and its terminator fit the 256 bytes of [path], the file opens,
    [vertices] has [nVert] entries and [faces] has [3 * nFaces]; otherwise
    the call is undefined.  What it writes is the opening line, one row per
    vertex, the closing line, and the same for the faces with every index
    raised by one; the face indices are written as they are, whether or
    not they name one of the [nVert] vertices. *)
Theorem export_m_returns_iff {F : Type} {SF : Scalar F} (io : stdio F)
    (writable : text -> bool) (vertices : list (@ch_vertex F)) (nVert : nat)
    (faces : list nat) (nFaces : nat) (name : text) :
  (export_m_ok writable vertices nVert faces nFaces name ->
   convhull_3d_export_m io writable vertices nVert faces nFaces name
   = Ret (name ++ txt ".m",
          flat_map (fprintf_m io)
            (print_vertices_open ::
             map (fun v => print_row (vget v 0) (vget v 1) (vget v 2))
                 (firstn nVert vertices) ++
             [print_close; print_faces_open] ++
             map (fun i => print_face (nth (3 * i) faces 0 + 1)
                                      (nth (3 * i + 1) faces 0 + 1)
                                      (nth (3 * i + 2) faces 0 + 1))
                 (seq 0 nFaces) ++
             [print_close]))) /\
  (~ export_m_ok writable vertices nVert faces nFaces name ->
   convhull_3d_export_m io writable vertices nVert faces nFaces name = Undef).
Proof.
  unfold export_m_ok, convhull_3d_export_m, path_of.
  change (length (txt ".m")) with 2.
  split.
  - intros (Hn & Hw & Hv & Hf).
    destruct (Nat.ltb_spec 255 (length name + 2)); [lia|].
    cbn [bind]. rewrite Hw.
    rewrite export_m_prints_eq by assumption. reflexivity.
  - intros Hno.
    destruct (Nat.ltb_spec 255 (length name + 2)); [reflexivity|].
    cbn [bind].
    destruct (writable (name ++ txt ".m")) eqn:Hw; [|reflexivity].
    pose proof (plain_export_m_prints vertices nVert faces nFaces) as Hp.
    apply plain_cases in Hp. destruct Hp as [-> | (ps & Hps)]; [reflexivity|].
    exfalso. apply Hno.
    apply export_m_prints_reads in Hps. tauto.
Qed.

(** ** Reading the vertices of an .obj file *)

Section ScanFacts.
Context {F : Type}.
Variable io : stdio F.

Lemma scan_line_scan (len j : nat) (cs vc : text) (prev : bool) (id : Z)
    (v : @raw_vertex F) :
  j + length cs = len - 1 ->
  scan_line io len j cs vc prev id v = scan io cs vc prev id v.
Proof.
  revert j vc prev id v. induction cs as [|c cs IH]; intros j vc prev id v Hj;
    [reflexivity|].
  cbn [scan_line scan]. cbn [length] in Hj.
  destruct (Nat.leb 128 (nat_of_ascii c)); [reflexivity|].
  assert (Nat.eqb j (len - 2) = match cs with [] => true | _ => false end)
    as ->.
  { destruct cs as [|c' cs']; cbn [length] in Hj.
    - apply Nat.eqb_eq. lia.
    - apply Nat.eqb_neq. lia. }
  destruct (numeric c).
  - destruct (Nat.leb 255 (length vc)); [reflexivity|]. cbn [bind].
    destruct (_ || _).
    + destruct (4 <? id + 1)%Z; [reflexivity|].
      destruct (store_coord v (id + 1) _); try reflexivity.
      cbn [bind]. apply IH. lia.
    + apply IH. lia.
  - cbn [bind]. destruct (_ || _).
    + destruct (4 <? id + 1)%Z; [reflexivity|].
      destruct (store_coord v (id + 1) _); try reflexivity.
      cbn [bind]. apply IH. lia.
    + apply IH. lia.
Qed.

(* the exit at "not a valid file" is behind a write outside the vertex *)
Lemma scan_line_valid (len j : nat) (cs vc : text) (prev : bool) (id : Z)
    (v : @raw_vertex F) :
  (id <= 2)%Z -> scan_line io len j cs vc prev id v <> Ret None.
Proof.
  revert j vc prev id v. induction cs as [|c cs IH]; intros j vc prev id v Hid;
    cbn [scan_line]; [discriminate|].
  destruct (Nat.leb 128 (nat_of_ascii c)); [discriminate|].
  assert (forall vc1 cur,
            (if (4 <? id + 1)%Z then Ret None
             else v' <- store_coord v (id + 1) (atof io vc1) ;;
                  scan_line io len (S j) cs [] cur (id + 1) v') <> Ret None)
    as Hflush.
  { intros vc1 cur. destruct (Z.ltb_spec 4 (id + 1)); [lia|].
    unfold store_coord.
    destruct (id + 1)%Z as [|[[|[]|]|[|[]|]|]|] eqn:E; cbn [bind];
      try discriminate; apply IH; lia. }
  destruct (numeric c).
  - destruct (Nat.leb 255 (length vc)); [discriminate|]. cbn [bind].
    destruct (_ || _); [apply Hflush | now apply IH].
  - cbn [bind]. destruct (_ || _); [apply Hflush | now apply IH].
Qed.

Lemma parse_lines_valid (lines : list text) (i : nat) (vc : text)
    (out : list (@raw_vertex F)) :
  parse_lines io lines i vc out <> Ret None.
Proof.
  revert i vc out. induction lines as [|l lines IH]; intros i vc out;
    cbn [parse_lines]; [discriminate|].
  destruct (strstr l (txt "v ")); [|apply IH].
  destruct (load out i) as [v| | |]; cbn [bind]; try discriminate.
  destruct (scan_line io (length l) 0 (removelast l) vc false (-1) v)
    as [[[v' vc']|]| | |] eqn:E; cbn [bind]; try discriminate.
  - apply IH.
  - exfalso. revert E. apply scan_line_valid. lia.
Qed.

End ScanFacts.

Lemma plain_scan_line {F : Type} (io : stdio F) (len j : nat) (cs vc : text)
    (prev : bool) (id : Z) (v : @raw_vertex F) :
  plain (scan_line io len j cs vc prev id v).
Proof.
  revert j vc prev id v. induction cs as [|c cs IH]; intros j vc prev id v;
    cbn [scan_line]; [exact I|].
  destruct (Nat.leb 128 (nat_of_ascii c)); [exact I|].
  apply plain_bind.
  { destruct (numeric c); [|exact I].
    now destruct (Nat.leb 255 (length vc)). }
  intros vc1 _. destruct (_ || _); [|apply IH].
  destruct (4 <? id + 1)%Z; [exact I|].
  apply plain_bind; [|intros; apply IH].
  unfold store_coord. now destruct (id + 1)%Z as [|[[|[]|]|[|[]|]|]|].
Qed.

Lemma plain_parse_lines {F : Type} (io : stdio F) (lines : list text) (i : nat)
    (vc : text) (out : list (@raw_vertex F)) :
  plain (parse_lines io lines i vc out).
Proof.
  revert i vc out. induction lines as [|l lines IH]; intros i vc out;
    cbn [parse_lines]; [exact I|].
  destruct (strstr l (txt "v ")); [|apply IH].
  apply plain_bind; [apply plain_load|]. intros v _.
  apply plain_bind; [apply plain_scan_line|].
  intros [[v' vc']|] _; [apply IH | exact I].
Qed.

(** X24. [extractVerticesFromObjFile] never takes its exit for a file that
    is not valid: whatever the file, the call either is undefined or
    returns an array (not NULL) with its count, and the name with [.obj] in
    the caller's buffer.  The exit needs a sixth number on a line, and the
    fourth number of a line is already written outside the three
    coordinates of the vertex. *)
Theorem extract_never_rejects {F : Type} (io : stdio F)
    (fs : text -> option text) (name : text) (extent : nat) :
  extractVerticesFromObjFile io fs name extent = Undef \/
  exists out n,
    extractVerticesFromObjFile io fs name extent
    = Ret (name ++ txt ".obj", Some out, n).
Proof.
  unfold extractVerticesFromObjFile.
  destruct (Nat.ltb extent (length name + 5)); [now left|].
  destruct (fs (name ++ txt ".obj")) as [content|]; [|now left].
  cbv zeta.
  match goal with |- context [parse_lines io ?l ?i ?vc ?out] =>
    pose proof (@parse_lines_valid _ io l i vc out) as H;
    pose proof (@plain_parse_lines _ io l i vc out) as Hp;
    destruct (parse_lines io l i vc out) as [[out'|]| | |]
  end; cbn [bind]; try contradiction; try (now left).
  right. eauto.
Qed.

(** ** Writing a hull and reading its vertices back *)

Lemma numeric_char (c : ascii) :
  numeric c = true ->
  Nat.leb 128 (nat_of_ascii c) = false /\ line_char c = true.
Proof.
  destruct c as [[|] [|] [|] [|] [|] [|] [|] [|]]; vm_compute;
    intros H; try discriminate H; split; reflexivity.
Qed.

Lemma line_char_facts (c : ascii) :
  line_char c = true ->
  Ascii.eqb c newline = false /\ Ascii.eqb c Ascii.zero = false /\
  Ascii.eqb "v" c = false.
Proof.
  destruct c as [[|] [|] [|] [|] [|] [|] [|] [|]]; vm_compute;
    intros H; try discriminate H; repeat split; reflexivity.
Qed.

Lemma isdigit_numeric (c : ascii) : isdigit c = true -> numeric c = true.
Proof. unfold numeric. now intros ->. Qed.

Lemma fmt_u_digits (n : nat) : Forall (fun c => line_char c = true) (fmt_u n).
Proof.
  unfold fmt_u. generalize (Nat.to_uint n). intros d.
  induction d; cbn [DecimalString.NilEmpty.string_of_uint txt
                    list_ascii_of_string]; constructor; auto.
Qed.

Lemma tokenb_true (t : text) :
  tokenb t = true ->
  t <> [] /\ Forall (fun c => numeric c = true) t /\ length t <= 80.
Proof.
  unfold tokenb. destruct t as [|c t]; [discriminate|].
  intros H. apply andb_true_iff in H. destruct H as [H1 H2].
  split; [discriminate|]. split; [now apply forallb_forall, Forall_forall in H1
                                  || (apply Forall_forall, forallb_forall; exact H1)|].
  now apply Nat.leb_le.
Qed.

Lemma token_line_chars (t : text) :
  Forall (fun c => numeric c = true) t -> Forall (fun c => line_char c = true) t.
Proof.
  intros H. eapply Forall_impl; [|exact H]. intros c Hc.
  now apply numeric_char.
Qed.

(** *** fgets and the strings of the lines *)

Lemma fgets_all_line (n : nat) (cur body rest : text) :
  Forall (fun c => Ascii.eqb c newline = false) body ->
  length cur + length body + 1 <= n - 1 ->
  fgets_all n cur (body ++ newline :: rest)
  = (cur ++ body ++ [newline]) :: fgets_all n [] rest.
Proof.
  revert cur. induction body as [|c body IH]; intros cur Hb Hl.
  - cbn [app fgets_all]. now rewrite Ascii.eqb_refl.
  - cbn [app fgets_all]. inversion Hb as [|? ? Hc Hb']. subst.
    rewrite Hc. cbn [orb]. cbn [length] in Hl.
    destruct (Nat.eqb_spec (length (cur ++ [c])) (n - 1)) as [E | _].
    { rewrite length_app in E. cbn [length] in E. lia. }
    rewrite IH; auto.
    + now rewrite <- app_assoc.
    + rewrite length_app. cbn [length]. lia.
Qed.

Lemma fgets_all_lines (bodies : list text) :
  Forall (fun body => Forall (fun c => Ascii.eqb c newline = false) body /\
                      length body + 1 <= 255) bodies ->
  fgets_all 256 [] (concat (map (fun body => body ++ [newline]) bodies))
  = map (fun body => body ++ [newline]) bodies.
Proof.
  induction 1 as [|body bodies [Hb Hl] _ IH]; [reflexivity|].
  cbn [map concat]. rewrite <- app_assoc. cbn [app].
  rewrite fgets_all_line by (auto; cbn [length]; lia).
  cbn [app]. now rewrite IH.
Qed.

Lemma c_str_clean (t : text) :
  Forall (fun c => Ascii.eqb c Ascii.zero = false) t -> c_str t = t.
Proof.
  induction 1 as [|c t Hc _ IH]; [reflexivity|].
  cbn [c_str]. now rewrite Hc, IH.
Qed.

Lemma strstr_no_v (t : text) :
  Forall (fun c => Ascii.eqb "v" c = false) t -> strstr t (txt "v ") = false.
Proof.
  unfold txt. cbn [list_ascii_of_string].
  induction 1 as [|c t Hc _ IH]; [reflexivity|].
  cbn [strstr prefixb]. now rewrite Hc, IH.
Qed.

(** *** One line with a vertex *)

Section ScanLine.
Context {F : Type}.
Variable io : stdio F.

Lemma scan_skip (c : ascii) (cs vc : text) (id : Z) (v : @raw_vertex F) :
  numeric c = false -> Nat.leb 128 (nat_of_ascii c) = false -> cs <> [] ->
  scan io (c :: cs) vc false id v = scan io cs vc false id v.
Proof.
  intros Hn Ha Hcs. cbn [scan]. rewrite Ha, Hn. cbn [bind andb orb].
  destruct cs; [now contradiction Hcs | reflexivity].
Qed.

Lemma scan_token (t cs vc : text) (prev : bool) (id : Z) (v : @raw_vertex F) :
  Forall (fun c => numeric c = true) t -> cs <> [] ->
  length vc + length t <= 255 ->
  scan io (t ++ cs) vc prev id v
  = scan io cs (vc ++ t) (match t with [] => prev | _ => true end) id v.
Proof.
  intros Ht Hcs. revert vc prev.
  induction Ht as [|c t Hc _ IH]; intros vc prev Hl.
  - cbn [app]. now rewrite app_nil_r.
  - cbn [app scan]. destruct (numeric_char c Hc) as [-> _]. rewrite Hc.
    cbn [length] in Hl.
    destruct (Nat.leb_spec 255 (length vc)); [lia|]. cbn [bind negb].
    rewrite andb_false_r. cbn [orb].
    assert (match t ++ cs with [] => true | _ :: _ => false end = false) as ->.
    { destruct t; [|reflexivity].
      destruct cs; [now contradiction Hcs | reflexivity]. }
    rewrite IH by (rewrite length_app; cbn [length]; lia).
    rewrite <- app_assoc. cbn [app]. now destruct t.
Qed.

Lemma scan_sep (c : ascii) (cs vc : text) (id : Z) (v : @raw_vertex F) :
  numeric c = false -> Nat.leb 128 (nat_of_ascii c) = false ->
  (id + 1 <= 4)%Z ->
  scan io (c :: cs) vc true id v
  = (v' <- store_coord v (id + 1) (atof io vc) ;;
     scan io cs [] false (id + 1) v').
Proof.
  intros Hn Ha Hid. cbn [scan]. rewrite Ha, Hn. cbn [bind andb negb orb].
  destruct (Z.ltb_spec 4 (id + 1)); [lia | reflexivity].
Qed.

Lemma scan_end (c : ascii) (vc : text) (prev : bool) (id : Z)
    (v : @raw_vertex F) :
  numeric c = true -> length vc < 255 -> (id + 1 <= 4)%Z ->
  scan io [c] vc prev id v
  = (v' <- store_coord v (id + 1) (atof io (vc ++ [c])) ;;
     Ret (Some (v', []))).
Proof.
  intros Hn Hl Hid. cbn [scan]. destruct (numeric_char c Hn) as [-> _].
  rewrite Hn. destruct (Nat.leb_spec 255 (length vc)); [lia|].
  cbn [bind]. rewrite orb_true_r.
  destruct (Z.ltb_spec 4 (id + 1)); [lia | reflexivity].
Qed.

Lemma scan_vertex (a b c : text) (v : @raw_vertex F) :
  tokenb a = true -> tokenb b = true -> tokenb c = true ->
  scan io (txt "v " ++ a ++ txt " " ++ b ++ txt " " ++ c) [] false (-1) v
  = Ret (Some ((Some (atof io a), Some (atof io b), Some (atof io c)), [])).
Proof.
  intros Ha Hb Hc.
  apply tokenb_true in Ha, Hb, Hc.
  destruct Ha as (Ha0 & Ha & Hal), Hb as (Hb0 & Hb & Hbl),
    Hc as (Hc0 & Hc & Hcl).
  destruct (exists_last Hc0) as (c0 & cl & ->).
  apply Forall_app in Hc. destruct Hc as [Hc Hcl'].
  inversion Hcl' as [|? ? Hcl'' _]. subst.
  rewrite length_app in Hcl. cbn [length] in Hcl.
  cbn [txt list_ascii_of_string app].
  rewrite scan_skip; [|reflexivity|reflexivity|discriminate].
  rewrite scan_skip; [|reflexivity|reflexivity|].
  2: { destruct a; discriminate. }
  rewrite scan_token; [|exact Ha|discriminate|cbn [length]; lia].
  cbn [app]. destruct a as [|a0 a]; [congruence|].
  rewrite scan_sep; [|reflexivity|reflexivity|lia].
  change (-1 + 1)%Z with 0%Z. cbn [store_coord bind].
  rewrite scan_token; [|exact Hb|discriminate|cbn [length]; lia].
  cbn [app]. destruct b as [|b0 b]; [congruence|].
  rewrite scan_sep; [|reflexivity|reflexivity|lia].
  change (0 + 1)%Z with 1%Z. cbn [store_coord bind fst snd].
  rewrite scan_token; [|exact Hc|discriminate|cbn [length]; lia].
  cbn [app].
  rewrite scan_end; [|exact Hcl''|lia|lia].
  change (1 + 1)%Z with 2%Z. cbn [store_coord bind fst snd].
  reflexivity.
Qed.

(** *** The lines of a file *)

Lemma fprintf_obj_body (p : @obj_print F) :
  fprintf_obj io p = line_body io p ++ [newline].
Proof.
  unfold line_body.
  destruct p; cbn [fprintf_obj]; rewrite ?app_assoc;
    now rewrite removelast_last.
Qed.

Ltac chars :=
  repeat first
    [ apply Forall_app; split
    | apply fmt_u_digits
    | apply token_line_chars; assumption
    | apply Forall_cons; [reflexivity|]
    | apply Forall_nil ].

Lemma line_body_chars (p : @obj_print F) :
  line_ok io p = true ->
  match p with
  | print_v _ _ _ | print_vn _ _ _ =>
      exists rest, line_body io p = "v"%char :: rest /\
                   Forall (fun c => line_char c = true) rest
  | _ => Forall (fun c => line_char c = true) (line_body io p)
  end.
Proof.
  unfold line_ok, line_body. intros H. apply andb_true_iff in H.
  destruct H as [_ H].
  destruct p as [|x y z|x y z|v1 n1 v2 n2 v3 n3]; cbn [fprintf_obj].
  - cbn. chars.
  - apply andb_true_iff in H. destruct H as [H Hz].
    apply andb_true_iff in H. destruct H as [Hx Hy].
    apply tokenb_true in Hx, Hy, Hz.
    destruct Hx as (_ & Hx & _), Hy as (_ & Hy & _), Hz as (_ & Hz & _).
    rewrite !app_assoc, removelast_last, <- !app_assoc.
    cbn [txt list_ascii_of_string app]. eexists. split; [reflexivity|].
    chars.
  - apply andb_true_iff in H. destruct H as [H Hz].
    apply andb_true_iff in H. destruct H as [Hx Hy].
    apply tokenb_true in Hx, Hy, Hz.
    destruct Hx as (_ & Hx & _), Hy as (_ & Hy & _), Hz as (_ & Hz & _).
    rewrite !app_assoc, removelast_last, <- !app_assoc.
    cbn [txt list_ascii_of_string app]. eexists. split; [reflexivity|].
    chars.
  - rewrite !app_assoc, removelast_last, <- !app_assoc.
    cbn [txt list_ascii_of_string app]. chars.
Qed.

Lemma line_body_clean (p : @obj_print F) :
  line_ok io p = true ->
  Forall (fun c => Ascii.eqb c newline = false) (line_body io p) /\
  Forall (fun c => Ascii.eqb c Ascii.zero = false) (line_body io p) /\
  length (line_body io p) + 1 <= 255.
Proof.
  intros H. pose proof (line_body_chars p H) as Hc.
  assert (Forall (fun c => Ascii.eqb c newline = false /\
                           Ascii.eqb c Ascii.zero = false) (line_body io p))
    as Hf.
  { assert (forall t, Forall (fun c => line_char c = true) t ->
                      Forall (fun c => Ascii.eqb c newline = false /\
                                       Ascii.eqb c Ascii.zero = false) t)
      as Himp.
    { intros t Ht. eapply Forall_impl; [|exact Ht]. intros c Hl.
      apply line_char_facts in Hl. tauto. }
    destruct p as [|x y z|x y z|v1 n1 v2 n2 v3 n3].
    - now apply Himp.
    - destruct Hc as (rest & -> & Hc).
      apply Forall_cons; [split; reflexivity | now apply Himp].
    - destruct Hc as (rest & -> & Hc).
      apply Forall_cons; [split; reflexivity | now apply Himp].
    - now apply Himp. }
  split; [|split].
  - eapply Forall_impl; [|exact Hf]. now intros c [? ?].
  - eapply Forall_impl; [|exact Hf]. now intros c [? ?].
  - unfold line_ok in H. apply andb_true_iff in H. destruct H as [H _].
    apply Nat.leb_le in H. rewrite fprintf_obj_body, length_app in H.
    exact H.
Qed.

Lemma line_strstr (p : @obj_print F) :
  line_ok io p = true -> strstr (fprintf_obj io p) (txt "v ") = vline p.
Proof.
  intros H. pose proof (line_body_chars p H) as Hc.
  assert (forall t, Forall (fun c => line_char c = true) t ->
                    strstr (t ++ [newline]) (txt "v ") = false) as Hno.
  { intros t Ht. apply strstr_no_v. apply Forall_app. split.
    - eapply Forall_impl; [|exact Ht]. intros c Hl.
      now apply line_char_facts in Hl.
    - now constructor. }
  destruct p as [|x y z|x y z|v1 n1 v2 n2 v3 n3]; cbn [vline].
  - rewrite fprintf_obj_body. now apply Hno.
  - cbn [fprintf_obj txt list_ascii_of_string app strstr prefixb].
    reflexivity.
  - destruct Hc as (rest & E & Hr). rewrite fprintf_obj_body, E.
    cbn [app strstr]. rewrite (Hno rest Hr), orb_false_r.
    unfold line_body in E.
    cbn [fprintf_obj txt list_ascii_of_string app removelast] in E.
    inversion E as [E']. reflexivity.
  - rewrite fprintf_obj_body. now apply Hno.
Qed.

Lemma lines_ok_Forall (ps : list (@obj_print F)) :
  obj_lines_ok io ps = true -> Forall (fun p => line_ok io p = true) ps.
Proof.
  unfold obj_lines_ok. intros H. apply Forall_forall. intros p Hp.
  eapply forallb_forall in H; [|exact Hp]. exact H.
Qed.

Lemma read_lines (ps : list (@obj_print F)) :
  Forall (fun p => line_ok io p = true) ps ->
  map c_str (fgets_all 256 [] (flat_map (fprintf_obj io) ps))
  = map (fprintf_obj io) ps.
Proof.
  intros H.
  assert (map (fprintf_obj io) ps
          = map (fun body => body ++ [newline]) (map (line_body io) ps)) as E.
  { rewrite map_map. apply map_ext. intros p. apply fprintf_obj_body. }
  rewrite flat_map_concat_map. unfold text in *. rewrite E.
  pose proof (@fgets_all_lines (map (line_body io) ps)) as G. unfold text in G.
  rewrite G; clear G.
  - rewrite !map_map. apply map_ext_in. intros p Hp.
    eapply Forall_forall in H; [|exact Hp].
    apply line_body_clean in H. destruct H as (Hn & Hz & _).
    apply c_str_clean. apply Forall_app. split; [exact Hz | now constructor].
  - apply Forall_forall. intros body Hb. apply in_map_iff in Hb.
    destruct Hb as (p & <- & Hp). eapply Forall_forall in H; [|exact Hp].
    apply line_body_clean in H. tauto.
Qed.

Lemma count_lines (ps : list (@obj_print F)) :
  Forall (fun p => line_ok io p = true) ps ->
  length (filter (fun l => strstr l (txt "v ")) (map (fprintf_obj io) ps))
  = length (obj_vertex_lines ps).
Proof.
  induction 1 as [|p ps Hp _ IH]; [reflexivity|].
  cbn [map filter]. rewrite (line_strstr p Hp).
  destruct p; cbn [vline]; try exact IH.
  cbn [length]. exact (f_equal S IH).
Qed.

Lemma parse_written (ps : list (@obj_print F)) (done : list (@raw_vertex F)) :
  Forall (fun p => line_ok io p = true) ps ->
  parse_lines io (map (fprintf_obj io) ps) (length done) []
    (done ++ repeat (None, None, None) (length (obj_vertex_lines ps)))
  = Ret (Some (done ++ map (reread io) (obj_vertex_lines ps))).
Proof.
  intros H. revert done. induction H as [|p ps Hp _ IH]; intros done.
  - cbn. reflexivity.
  - cbn [map parse_lines]. rewrite (line_strstr p Hp).
    destruct p as [|x y z|x y z|v1 n1 v2 n2 v3 n3]; cbn [vline];
      try (exact (IH done)).
    unfold obj_vertex_lines. cbn [flat_map app length repeat map].
    fold (obj_vertex_lines ps).
    unfold load. rewrite nth_error_app2, Nat.sub_diag by lia.
    cbn [nth_error bind].
    rewrite scan_line_scan.
    2: { rewrite fprintf_obj_body, removelast_last, length_app.
         cbn [length]. lia. }
    assert (removelast (fprintf_obj io (print_v x y z))
            = txt "v " ++ fmt_f io x ++ txt " " ++ fmt_f io y ++ txt " " ++
              fmt_f io z) as ->.
    { cbn [fprintf_obj]. rewrite !app_assoc, removelast_last.
      now rewrite <- !app_assoc. }
    unfold line_ok in Hp. apply andb_true_iff in Hp. destruct Hp as [_ Hp].
    apply andb_true_iff in Hp. destruct Hp as [Hp Hz].
    apply andb_true_iff in Hp. destruct Hp as [Hx Hy].
    rewrite scan_vertex by assumption. cbn [bind].
    unfold set_row.
    rewrite firstn_app, Nat.sub_diag, firstn_all. cbn [firstn].
    rewrite app_nil_r.
    replace (S (length done)) with (length done + 1) by lia.
    rewrite skipn_app, skipn_all2 by lia.
    replace (length done + 1 - length done) with 1 by lia.
    cbn [skipn app].
    specialize (IH (done ++ [reread io (x, y, z)])).
    rewrite length_app in IH. cbn [length] in IH.
    rewrite Nat.add_1_r in IH.
    rewrite <- !app_assoc in IH. cbn [app] in IH.
    replace (length done + 1) with (S (length done)) by lia.
    exact IH.
Qed.

End ScanLine.

(** X25. Reading back what [convhull_3d_export_obj] has written: when
    every "%f" of the file is a number as the reader takes it (digits,
    signs, a point, an exponent; at most 80 characters) and every line
    fits the 256 bytes of [line], [extractVerticesFromObjFile] on the same
    name returns one vertex per [v] line of the file, in order, each
    coordinate the [atof] of what "%f" wrote for it, and leaves the name
    with [.obj] in the caller's buffer; the [vn] and [f] lines are
    skipped. *)
Theorem obj_round_trip {F : Type} {SF : Scalar F} (io : stdio F)
    (writable : text -> bool) (fs : text -> option text)
    (vertices : list (@ch_vertex F)) (nVert : nat) (faces : list nat)
    (nFaces : nat) (flag : Z) (name : text) (extent : nat)
    (path content : text) (ps : list (@obj_print F)) :
  convhull_3d_export_obj io writable vertices nVert faces nFaces flag name
  = Ret (path, content) ->
  export_obj_prints vertices nVert faces nFaces flag = Ret ps ->
  obj_lines_ok io ps = true ->
  fs path = Some content ->
  length name + 5 <= extent ->
  extractVerticesFromObjFile io fs name extent
  = Ret (path, Some (map (reread io) (obj_vertex_lines ps)),
         length (obj_vertex_lines ps)).
Proof.
  intros He Hps Hok Hfs Hext.
  unfold convhull_3d_export_obj, path_of in He.
  destruct (Nat.ltb 255 _); [discriminate|]. cbn [bind] in He.
  destruct (writable _); [|discriminate].
  rewrite Hps in He. cbn [bind] in He. injection He as E1 E2.
  subst path content.
  unfold extractVerticesFromObjFile.
  destruct (Nat.ltb_spec extent (length name + 5)); [lia|].
  assert (fs (name ++ txt ".obj") = Some (flat_map (fprintf_obj io) ps))
    as -> by exact Hfs.
  cbv zeta.
  apply lines_ok_Forall in Hok.
  rewrite (@read_lines _ io ps Hok), (@count_lines _ io ps Hok).
  pose proof (@parse_written _ io ps [] Hok) as Hp. cbn [length app] in Hp.
  rewrite Hp. reflexivity.
Qed.

Lemma obj_round_trip_witness :
  let vertices := firstn 4 tetra_in in
  let faces := [1; 2; 3;  0; 3; 2;  0; 1; 3;  0; 2; 1] in
  exists path content,
    convhull_3d_export_obj float_stdio (fun _ => true) vertices 4 faces 4 0
      (txt "hull") = Ret (path, content) /\
    extractVerticesFromObjFile float_stdio (fun _ => Some content)
      (txt "hull") 16
    = Ret (path,
           Some (map (fun v => (Some (fst (fst v)), Some (snd (fst v)),
                                Some (snd v))) vertices),
           4).
Proof.
  intros vertices faces.
  set (ps := match export_obj_prints vertices 4 faces 4 0 with
             | Ret ps => ps
             | _ => []
             end).
  assert (export_obj_prints vertices 4 faces 4 0 = Ret ps) as Hps
    by (vm_compute; reflexivity).
  exists (txt "hull.obj"), (flat_map (fprintf_obj float_stdio) ps). split.
  - vm_compute. reflexivity.
  - etransitivity.
    + apply (@obj_round_trip _ float_scalar float_stdio (fun _ => true)
               (fun _ => Some (flat_map (fprintf_obj float_stdio) ps))
               vertices 4 faces 4 0%Z (txt "hull") 16
               (txt "hull.obj") (flat_map (fprintf_obj float_stdio) ps) ps).
      * vm_compute. reflexivity.
      * exact Hps.
      * vm_compute. reflexivity.
      * reflexivity.
      * vm_compute. lia.
    + vm_compute. reflexivity.
Defined.

(** ** One line of a file *)

Lemma fgets_all_last (cur body : text) (cl : ascii) :
  Forall (fun c => Ascii.eqb c newline = false) body ->
  length cur + length body + 1 <= 255 ->
  fgets_all 256 cur (body ++ [cl]) = [cur ++ body ++ [cl]].
Proof.
  revert cur. induction body as [|c body IH]; intros cur Hb Hl.
  - cbn [app fgets_all].
    destruct (_ || _); [reflexivity|]. now destruct cur.
  - cbn [app fgets_all]. inversion Hb as [|? ? Hc Hb']. subst.
    rewrite Hc. cbn [orb]. cbn [length] in Hl.
    destruct (Nat.eqb_spec (length (cur ++ [c])) (256 - 1)) as [E | _].
    { rewrite length_app in E. cbn [length] in E. lia. }
    rewrite IH; auto.
    + now rewrite <- app_assoc.
    + rewrite length_app. cbn [length]. lia.
Qed.

Section OneLine.
Context {F : Type}.
Variable io : stdio F.

Lemma token_clean (t : text) :
  tokenb t = true ->
  Forall (fun c => Ascii.eqb c newline = false /\
                   Ascii.eqb c Ascii.zero = false) t /\
  t <> [] /\ length t <= 80.
Proof.
  intros H. apply tokenb_true in H. destruct H as (H0 & H & Hl).
  split; [|auto]. eapply Forall_impl; [|exact H]. intros c Hc.
  apply numeric_char in Hc. destruct Hc as [_ Hc].
  apply line_char_facts in Hc. tauto.
Qed.

(* a file of one line: the string in [line] and the number of vertices *)
Lemma one_line (fs : text -> option text) (name : text) (extent : nat)
    (body : text) (cl : ascii) :
  Forall (fun c => Ascii.eqb c newline = false /\
                   Ascii.eqb c Ascii.zero = false) body ->
  Ascii.eqb cl Ascii.zero = false ->
  length body + 1 <= 255 ->
  strstr (body ++ [cl]) (txt "v ") = true ->
  fs (name ++ txt ".obj") = Some (body ++ [cl]) ->
  length name + 5 <= extent ->
  extractVerticesFromObjFile io fs name extent
  = (r <- (r <- scan io body [] false (-1) (None, None, None) ;;
           match r with
           | None => Ret None
           | Some (v', _) => Ret (Some [v'])
           end) ;;
     match r with
     | None => Ret (name ++ txt ".obj", None, 0)
     | Some out' => Ret (name ++ txt ".obj", Some out', 1)
     end).
Proof.
  intros Hb Hcl Hl Hv Hfs Hext. unfold extractVerticesFromObjFile.
  destruct (Nat.ltb_spec extent (length name + 5)); [lia|].
  rewrite Hfs. cbv zeta.
  rewrite (@fgets_all_last [] body cl);
    [|eapply Forall_impl; [|exact Hb]; now intros c [? ?] | cbn [length]; lia].
  cbn [app map].
  rewrite c_str_clean.
  2: { apply Forall_app. split; [|now constructor].
       eapply Forall_impl; [|exact Hb]. now intros c [? ?]. }
  cbn [filter]. rewrite Hv. cbn [length repeat parse_lines]. rewrite Hv.
  cbn [load nth_error bind].
  rewrite scan_line_scan
    by (rewrite removelast_last, length_app; cbn [length]; lia).
  rewrite removelast_last.
  destruct (scan io body [] false (-1) (None, None, None))
    as [[[v' vc']|]| | |]; reflexivity.
Qed.

End OneLine.

(** X26. Two edges of the reader, on a file of one line that fits the 256
    bytes of [line], with numbers [a], [b], [c], [d].  The last character
    of a line is never read: for the line [v a b c] followed by one more
    character the vertex is [(a, b, c)] whatever that character is, the
    newline or, in a file that ends without one, the last digit of the third
    number, which is then lost.  And for the line [v a b c d] the fourth
    number is written outside the vertex: the call is undefined. *)
Theorem extract_line_edges {F : Type} (io : stdio F)
    (fs : text -> option text) (name : text) (extent : nat)
    (a b c d : text) (cl : ascii) :
  tokenb a = true -> tokenb b = true -> tokenb c = true -> tokenb d = true ->
  Ascii.eqb cl Ascii.zero = false ->
  length a + length b + length c + length d + 7 <= 255 ->
  length name + 5 <= extent ->
  (fs (name ++ txt ".obj")
   = Some (txt "v " ++ a ++ txt " " ++ b ++ txt " " ++ c ++ [cl]) ->
   extractVerticesFromObjFile io fs name extent
   = Ret (name ++ txt ".obj",
          Some [(Some (atof io a), Some (atof io b), Some (atof io c))], 1)) /\
  (fs (name ++ txt ".obj")
   = Some (txt "v " ++ a ++ txt " " ++ b ++ txt " " ++ c ++ txt " " ++ d ++
           [newline]) ->
   extractVerticesFromObjFile io fs name extent = Undef).
Proof.
  intros Ha Hb Hc Hd Hcl Hfit Hext.
  destruct (@token_clean a Ha) as (Ca & _ & La).
  destruct (@token_clean b Hb) as (Cb & _ & Lb).
  destruct (@token_clean c Hc) as (Cc & _ & Lc).
  destruct (@token_clean d Hd) as (Cd & Hd0 & Ld).
  split; intros Hfs.
  - rewrite (@one_line _ io fs name extent
               (txt "v " ++ a ++ txt " " ++ b ++ txt " " ++ c) cl).
    + rewrite scan_vertex by assumption. reflexivity.
    + repeat (apply Forall_app; split); auto;
        repeat constructor.
    + exact Hcl.
    + rewrite !length_app. cbn [txt list_ascii_of_string length]. lia.
    + reflexivity.
    + rewrite Hfs. now rewrite <- !app_assoc.
    + exact Hext.
  - rewrite (@one_line _ io fs name extent
               (txt "v " ++ a ++ txt " " ++ b ++ txt " " ++ c ++ txt " " ++ d)
               newline).
    + apply tokenb_true in Ha, Hb, Hc, Hd.
      destruct Ha as (Ha0 & Ha & _), Hb as (Hb0 & Hb & _),
        Hc as (Hc0 & Hc & _), Hd as (_ & Hd & _).
      destruct (exists_last Hd0) as (d0 & dl & ->).
      apply Forall_app in Hd. destruct Hd as [Hd Hdl].
      inversion Hdl as [|? ? Hdl' _]. subst.
      rewrite length_app in Ld. cbn [length] in Ld.
      cbn [txt list_ascii_of_string app].
      rewrite scan_skip; [|reflexivity|reflexivity|discriminate].
      rewrite scan_skip; [|reflexivity|reflexivity|].
      2: { destruct a; discriminate. }
      rewrite scan_token; [|exact Ha|discriminate|cbn [length]; lia].
      cbn [app]. destruct a as [|a0 a]; [congruence|].
      rewrite scan_sep; [|reflexivity|reflexivity|lia].
      change (-1 + 1)%Z with 0%Z. cbn [store_coord bind].
      rewrite scan_token; [|exact Hb|discriminate|cbn [length]; lia].
      cbn [app]. destruct b as [|b0 b]; [congruence|].
      rewrite scan_sep; [|reflexivity|reflexivity|lia].
      change (0 + 1)%Z with 1%Z. cbn [store_coord bind fst snd].
      rewrite scan_token; [|exact Hc|discriminate|cbn [length]; lia].
      cbn [app]. destruct c as [|c1 c]; [congruence|].
      rewrite scan_sep; [|reflexivity|reflexivity|lia].
      change (1 + 1)%Z with 2%Z. cbn [store_coord bind fst snd].
      rewrite scan_token; [|exact Hd|discriminate|cbn [length]; lia].
      cbn [app].
      rewrite scan_end; [|exact Hdl'|lia|lia].
      reflexivity.
    + repeat (apply Forall_app; split); auto;
        repeat constructor.
    + reflexivity.
    + rewrite !length_app. cbn [txt list_ascii_of_string length]. lia.
    + reflexivity.
    + rewrite Hfs. now rewrite <- !app_assoc.
    + exact Hext.
Qed.

Lemma extract_line_edges_witness :
  extractVerticesFromObjFile float_stdio
    (fun _ => Some (txt "v 1.5 -2 34")) (txt "hull") 16
  = Ret (txt "hull.obj",
         Some [(Some (atof_float (txt "1.5")), Some (atof_float (txt "-2")),
                Some (atof_float (txt "3")))], 1) /\
  extractVerticesFromObjFile float_stdio
    (fun _ => Some (txt "v 1.5 -2 3 4" ++ [newline])) (txt "hull") 16
  = Undef.
Proof.
  destruct (@extract_line_edges _ float_stdio
              (fun _ => Some (txt "v 1.5 -2 34")) (txt "hull") 16
              (txt "1.5") (txt "-2") (txt "3") (txt "4") "4"%char)
    as [H1 _]; try reflexivity; try (vm_compute; lia).
  destruct (@extract_line_edges _ float_stdio
              (fun _ => Some (txt "v 1.5 -2 3 4" ++ [newline])) (txt "hull") 16
              (txt "1.5") (txt "-2") (txt "3") (txt "4") "4"%char)
    as [_ H2]; try reflexivity; try (vm_compute; lia).
  split; [apply H1 | apply H2]; reflexivity.
Defined.

(** ** The two builders on the same vertices *)

Lemma builders_agree_witness :
  exists r,
    convhull_nd_build (glibc false) (Some (flat_vertices tetra_in))
      (length tetra_in) 3 true true lcg_rand = Ret r /\
    same_outcome (convhull_3d_build (glibc false) (Some tetra_in) lcg_rand)
                 (Ret r).
Proof.
  eexists. split.
  - vm_compute. reflexivity.
  - match goal with |- same_outcome _ (Ret ?r) =>
      assert (convhull_nd_build (glibc false) (Some (flat_vertices tetra_in))
                (length tetra_in) 3 true true lcg_rand = Ret r) as E
        by (vm_compute; reflexivity)
    end.
    rewrite <- E.
    apply (@builders_agree _ float_scalar (glibc false) tetra_in true true
             lcg_rand).
    discriminate.
Defined.

(** ** Points in a thin slab *)

Lemma narrow_span (points : list (list R)) (j : nat) (x w : R) :
  (- lit 223 11 <= x)%R -> (x + w <= lit 223 11)%R -> (0 <= w)%R ->
  Forall (fun row => (x <= rd row j <= x + w)%R) points ->
  (span_of points j <= w)%R.
Proof.
  intros Hlo Hhi Hw Hf. unfold span_of.
  pose proof (span_fold j points (- lit 223 11) (lit 223 11)) as H.
  cbv zeta in H.
  destruct (fold_left _ points _) as [max_p min_p]. cbn [fst snd] in H.
  destruct H as (_ & H4 & H5). cbn [fsub R_scalar].
  assert (max_p <= x + w)%R.
  { destruct H4 as [-> | (row & Hin & ->)]; [lra|].
    eapply Forall_forall in Hf; [|exact Hin]. lra. }
  assert (x <= min_p)%R.
  { destruct H5 as [-> | (row & Hin & ->)]; [lra|].
    eapply Forall_forall in Hf; [|exact Hin]. lra. }
  lra.
Qed.

(** X28. Over the reals, working points that lie along some axis [j] in a
    slab [x <= p_j <= x + w] thinner than [1e-7] (the threshold of the span
    test, the literal [0.0000001f], is just above it), between the
    sentinels [-2.23e13] and [2.23e13], are rejected by both builders with
    their exception, before any facet is built. *)
Theorem flat_points_rejected (env : libc R) (j : nat) (x w : R) :
  (0 <= w < lit 1 (-7))%R ->
  (- lit 223 11 <= x)%R -> (x + w <= lit 223 11)%R ->
  (forall vs rand points,
     3 <= length vs ->
     add_noise env 3 (length vs)
       (fun i j => v <- load vs i ;; Ret (vget v j)) rand = Ret points ->
     j < 3 ->
     Forall (fun row => (x <= rd row j <= x + w)%R) points ->
     convhull_3d_build env (Some vs) rand
     = Throw "input does not span all 3 dimensions") /\
  (forall vs nVert d want_cf want_df rand points,
     d <= CONVHULL_ND_MAX_DIMENSIONS -> d + 1 <= nVert ->
     add_noise env d nVert (fun i j => load vs (i * d + j)) rand = Ret points ->
     j < d ->
     Forall (fun row => (x <= rd row j <= x + w)%R) points ->
     convhull_nd_build env (Some vs) nVert d want_cf want_df rand
     = Throw "input vertices do not span all 'd' dimensions").
Proof.
  intros [Hw0 Hw] Hlo Hhi.
  assert (forall points,
            Forall (fun row => (x <= rd row j <= x + w)%R) points ->
            fltb (span_of points j) min_span = true) as Hs.
  { intros points Hf. cbn [fltb R_scalar]. apply Rltb_is_true.
    pose proof (@narrow_span points j x w Hlo Hhi Hw0 Hf).
    pose proof threshold_above_noise. lra. }
  split.
  - intros vs rand points Hn Hp Hj Hf.
    eapply small_span_3d; eauto.
  - intros vs nVert d want_cf want_df rand points Hd Hn Hp Hj Hf.
    eapply small_span_nd; eauto.
Qed.

Lemma flat_points_rejected_witness :
  convhull_3d_build (glibc false)
    (Some [(0, 0, 0); (1, 0, 0); (0, 1, 0); (1, 1, 0)]%R) zero_rand
  = Throw "input does not span all 3 dimensions".
Proof.
  pose proof noise_small as Ht. pose proof sentinel_large as Hl.
  destruct (@flat_points_rejected (glibc false) 2 0 0) as [H _];
    [lra | lra | lra |].
  apply (H [(0, 0, 0); (1, 0, 0); (0, 1, 0); (1, 1, 0)]%R zero_rand
           [[0; 0; 0; 1]; [1; 0; 0; 1]; [0; 1; 0; 1]; [1; 1; 0; 1]]%R).
  - cbn [length]. lia.
  - unfold add_noise, zero_rand.
    cbn [length seq mapM load nth_error bind Nat.mul Nat.add app vget fst snd].
    rewrite !perturb_zero. reflexivity.
  - lia.
  - repeat constructor; cbn [rd nth]; lra.
Defined.
